(** * Scheduling core of the agent gateway: a shallow embedding

    The development follows the TypeScript sources one module at a time:

    - [JsMap]            the insertion-ordered [Map<string, V>] of the runtime;
    - [CommandQueue]     src/process/command-queue.ts (named lanes, session lanes);
    - [Coalesce]         src/agents/request-coalescing.ts;
    - [SubagentRegistry] src/agents/subagent-registry.ts;
    - [TimerManager]     src/infra/timer-manager.ts;
    - [AuthPreload]      src/agents/auth-preload.ts.

    JavaScript numbers that hold counters, priorities and millisecond
    timestamps are integers in every use below and are modelled by [Z].
    Module-level [let]/[const] state becomes a record that every operation
    threads explicitly.  Promise continuations (the part of an [async] body
    after its [await]) are separate transitions, fired by an event of the
    trace, because the runtime runs them in a later turn of the event loop. *)

From Stdlib Require Import ZArith Lia Bool Sorted Ascii.
From stdpp Require Import base list strings gmap pretty.

Local Open Scope string_scope.
Local Open Scope list_scope.
Local Open Scope Z_scope.

(** ** The runtime's [Map]: string keys, insertion order, one entry per key *)

Module JsMap.
Section ops.
Context {V : Type}.
Implicit Types (m : list (string * V)) (k : string) (v : V).

(** [Map.prototype.get] *)
Fixpoint get k m : option V :=
  match m with
  | [] => None
  | (k', v') :: m' => if String.eqb k k' then Some v' else get k m'
  end.

(** [Map.prototype.set]: an existing key keeps its position, a new key goes last. *)
Fixpoint set k v m : list (string * V) :=
  match m with
  | [] => [(k, v)]
  | (k', v') :: m' =>
      if String.eqb k k' then (k', v) :: m' else (k', v') :: set k v m'
  end.

(** [Map.prototype.delete] *)
Fixpoint delete k m : list (string * V) :=
  match m with
  | [] => []
  | (k', v') :: m' =>
      if String.eqb k k' then m' else (k', v') :: delete k m'
  end.

Definition has k m : bool :=
  match get k m with Some _ => true | None => false end.

Definition keys m : list string := map fst m.
Definition values m : list V := map snd m.
Definition size m : nat := length m.

(** Well-formedness: a key occurs once. *)
Definition wf m : Prop := NoDup (keys m).

Lemma get_set_eq k v m : get k (set k v m) = Some v.
Proof.
  induction m as [|[k' v'] m IH]; simpl.
  - by rewrite String.eqb_refl.
  - destruct (String.eqb k k') eqn:E; simpl; rewrite E; auto.
Qed.

Lemma get_set_ne k k' v m : k <> k' -> get k' (set k v m) = get k' m.
Proof.
  intros Hne. induction m as [|[k2 v2] m IH]; simpl.
  - destruct (String.eqb k' k) eqn:E; auto.
    apply String.eqb_eq in E. congruence.
  - destruct (String.eqb k k2) eqn:E; simpl.
    + apply String.eqb_eq in E. subst k2.
      destruct (String.eqb k' k) eqn:E2; auto.
      apply String.eqb_eq in E2. congruence.
    + by rewrite IH.
Qed.

Lemma get_None_keys k m : get k m = None <-> k ∉ keys m.
Proof.
  induction m as [|[k' v'] m IH]; simpl.
  - split; [intros _; apply not_elem_of_nil | done].
  - destruct (String.eqb k k') eqn:E.
    + apply String.eqb_eq in E. subst. split; [done|].
      intros H. exfalso. apply H. left.
    + apply String.eqb_neq in E. rewrite IH. split.
      * intros H Hin. apply elem_of_cons in Hin as [?|?]; auto.
      * intros H Hin. apply H. by right.
Qed.

Lemma get_Some_keys k v m : get k m = Some v -> k ∈ keys m.
Proof.
  intros H. destruct (decide (k ∈ keys m)) as [|Hn]; [done|].
  apply get_None_keys in Hn. congruence.
Qed.

Lemma keys_set_present k v m :
  k ∈ keys m -> keys (set k v m) = keys m.
Proof.
  induction m as [|[k' v'] m IH]; simpl; intros Hin.
  - by apply elem_of_nil in Hin.
  - destruct (String.eqb k k') eqn:E; simpl; [done|].
    apply String.eqb_neq in E.
    apply elem_of_cons in Hin as [?|Hin]; [done|].
    f_equal. by apply IH.
Qed.

Lemma keys_set_absent k v m :
  k ∉ keys m -> keys (set k v m) = keys m ++ [k].
Proof.
  induction m as [|[k' v'] m IH]; simpl; intros Hn; [done|].
  destruct (String.eqb k k') eqn:E; simpl.
  - apply String.eqb_eq in E. subst. exfalso. apply Hn. left.
  - f_equal. apply IH. intros Hin. apply Hn. by right.
Qed.

Lemma wf_set k v m : wf m -> wf (set k v m).
Proof.
  unfold wf. intros Hnd.
  destruct (decide (k ∈ keys m)) as [Hin|Hn].
  - by rewrite keys_set_present.
  - rewrite keys_set_absent by done.
    apply NoDup_app. split; [done|]. split.
    + intros x Hx Hx'. apply list_elem_of_singleton in Hx'. by subst.
    + apply NoDup_singleton.
Qed.

Lemma keys_delete_subseteq k m : keys (delete k m) ⊆ keys m.
Proof.
  induction m as [|[k' v'] m IH]; simpl; [done|].
  destruct (String.eqb k k'); simpl.
  - intros x Hx. by right.
  - intros x Hx. apply elem_of_cons in Hx as [->|Hx]; [left|right; auto].
Qed.

Lemma wf_delete k m : wf m -> wf (delete k m).
Proof.
  unfold wf. induction m as [|[k' v'] m IH]; simpl; intros Hnd; [done|].
  apply NoDup_cons in Hnd as [Hn Hnd].
  destruct (String.eqb k k'); simpl; [done|].
  apply NoDup_cons. split; [|auto].
  intros Hin. apply Hn. by apply (keys_delete_subseteq k m).
Qed.

Lemma get_delete_eq k m : wf m -> get k (delete k m) = None.
Proof.
  unfold wf. induction m as [|[k' v'] m IH]; simpl; intros Hnd; [done|].
  apply NoDup_cons in Hnd as [Hn Hnd].
  destruct (String.eqb k k') eqn:E; simpl.
  - apply String.eqb_eq in E. subst. by apply get_None_keys.
  - rewrite E. auto.
Qed.

Lemma get_delete_ne k k' m : k <> k' -> get k' (delete k m) = get k' m.
Proof.
  intros Hne. induction m as [|[k2 v2] m IH]; simpl; [done|].
  destruct (String.eqb k k2) eqn:E; simpl.
  - apply String.eqb_eq in E. subst k2.
    destruct (String.eqb k' k) eqn:E2; auto.
    apply String.eqb_eq in E2. congruence.
  - by rewrite IH.
Qed.

(** Number of values that satisfy a boolean test. *)
Fixpoint count (f : V -> bool) m : nat :=
  match m with
  | [] => 0%nat
  | (_, v') :: m' => ((if f v' then 1 else 0) + count f m')%nat
  end.

Lemma count_set_present (f : V -> bool) k v v0 m :
  get k m = Some v0 ->
  (count f (set k v m) + (if f v0 then 1 else 0)
   = count f m + (if f v then 1 else 0))%nat.
Proof.
  induction m as [|[k' v'] m IH]; simpl; [done|].
  destruct (String.eqb k k') eqn:E; simpl.
  - intros [= ->]. lia.
  - intros H. specialize (IH H). lia.
Qed.

Lemma count_set_absent (f : V -> bool) k v m :
  get k m = None ->
  count f (set k v m) = (count f m + (if f v then 1 else 0))%nat.
Proof.
  induction m as [|[k' v'] m IH]; simpl; [intros _; lia|].
  destruct (String.eqb k k') eqn:E; simpl; [done|].
  intros H. rewrite (IH H). lia.
Qed.

Lemma Forall_values_set (P : V -> Prop) k v m :
  Forall (fun kv => P kv.2) m -> P v -> Forall (fun kv => P kv.2) (set k v m).
Proof.
  intros Hall Hv. induction m as [|[k' v'] m IH]; simpl.
  - by repeat constructor.
  - apply Forall_cons in Hall as [Hh Hall].
    destruct (String.eqb k k'); constructor; auto.
Qed.

Lemma Forall_values_get (P : V -> Prop) k v m :
  Forall (fun kv => P kv.2) m -> get k m = Some v -> P v.
Proof.
  intros Hall. induction m as [|[k' v'] m IH]; simpl; [done|].
  apply Forall_cons in Hall as [Hh Hall].
  destruct (String.eqb k k'); [by intros [= <-]|auto].
Qed.

Lemma size_set_absent k v m : k ∉ keys m -> size (set k v m) = S (size m).
Proof.
  unfold size. induction m as [|[k' v'] m IH]; simpl; intros Hn; [done|].
  destruct (String.eqb k k') eqn:E; simpl.
  - apply String.eqb_eq in E. subst. exfalso. apply Hn. left.
  - f_equal. apply IH. intros Hin. apply Hn. by right.
Qed.

Lemma size_delete_present k v m :
  get k m = Some v -> S (size (delete k m)) = size m.
Proof.
  unfold size. induction m as [|[k' v'] m IH]; simpl; [done|].
  destruct (String.eqb k k'); [done|]. intros H. simpl. f_equal. by apply IH.
Qed.

End ops.
End JsMap.

(** ** src/process/command-queue.ts and src/process/lanes.ts *)

Module CommandQueue.

(** Caller code.  The tasks and the [onWait] callbacks are closures of the
    callers, named by numbers.  A task is an [async] function: its body
    starts inside the drain that takes its entry and it settles in a later
    turn of the event loop, which is the event [LaneTaskSettled] or
    [SessionTaskSettled] of a trace.  An [onWait] callback is called inside
    the drain, without a [try]: it returns or it throws, and an exception
    travels up through the drain to the function that called it.  A callback
    does not call back into the module.  The clock is read once per event.
    Logging ([diag], [logLaneEnqueue], [logLaneDequeue]) leaves the state
    alone and is not modelled. *)

(** [CommandLane.Main] and the [TaskPriority] enum of lanes.ts
    (lower number = higher priority). *)
Definition Main : string := "main".
Definition Urgent : Z := 0.
Definition Normal : Z := 1.
Definition Background : Z := 2.

(** [QueueEntry].  [task] and [onWait] are caller closures, named by a number.
    The [resolve]/[reject] pair of an entry belongs to the promise that the
    enqueue call returns; the entry stands for that promise. *)
Record QueueEntry := mkEntry {
  task : nat;
  enqueuedAt : Z;
  warnAfterMs : Z;
  priority : Z;
  sessionKey : option string;
  onWait : option nat;
}.

#[global] Instance QueueEntry_eq_dec : EqDecision QueueEntry.
Proof. solve_decision. Defined.

Record LaneState := mkLane {
  lane : string;
  buckets : list (list QueueEntry);   (* index = priority level *)
  active : Z;
  activeTaskIds : gset nat;
  maxConcurrent : Z;
  draining : bool;
}.

Record SessionLaneState := mkSessionLane {
  sl_sessionKey : string;
  queue : list QueueEntry;
  sl_active : bool;
}.

(** The module-level state.  [laneRunning] and [sessionRunning] are the
    suspended [async] bodies of [drainLane] and [drainSessionLane]: tasks that
    were started and whose [await entry.task()] has not returned yet.  The
    source keeps them implicitly, as pending continuations of the runtime. *)
Record QueueState := mkState {
  lanes : list (string * LaneState);
  nextTaskId : nat;
  sessionLanes : list (string * SessionLaneState);
  maxConcurrentSessions : Z;
  activeSessionCount : Z;
  laneRunning : list (string * nat * QueueEntry);
  sessionRunning : list (string * QueueEntry);
}.

Definition initialState : QueueState :=
  {| lanes := []; nextTaskId := 1; sessionLanes := [];
     maxConcurrentSessions := 16; activeSessionCount := 0;
     laneRunning := []; sessionRunning := [] |}.

Definition createEmptyBuckets : list (list QueueEntry) := [[]; []; []].

Definition withLanes (s : QueueState) (ls : list (string * LaneState)) : QueueState :=
  {| lanes := ls; nextTaskId := nextTaskId s; sessionLanes := sessionLanes s;
     maxConcurrentSessions := maxConcurrentSessions s;
     activeSessionCount := activeSessionCount s;
     laneRunning := laneRunning s; sessionRunning := sessionRunning s |}.

Definition withSessionLanes (s : QueueState) (ls : list (string * SessionLaneState)) : QueueState :=
  {| lanes := lanes s; nextTaskId := nextTaskId s; sessionLanes := ls;
     maxConcurrentSessions := maxConcurrentSessions s;
     activeSessionCount := activeSessionCount s;
     laneRunning := laneRunning s; sessionRunning := sessionRunning s |}.

(** [getLaneState]: the lane of that name, created on first use. *)
Definition getLaneState (name : string) (s : QueueState) : LaneState * QueueState :=
  match JsMap.get name (lanes s) with
  | Some existing => (existing, s)
  | None =>
      let created := {| lane := name; buckets := createEmptyBuckets; active := 0;
                        activeTaskIds := ∅; maxConcurrent := 1; draining := false |} in
      (created, withLanes s (JsMap.set name created (lanes s)))
  end.

Definition getSessionLaneState (key : string) (s : QueueState)
  : SessionLaneState * QueueState :=
  match JsMap.get key (sessionLanes s) with
  | Some existing => (existing, s)
  | None =>
      let created := {| sl_sessionKey := key; queue := []; sl_active := false |} in
      (created, withSessionLanes s (JsMap.set key created (sessionLanes s)))
  end.

(** [getTotalQueued]: [buckets.reduce((sum, b) => sum + b.length, 0)] *)
Definition totalQueued (bs : list (list QueueEntry)) : nat :=
  foldl (fun sum bucket => (sum + length bucket)%nat) 0%nat bs.

Definition getTotalQueued (st : LaneState) : nat := totalQueued (buckets st).

(** The loop of [dequeueHighestPriority]: the first non-empty bucket gives up
    its first entry ([bucket.shift()]). *)
Fixpoint dequeueBuckets (bs : list (list QueueEntry))
  : option QueueEntry * list (list QueueEntry) :=
  match bs with
  | [] => (None, [])
  | [] :: rest =>
      let '(r, rest') := dequeueBuckets rest in (r, [] :: rest')
  | (e :: bucket) :: rest => (Some e, bucket :: rest)
  end.

Definition withBuckets (st : LaneState) (bs : list (list QueueEntry)) : LaneState :=
  {| lane := lane st; buckets := bs; active := active st;
     activeTaskIds := activeTaskIds st; maxConcurrent := maxConcurrent st;
     draining := draining st |}.

Definition dequeueHighestPriority (st : LaneState) : option QueueEntry * LaneState :=
  let '(r, bs) := dequeueBuckets (buckets st) in (r, withBuckets st bs).

(** [Math.min(Math.max(0, entry.priority), state.buckets.length - 1)] *)
Definition bucketIndex (nbuckets : nat) (p : Z) : Z :=
  Z.min (Z.max 0 p) (Z.of_nat nbuckets - 1).

(** [enqueueWithPriority]: [state.buckets[bucketIndex].push(entry)].  The
    bucket array always has three elements, so the index is in range. *)
Definition enqueueWithPriority (st : LaneState) (entry : QueueEntry) : LaneState :=
  let i := Z.to_nat (bucketIndex (length (buckets st)) (priority entry)) in
  withBuckets st (alter (fun bucket => bucket ++ [entry]) i (buckets st)).

(** *** Named lanes *)

Definition startedLane (st : LaneState) (taskId : nat) : LaneState :=
  {| lane := lane st; buckets := buckets st; active := active st + 1;
     activeTaskIds := {[taskId]} ∪ activeTaskIds st;
     maxConcurrent := maxConcurrent st; draining := draining st |}.

Definition settledLane (st : LaneState) (taskId : nat) : LaneState :=
  {| lane := lane st; buckets := buckets st; active := active st - 1;
     activeTaskIds := activeTaskIds st ∖ {[taskId]};
     maxConcurrent := maxConcurrent st; draining := draining st |}.

Definition withDraining (st : LaneState) (b : bool) : LaneState :=
  {| lane := lane st; buckets := buckets st; active := active st;
     activeTaskIds := activeTaskIds st; maxConcurrent := maxConcurrent st;
     draining := b |}.

Definition withMaxConcurrent (st : LaneState) (n : Z) : LaneState :=
  {| lane := lane st; buckets := buckets st; active := active st;
     activeTaskIds := activeTaskIds st; maxConcurrent := n;
     draining := draining st |}.

(** *** Strings *)

(** Strings are the UTF-8 encodings of the program's strings.
    [String.prototype.trim] strips the white space and line terminator code
    points of ECMAScript from both ends; these are their encodings. *)
Definition utf8 (bytes : list nat) : string :=
  String.string_of_list_ascii (map Ascii.ascii_of_nat bytes).

Definition whiteSpace : list string :=
  [utf8 [9]; utf8 [10]; utf8 [11]; utf8 [12]; utf8 [13]; utf8 [32];
   utf8 [194; 160];                                     (* U+00A0 *)
   utf8 [225; 154; 128];                                (* U+1680 *)
   utf8 [226; 128; 128]; utf8 [226; 128; 129]; utf8 [226; 128; 130];
   utf8 [226; 128; 131]; utf8 [226; 128; 132]; utf8 [226; 128; 133];
   utf8 [226; 128; 134]; utf8 [226; 128; 135]; utf8 [226; 128; 136];
   utf8 [226; 128; 137]; utf8 [226; 128; 138];          (* U+2000 .. U+200A *)
   utf8 [226; 128; 168]; utf8 [226; 128; 169];          (* U+2028, U+2029 *)
   utf8 [226; 128; 175];                                (* U+202F *)
   utf8 [226; 129; 159];                                (* U+205F *)
   utf8 [227; 128; 128];                                (* U+3000 *)
   utf8 [239; 187; 191]]%nat.                           (* U+FEFF *)

(** [s] without its prefix [w], when [w] is a prefix of [s]. *)
Fixpoint stripPrefix (w s : string) : option string :=
  match w, s with
  | EmptyString, _ => Some s
  | String a w', String b s' => if Ascii.eqb a b then stripPrefix w' s' else None
  | String _ _, EmptyString => None
  end.

(** [s] without one leading element of [ws], when it starts with one. *)
Fixpoint stripOne (ws : list string) (s : string) : option string :=
  match ws with
  | [] => None
  | w :: ws' =>
      match stripPrefix w s with
      | Some s' => Some s'
      | None => stripOne ws' s
      end
  end.

(** Strip leading elements of [ws]; every round removes at least one byte,
    so the length of the string is fuel enough. *)
Fixpoint stripAll (fuel : nat) (ws : list string) (s : string) : string :=
  match fuel with
  | O => s
  | S fuel' =>
      match stripOne ws s with
      | Some s' => stripAll fuel' ws s'
      | None => s
      end
  end.

Definition trimStart (s : string) : string :=
  stripAll (String.length s) whiteSpace s.

Definition trimEnd (s : string) : string :=
  String.rev (stripAll (String.length s) (map String.rev whiteSpace) (String.rev s)).

(** [String.prototype.trim] *)
Definition trim (s : string) : string := trimEnd (trimStart s).

(** [lane.trim() || CommandLane.Main] *)
Definition cleanedLane (name : string) : string :=
  let t := trim name in if String.eqb t "" then Main else t.

(** [EnqueueOptions]; [None] is an absent option. *)
Record EnqueueOptions := mkOpts {
  opt_warnAfterMs : option Z;
  opt_priority : option Z;
  opt_onWait : option nat;
}.

Record SessionEnqueueOptions := mkSessionOpts {
  sopt_sessionKey : string;
  sopt_warnAfterMs : option Z;
  sopt_priority : option Z;
  sopt_onWait : option nat;
}.

Definition clearCommandLane (name : string) (s : QueueState) : QueueState :=
  let cleaned := cleanedLane name in
  match JsMap.get cleaned (lanes s) with
  | None => s
  | Some st => withLanes s (JsMap.set cleaned (withBuckets st createEmptyBuckets) (lanes s))
  end.

Definition withSessionCap (s : QueueState) (cap : Z) : QueueState :=
  {| lanes := lanes s; nextTaskId := nextTaskId s; sessionLanes := sessionLanes s;
     maxConcurrentSessions := cap;
     activeSessionCount := activeSessionCount s;
     laneRunning := laneRunning s; sessionRunning := sessionRunning s |}.

(** The insertion loop of [enqueueSessionTask]: [splice(i, 0, entry)] at the
    first [i] with [queue[i].priority > priority], else [push]. *)
Fixpoint insertByPriority (q : list QueueEntry) (entry : QueueEntry)
  : list QueueEntry :=
  match q with
  | [] => [entry]
  | e :: q' =>
      if priority entry <? priority e then entry :: e :: q'
      else e :: insertByPriority q' entry
  end.

Definition clearSessionLane (key : string) (s : QueueState) : QueueState :=
  match JsMap.get key (sessionLanes s) with
  | None => s
  | Some st =>
      withSessionLanes s
        (JsMap.set key {| sl_sessionKey := sl_sessionKey st; queue := [];
                          sl_active := sl_active st |} (sessionLanes s))
  end.

(** *** The drains *)

(** How a call completes: it returns, or it throws.  What a function did to
    the module state before it threw stays done. *)
Inductive Completion := Returned | Threw.

Section WithCallbacks.

(** [onWaitThrows cb waitedMs queuedAhead]: does the call
    [cb(waitedMs, queuedAhead)] of the caller's [onWait] closure [cb]
    throw? *)
Variable onWaitThrows : nat -> Z -> nat -> bool.

(** [if (waitedMs >= entry.warnAfterMs) { entry.onWait?.(waitedMs, queuedAhead); ... }]
    at time [now], in both drains: is the callback called, and does it
    throw? *)
Definition waitCallThrows (entry : QueueEntry) (now : Z) (queuedAhead : nat) : bool :=
  let waitedMs := now - enqueuedAt entry in
  (warnAfterMs entry <=? waitedMs) &&
  match onWait entry with
  | Some cb => onWaitThrows cb waitedMs queuedAhead
  | None => false
  end.

(** The [while] loop of [pump] at time [now].  Every iteration removes one
    queued entry, so [getTotalQueued] iterations are enough; that is the fuel
    [pump] passes.  The loop threads the lane object, [nextTaskId] and the
    started tasks.  An entry whose [onWait] throws has left its bucket and
    is not started: the exception leaves the loop. *)
Fixpoint pumpLoop (fuel : nat) (name : string) (now : Z) (st : LaneState) (tid : nat)
    (started : list (string * nat * QueueEntry))
  : LaneState * nat * list (string * nat * QueueEntry) * Completion :=
  match fuel with
  | O => (st, tid, started, Returned)
  | S fuel' =>
      if (active st <? maxConcurrent st) && (0 <? getTotalQueued st)%nat then
        match dequeueHighestPriority st with
        | (None, _) => (st, tid, started, Returned)
        | (Some entry, st') =>
            if waitCallThrows entry now (getTotalQueued st') then
              (st', tid, started, Threw)
            else
              pumpLoop fuel' name now (startedLane st' tid) (S tid)
                       (started ++ [(name, tid, entry)])
        end
      else (st, tid, started, Returned)
  end.

(** [pump]: run the loop on the lane object, then [state.draining = false],
    which an exception skips. *)
Definition pump (name : string) (now : Z) (s : QueueState) : QueueState * Completion :=
  match JsMap.get name (lanes s) with
  | None => (s, Returned)
  | Some st =>
      let '(st', tid, started, completion) :=
        pumpLoop (getTotalQueued st) name now st (nextTaskId s) [] in
      let st'' :=
        match completion with
        | Returned => withDraining st' false
        | Threw => st'
        end in
      ({| lanes := JsMap.set name st'' (lanes s);
          nextTaskId := tid; sessionLanes := sessionLanes s;
          maxConcurrentSessions := maxConcurrentSessions s;
          activeSessionCount := activeSessionCount s;
          laneRunning := laneRunning s ++ started;
          sessionRunning := sessionRunning s |}, completion)
  end.

Definition drainLane (name : string) (now : Z) (s : QueueState)
  : QueueState * Completion :=
  let '(st, s1) := getLaneState name s in
  if draining st then (s1, Returned)
  else pump name now
         (withLanes s1 (JsMap.set name (withDraining st true) (lanes s1))).

(** [enqueueCommandInLane(lane, task, opts)], called at time [now].  The
    entry is enqueued and the lane drained inside the executor of the
    promise that the function returns: an exception of the drain rejects
    that promise, and the function returns. *)
Definition enqueueCommandInLane (name : string) (tsk : nat) (opts : EnqueueOptions)
    (now : Z) (s : QueueState) : QueueState :=
  let cleaned := cleanedLane name in
  let warnAfter := default 2000 (opt_warnAfterMs opts) in
  let prio := default Normal (opt_priority opts) in
  let '(st, s1) := getLaneState cleaned s in
  let entry := {| task := tsk; enqueuedAt := now; warnAfterMs := warnAfter;
                  priority := prio; sessionKey := None;
                  onWait := opt_onWait opts |} in
  let s2 := withLanes s1 (JsMap.set cleaned (enqueueWithPriority st entry) (lanes s1)) in
  (drainLane cleaned now s2).1.

(** [state.active -= 1; state.activeTaskIds.delete(taskId); pump()]: the
    statements that the [try] arm (after [await entry.task()]) and the
    [catch] arm of the task body in [pump] share. *)
Definition settleAndPump (name : string) (taskId : nat) (st : LaneState)
    (now : Z) (s : QueueState) : QueueState * Completion :=
  pump name now (withLanes s (JsMap.set name (settledLane st taskId) (lanes s))).

(** The body of task [taskId] of the lane resumes at time [now]:
    [entry.task()] fulfilled, or it rejected.  When it fulfilled, the [try]
    arm runs; if its [pump()] throws, the [catch] arm runs as well, with a
    second [state.active -= 1] and a second [pump()].  When it rejected,
    only the [catch] arm runs.  An exception that leaves the [catch] arm
    rejects the promise of the body, which nobody holds. *)
Definition laneTaskSettled (name : string) (taskId : nat) (entry : QueueEntry)
    (fulfilled : bool) (now : Z) (s : QueueState) : QueueState :=
  if bool_decide ((name, taskId, entry) ∈ laneRunning s) then
    match JsMap.get name (lanes s) with
    | None => s
    | Some st =>
        let s0 :=
          {| lanes := lanes s;
             nextTaskId := nextTaskId s; sessionLanes := sessionLanes s;
             maxConcurrentSessions := maxConcurrentSessions s;
             activeSessionCount := activeSessionCount s;
             laneRunning :=
               filter (fun r => r <> (name, taskId, entry)) (laneRunning s);
             sessionRunning := sessionRunning s |} in
        match settleAndPump name taskId st now s0 with
        | (s1, Returned) => s1
        | (s1, Threw) =>
            if fulfilled then
              match JsMap.get name (lanes s1) with
              | None => s1
              | Some st1 => (settleAndPump name taskId st1 now s1).1
              end
            else s1
        end
    end
  else s.

(** [setCommandLaneConcurrency]: [Math.max(1, Math.floor(maxConcurrent))],
    then [drainLane], whose exception reaches the caller. *)
Definition setCommandLaneConcurrency (name : string) (n : Z) (now : Z)
    (s : QueueState) : QueueState * Completion :=
  let cleaned := cleanedLane name in
  let '(st, s1) := getLaneState cleaned s in
  drainLane cleaned now
    (withLanes s1 (JsMap.set cleaned (withMaxConcurrent st (Z.max 1 n)) (lanes s1))).

(** [drainSessionLane] at time [now]: the three guards in source order,
    then [queue.shift()], [state.active = true], [activeSessionCount += 1],
    the [onWait] call when it is due, and the start of the task.  When
    [onWait] throws the lane stays flagged and counted, and no task was
    started. *)
Definition drainSessionLane (key : string) (now : Z) (s : QueueState)
  : QueueState * Completion :=
  let '(st, s1) := getSessionLaneState key s in
  if sl_active st then (s1, Returned)
  else
    match queue st with
    | [] => (s1, Returned)
    | entry :: rest =>
        if maxConcurrentSessions s1 <=? activeSessionCount s1 then (s1, Returned)
        else
          let activated :=
            JsMap.set key
              {| sl_sessionKey := sl_sessionKey st; queue := rest;
                 sl_active := true |}
              (sessionLanes s1) in
          if waitCallThrows entry now (length rest) then
            ({| lanes := lanes s1; nextTaskId := nextTaskId s1;
                sessionLanes := activated;
                maxConcurrentSessions := maxConcurrentSessions s1;
                activeSessionCount := activeSessionCount s1 + 1;
                laneRunning := laneRunning s1;
                sessionRunning := sessionRunning s1 |}, Threw)
          else
            ({| lanes := lanes s1; nextTaskId := nextTaskId s1;
                sessionLanes := activated;
                maxConcurrentSessions := maxConcurrentSessions s1;
                activeSessionCount := activeSessionCount s1 + 1;
                laneRunning := laneRunning s1;
                sessionRunning := sessionRunning s1 ++ [(key, entry)] |}, Returned)
    end.

(** The [for ... of sessionLanes] loop of [drainWaitingSessions].  The loop
    walks the keys in insertion order and reads each lane object when it
    reaches it; [drainSessionLane] changes no lane but the one it is given.
    An exception of [drainSessionLane] leaves the loop. *)
Fixpoint drainWaitingLoop (ks : list string) (now : Z) (s : QueueState)
  : QueueState * Completion :=
  match ks with
  | [] => (s, Returned)
  | k :: ks' =>
      match JsMap.get k (sessionLanes s) with
      | Some st =>
          if negb (sl_active st) && (0 <? length (queue st))%nat then
            match drainSessionLane k now s with
            | (s', Threw) => (s', Threw)
            | (s', Returned) =>
                if maxConcurrentSessions s' <=? activeSessionCount s' then (s', Returned)
                else drainWaitingLoop ks' now s'
            end
          else drainWaitingLoop ks' now s
      | None => drainWaitingLoop ks' now s
      end
  end.

Definition drainWaitingSessions (now : Z) (s : QueueState) : QueueState * Completion :=
  if maxConcurrentSessions s <=? activeSessionCount s then (s, Returned)
  else drainWaitingLoop (JsMap.keys (sessionLanes s)) now s.

(** [setMaxConcurrentSessions]: [Math.max(1, Math.floor(max))]; waiting
    sessions are drained only when the cap grew. *)
Definition setMaxConcurrentSessions (n : Z) (now : Z) (s : QueueState)
  : QueueState * Completion :=
  let previous := maxConcurrentSessions s in
  let s1 := withSessionCap s (Z.max 1 n) in
  if previous <? maxConcurrentSessions s1 then drainWaitingSessions now s1
  else (s1, Returned).

(** [enqueueSessionTask(task, opts)], called at time [now].  A falsy
    [sessionKey] (the empty string) falls back to the main lane.  As in
    [enqueueCommandInLane], an exception of the drain rejects the returned
    promise. *)
Definition enqueueSessionTask (tsk : nat) (opts : SessionEnqueueOptions)
    (now : Z) (s : QueueState) : QueueState :=
  let key := sopt_sessionKey opts in
  let warnAfter := default 2000 (sopt_warnAfterMs opts) in
  let prio := default Normal (sopt_priority opts) in
  let onW := sopt_onWait opts in
  if String.eqb key "" then
    enqueueCommandInLane Main tsk
      {| opt_warnAfterMs := Some warnAfter; opt_priority := Some prio;
         opt_onWait := onW |} now s
  else
    let '(st, s1) := getSessionLaneState key s in
    let entry := {| task := tsk; enqueuedAt := now; warnAfterMs := warnAfter;
                    priority := prio; sessionKey := Some key; onWait := onW |} in
    let st' := {| sl_sessionKey := sl_sessionKey st;
                  queue := insertByPriority (queue st) entry;
                  sl_active := sl_active st |} in
    (drainSessionLane key now
       (withSessionLanes s1 (JsMap.set key st' (sessionLanes s1)))).1.

(** [state.active = false; activeSessionCount -= 1;
    drainSessionLane(sessionKey); drainWaitingSessions()]: the statements
    that the [try] arm and the [catch] arm of the task body in
    [drainSessionLane] share. *)
Definition settleAndDrain (key : string) (st : SessionLaneState) (now : Z)
    (s : QueueState) : QueueState * Completion :=
  let st' := {| sl_sessionKey := sl_sessionKey st; queue := queue st;
                sl_active := false |} in
  match drainSessionLane key now
          {| lanes := lanes s; nextTaskId := nextTaskId s;
             sessionLanes := JsMap.set key st' (sessionLanes s);
             maxConcurrentSessions := maxConcurrentSessions s;
             activeSessionCount := activeSessionCount s - 1;
             laneRunning := laneRunning s;
             sessionRunning := sessionRunning s |} with
  | (s1, Returned) => drainWaitingSessions now s1
  | (s1, Threw) => (s1, Threw)
  end.

(** The body of the task [entry] started on lane [key] resumes at time
    [now].  When the task fulfilled and a drain of the [try] arm throws, the
    [catch] arm runs as well: the lane is reset and the counter decremented
    a second time, and both drains run again. *)
Definition sessionTaskSettled (key : string) (entry : QueueEntry)
    (fulfilled : bool) (now : Z) (s : QueueState) : QueueState :=
  if bool_decide ((key, entry) ∈ sessionRunning s) then
    match JsMap.get key (sessionLanes s) with
    | None => s
    | Some st =>
        let s0 :=
          {| lanes := lanes s; nextTaskId := nextTaskId s;
             sessionLanes := sessionLanes s;
             maxConcurrentSessions := maxConcurrentSessions s;
             activeSessionCount := activeSessionCount s;
             laneRunning := laneRunning s;
             sessionRunning :=
               filter (fun r => r <> (key, entry)) (sessionRunning s) |} in
        match settleAndDrain key st now s0 with
        | (s1, Returned) => s1
        | (s1, Threw) =>
            if fulfilled then
              match JsMap.get key (sessionLanes s1) with
              | None => s1
              | Some st1 => (settleAndDrain key st1 now s1).1
              end
            else s1
        end
    end
  else s.

(** *** Traces: what the callers and the event loop can do to the module *)

(** Every event carries the time at which it happens; the settling of a task
    carries whether the task fulfilled or rejected. *)
Inductive Event :=
| EnqueueCommandInLane (name : string) (tsk : nat) (opts : EnqueueOptions) (now : Z)
| LaneTaskSettled (name : string) (taskId : nat) (entry : QueueEntry)
    (fulfilled : bool) (now : Z)
| SetCommandLaneConcurrency (name : string) (n : Z) (now : Z)
| ClearCommandLane (name : string)
| EnqueueSessionTask (tsk : nat) (opts : SessionEnqueueOptions) (now : Z)
| SessionTaskSettled (key : string) (entry : QueueEntry) (fulfilled : bool) (now : Z)
| SetMaxConcurrentSessions (n : Z) (now : Z)
| ClearSessionLane (key : string).

Definition step (s : QueueState) (ev : Event) : QueueState :=
  match ev with
  | EnqueueCommandInLane name tsk opts now => enqueueCommandInLane name tsk opts now s
  | LaneTaskSettled name taskId entry fulfilled now =>
      laneTaskSettled name taskId entry fulfilled now s
  | SetCommandLaneConcurrency name n now => (setCommandLaneConcurrency name n now s).1
  | ClearCommandLane name => clearCommandLane name s
  | EnqueueSessionTask tsk opts now => enqueueSessionTask tsk opts now s
  | SessionTaskSettled key entry fulfilled now =>
      sessionTaskSettled key entry fulfilled now s
  | SetMaxConcurrentSessions n now => (setMaxConcurrentSessions n now s).1
  | ClearSessionLane key => clearSessionLane key s
  end.

Definition run (evs : list Event) (s : QueueState) : QueueState :=
  foldl step s evs.

End WithCallbacks.

(** *** The scheduler when no callback throws *)

(** With [onWait] callbacks that return, no function of the module throws
    and the clock matters to the enqueued entries only.  The drains are then
    the functions below, which leave out the callback and the completion;
    [returning_step] and [returning_run] prove that this is what the drains
    above do when no callback throws.  The invariants that need callbacks to
    return are established on these functions. *)

(** The [while] loop of [pump].  Every iteration removes one queued entry, so
    [getTotalQueued] iterations are enough; that is the fuel [pump] passes.
    The loop threads the lane object, [nextTaskId] and the started tasks. *)
Fixpoint quietPumpLoop (fuel : nat) (name : string) (st : LaneState) (tid : nat)
    (started : list (string * nat * QueueEntry))
  : LaneState * nat * list (string * nat * QueueEntry) :=
  match fuel with
  | O => (st, tid, started)
  | S fuel' =>
      if (active st <? maxConcurrent st) && (0 <? getTotalQueued st)%nat then
        match dequeueHighestPriority st with
        | (None, _) => (st, tid, started)
        | (Some entry, st') =>
            quietPumpLoop fuel' name (startedLane st' tid) (S tid)
                     (started ++ [(name, tid, entry)])
        end
      else (st, tid, started)
  end.

(** [pump]: run the loop on the lane object, then [state.draining = false]. *)
Definition quietPump (name : string) (s : QueueState) : QueueState :=
  match JsMap.get name (lanes s) with
  | None => s
  | Some st =>
      let '(st', tid, started) :=
        quietPumpLoop (getTotalQueued st) name st (nextTaskId s) [] in
      {| lanes := JsMap.set name (withDraining st' false) (lanes s);
         nextTaskId := tid; sessionLanes := sessionLanes s;
         maxConcurrentSessions := maxConcurrentSessions s;
         activeSessionCount := activeSessionCount s;
         laneRunning := laneRunning s ++ started;
         sessionRunning := sessionRunning s |}
  end.

Definition quietDrainLane (name : string) (s : QueueState) : QueueState :=
  let '(st, s1) := getLaneState name s in
  if draining st then s1
  else quietPump name (withLanes s1 (JsMap.set name (withDraining st true) (lanes s1))).

(** [enqueueCommandInLane(lane, task, opts)], called at time [now]. *)
Definition quietEnqueueCommandInLane (name : string) (tsk : nat) (opts : EnqueueOptions)
    (now : Z) (s : QueueState) : QueueState :=
  let cleaned := cleanedLane name in
  let warnAfter := default 2000 (opt_warnAfterMs opts) in
  let prio := default Normal (opt_priority opts) in
  let '(st, s1) := getLaneState cleaned s in
  let entry := {| task := tsk; enqueuedAt := now; warnAfterMs := warnAfter;
                  priority := prio; sessionKey := None;
                  onWait := opt_onWait opts |} in
  let s2 := withLanes s1 (JsMap.set cleaned (enqueueWithPriority st entry) (lanes s1)) in
  quietDrainLane cleaned s2.

(** The code after [await entry.task()] in [pump], for the task [taskId] of
    the lane (both the [try] and the [catch] arm change the state alike). *)
Definition quietLaneTaskSettled (name : string) (taskId : nat) (entry : QueueEntry)
    (s : QueueState) : QueueState :=
  if bool_decide ((name, taskId, entry) ∈ laneRunning s) then
    match JsMap.get name (lanes s) with
    | None => s
    | Some st =>
        quietPump name
          {| lanes := JsMap.set name (settledLane st taskId) (lanes s);
             nextTaskId := nextTaskId s; sessionLanes := sessionLanes s;
             maxConcurrentSessions := maxConcurrentSessions s;
             activeSessionCount := activeSessionCount s;
             laneRunning :=
               filter (fun r => r <> (name, taskId, entry)) (laneRunning s);
             sessionRunning := sessionRunning s |}
    end
  else s.

(** [setCommandLaneConcurrency]: [Math.max(1, Math.floor(maxConcurrent))] *)
Definition quietSetCommandLaneConcurrency (name : string) (n : Z) (s : QueueState)
  : QueueState :=
  let cleaned := cleanedLane name in
  let '(st, s1) := getLaneState cleaned s in
  quietDrainLane cleaned
    (withLanes s1 (JsMap.set cleaned (withMaxConcurrent st (Z.max 1 n)) (lanes s1))).

(** [drainSessionLane]: the three guards in source order, then
    [queue.shift()], [state.active = true], [activeSessionCount += 1] and the
    start of the task. *)
Definition quietDrainSessionLane (key : string) (s : QueueState) : QueueState :=
  let '(st, s1) := getSessionLaneState key s in
  if sl_active st then s1
  else
    match queue st with
    | [] => s1
    | entry :: rest =>
        if maxConcurrentSessions s1 <=? activeSessionCount s1 then s1
        else
          {| lanes := lanes s1; nextTaskId := nextTaskId s1;
             sessionLanes :=
               JsMap.set key
                 {| sl_sessionKey := sl_sessionKey st; queue := rest;
                    sl_active := true |}
                 (sessionLanes s1);
             maxConcurrentSessions := maxConcurrentSessions s1;
             activeSessionCount := activeSessionCount s1 + 1;
             laneRunning := laneRunning s1;
             sessionRunning := sessionRunning s1 ++ [(key, entry)] |}
    end.

(** The [for ... of sessionLanes] loop of [drainWaitingSessions].  The loop
    walks the keys in insertion order and reads each lane object when it
    reaches it; [drainSessionLane] changes no lane but the one it is given. *)
Fixpoint quietDrainWaitingLoop (ks : list string) (s : QueueState) : QueueState :=
  match ks with
  | [] => s
  | k :: ks' =>
      match JsMap.get k (sessionLanes s) with
      | Some st =>
          if negb (sl_active st) && (0 <? length (queue st))%nat then
            let s' := quietDrainSessionLane k s in
            if maxConcurrentSessions s' <=? activeSessionCount s' then s'
            else quietDrainWaitingLoop ks' s'
          else quietDrainWaitingLoop ks' s
      | None => quietDrainWaitingLoop ks' s
      end
  end.

Definition quietDrainWaitingSessions (s : QueueState) : QueueState :=
  if maxConcurrentSessions s <=? activeSessionCount s then s
  else quietDrainWaitingLoop (JsMap.keys (sessionLanes s)) s.

(** [setMaxConcurrentSessions]: [Math.max(1, Math.floor(max))]; waiting
    sessions are drained only when the cap grew. *)
Definition quietSetMaxConcurrentSessions (n : Z) (s : QueueState) : QueueState :=
  let previous := maxConcurrentSessions s in
  let s1 := withSessionCap s (Z.max 1 n) in
  if previous <? maxConcurrentSessions s1 then quietDrainWaitingSessions s1 else s1.

(** [enqueueSessionTask(task, opts)], called at time [now].  A falsy
    [sessionKey] (the empty string) falls back to the main lane. *)
Definition quietEnqueueSessionTask (tsk : nat) (opts : SessionEnqueueOptions)
    (now : Z) (s : QueueState) : QueueState :=
  let key := sopt_sessionKey opts in
  let warnAfter := default 2000 (sopt_warnAfterMs opts) in
  let prio := default Normal (sopt_priority opts) in
  let onW := sopt_onWait opts in
  if String.eqb key "" then
    quietEnqueueCommandInLane Main tsk
      {| opt_warnAfterMs := Some warnAfter; opt_priority := Some prio;
         opt_onWait := onW |} now s
  else
    let '(st, s1) := getSessionLaneState key s in
    let entry := {| task := tsk; enqueuedAt := now; warnAfterMs := warnAfter;
                    priority := prio; sessionKey := Some key; onWait := onW |} in
    let st' := {| sl_sessionKey := sl_sessionKey st;
                  queue := insertByPriority (queue st) entry;
                  sl_active := sl_active st |} in
    quietDrainSessionLane key (withSessionLanes s1 (JsMap.set key st' (sessionLanes s1))).

(** The code after [await entry.task()] in [drainSessionLane], for the task
    [entry] started on lane [key]: [state.active = false],
    [activeSessionCount -= 1], [drainSessionLane(sessionKey)],
    [drainWaitingSessions()]. *)
Definition quietSessionTaskSettled (key : string) (entry : QueueEntry)
    (s : QueueState) : QueueState :=
  if bool_decide ((key, entry) ∈ sessionRunning s) then
    match JsMap.get key (sessionLanes s) with
    | None => s
    | Some st =>
        let st' := {| sl_sessionKey := sl_sessionKey st; queue := queue st;
                      sl_active := false |} in
        quietDrainWaitingSessions
          (quietDrainSessionLane key
             {| lanes := lanes s; nextTaskId := nextTaskId s;
                sessionLanes := JsMap.set key st' (sessionLanes s);
                maxConcurrentSessions := maxConcurrentSessions s;
                activeSessionCount := activeSessionCount s - 1;
                laneRunning := laneRunning s;
                sessionRunning :=
                  filter (fun r => r <> (key, entry)) (sessionRunning s) |})
    end
  else s.

Definition quietStep (s : QueueState) (ev : Event) : QueueState :=
  match ev with
  | EnqueueCommandInLane name tsk opts now => quietEnqueueCommandInLane name tsk opts now s
  | LaneTaskSettled name taskId entry _ _ => quietLaneTaskSettled name taskId entry s
  | SetCommandLaneConcurrency name n _ => quietSetCommandLaneConcurrency name n s
  | ClearCommandLane name => clearCommandLane name s
  | EnqueueSessionTask tsk opts now => quietEnqueueSessionTask tsk opts now s
  | SessionTaskSettled key entry _ _ => quietSessionTaskSettled key entry s
  | SetMaxConcurrentSessions n _ => quietSetMaxConcurrentSessions n s
  | ClearSessionLane key => clearSessionLane key s
  end.

Definition quietRun (evs : list Event) (s : QueueState) : QueueState :=
  foldl quietStep s evs.

(** *** Named lanes: the bucket discipline *)

(** A lane as [getLaneState] creates it. *)
Definition newLane (name : string) : LaneState :=
  {| lane := name; buckets := createEmptyBuckets; active := 0;
     activeTaskIds := ∅; maxConcurrent := 1; draining := false |}.

(** Enqueues and dequeues on one lane, with the entries handed out so far. *)
Inductive LaneOp := Enq (entry : QueueEntry) | Deq.

Definition laneStep (acc : LaneState * list QueueEntry) (op : LaneOp)
  : LaneState * list QueueEntry :=
  let '(st, out) := acc in
  match op with
  | Enq entry => (enqueueWithPriority st entry, out)
  | Deq =>
      match dequeueHighestPriority st with
      | (Some entry, st') => (st', out ++ [entry])
      | (None, st') => (st', out)
      end
  end.

Definition laneRun (ops : list LaneOp) (acc : LaneState * list QueueEntry)
  : LaneState * list QueueEntry :=
  foldl laneStep acc ops.

Fixpoint enqueuedOf (ops : list LaneOp) : list QueueEntry :=
  match ops with
  | [] => []
  | Enq entry :: ops' => entry :: enqueuedOf ops'
  | Deq :: ops' => enqueuedOf ops'
  end.

(** The bucket an entry belongs to in a lane of three buckets. *)
Definition bucketOf (entry : QueueEntry) : nat :=
  Z.to_nat (bucketIndex 3 (priority entry)).

Lemma bucketOf_lt entry : (bucketOf entry < 3)%nat.
Proof. unfold bucketOf, bucketIndex. lia. Qed.

(** What a dequeue does to any bucket array. *)
Definition dequeueSpec (bs : list (list QueueEntry))
    (r : option QueueEntry * list (list QueueEntry)) : Prop :=
  match r with
  | (Some entry, bs') =>
      exists (i : nat) (rest : list QueueEntry),
        bs !! i = Some (entry :: rest) /\
        (forall j : nat, (j < i)%nat -> bs !! j = Some []) /\
        bs' = <[i := rest]> bs
  | (None, bs') => bs' = bs /\ forall bucket, bucket ∈ bs -> bucket = []
  end.

Lemma dequeueBuckets_spec bs : dequeueSpec bs (dequeueBuckets bs).
Proof.
  induction bs as [|bucket bs IH]; simpl.
  - split; [done|]. intros b Hb. by apply elem_of_nil in Hb.
  - destruct bucket as [|e bucket].
    + destruct (dequeueBuckets bs) as [[e'|] bs']; simpl in *.
      * destruct IH as (i & rest & Hi & Hlow & ->).
        exists (S i), rest. split; [done|]. split; [|done].
        intros [|j] Hj; [done|]. simpl. apply Hlow. lia.
      * destruct IH as [-> Hall]. split; [done|].
        intros b Hb. apply elem_of_cons in Hb as [->|Hb]; auto.
    + exists 0%nat, bucket. split; [done|]. split; [|done]. intros j Hj. lia.
Qed.

Lemma dequeueBuckets_length bs :
  length (dequeueBuckets bs).2 = length bs.
Proof.
  induction bs as [|[|e bucket] bs IH]; simpl; auto.
  destruct (dequeueBuckets bs) as [r bs']. simpl in *. by rewrite IH.
Qed.

(** The history invariant of a lane: bucket [b] holds, in order, the entries
    enqueued for [b] that were not handed out yet. *)
Definition laneInv (hist : list QueueEntry) (acc : LaneState * list QueueEntry) : Prop :=
  length (buckets acc.1) = 3%nat /\
  (forall (b : nat) bucket, buckets acc.1 !! b = Some bucket ->
     Forall (fun entry => bucketOf entry = b) bucket) /\
  (forall (b : nat) bucket, buckets acc.1 !! b = Some bucket ->
     filter (fun entry => bucketOf entry = b) acc.2 ++ bucket
     = filter (fun entry => bucketOf entry = b) hist).

Lemma laneInv_new name : laneInv [] (newLane name, []).
Proof.
  split; [done|]. split.
  - intros [|[|[|b]]] bucket Hb; simplify_eq/=; constructor.
  - intros [|[|[|b]]] bucket Hb; simplify_eq/=; done.
Qed.

Lemma laneInv_enq hist st out entry :
  laneInv hist (st, out) ->
  laneInv (hist ++ [entry]) (enqueueWithPriority st entry, out).
Proof.
  intros (Hlen & Hin & Hfifo). simpl in *.
  unfold enqueueWithPriority. simpl. rewrite Hlen.
  fold (bucketOf entry).
  unfold laneInv; simpl. split; [by rewrite length_alter|]. split.
  - intros b bucket Hb.
    destruct (decide (bucketOf entry = b)) as [<-|Hne].
    + rewrite list_lookup_alter_eq in Hb.
      destruct (buckets st !! bucketOf entry) as [bk|] eqn:E; simplify_eq/=.
      apply Forall_app. split; [by eapply Hin|]. by repeat constructor.
    + rewrite list_lookup_alter_ne in Hb by done. by eapply Hin.
  - intros b bucket Hb. rewrite filter_app.
    destruct (decide (bucketOf entry = b)) as [<-|Hne].
    + rewrite list_lookup_alter_eq in Hb.
      destruct (buckets st !! bucketOf entry) as [bk|] eqn:E; simplify_eq/=.
      rewrite filter_cons_True by done. rewrite filter_nil.
      rewrite app_assoc. f_equal. by apply Hfifo.
    + rewrite list_lookup_alter_ne in Hb by done.
      rewrite filter_cons_False by done. rewrite filter_nil, app_nil_r.
      by apply Hfifo.
Qed.

Lemma laneInv_deq hist st out :
  laneInv hist (st, out) -> laneInv hist (laneStep (st, out) Deq).
Proof.
  intros (Hlen & Hin & Hfifo). simpl in *.
  unfold dequeueHighestPriority.
  pose proof (dequeueBuckets_spec (buckets st)) as Hspec.
  pose proof (dequeueBuckets_length (buckets st)) as Hl.
  destruct (dequeueBuckets (buckets st)) as [[e|] bs']; simpl in *.
  - destruct Hspec as (i & rest & Hi & Hlow & ->).
    pose proof (Hin _ _ Hi) as He. apply Forall_cons in He as [He Hrest].
    unfold laneInv; simpl. split; [by rewrite length_insert|]. split.
    + intros b bucket Hb. destruct (decide (i = b)) as [<-|Hne].
      * rewrite list_lookup_insert_eq in Hb by (by eapply lookup_lt_Some).
        by simplify_eq.
      * rewrite list_lookup_insert_ne in Hb by done. by eapply Hin.
    + intros b bucket Hb. rewrite filter_app.
      destruct (decide (i = b)) as [<-|Hne].
      * rewrite list_lookup_insert_eq in Hb by (by eapply lookup_lt_Some).
        simplify_eq. rewrite filter_cons_True by done. rewrite filter_nil.
        rewrite <- app_assoc. simpl. by apply Hfifo.
      * rewrite list_lookup_insert_ne in Hb by done.
        rewrite filter_cons_False by congruence.
        rewrite filter_nil, app_nil_r. by apply Hfifo.
  - destruct Hspec as [-> _]. done.
Qed.

Lemma laneInv_run ops : forall hist acc,
  laneInv hist acc -> laneInv (hist ++ enqueuedOf ops) (laneRun ops acc).
Proof.
  induction ops as [|op ops IH]; intros hist [st out] Hinv; simpl.
  - by rewrite app_nil_r.
  - destruct op as [entry|].
    + replace (hist ++ entry :: enqueuedOf ops)
        with ((hist ++ [entry]) ++ enqueuedOf ops) by by rewrite <- app_assoc.
      apply IH. by apply laneInv_enq.
    + apply IH. by apply laneInv_deq.
Qed.

(** C5.  On a lane, after any sequence of enqueues and dequeues: each bucket
    still holds, in enqueue order, exactly the entries enqueued for it and not
    yet dequeued (so within a bucket the dequeue order is the enqueue order),
    and the next dequeue hands out the first entry of the lowest-numbered
    non-empty bucket, every bucket before it being empty. *)
Theorem named_lane_dequeue_order (name : string) (ops : list LaneOp) :
  let st := (laneRun ops (newLane name, [])).1 in
  let out := (laneRun ops (newLane name, [])).2 in
  (forall (b : nat) bucket, buckets st !! b = Some bucket ->
     filter (fun entry => bucketOf entry = b) out ++ bucket
     = filter (fun entry => bucketOf entry = b) (enqueuedOf ops)) /\
  match dequeueHighestPriority st with
  | (Some entry, st') =>
      exists (i : nat) (rest : list QueueEntry),
        buckets st !! i = Some (entry :: rest) /\
        (forall j : nat, (j < i)%nat -> buckets st !! j = Some []) /\
        buckets st' = <[i := rest]> (buckets st) /\
        bucketOf entry = i
  | (None, st') =>
      st' = st /\ forall bucket, bucket ∈ buckets st -> bucket = []
  end.
Proof.
  intros st out.
  pose proof (laneInv_run ops [] _ (laneInv_new name)) as (Hlen & Hin & Hfifo).
  simpl in Hfifo. fold st in Hlen, Hin, Hfifo. fold out in Hfifo.
  split; [exact Hfifo|].
  unfold dequeueHighestPriority.
  pose proof (dequeueBuckets_spec (buckets st)) as Hspec.
  destruct (dequeueBuckets (buckets st)) as [[e|] bs']; simpl in *.
  - destruct Hspec as (i & rest & Hi & Hlow & ->).
    exists i, rest. repeat split; auto.
    pose proof (Hin _ _ Hi) as He. by apply Forall_cons in He as [He _].
  - destruct Hspec as [-> Hall]. split; [|done].
    by destruct st.
Qed.

(** *** Session lanes: priority insertion *)

Definition higherOrEqual (a b : QueueEntry) : Prop := priority a <= priority b.

(** A session queue is ordered when priorities never decrease along it. *)
Definition ordered (q : list QueueEntry) : Prop := StronglySorted higherOrEqual q.

Lemma insertByPriority_split q entry :
  exists before after,
    q = before ++ after /\
    insertByPriority q entry = before ++ entry :: after /\
    Forall (fun e => priority e <= priority entry) before /\
    match after with
    | [] => True
    | e :: _ => priority entry < priority e
    end.
Proof.
  induction q as [|e q IH]; simpl.
  - exists [], []. repeat split; auto.
  - destruct (priority entry <? priority e) eqn:E.
    + apply Z.ltb_lt in E. exists [], (e :: q). repeat split; auto.
    + apply Z.ltb_ge in E. destruct IH as (before & after & -> & -> & Hb & Ha).
      exists (e :: before), after. repeat split; auto.
Qed.

Lemma elem_of_insertByPriority q entry x :
  x ∈ insertByPriority q entry <-> x = entry \/ x ∈ q.
Proof.
  induction q as [|e q IH]; simpl.
  - rewrite list_elem_of_singleton. split; [auto|]. intros [?|H]; [done|].
    by apply elem_of_nil in H.
  - destruct (priority entry <? priority e).
    + rewrite elem_of_cons. tauto.
    + rewrite !elem_of_cons, IH. tauto.
Qed.

Lemma ordered_insertByPriority q entry :
  ordered q -> ordered (insertByPriority q entry).
Proof.
  unfold ordered. induction q as [|e q IH]; simpl; intros Hs.
  - repeat constructor.
  - apply StronglySorted_inv in Hs as [Hs Hall].
    destruct (priority entry <? priority e) eqn:E.
    + apply Z.ltb_lt in E. constructor.
      * by constructor.
      * constructor; [unfold higherOrEqual; lia|].
        eapply Forall_impl; [exact Hall|]. unfold higherOrEqual. simpl. lia.
    + apply Z.ltb_ge in E. constructor; [auto|].
      apply Forall_forall. intros x Hx.
      apply elem_of_insertByPriority in Hx as [->|Hx]; [done|].
      rewrite Forall_forall in Hall. auto.
Qed.

Lemma ordered_tail e q : ordered (e :: q) -> ordered q.
Proof. intros H. by apply StronglySorted_inv in H as [H _]. Qed.

Lemma ordered_after before after (p : Z) :
  ordered (before ++ after) ->
  match after with [] => True | e :: _ => p < priority e end ->
  Forall (fun e => p < priority e) after.
Proof.
  intros Hs Hhd. destruct after as [|e after]; [constructor|].
  induction before as [|b before IH]; simpl in *.
  - apply StronglySorted_inv in Hs as [_ Hall]. constructor; [done|].
    eapply Forall_impl; [exact Hall|]. unfold higherOrEqual. simpl. lia.
  - apply IH. by eapply ordered_tail.
Qed.

(** The queue of a session lane ([[]] while the lane does not exist) and the
    state in which that queue is replaced, the lane being created on demand. *)
Definition queueOf (key : string) (s : QueueState) : list QueueEntry :=
  match JsMap.get key (sessionLanes s) with
  | Some st => queue st
  | None => []
  end.

Definition withQueue (key : string) (q : list QueueEntry) (s : QueueState)
  : QueueState :=
  let '(st, s1) := getSessionLaneState key s in
  withSessionLanes s1
    (JsMap.set key {| sl_sessionKey := sl_sessionKey st; queue := q;
                      sl_active := sl_active st |} (sessionLanes s1)).

(** The entry that [enqueueSessionTask] builds. *)
Definition sessionEntry (tsk : nat) (opts : SessionEnqueueOptions) (now : Z)
  : QueueEntry :=
  {| task := tsk; enqueuedAt := now;
     warnAfterMs := default 2000 (sopt_warnAfterMs opts);
     priority := default Normal (sopt_priority opts);
     sessionKey := Some (sopt_sessionKey opts);
     onWait := sopt_onWait opts |}.

Lemma enqueueSessionTask_unfold tsk opts now s :
  sopt_sessionKey opts <> "" ->
  quietEnqueueSessionTask tsk opts now s
  = quietDrainSessionLane (sopt_sessionKey opts)
      (withQueue (sopt_sessionKey opts)
         (insertByPriority (queueOf (sopt_sessionKey opts) s)
            (sessionEntry tsk opts now)) s).
Proof.
  intros Hne. unfold quietEnqueueSessionTask, withQueue, queueOf, getSessionLaneState.
  apply String.eqb_neq in Hne. rewrite Hne.
  destruct (JsMap.get (sopt_sessionKey opts) (sessionLanes s)); reflexivity.
Qed.

(** Every session queue of the state is ordered. *)
Definition queuesOrdered (s : QueueState) : Prop :=
  Forall (fun kv => ordered (queue kv.2)) (sessionLanes s).

(** *** Session lanes: the scheduler invariant *)

(** The invariant on the session part of the state: the counter is the
    number of lanes flagged active and the number of started, unsettled
    session tasks; no lane has two of them; a lane is flagged active exactly
    when it has one. *)
Definition sessionInvOn (ls : list (string * SessionLaneState)) (n : Z)
    (running : list (string * QueueEntry)) : Prop :=
  n = Z.of_nat (JsMap.count sl_active ls) /\
  n = Z.of_nat (length running) /\
  NoDup running.*1 /\
  (forall k, k ∈ running.*1 <->
             exists st, JsMap.get k ls = Some st /\ sl_active st = true).

Definition sessionInv (s : QueueState) : Prop :=
  sessionInvOn (sessionLanes s) (activeSessionCount s) (sessionRunning s).

Lemma sessionInvOn_update ls n running k st st' :
  sessionInvOn ls n running ->
  JsMap.get k ls = Some st -> sl_active st' = sl_active st ->
  sessionInvOn (JsMap.set k st' ls) n running.
Proof.
  intros (Hc & Hr & Hnd & Hiff) Hget Hact.
  split; [|split; [done|split; [done|]]].
  - pose proof (JsMap.count_set_present sl_active k st' st ls Hget) as H.
    rewrite Hact in H. lia.
  - intros k0. rewrite Hiff. destruct (decide (k = k0)) as [<-|Hne].
    + rewrite JsMap.get_set_eq. split.
      * intros (st0 & H0 & Ha). exists st'. split; [done|]. congruence.
      * intros (st0 & [= <-] & Ha). exists st. split; [done|]. congruence.
    + by rewrite JsMap.get_set_ne.
Qed.

Lemma sessionInvOn_create ls n running k st' :
  sessionInvOn ls n running ->
  JsMap.get k ls = None -> sl_active st' = false ->
  sessionInvOn (JsMap.set k st' ls) n running.
Proof.
  intros (Hc & Hr & Hnd & Hiff) Hget Hact.
  split; [|split; [done|split; [done|]]].
  - rewrite JsMap.count_set_absent by done. rewrite Hact. lia.
  - intros k0. rewrite Hiff. destruct (decide (k = k0)) as [<-|Hne].
    + rewrite JsMap.get_set_eq, Hget. split.
      * intros (st0 & H0 & Ha). done.
      * intros (st0 & [= <-] & Ha). congruence.
    + by rewrite JsMap.get_set_ne.
Qed.

Lemma sessionInvOn_activate ls n running k st st' entry :
  sessionInvOn ls n running ->
  JsMap.get k ls = Some st -> sl_active st = false -> sl_active st' = true ->
  sessionInvOn (JsMap.set k st' ls) (n + 1) (running ++ [(k, entry)]).
Proof.
  intros (Hc & Hr & Hnd & Hiff) Hget Hoff Hon.
  assert (Hfresh : k ∉ running.*1).
  { rewrite Hiff. intros (st0 & H0 & Ha). congruence. }
  split; [|split; [|split]].
  - pose proof (JsMap.count_set_present sl_active k st' st ls Hget) as H.
    rewrite Hoff, Hon in H. lia.
  - rewrite length_app. simpl. lia.
  - rewrite fmap_app. simpl. apply NoDup_app. split; [done|]. split.
    + intros x Hx Hx'. apply list_elem_of_singleton in Hx'. by subst.
    + apply NoDup_singleton.
  - intros k0. rewrite fmap_app, elem_of_app. simpl.
    rewrite list_elem_of_singleton, Hiff.
    destruct (decide (k = k0)) as [<-|Hne].
    + rewrite JsMap.get_set_eq. split; [|auto]. intros _. by exists st'.
    + rewrite JsMap.get_set_ne by done. split; [|auto].
      intros [H|H]; [done|congruence].
Qed.

Lemma running_remove (running : list (string * QueueEntry)) k entry :
  NoDup running.*1 -> (k, entry) ∈ running ->
  (length (filter (fun r => r <> (k, entry)) running) + 1 = length running)%nat /\
  forall k0, k0 ∈ (filter (fun r => r <> (k, entry)) running).*1
             <-> k0 <> k /\ k0 ∈ running.*1.
Proof.
  induction running as [|[k1 e1] running IH]; simpl; intros Hnd Hin.
  - by apply elem_of_nil in Hin.
  - apply NoDup_cons in Hnd as [Hn Hnd].
    apply elem_of_cons in Hin as [Heq|Hin].
    + simplify_eq. rewrite filter_cons_False by (intros H; by apply H).
      assert (Hsame : filter (fun r => r <> (k1, e1)) running = running).
      { clear IH Hnd. induction running as [|[k2 e2] running IH]; [done|].
        rewrite filter_cons_True.
        - f_equal. apply IH. intros H. apply Hn. simpl. by right.
        - intros [= -> ->]. apply Hn. simpl. left. }
      rewrite Hsame. split; [lia|].
      intros k0. rewrite elem_of_cons. split.
      * intros H. split; [|by right]. intros ->. done.
      * intros [Hne [?|?]]; done.
    + assert (Hk : k1 <> k).
      { intros ->. apply Hn. apply list_elem_of_fmap. by exists (k, entry). }
      rewrite filter_cons_True by congruence.
      destruct (IH Hnd Hin) as [Hlen Hiff]. simpl. split; [lia|].
      intros k0. rewrite !elem_of_cons, Hiff. split.
      * intros [->|[? ?]]; auto.
      * intros [? [?|?]]; auto.
Qed.

Lemma sessionInvOn_deactivate ls n running k st st' entry :
  sessionInvOn ls n running ->
  (k, entry) ∈ running ->
  JsMap.get k ls = Some st -> sl_active st' = false ->
  sessionInvOn (JsMap.set k st' ls) (n - 1)
    (filter (fun r => r <> (k, entry)) running).
Proof.
  intros (Hc & Hr & Hnd & Hiff) Hin Hget Hoff.
  destruct (running_remove running k entry Hnd Hin) as [Hlen Hkeys].
  assert (Hon : sl_active st = true).
  { assert (Hk : k ∈ running.*1).
    { apply list_elem_of_fmap. by exists (k, entry). }
    apply Hiff in Hk as (st0 & H0 & Ha). congruence. }
  split; [|split; [|split]].
  - pose proof (JsMap.count_set_present sl_active k st' st ls Hget) as H.
    rewrite Hoff, Hon in H. lia.
  - lia.
  - apply (sublist_NoDup _ (running.*1)); [exact Hnd|]. apply fmap_sublist, sublist_filter.
  - intros k0. rewrite Hkeys, Hiff. destruct (decide (k = k0)) as [<-|Hne].
    + rewrite JsMap.get_set_eq. split.
      * intros [? _]. done.
      * intros (st0 & [= <-] & Ha). congruence.
    + rewrite JsMap.get_set_ne by done. split; [tauto|]. intros H. split; auto.
Qed.

(** The session scheduler's share of the state. *)
Definition sessionPart (s : QueueState)
  : list (string * SessionLaneState) * Z * Z * list (string * QueueEntry) :=
  (sessionLanes s, maxConcurrentSessions s, activeSessionCount s, sessionRunning s).

Lemma sessionPart_getLaneState name s :
  sessionPart (getLaneState name s).2 = sessionPart s.
Proof. unfold getLaneState. by destruct (JsMap.get name (lanes s)). Qed.

Lemma sessionPart_pump name s : sessionPart (quietPump name s) = sessionPart s.
Proof.
  unfold quietPump. destruct (JsMap.get name (lanes s)) as [st|]; [|done].
  by destruct (quietPumpLoop _ _ _ _ _) as [[st' tid] started].
Qed.

Lemma sessionPart_drainLane name s : sessionPart (quietDrainLane name s) = sessionPart s.
Proof.
  unfold quietDrainLane.
  pose proof (sessionPart_getLaneState name s) as H.
  destruct (getLaneState name s) as [st s1]. simpl in H.
  destruct (draining st); [done|]. by rewrite sessionPart_pump.
Qed.

Lemma sessionPart_enqueueCommandInLane name tsk opts now s :
  sessionPart (quietEnqueueCommandInLane name tsk opts now s) = sessionPart s.
Proof.
  unfold quietEnqueueCommandInLane.
  pose proof (sessionPart_getLaneState (cleanedLane name) s) as H.
  destruct (getLaneState (cleanedLane name) s) as [st s1]. simpl in H.
  by rewrite sessionPart_drainLane.
Qed.

Lemma sessionPart_laneTaskSettled name taskId entry s :
  sessionPart (quietLaneTaskSettled name taskId entry s) = sessionPart s.
Proof.
  unfold quietLaneTaskSettled. case_bool_decide; [|done].
  destruct (JsMap.get name (lanes s)); [|done]. by rewrite sessionPart_pump.
Qed.

Lemma sessionPart_setCommandLaneConcurrency name n s :
  sessionPart (quietSetCommandLaneConcurrency name n s) = sessionPart s.
Proof.
  unfold quietSetCommandLaneConcurrency.
  pose proof (sessionPart_getLaneState (cleanedLane name) s) as H.
  destruct (getLaneState (cleanedLane name) s) as [st s1]. simpl in H.
  by rewrite sessionPart_drainLane.
Qed.

Lemma sessionPart_clearCommandLane name s :
  sessionPart (clearCommandLane name s) = sessionPart s.
Proof.
  unfold clearCommandLane. by destruct (JsMap.get _ (lanes s)).
Qed.

(** What a session drain may do to the counter: the cap stays, the counter
    does not shrink, and it grows only up to the cap. *)
Definition grows (s s' : QueueState) : Prop :=
  maxConcurrentSessions s' = maxConcurrentSessions s /\
  activeSessionCount s <= activeSessionCount s'
    <= Z.max (activeSessionCount s) (maxConcurrentSessions s).

Lemma grows_refl s : grows s s.
Proof. unfold grows. lia. Qed.

Lemma grows_trans s1 s2 s3 : grows s1 s2 -> grows s2 s3 -> grows s1 s3.
Proof. unfold grows. lia. Qed.

Definition sessionOk (s : QueueState) : Prop := sessionInv s /\ queuesOrdered s.

Lemma sessionOk_part s s' : sessionPart s' = sessionPart s -> sessionOk s -> sessionOk s'.
Proof.
  unfold sessionPart, sessionOk, sessionInv, queuesOrdered.
  intros [= H1 _ H3 H4]. rewrite H1, H3, H4. done.
Qed.

Lemma getSessionLaneState_spec key s :
  let st := (getSessionLaneState key s).1 in
  let s1 := (getSessionLaneState key s).2 in
  JsMap.get key (sessionLanes s1) = Some st /\
  queue st = queueOf key s /\
  maxConcurrentSessions s1 = maxConcurrentSessions s /\
  activeSessionCount s1 = activeSessionCount s /\
  sessionRunning s1 = sessionRunning s /\
  (sessionOk s -> sessionOk s1).
Proof.
  unfold getSessionLaneState, queueOf.
  destruct (JsMap.get key (sessionLanes s)) as [st|] eqn:E; simpl.
  - by rewrite E.
  - rewrite JsMap.get_set_eq. do 5 (split; [done|]).
    intros [Hinv Hord]. split.
    + unfold sessionInv. simpl. by apply sessionInvOn_create.
    + unfold queuesOrdered. simpl.
      apply (JsMap.Forall_values_set (fun st => ordered (queue st))); [done|].
      constructor.
Qed.

(** What [drainSessionLane] does, case by case. *)
Lemma drainSessionLane_cases key s :
  let st := (getSessionLaneState key s).1 in
  let s1 := (getSessionLaneState key s).2 in
  (quietDrainSessionLane key s = s1 /\
   (sl_active st = true \/ queue st = [] \/
    maxConcurrentSessions s <= activeSessionCount s)) \/
  (exists entry rest,
     sl_active st = false /\ queue st = entry :: rest /\
     activeSessionCount s < maxConcurrentSessions s /\
     quietDrainSessionLane key s =
       {| lanes := lanes s1; nextTaskId := nextTaskId s1;
          sessionLanes :=
            JsMap.set key {| sl_sessionKey := sl_sessionKey st; queue := rest;
                             sl_active := true |} (sessionLanes s1);
          maxConcurrentSessions := maxConcurrentSessions s;
          activeSessionCount := activeSessionCount s + 1;
          laneRunning := laneRunning s1;
          sessionRunning := sessionRunning s ++ [(key, entry)] |}).
Proof.
  intros st s1.
  destruct (getSessionLaneState_spec key s) as (Hget & Hq & Hcap & Hcnt & Hrun & _).
  fold st s1 in Hget, Hq, Hcap, Hcnt, Hrun.
  unfold quietDrainSessionLane. subst st s1.
  destruct (getSessionLaneState key s) as [st s1]. simpl in *.
  destruct (sl_active st) eqn:Ha; [left; auto|].
  destruct (queue st) as [|entry rest] eqn:Hqueue; [left; auto|].
  rewrite Hcap, Hcnt, Hrun.
  destruct (maxConcurrentSessions s <=? activeSessionCount s) eqn:Hle.
  - apply Z.leb_le in Hle. left; auto.
  - apply Z.leb_gt in Hle. right. exists entry, rest. auto.
Qed.

Lemma drainSessionLane_spec key s :
  sessionOk s ->
  sessionOk (quietDrainSessionLane key s) /\ grows s (quietDrainSessionLane key s).
Proof.
  intros Hok.
  destruct (getSessionLaneState_spec key s) as (Hget & Hq & Hcap & Hcnt & Hrun & Hok1).
  specialize (Hok1 Hok).
  destruct (drainSessionLane_cases key s)
    as [[-> _]|(entry & rest & Ha & Hqueue & Hlt & ->)].
  - split; [done|]. unfold grows. lia.
  - split; [|unfold grows; simpl; lia].
    destruct Hok1 as [Hinv Hord]. unfold sessionInv in Hinv.
    rewrite Hcnt, Hrun in Hinv. split.
    + unfold sessionInv. simpl. eapply sessionInvOn_activate; eauto.
    + unfold queuesOrdered. simpl.
      apply (JsMap.Forall_values_set (fun st => ordered (queue st))); [done|].
      simpl.
      pose proof (JsMap.Forall_values_get (fun st => ordered (queue st))
                    _ _ _ Hord Hget) as Ho.
      simpl in Ho. rewrite Hqueue in Ho. by eapply ordered_tail.
Qed.

Lemma drainWaitingLoop_spec ks : forall s,
  sessionOk s ->
  sessionOk (quietDrainWaitingLoop ks s) /\ grows s (quietDrainWaitingLoop ks s).
Proof.
  induction ks as [|k ks IH]; intros s Hok; simpl.
  - split; [done|apply grows_refl].
  - destruct (JsMap.get k (sessionLanes s)) as [st|]; [|auto].
    destruct (negb (sl_active st) && (0 <? length (queue st))%nat); [|auto].
    destruct (drainSessionLane_spec k s Hok) as [Hok' Hg].
    destruct (_ <=? _); [done|].
    destruct (IH _ Hok') as [Hok'' Hg']. split; [done|].
    by eapply grows_trans.
Qed.

Lemma drainWaitingSessions_spec s :
  sessionOk s ->
  sessionOk (quietDrainWaitingSessions s) /\ grows s (quietDrainWaitingSessions s).
Proof.
  intros Hok. unfold quietDrainWaitingSessions.
  destruct (_ <=? _); [split; [done|apply grows_refl]|].
  by apply drainWaitingLoop_spec.
Qed.

Lemma withQueue_spec key q s :
  sessionOk s -> ordered q ->
  sessionOk (withQueue key q s) /\
  maxConcurrentSessions (withQueue key q s) = maxConcurrentSessions s /\
  activeSessionCount (withQueue key q s) = activeSessionCount s.
Proof.
  intros Hok Hq. unfold withQueue.
  destruct (getSessionLaneState_spec key s) as (Hget & _ & Hcap & Hcnt & Hrun & Hok1).
  destruct (getSessionLaneState key s) as [st s1]. simpl in *.
  destruct (Hok1 Hok) as [Hinv Hord]. split; [|done]. split.
  - unfold sessionInv. simpl. by eapply sessionInvOn_update.
  - unfold queuesOrdered. simpl.
    by apply (JsMap.Forall_values_set (fun st => ordered (queue st))).
Qed.

Lemma queueOf_ordered key s : queuesOrdered s -> ordered (queueOf key s).
Proof.
  intros Hord. unfold queueOf.
  destruct (JsMap.get key (sessionLanes s)) as [st|] eqn:E; [|constructor].
  exact (JsMap.Forall_values_get (fun st => ordered (queue st)) _ _ _ Hord E).
Qed.

(** The cap an event leaves behind. *)
Definition capAfter (s : QueueState) (ev : Event) : Z :=
  match ev with
  | SetMaxConcurrentSessions n _ => Z.max 1 n
  | _ => maxConcurrentSessions s
  end.

Lemma queue_step_spec s ev :
  sessionOk s ->
  sessionOk (quietStep s ev) /\
  maxConcurrentSessions (quietStep s ev) = capAfter s ev /\
  activeSessionCount (quietStep s ev)
    <= Z.max (activeSessionCount s) (maxConcurrentSessions (quietStep s ev)).
Proof.
  intros Hok.
  assert (Hpart : forall s', sessionPart s' = sessionPart s ->
            sessionOk s' /\
            maxConcurrentSessions s' = maxConcurrentSessions s /\
            activeSessionCount s'
              <= Z.max (activeSessionCount s) (maxConcurrentSessions s')).
  { intros s' Hp. split; [by eapply sessionOk_part|].
    unfold sessionPart in Hp. injection Hp as H1 H2 H3 H4.
    rewrite H2, H3. lia. }
  destruct ev as [name tsk opts now|name taskId entry ok0 now0|name n now0|name
                 |tsk opts now|key entry ok0 now0|n now0|key]; simpl.
  - apply Hpart, sessionPart_enqueueCommandInLane.
  - apply Hpart, sessionPart_laneTaskSettled.
  - apply Hpart, sessionPart_setCommandLaneConcurrency.
  - apply Hpart, sessionPart_clearCommandLane.
  - destruct (decide (sopt_sessionKey opts = "")) as [He|Hne].
    + unfold quietEnqueueSessionTask. rewrite He. simpl.
      apply Hpart, sessionPart_enqueueCommandInLane.
    + rewrite enqueueSessionTask_unfold by done.
      destruct (withQueue_spec (sopt_sessionKey opts)
                  (insertByPriority (queueOf (sopt_sessionKey opts) s)
                     (sessionEntry tsk opts now)) s Hok) as (Hok1 & Hcap & Hcnt).
      { apply ordered_insertByPriority, queueOf_ordered, Hok. }
      destruct (drainSessionLane_spec (sopt_sessionKey opts) _ Hok1) as [Hok2 Hg].
      split; [done|]. unfold grows in Hg. lia.
  - unfold quietSessionTaskSettled. case_bool_decide as Hin; [|by apply Hpart].
    destruct (JsMap.get key (sessionLanes s)) as [st|] eqn:Hget; [|by apply Hpart].
    match goal with |- context [quietDrainSessionLane key ?s0] => set (s1 := s0) end.
    assert (Hok1 : sessionOk s1).
    { destruct Hok as [Hinv Hord]. split.
      - unfold sessionInv. simpl. by eapply sessionInvOn_deactivate.
      - unfold queuesOrdered. simpl.
        apply (JsMap.Forall_values_set (fun st => ordered (queue st))); [done|].
        exact (JsMap.Forall_values_get (fun st => ordered (queue st))
                 _ _ _ Hord Hget). }
    destruct (drainSessionLane_spec key s1 Hok1) as [Hok2 Hg2].
    destruct (drainWaitingSessions_spec _ Hok2) as [Hok3 Hg3].
    split; [done|]. unfold grows in *. simpl in *. lia.
  - unfold quietSetMaxConcurrentSessions.
    assert (Hok1 : sessionOk (withSessionCap s (Z.max 1 n))) by exact Hok.
    destruct (_ <? _).
    + destruct (drainWaitingSessions_spec _ Hok1) as [Hok2 Hg].
      split; [done|]. unfold grows in Hg. simpl in *. lia.
    + split; [done|]. simpl. lia.
  - unfold clearSessionLane.
    destruct (JsMap.get key (sessionLanes s)) as [st|] eqn:Hget; [|by apply Hpart].
    destruct Hok as [Hinv Hord]. simpl. split; [split|lia].
    + unfold sessionInv. simpl. by eapply sessionInvOn_update.
    + unfold queuesOrdered. simpl.
      apply (JsMap.Forall_values_set (fun st => ordered (queue st))); [done|].
      constructor.
Qed.

Lemma sessionOk_initial : sessionOk initialState.
Proof.
  split; [|constructor].
  split; [done|]. split; [done|]. split; [constructor|].
  intros k. simpl. split.
  - intros H. by apply elem_of_nil in H.
  - intros (st & H & _). done.
Qed.

Lemma run_snoc evs ev s : quietRun (evs ++ [ev]) s = quietStep (quietRun evs s) ev.
Proof. unfold quietRun. by rewrite foldl_app. Qed.

Lemma sessionOk_run evs : forall s, sessionOk s -> sessionOk (quietRun evs s).
Proof.
  induction evs as [|ev evs IH]; intros s Hok; [done|].
  simpl. apply IH. by apply queue_step_spec.
Qed.

(** A trace that never lowers the session cap, started from [s]. *)
Fixpoint quietCapNeverLowered (evs : list Event) (s : QueueState) : Prop :=
  match evs with
  | [] => True
  | ev :: evs' =>
      maxConcurrentSessions s <= capAfter s ev /\ quietCapNeverLowered evs' (quietStep s ev)
  end.

Lemma capNeverLowered_run evs : forall s,
  sessionOk s -> activeSessionCount s <= maxConcurrentSessions s ->
  quietCapNeverLowered evs s ->
  activeSessionCount (quietRun evs s) <= maxConcurrentSessions (quietRun evs s).
Proof.
  induction evs as [|ev evs IH]; intros s Hok Hle Hcap; [done|].
  simpl in *. destruct Hcap as [Hup Hrest].
  destruct (queue_step_spec s ev Hok) as (Hok' & Hc & Hb).
  apply IH; auto. lia.
Qed.

(** *** The claims about the queue *)

(** On the quiet scheduler.
    In every state the module reaches: no session
    lane has two started tasks and a lane is flagged active exactly when it
    has one; [activeSessionCount] is the number of active lanes and of
    started session tasks; [drainSessionLane], in whatever state it is
    called, starts a task only on a lane that is not active and only while
    [activeSessionCount] is strictly below [maxConcurrentSessions]; no event
    lifts the counter above the larger of its old value and the cap; and the
    counter is within the cap as long as [setMaxConcurrentSessions] never
    lowered the cap. *)
Lemma quiet_session_scheduler_invariant (evs : list Event) :
  let s := quietRun evs initialState in
  NoDup (sessionRunning s).*1 /\
  (forall k, k ∈ (sessionRunning s).*1 <->
             exists st, JsMap.get k (sessionLanes s) = Some st /\
                        sl_active st = true) /\
  activeSessionCount s = Z.of_nat (JsMap.count sl_active (sessionLanes s)) /\
  activeSessionCount s = Z.of_nat (length (sessionRunning s)) /\
  (forall key s0,
     sessionRunning (quietDrainSessionLane key s0) = sessionRunning s0 \/
     (exists entry,
        sessionRunning (quietDrainSessionLane key s0) = sessionRunning s0 ++ [(key, entry)] /\
        (forall st, JsMap.get key (sessionLanes s0) = Some st -> sl_active st = false) /\
        activeSessionCount s0 < maxConcurrentSessions s0 /\
        activeSessionCount (quietDrainSessionLane key s0) = activeSessionCount s0 + 1)) /\
  (forall ev,
     activeSessionCount (quietStep s ev)
       <= Z.max (activeSessionCount s) (maxConcurrentSessions (quietStep s ev))) /\
  (quietCapNeverLowered evs initialState ->
   activeSessionCount s <= maxConcurrentSessions s).
Proof.
  intros s.
  pose proof (sessionOk_run evs _ sessionOk_initial) as Hok. fold s in Hok.
  destruct Hok as [(Hc & Hr & Hnd & Hiff) Hord].
  do 4 (split; [done|]). split; [|split].
  - intros key s0.
    destruct (getSessionLaneState_spec key s0) as (Hget & _ & _ & _ & Hrun & _).
    destruct (drainSessionLane_cases key s0)
      as [[-> _]|(entry & rest & Ha & Hq & Hlt & ->)]; [by left|right].
    exists entry. simpl. repeat split; auto.
    intros st Hst.
    unfold getSessionLaneState in Ha. by rewrite Hst in Ha.
  - intros ev. apply queue_step_spec. by split.
  - intros Hcap. apply capNeverLowered_run; auto using sessionOk_initial.
    simpl. lia.
Qed.

Definition sessionOpts (key : string) (p : Z) : SessionEnqueueOptions :=
  {| sopt_sessionKey := key; sopt_warnAfterMs := None; sopt_priority := Some p;
     sopt_onWait := None |}.

(** Three sessions under a cap raised from 16 to 20. *)
Definition raisedCapTrace : list Event :=
  [EnqueueSessionTask 1 (sessionOpts "a" Normal) 0;
   EnqueueSessionTask 2 (sessionOpts "b" Urgent) 1;
   SetMaxConcurrentSessions 20 1;
   EnqueueSessionTask 3 (sessionOpts "c" Background) 2].

(** Two sessions are running when the cap is lowered to one. *)
Definition loweredCapTrace : list Event :=
  [EnqueueSessionTask 1 (sessionOpts "a" Normal) 0;
   EnqueueSessionTask 2 (sessionOpts "b" Normal) 1;
   SetMaxConcurrentSessions 1 2].

(** A busy session "a" with a Normal and a Background entry waiting. *)
Definition busySessionTrace : list Event :=
  [EnqueueSessionTask 1 (sessionOpts "a" Normal) 0;
   EnqueueSessionTask 2 (sessionOpts "a" Background) 1;
   EnqueueSessionTask 3 (sessionOpts "a" Normal) 2].

(** *** Named lanes: the pump *)

Lemma totalQueued_acc (bs : list (list QueueEntry)) : forall a : nat,
  foldl (fun sum bucket => (sum + length bucket)%nat) a bs
  = (a + totalQueued bs)%nat.
Proof.
  unfold totalQueued. induction bs as [|b bs IH]; intros a; simpl; [lia|].
  rewrite (IH (a + length b)%nat), (IH (length b)). lia.
Qed.

Lemma totalQueued_cons bucket bs :
  totalQueued (bucket :: bs) = (length bucket + totalQueued bs)%nat.
Proof. unfold totalQueued at 1. simpl. apply totalQueued_acc. Qed.

Lemma dequeueBuckets_total bs :
  match dequeueBuckets bs with
  | (Some _, bs') => totalQueued bs = S (totalQueued bs')
  | (None, bs') => totalQueued bs = 0%nat /\ bs' = bs
  end.
Proof.
  induction bs as [|[|e bucket] bs IH]; simpl; [done| |].
  - destruct (dequeueBuckets bs) as [[e'|] bs']; rewrite !totalQueued_cons; simpl.
    + done.
    + destruct IH as [-> ->]. done.
  - rewrite !totalQueued_cons. simpl. done.
Qed.


(** An entry is held by a lane when it waits in a bucket or was started. *)
Definition heldBy (name : string) (bs : list (list QueueEntry))
    (started : list (string * nat * QueueEntry)) (entry : QueueEntry) : Prop :=
  (exists bucket, bucket ∈ bs /\ entry ∈ bucket) \/
  (exists taskId, (name, taskId, entry) ∈ started).

Lemma pumpLoop_keeps fuel : forall name st tid started entry,
  heldBy name (buckets st) started entry ->
  let r := quietPumpLoop fuel name st tid started in
  heldBy name (buckets r.1.1) r.2 entry.
Proof.
  induction fuel as [|fuel IH]; intros name st tid started entry Hheld; simpl; [done|].
  destruct ((active st <? maxConcurrent st) && (0 <? getTotalQueued st)%nat); [|done].
  unfold dequeueHighestPriority.
  pose proof (dequeueBuckets_spec (buckets st)) as Hspec.
  destruct (dequeueBuckets (buckets st)) as [[e|] bs']; simpl in *; [|done].
  destruct Hspec as (i & rest & Hi & _ & ->).
  apply IH. simpl. destruct Hheld as [(bucket & Hb & He)|(t & Ht)].
  - apply list_elem_of_lookup in Hb as [j Hj].
    destruct (decide (i = j)) as [<-|Hne].
    + rewrite Hi in Hj. injection Hj as <-.
      apply elem_of_cons in He as [->|He].
      * right. exists tid. apply elem_of_app. right. left.
      * left. exists rest. split; [|done]. apply list_elem_of_lookup. exists i.
        apply list_lookup_insert_eq. by eapply lookup_lt_Some.
    + left. exists bucket. split; [|done]. apply list_elem_of_lookup. exists j.
      by rewrite list_lookup_insert_ne.
  - right. exists t. apply elem_of_app. by left.
Qed.

(** An entry held by a lane of the state: queued there or started from it. *)
Definition onLane (name : string) (entry : QueueEntry) (s : QueueState) : Prop :=
  exists st, JsMap.get name (lanes s) = Some st /\
             heldBy name (buckets st) (laneRunning s) entry.

Lemma pump_keeps name entry s : onLane name entry s -> onLane name entry (quietPump name s).
Proof.
  intros (st & Hget & Hheld). unfold quietPump. rewrite Hget.
  assert (Hk : heldBy name (buckets st) [] entry \/
               exists t, (name, t, entry) ∈ laneRunning s).
  { destruct Hheld as [H|H]; [left; by left|by right]. }
  destruct Hk as [Hk|(t & Ht)].
  - pose proof (pumpLoop_keeps (getTotalQueued st) name st (nextTaskId s) [] entry Hk) as H.
    destruct (quietPumpLoop _ _ _ _ _) as [[st' tid] started]. simpl in *.
    exists (withDraining st' false). simpl.
    rewrite JsMap.get_set_eq. split; [done|].
    destruct H as [H|(t & Ht)]; [by left|].
    right. exists t. apply elem_of_app. by right.
  - destruct (quietPumpLoop _ _ _ _ _) as [[st' tid] started]. simpl.
    exists (withDraining st' false). simpl.
    rewrite JsMap.get_set_eq. split; [done|].
    right. exists t. apply elem_of_app. by left.
Qed.

Lemma getLaneState_get name s :
  JsMap.get name (lanes (getLaneState name s).2) = Some (getLaneState name s).1 /\
  laneRunning (getLaneState name s).2 = laneRunning s /\
  length (buckets (getLaneState name s).1) = 3%nat \/
  JsMap.get name (lanes s) = Some (getLaneState name s).1 /\
  (getLaneState name s).2 = s.
Proof.
  unfold getLaneState. destruct (JsMap.get name (lanes s)) eqn:E; simpl.
  - right. done.
  - left. unfold withLanes. simpl. by rewrite JsMap.get_set_eq.
Qed.

(** Every lane keeps the three buckets it was created with. *)
Definition lanesOk (s : QueueState) : Prop :=
  Forall (fun kv => length (buckets kv.2) = 3%nat) (lanes s).

Lemma pumpLoop_length fuel : forall name st tid started,
  length (buckets (quietPumpLoop fuel name st tid started).1.1) = length (buckets st).
Proof.
  induction fuel as [|fuel IH]; intros name st tid started; simpl; [done|].
  destruct ((active st <? maxConcurrent st) && (0 <? getTotalQueued st)%nat); [|done].
  unfold dequeueHighestPriority.
  pose proof (dequeueBuckets_length (buckets st)) as Hl.
  destruct (dequeueBuckets (buckets st)) as [[e|] bs']; simpl in *; [|done].
  by rewrite IH.
Qed.

Lemma lanesOk_set name st s :
  lanesOk s -> length (buckets st) = 3%nat ->
  lanesOk (withLanes s (JsMap.set name st (lanes s))).
Proof.
  intros Hok Hl. unfold lanesOk. simpl.
  by apply (JsMap.Forall_values_set (fun st => length (buckets st) = 3%nat)).
Qed.

Lemma lanesOk_get name st s :
  lanesOk s -> JsMap.get name (lanes s) = Some st -> length (buckets st) = 3%nat.
Proof.
  intros Hok Hget.
  exact (JsMap.Forall_values_get (fun st => length (buckets st) = 3%nat) _ _ _ Hok Hget).
Qed.

Lemma lanesOk_pump name s : lanesOk s -> lanesOk (quietPump name s).
Proof.
  intros Hok. unfold quietPump.
  destruct (JsMap.get name (lanes s)) as [st|] eqn:Hget; [|done].
  pose proof (pumpLoop_length (getTotalQueued st) name st (nextTaskId s) []) as Hl.
  destruct (quietPumpLoop _ _ _ _ _) as [[st' tid] started]. simpl in Hl.
  unfold lanesOk. simpl.
  apply (JsMap.Forall_values_set (fun st => length (buckets st) = 3%nat)); [done|].
  simpl. rewrite Hl. by eapply lanesOk_get.
Qed.

Lemma lanesOk_getLaneState name s :
  lanesOk s ->
  lanesOk (getLaneState name s).2 /\
  length (buckets (getLaneState name s).1) = 3%nat /\
  JsMap.get name (lanes (getLaneState name s).2) = Some (getLaneState name s).1 /\
  laneRunning (getLaneState name s).2 = laneRunning s.
Proof.
  intros Hok. unfold getLaneState.
  destruct (JsMap.get name (lanes s)) as [st|] eqn:Hget; simpl.
  - split; [done|]. split; [by eapply lanesOk_get|done].
  - split; [by apply lanesOk_set|]. by rewrite JsMap.get_set_eq.
Qed.

Lemma lanesOk_drainLane name s : lanesOk s -> lanesOk (quietDrainLane name s).
Proof.
  intros Hok. unfold quietDrainLane.
  destruct (lanesOk_getLaneState name s Hok) as (Hok1 & Hl & _ & _).
  destruct (getLaneState name s) as [st s1]. simpl in *.
  destruct (draining st); [done|]. by apply lanesOk_pump, lanesOk_set.
Qed.

Lemma lanesOk_enqueueCommandInLane name tsk opts now s :
  lanesOk s -> lanesOk (quietEnqueueCommandInLane name tsk opts now s).
Proof.
  intros Hok. unfold quietEnqueueCommandInLane.
  destruct (lanesOk_getLaneState (cleanedLane name) s Hok) as (Hok1 & Hl & _ & _).
  destruct (getLaneState (cleanedLane name) s) as [st s1]. simpl in *.
  apply lanesOk_drainLane, lanesOk_set; [done|].
  unfold enqueueWithPriority. simpl. by rewrite length_alter.
Qed.

(** After [enqueueCommandInLane] the new entry is held by the cleaned lane. *)
Lemma enqueueCommandInLane_onLane name tsk opts now s :
  lanesOk s ->
  onLane (cleanedLane name)
    {| task := tsk; enqueuedAt := now;
       warnAfterMs := default 2000 (opt_warnAfterMs opts);
       priority := default Normal (opt_priority opts);
       sessionKey := None; onWait := opt_onWait opts |}
    (quietEnqueueCommandInLane name tsk opts now s).
Proof.
  intros Hok. unfold quietEnqueueCommandInLane.
  set (entry := {| task := tsk |}).
  destruct (lanesOk_getLaneState (cleanedLane name) s Hok) as (Hok1 & Hl & Hget & _).
  destruct (getLaneState (cleanedLane name) s) as [st s1]. simpl in *.
  set (s2 := withLanes s1 _).
  assert (Hon : onLane (cleanedLane name) entry s2).
  { exists (enqueueWithPriority st entry). unfold s2. simpl.
    rewrite JsMap.get_set_eq. split; [done|]. left.
    unfold enqueueWithPriority. simpl. rewrite Hl.
    set (i := Z.to_nat (bucketIndex 3 _)).
    assert (Hlt : (i < 3)%nat) by (unfold i, bucketIndex; lia).
    destruct (lookup_lt_is_Some_2 (buckets st) i) as [bucket Hb]; [lia|].
    exists (bucket ++ [entry]). split.
    - apply list_elem_of_lookup. exists i.
      by rewrite list_lookup_alter_eq, Hb.
    - apply elem_of_app. right. left. }
  unfold quietDrainLane.
  destruct Hon as (st2 & Hget2 & Hheld2).
  unfold getLaneState. rewrite Hget2.
  destruct (draining st2).
  - by exists st2.
  - apply pump_keeps. exists (withDraining st2 true). simpl.
    by rewrite JsMap.get_set_eq.
Qed.

Lemma lanes_getSessionLaneState key s :
  lanes (getSessionLaneState key s).2 = lanes s.
Proof. unfold getSessionLaneState. by destruct (JsMap.get key (sessionLanes s)). Qed.

Lemma lanes_drainSessionLane key s : lanes (quietDrainSessionLane key s) = lanes s.
Proof.
  pose proof (lanes_getSessionLaneState key s) as H.
  destruct (drainSessionLane_cases key s) as [[-> _]|(e & rest & _ & _ & _ & ->)];
    done.
Qed.

Lemma lanes_drainWaitingLoop ks : forall s, lanes (quietDrainWaitingLoop ks s) = lanes s.
Proof.
  induction ks as [|k ks IH]; intros s; simpl; [done|].
  destruct (JsMap.get k (sessionLanes s)) as [st|]; [|auto].
  destruct (negb (sl_active st) && (0 <? length (queue st))%nat); [|auto].
  destruct (_ <=? _); [apply lanes_drainSessionLane|].
  by rewrite IH, lanes_drainSessionLane.
Qed.

Lemma lanes_drainWaitingSessions s : lanes (quietDrainWaitingSessions s) = lanes s.
Proof.
  unfold quietDrainWaitingSessions. destruct (_ <=? _); [done|].
  apply lanes_drainWaitingLoop.
Qed.

Lemma lanesOk_step s ev : lanesOk s -> lanesOk (quietStep s ev).
Proof.
  intros Hok.
  assert (Hsame : forall s', lanes s' = lanes s -> lanesOk s').
  { intros s' H. unfold lanesOk. by rewrite H. }
  destruct ev as [name tsk opts now|name taskId entry ok0 now0|name n now0|name
                 |tsk opts now|key entry ok0 now0|n now0|key]; simpl.
  - by apply lanesOk_enqueueCommandInLane.
  - unfold quietLaneTaskSettled. case_bool_decide; [|done].
    destruct (JsMap.get name (lanes s)) as [st|] eqn:Hget; [|done].
    apply lanesOk_pump. unfold lanesOk. simpl.
    apply (JsMap.Forall_values_set (fun st => length (buckets st) = 3%nat)); [done|].
    simpl. by eapply lanesOk_get.
  - unfold quietSetCommandLaneConcurrency.
    destruct (lanesOk_getLaneState (cleanedLane name) s Hok) as (Hok1 & Hl & _ & _).
    destruct (getLaneState (cleanedLane name) s) as [st s1]. simpl in *.
    by apply lanesOk_drainLane, lanesOk_set.
  - unfold clearCommandLane.
    destruct (JsMap.get (cleanedLane name) (lanes s)) as [st|]; [|done].
    by apply lanesOk_set.
  - unfold quietEnqueueSessionTask.
    destruct (String.eqb (sopt_sessionKey opts) ""); [by apply lanesOk_enqueueCommandInLane|].
    pose proof (lanes_getSessionLaneState (sopt_sessionKey opts) s) as H.
    destruct (getSessionLaneState (sopt_sessionKey opts) s) as [st s1]. simpl in H.
    apply Hsame. by rewrite lanes_drainSessionLane.
  - unfold quietSessionTaskSettled. case_bool_decide; [|done].
    destruct (JsMap.get key (sessionLanes s)) as [st|]; [|done].
    apply Hsame. by rewrite lanes_drainWaitingSessions, lanes_drainSessionLane.
  - unfold quietSetMaxConcurrentSessions. destruct (_ <? _); [|done].
    apply Hsame. by rewrite lanes_drainWaitingSessions.
  - unfold clearSessionLane. by destruct (JsMap.get key (sessionLanes s)).
Qed.

Lemma lanesOk_run evs : forall s, lanesOk s -> lanesOk (quietRun evs s).
Proof.
  induction evs as [|ev evs IH]; intros s Hok; [done|].
  simpl. by apply IH, lanesOk_step.
Qed.

Lemma lanesOk_initial : lanesOk initialState.
Proof. constructor. Qed.

(** On the quiet scheduler.
    In every state the module reaches, [enqueueSessionTask] with the
    empty session key is [enqueueCommandInLane] on the main lane with the
    [warnAfterMs], [priority] and [onWait] it destructured, which is the same
    as passing the caller's options on (both functions default an absent
    option alike); the entry it builds carries them and ends up
    held by the lane named "main"; the session lanes, the active session
    counter, the cap and the started session tasks are unchanged. *)
Lemma quiet_enqueueSessionTask_without_key (evs : list Event) (tsk : nat)
    (opts : SessionEnqueueOptions) (now : Z) :
  sopt_sessionKey opts = "" ->
  let s := quietRun evs initialState in
  let s' := quietEnqueueSessionTask tsk opts now s in
  s' = quietEnqueueCommandInLane Main tsk
         {| opt_warnAfterMs := Some (default 2000 (sopt_warnAfterMs opts));
            opt_priority := Some (default Normal (sopt_priority opts));
            opt_onWait := sopt_onWait opts |} now s /\
  s' = quietEnqueueCommandInLane Main tsk
         {| opt_warnAfterMs := sopt_warnAfterMs opts;
            opt_priority := sopt_priority opts;
            opt_onWait := sopt_onWait opts |} now s /\
  onLane "main"
    {| task := tsk; enqueuedAt := now;
       warnAfterMs := default 2000 (sopt_warnAfterMs opts);
       priority := default Normal (sopt_priority opts);
       sessionKey := None; onWait := sopt_onWait opts |} s' /\
  sessionLanes s' = sessionLanes s /\
  activeSessionCount s' = activeSessionCount s /\
  maxConcurrentSessions s' = maxConcurrentSessions s /\
  sessionRunning s' = sessionRunning s.
Proof.
  intros Hkey s s'.
  assert (Heq : s' = quietEnqueueCommandInLane Main tsk
                       {| opt_warnAfterMs := sopt_warnAfterMs opts;
                          opt_priority := sopt_priority opts;
                          opt_onWait := sopt_onWait opts |} now s).
  { unfold s', quietEnqueueSessionTask. rewrite Hkey. simpl.
    unfold quietEnqueueCommandInLane. simpl. done. }
  split; [unfold s', quietEnqueueSessionTask; by rewrite Hkey|].
  split; [exact Heq|]. split.
  - rewrite Heq.
    apply (enqueueCommandInLane_onLane Main tsk
             {| opt_warnAfterMs := sopt_warnAfterMs opts;
                opt_priority := sopt_priority opts;
                opt_onWait := sopt_onWait opts |} now s).
    apply lanesOk_run, lanesOk_initial.
  - pose proof (sessionPart_enqueueCommandInLane Main tsk
                  {| opt_warnAfterMs := sopt_warnAfterMs opts;
                     opt_priority := sopt_priority opts;
                     opt_onWait := sopt_onWait opts |} now s) as Hp.
    rewrite <- Heq in Hp. unfold sessionPart in Hp.
    injection Hp as H1 H2 H3 H4. done.
Qed.

(** The main lane is busy, a session is active, and a task arrives without a
    session key. *)
Definition keylessTrace : list Event :=
  [EnqueueCommandInLane "main" 1 {| opt_warnAfterMs := None; opt_priority := None;
                                    opt_onWait := None |} 0;
   EnqueueSessionTask 2 (sessionOpts "a" Normal) 1].

(** The options and the entry of a plain task on a named lane. *)
Definition laneOpts (p : Z) : EnqueueOptions :=
  {| opt_warnAfterMs := None; opt_priority := Some p; opt_onWait := None |}.

Definition laneEntry (tsk : nat) (now p : Z) : QueueEntry :=
  {| task := tsk; enqueuedAt := now; warnAfterMs := 2000; priority := p;
     sessionKey := None; onWait := None |}.

(** *** Sums over the values of a map *)

Section sums.
Context {V : Type} (f : V -> Z).

(** [let total = 0; for (const v of map.values()) total += f(v)] *)
Definition sumValues (m : list (string * V)) : Z :=
  foldl (fun total v => total + f v) 0 (JsMap.values m).

Lemma foldl_sum_acc (vs : list V) : forall a,
  foldl (fun total v => total + f v) a vs
  = a + foldl (fun total v => total + f v) 0 vs.
Proof.
  induction vs as [|v vs IH]; intros a; simpl; [lia|].
  rewrite (IH (a + f v)), (IH (0 + f v)). lia.
Qed.

Lemma sumValues_cons k v m : sumValues ((k, v) :: m) = f v + sumValues m.
Proof. unfold sumValues. simpl. rewrite foldl_sum_acc. lia. Qed.

Lemma sumValues_set_present k v v0 m :
  JsMap.get k m = Some v0 ->
  sumValues (JsMap.set k v m) = sumValues m - f v0 + f v.
Proof.
  induction m as [|[k' v'] m IH]; simpl; [done|].
  destruct (String.eqb k k'); simpl.
  - intros [= ->]. rewrite !sumValues_cons. lia.
  - intros H. rewrite !sumValues_cons, (IH H). lia.
Qed.

Lemma sumValues_set_absent k v m :
  JsMap.get k m = None -> sumValues (JsMap.set k v m) = sumValues m + f v.
Proof.
  induction m as [|[k' v'] m IH]; simpl.
  - intros _. rewrite sumValues_cons. unfold sumValues. simpl. lia.
  - destruct (String.eqb k k'); simpl; [done|].
    intros H. rewrite !sumValues_cons, (IH H). lia.
Qed.

End sums.

(** *** Session lanes: sizes, idle lanes and the order of service *)

(** [state.queue.length + (state.active ? 1 : 0)] *)
Definition sessionLaneSize (st : SessionLaneState) : Z :=
  Z.of_nat (length (queue st)) + (if sl_active st then 1 else 0).

(** [getSessionQueueSize]: 0 for a session without a lane (none is created). *)
Definition getSessionQueueSize (key : string) (s : QueueState) : Z :=
  match JsMap.get key (sessionLanes s) with
  | None => 0
  | Some st => sessionLaneSize st
  end.

(** [getTotalSessionQueueSize] *)
Definition getTotalSessionQueueSize (s : QueueState) : Z :=
  foldl (fun total st => total + sessionLaneSize st) 0
        (JsMap.values (sessionLanes s)).

(** [clearSessionLane] returns the number of entries it dropped. *)
Definition clearSessionLaneResult (key : string) (s : QueueState) : Z :=
  match JsMap.get key (sessionLanes s) with
  | None => 0
  | Some st => Z.of_nat (length (queue st))
  end.

(** Two states with the same sizes, lane by lane and in total. *)
Definition sameSizes (s s' : QueueState) : Prop :=
  (forall k, getSessionQueueSize k s' = getSessionQueueSize k s) /\
  getTotalSessionQueueSize s' = getTotalSessionQueueSize s.

Lemma sameSizes_refl s : sameSizes s s.
Proof. by split. Qed.

Lemma sameSizes_trans s1 s2 s3 : sameSizes s1 s2 -> sameSizes s2 s3 -> sameSizes s1 s3.
Proof.
  intros [H1 T1] [H2 T2]. split; [|congruence].
  intros k. by rewrite H2, H1.
Qed.

Lemma getSessionLaneState_other key k s :
  key <> k ->
  JsMap.get k (sessionLanes (getSessionLaneState key s).2) = JsMap.get k (sessionLanes s).
Proof.
  intros Hne. unfold getSessionLaneState.
  destruct (JsMap.get key (sessionLanes s)); simpl; [done|].
  by rewrite JsMap.get_set_ne.
Qed.

Lemma getSessionLaneState_sizes key s : sameSizes s (getSessionLaneState key s).2.
Proof.
  unfold getSessionLaneState.
  destruct (JsMap.get key (sessionLanes s)) as [st|] eqn:Hget; simpl;
    [apply sameSizes_refl|].
  split.
  - intros k. unfold getSessionQueueSize. simpl.
    destruct (decide (key = k)) as [<-|Hne].
    + by rewrite JsMap.get_set_eq, Hget.
    + by rewrite JsMap.get_set_ne.
  - unfold getTotalSessionQueueSize. simpl.
    pose proof (sumValues_set_absent sessionLaneSize key
                  {| sl_sessionKey := key; queue := []; sl_active := false |}
                  (sessionLanes s) Hget) as H.
    unfold sumValues in H. rewrite H. unfold sessionLaneSize. simpl. lia.
Qed.

Lemma drainSessionLane_other key k s :
  key <> k ->
  JsMap.get k (sessionLanes (quietDrainSessionLane key s)) = JsMap.get k (sessionLanes s).
Proof.
  intros Hne. pose proof (getSessionLaneState_other key k s Hne) as H.
  destruct (drainSessionLane_cases key s) as [[-> _]|(e & rest & _ & _ & _ & ->)];
    [done|].
  simpl. by rewrite JsMap.get_set_ne.
Qed.

(** A drain moves at most one entry from the queue of its lane to the
    running tasks: no size changes. *)
Lemma drainSessionLane_sizes key s : sameSizes s (quietDrainSessionLane key s).
Proof.
  pose proof (getSessionLaneState_sizes key s) as Hs1.
  destruct (getSessionLaneState_spec key s) as (Hget & _).
  destruct (drainSessionLane_cases key s)
    as [[-> _]|(entry & rest & Ha & Hq & _ & ->)]; [done|].
  eapply sameSizes_trans; [exact Hs1|].
  set (st := (getSessionLaneState key s).1) in *.
  set (s1 := (getSessionLaneState key s).2) in *.
  split.
  - intros k. unfold getSessionQueueSize. simpl.
    destruct (decide (key = k)) as [<-|Hne].
    + rewrite JsMap.get_set_eq, Hget. unfold sessionLaneSize. simpl.
      rewrite Hq, Ha. simpl. lia.
    + by rewrite JsMap.get_set_ne.
  - unfold getTotalSessionQueueSize. simpl.
    pose proof (sumValues_set_present sessionLaneSize key
                  {| sl_sessionKey := sl_sessionKey st; queue := rest;
                     sl_active := true |} st (sessionLanes s1) Hget) as H.
    unfold sumValues in H. rewrite H. unfold sessionLaneSize. simpl.
    rewrite Hq, Ha. simpl. lia.
Qed.

Lemma drainWaitingLoop_sizes ks : forall s, sameSizes s (quietDrainWaitingLoop ks s).
Proof.
  induction ks as [|k ks IH]; intros s; simpl; [apply sameSizes_refl|].
  destruct (JsMap.get k (sessionLanes s)) as [st|]; [|apply IH].
  destruct (negb (sl_active st) && (0 <? length (queue st))%nat); [|apply IH].
  destruct (_ <=? _); [apply drainSessionLane_sizes|].
  eapply sameSizes_trans; [apply drainSessionLane_sizes|apply IH].
Qed.

Lemma drainWaitingSessions_sizes s : sameSizes s (quietDrainWaitingSessions s).
Proof.
  unfold quietDrainWaitingSessions. destruct (_ <=? _); [apply sameSizes_refl|].
  apply drainWaitingLoop_sizes.
Qed.

Lemma length_insertByPriority q entry :
  length (insertByPriority q entry) = S (length q).
Proof.
  induction q as [|e q IH]; simpl; [done|].
  destruct (priority entry <? priority e); simpl; [done|]. by rewrite IH.
Qed.

(** Replacing the queue of a lane changes the sizes by the difference of the
    queue lengths. *)
Lemma withQueue_sizes key q s :
  (forall k, getSessionQueueSize k (withQueue key q s)
             = getSessionQueueSize k s
               + (if decide (k = key)
                  then Z.of_nat (length q) - Z.of_nat (length (queueOf key s))
                  else 0)) /\
  getTotalSessionQueueSize (withQueue key q s)
  = getTotalSessionQueueSize s
    + Z.of_nat (length q) - Z.of_nat (length (queueOf key s)).
Proof.
  pose proof (getSessionLaneState_sizes key s) as [Hk Ht].
  destruct (getSessionLaneState_spec key s) as (Hget & Hq & _).
  unfold withQueue.
  pose proof (getSessionLaneState_other key) as Hother.
  destruct (getSessionLaneState key s) as [st s1]. simpl in *.
  split.
  - intros k. unfold getSessionQueueSize in *. simpl.
    destruct (decide (k = key)) as [->|Hne].
    + specialize (Hk key). rewrite Hget in Hk.
      rewrite JsMap.get_set_eq, <- Hk. unfold sessionLaneSize. simpl.
      rewrite Hq. lia.
    + rewrite JsMap.get_set_ne by done. specialize (Hk k). rewrite Hk. lia.
  - unfold getTotalSessionQueueSize in *. simpl.
    pose proof (sumValues_set_present sessionLaneSize key
                  {| sl_sessionKey := sl_sessionKey st; queue := q;
                     sl_active := sl_active st |} st (sessionLanes s1) Hget) as H.
    unfold sumValues in H. rewrite H, Ht. unfold sessionLaneSize. simpl.
    rewrite Hq. lia.
Qed.

(** The test of [drainWaitingSessions] on a lane: it is not active and has
    work queued. *)
Definition waitingIdle (st : SessionLaneState) : bool :=
  negb (sl_active st) && (0 <? length (queue st))%nat.

(** No session waits without need: the global limit is reached, or no lane
    is idle with work queued. *)
Definition noIdleSession (s : QueueState) : Prop :=
  maxConcurrentSessions s <= activeSessionCount s \/
  forall k st, JsMap.get k (sessionLanes s) = Some st -> waitingIdle st = false.

Lemma drainSessionLane_key key s :
  let s' := quietDrainSessionLane key s in
  maxConcurrentSessions s' = maxConcurrentSessions s /\
  activeSessionCount s <= activeSessionCount s' /\
  (maxConcurrentSessions s' <= activeSessionCount s' \/
   exists st', JsMap.get key (sessionLanes s') = Some st' /\ waitingIdle st' = false).
Proof.
  destruct (getSessionLaneState_spec key s) as (Hget & _ & Hcap & Hcnt & _).
  destruct (drainSessionLane_cases key s)
    as [[-> Hwhy]|(entry & rest & Ha & Hq & Hlt & ->)]; simpl.
  - split; [done|]. split; [lia|].
    destruct Hwhy as [Ha|[Hq|Hfull]].
    + right. eexists. split; [exact Hget|]. unfold waitingIdle. by rewrite Ha.
    + right. eexists. split; [exact Hget|]. unfold waitingIdle. rewrite Hq.
      apply andb_false_r.
    + left. lia.
  - split; [done|]. split; [lia|]. right. eexists.
    rewrite JsMap.get_set_eq. split; [done|]. done.
Qed.

Lemma drainWaitingLoop_noIdle ks : forall s,
  (forall k st, JsMap.get k (sessionLanes s) = Some st -> k ∉ ks ->
                waitingIdle st = false) ->
  noIdleSession (quietDrainWaitingLoop ks s).
Proof.
  induction ks as [|k ks IH]; intros s Hdone; simpl.
  - right. intros k st Hk. apply (Hdone k st Hk), not_elem_of_nil.
  - destruct (JsMap.get k (sessionLanes s)) as [st|] eqn:Hget.
    + destruct (negb (sl_active st) && (0 <? length (queue st))%nat) eqn:Hidle.
      * destruct (drainSessionLane_key k s) as (Hcap & Hcnt & Hpost).
        destruct (_ <=? _) eqn:Hle; [left; by apply Z.leb_le|].
        apply Z.leb_gt in Hle. apply IH. intros k' st' Hk' Hnin.
        destruct (decide (k = k')) as [<-|Hne].
        -- destruct Hpost as [Hfull|(st2 & Hst2 & Hok)]; [lia|congruence].
        -- rewrite drainSessionLane_other in Hk' by done.
           apply (Hdone k' st' Hk'). rewrite elem_of_cons. intros [?|?]; done.
      * apply IH. intros k' st' Hk' Hnin.
        destruct (decide (k = k')) as [<-|Hne]; [by simplify_eq|].
        apply (Hdone k' st' Hk'). rewrite elem_of_cons. intros [?|?]; done.
    + apply IH. intros k' st' Hk' Hnin. apply (Hdone k' st' Hk').
      rewrite elem_of_cons. intros [->|?]; [congruence|done].
Qed.

Lemma drainWaitingSessions_noIdle s : noIdleSession (quietDrainWaitingSessions s).
Proof.
  unfold quietDrainWaitingSessions.
  destruct (_ <=? _) eqn:Hle; [left; by apply Z.leb_le|].
  apply drainWaitingLoop_noIdle. intros k st Hk Hnin.
  exfalso. apply Hnin. by eapply JsMap.get_Some_keys.
Qed.

Lemma noIdleSession_part s s' :
  sessionPart s' = sessionPart s -> noIdleSession s -> noIdleSession s'.
Proof.
  unfold sessionPart, noIdleSession. intros [= H1 H2 H3 _]. by rewrite H1, H2, H3.
Qed.

Lemma withQueue_other key k q s :
  key <> k ->
  JsMap.get k (sessionLanes (withQueue key q s)) = JsMap.get k (sessionLanes s).
Proof.
  intros Hne. unfold withQueue.
  pose proof (getSessionLaneState_other key k s Hne) as H.
  destruct (getSessionLaneState key s) as [st s1]. simpl in *.
  by rewrite JsMap.get_set_ne.
Qed.

Lemma withQueue_counters key q s :
  maxConcurrentSessions (withQueue key q s) = maxConcurrentSessions s /\
  activeSessionCount (withQueue key q s) = activeSessionCount s.
Proof.
  unfold withQueue.
  destruct (getSessionLaneState_spec key s) as (_ & _ & Hcap & Hcnt & _).
  by destruct (getSessionLaneState key s) as [st s1].
Qed.

Lemma noIdleSession_step s ev : noIdleSession s -> noIdleSession (quietStep s ev).
Proof.
  intros Hs.
  destruct ev as [name tsk opts now|name taskId entry ok0 now0|name n now0|name
                 |tsk opts now|key entry ok0 now0|n now0|key]; simpl.
  - eapply noIdleSession_part; [apply sessionPart_enqueueCommandInLane|done].
  - eapply noIdleSession_part; [apply sessionPart_laneTaskSettled|done].
  - eapply noIdleSession_part; [apply sessionPart_setCommandLaneConcurrency|done].
  - eapply noIdleSession_part; [apply sessionPart_clearCommandLane|done].
  - destruct (decide (sopt_sessionKey opts = "")) as [He|Hne].
    { unfold quietEnqueueSessionTask. rewrite He. simpl.
      eapply noIdleSession_part; [apply sessionPart_enqueueCommandInLane|done]. }
    rewrite enqueueSessionTask_unfold by done.
    set (key := sopt_sessionKey opts).
    set (q := insertByPriority (queueOf key s) (sessionEntry tsk opts now)).
    destruct (withQueue_counters key q s) as (Hcap2 & Hcnt2).
    destruct (drainSessionLane_key key (withQueue key q s)) as (Hcap & Hcnt & Hpost).
    destruct Hpost as [Hfull|(st' & Hst' & Hok)]; [by left|].
    destruct Hs as [Hfull|Hall]; [left; lia|].
    right. intros k st Hk. destruct (decide (key = k)) as [<-|Hne'].
    + congruence.
    + rewrite drainSessionLane_other in Hk by done.
      rewrite withQueue_other in Hk by done. by eapply Hall.
  - unfold quietSessionTaskSettled. case_bool_decide; [|done].
    destruct (JsMap.get key (sessionLanes s)); [|done].
    apply drainWaitingSessions_noIdle.
  - unfold quietSetMaxConcurrentSessions. simpl.
    destruct (_ <? _) eqn:Hlt; [apply drainWaitingSessions_noIdle|].
    apply Z.ltb_ge in Hlt. simpl in Hlt.
    destruct Hs as [Hfull|Hall]; [left; simpl; lia|by right].
  - unfold clearSessionLane.
    destruct (JsMap.get key (sessionLanes s)) as [st|] eqn:Hget; [|done].
    destruct Hs as [Hfull|Hall]; [by left|].
    right. simpl. intros k st' Hk. destruct (decide (key = k)) as [<-|Hne].
    + rewrite JsMap.get_set_eq in Hk. injection Hk as <-.
      unfold waitingIdle. simpl. apply andb_false_r.
    + rewrite JsMap.get_set_ne in Hk by done. by eapply Hall.
Qed.

Lemma noIdleSession_run evs : forall s, noIdleSession s -> noIdleSession (quietRun evs s).
Proof.
  induction evs as [|ev evs IH]; intros s Hs; [done|].
  simpl. by apply IH, noIdleSession_step.
Qed.

Lemma noIdleSession_initial : noIdleSession initialState.
Proof. right. done. Qed.

Lemma drainSessionLane_starts key s st entry rest :
  JsMap.get key (sessionLanes s) = Some st ->
  sl_active st = false -> queue st = entry :: rest ->
  activeSessionCount s < maxConcurrentSessions s ->
  quietDrainSessionLane key s
  = {| lanes := lanes s; nextTaskId := nextTaskId s;
       sessionLanes :=
         JsMap.set key {| sl_sessionKey := sl_sessionKey st; queue := rest;
                          sl_active := true |} (sessionLanes s);
       maxConcurrentSessions := maxConcurrentSessions s;
       activeSessionCount := activeSessionCount s + 1;
       laneRunning := laneRunning s;
       sessionRunning := sessionRunning s ++ [(key, entry)] |}.
Proof.
  intros Hget Ha Hq Hlt. unfold quietDrainSessionLane, getSessionLaneState.
  rewrite Hget, Ha, Hq.
  destruct (maxConcurrentSessions s <=? activeSessionCount s) eqn:Hle; [|done].
  apply Z.leb_le in Hle. lia.
Qed.

Lemma withQueue_lane key q s :
  exists st, JsMap.get key (sessionLanes (withQueue key q s)) = Some st /\
             queue st = q /\
             sl_active st
             = from_option sl_active false (JsMap.get key (sessionLanes s)) /\
             sessionRunning (withQueue key q s) = sessionRunning s.
Proof.
  unfold withQueue, getSessionLaneState.
  destruct (JsMap.get key (sessionLanes s)) as [st|] eqn:Hget; simpl;
    eexists; rewrite JsMap.get_set_eq; done.
Qed.

(** A drain leaves an active lane as it is. *)
Lemma drainWaitingLoop_active ks key st : forall s,
  JsMap.get key (sessionLanes s) = Some st -> sl_active st = true ->
  JsMap.get key (sessionLanes (quietDrainWaitingLoop ks s)) = Some st.
Proof.
  induction ks as [|k ks IH]; intros s Hget Ha; simpl; [done|].
  destruct (JsMap.get k (sessionLanes s)) as [st'|] eqn:Hk; [|by apply IH].
  destruct (negb (sl_active st') && (0 <? length (queue st'))%nat) eqn:Hidle;
    [|by apply IH].
  assert (Hne : k <> key).
  { intros ->. rewrite Hget in Hk. injection Hk as <-. by rewrite Ha in Hidle. }
  destruct (_ <=? _); [by rewrite drainSessionLane_other|].
  apply IH; [|done]. by rewrite drainSessionLane_other.
Qed.

Lemma drainSessionLane_running key s :
  exists extra, sessionRunning (quietDrainSessionLane key s) = sessionRunning s ++ extra.
Proof.
  destruct (getSessionLaneState_spec key s) as (_ & _ & _ & _ & Hrun & _).
  destruct (drainSessionLane_cases key s) as [[-> _]|(e & rest & _ & _ & _ & ->)].
  - exists []. by rewrite app_nil_r.
  - by exists [(key, e)].
Qed.

Lemma drainWaitingLoop_running ks : forall s,
  exists extra, sessionRunning (quietDrainWaitingLoop ks s) = sessionRunning s ++ extra.
Proof.
  induction ks as [|k ks IH]; intros s; simpl.
  - exists []. by rewrite app_nil_r.
  - destruct (JsMap.get k (sessionLanes s)) as [st|]; [|apply IH].
    destruct (negb (sl_active st) && (0 <? length (queue st))%nat); [|apply IH].
    destruct (drainSessionLane_running k s) as [e1 H1].
    destruct (_ <=? _); [by exists e1|].
    destruct (IH (quietDrainSessionLane k s)) as [e2 H2].
    exists (e1 ++ e2). by rewrite H2, H1, app_assoc.
Qed.

Lemma drainWaitingSessions_keeps key st s :
  JsMap.get key (sessionLanes s) = Some st -> sl_active st = true ->
  JsMap.get key (sessionLanes (quietDrainWaitingSessions s)) = Some st /\
  exists extra, sessionRunning (quietDrainWaitingSessions s) = sessionRunning s ++ extra.
Proof.
  intros Hget Ha. unfold quietDrainWaitingSessions. destruct (_ <=? _).
  - split; [done|]. exists []. by rewrite app_nil_r.
  - split; [by apply drainWaitingLoop_active|apply drainWaitingLoop_running].
Qed.

(** On the quiet scheduler.
    Every session queue is sorted by priority in every state the module
    reaches, and the session scheduler serves a session in that order: when
    a task of the session settles while the number of active sessions is
    within the limit, the task started next for the session is the head of
    its queue, and no queued entry of the session has a higher priority
    (a lower priority value) than it. *)
Lemma quiet_session_next_task_by_priority (evs : list Event) (key : string) :
  let s := quietRun evs initialState in
  ordered (queueOf key s) /\
  forall settledEntry next rest,
    (key, settledEntry) ∈ sessionRunning s ->
    queueOf key s = next :: rest ->
    activeSessionCount s <= maxConcurrentSessions s ->
    let s' := quietSessionTaskSettled key settledEntry s in
    (key, next) ∈ sessionRunning s' /\
    queueOf key s' = rest /\
    Forall (fun e => priority next <= priority e) rest.
Proof.
  intros s.
  pose proof (sessionOk_run evs _ sessionOk_initial) as [Hinv Hord]. fold s in Hinv, Hord.
  pose proof (queueOf_ordered key s Hord) as Hsorted.
  split; [done|]. intros e0 next rest Hin Hq Hle s'.
  rewrite Hq in Hsorted. apply StronglySorted_inv in Hsorted as [_ Hall].
  unfold s', quietSessionTaskSettled. rewrite bool_decide_eq_true_2 by done.
  unfold queueOf in Hq.
  destruct (JsMap.get key (sessionLanes s)) as [st|] eqn:Hget; [|done].
  match goal with |- context [quietDrainSessionLane key ?s0] => set (s0' := s0) end.
  rewrite (drainSessionLane_starts key s0'
             {| sl_sessionKey := sl_sessionKey st; queue := queue st;
                sl_active := false |} next rest);
    [|unfold s0'; simpl; by rewrite JsMap.get_set_eq|done|done
     |unfold s0'; simpl; lia].
  match goal with |- context [quietDrainWaitingSessions ?s1] => set (s1' := s1) end.
  destruct (drainWaitingSessions_keeps key
              {| sl_sessionKey := sl_sessionKey st; queue := rest;
                 sl_active := true |} s1') as [Hkeep [extra Hextra]];
    [unfold s1'; simpl; by rewrite JsMap.get_set_eq|done|].
  split; [|split; [|exact Hall]].
  - rewrite Hextra. unfold s1'. simpl. rewrite !elem_of_app. left. right. left.
  - unfold queueOf. by rewrite Hkeep.
Qed.

(** On the quiet scheduler.
    Work conservation of the session scheduler.  In every state the module
    reaches, a session lane that has work queued and is not executing a task
    exists only while the number of active sessions has reached
    [maxConcurrentSessions]. *)
Lemma quiet_session_work_conserving (evs : list Event) (key : string)
    (st : SessionLaneState) :
  let s := quietRun evs initialState in
  JsMap.get key (sessionLanes s) = Some st ->
  sl_active st = false -> queue st <> [] ->
  maxConcurrentSessions s <= activeSessionCount s.
Proof.
  intros s Hget Ha Hq.
  destruct (noIdleSession_run evs _ noIdleSession_initial) as [H|H]; [done|].
  specialize (H key st Hget). unfold waitingIdle in H. rewrite Ha in H.
  by destruct (queue st).
Qed.

(** One session allowed at a time; "a" runs and "b" has to wait. *)
Definition oneSessionTrace : list Event :=
  [SetMaxConcurrentSessions 1 0;
   EnqueueSessionTask 1 (sessionOpts "a" Normal) 0;
   EnqueueSessionTask 2 (sessionOpts "b" Normal) 1].

(** On the quiet scheduler.
    Sessions do not block each other.  In every state the module reaches,
    a task enqueued for a session that is not executing a task, while the
    number of active sessions is below the limit, is started by the enqueue
    itself, however much work other sessions have queued. *)
Lemma quiet_idle_session_starts_at_once (evs : list Event) (tsk : nat)
    (opts : SessionEnqueueOptions) (now : Z) :
  let s := quietRun evs initialState in
  let key := sopt_sessionKey opts in
  key <> "" ->
  activeSessionCount s < maxConcurrentSessions s ->
  (forall st, JsMap.get key (sessionLanes s) = Some st -> sl_active st = false) ->
  let s' := quietEnqueueSessionTask tsk opts now s in
  sessionRunning s' = sessionRunning s ++ [(key, sessionEntry tsk opts now)] /\
  queueOf key s' = [] /\
  activeSessionCount s' = activeSessionCount s + 1.
Proof.
  intros s key Hne Hlt Hidle s'.
  assert (Hq : queueOf key s = []).
  { unfold queueOf. destruct (JsMap.get key (sessionLanes s)) as [st|] eqn:Hget; [|done].
    destruct (noIdleSession_run evs _ noIdleSession_initial) as [H|H];
      [fold s in H; lia|].
    specialize (H key st Hget). unfold waitingIdle in H.
    rewrite (Hidle st eq_refl) in H. by destruct (queue st). }
  unfold s'. rewrite enqueueSessionTask_unfold by done. fold key s.
  rewrite Hq. simpl.
  destruct (withQueue_lane key [sessionEntry tsk opts now] s)
    as (st2 & Hget2 & Hq2 & Ha2 & Hrun2).
  destruct (withQueue_counters key [sessionEntry tsk opts now] s) as [Hcap2 Hcnt2].
  assert (Hoff : sl_active st2 = false).
  { rewrite Ha2. destruct (JsMap.get key (sessionLanes s)) as [st|] eqn:Hget; [|done].
    simpl. by apply Hidle. }
  rewrite (drainSessionLane_starts key _ st2 (sessionEntry tsk opts now) [])
    by (done || lia).
  simpl. rewrite Hrun2, Hcnt2. split; [done|]. split; [|done].
  unfold queueOf. simpl. by rewrite JsMap.get_set_eq.
Qed.

(** Replacing the lane object of a session changes the sizes by the
    difference of the lane sizes. *)
Lemma set_lane_sizes key st st' s :
  JsMap.get key (sessionLanes s) = Some st ->
  let s' := withSessionLanes s (JsMap.set key st' (sessionLanes s)) in
  (forall k, getSessionQueueSize k s'
             = getSessionQueueSize k s
               + (if decide (k = key) then sessionLaneSize st' - sessionLaneSize st
                  else 0)) /\
  getTotalSessionQueueSize s'
  = getTotalSessionQueueSize s + sessionLaneSize st' - sessionLaneSize st.
Proof.
  intros Hget s'. split.
  - intros k. unfold getSessionQueueSize, s'. simpl.
    destruct (decide (k = key)) as [->|Hne].
    + rewrite JsMap.get_set_eq, Hget. lia.
    + rewrite JsMap.get_set_ne by done. lia.
  - unfold getTotalSessionQueueSize, s'. simpl.
    pose proof (sumValues_set_present sessionLaneSize key st' st (sessionLanes s) Hget)
      as H.
    unfold sumValues in H. rewrite H. lia.
Qed.

(** On the quiet scheduler.
    Size accounting of the session lanes, in every state the module
    reaches: [enqueueSessionTask] with a session key adds exactly one to
    [getSessionQueueSize] of that session and to
    [getTotalSessionQueueSize]; the settling of a started session task takes
    exactly one away from both; [clearSessionLane] takes away the number it
    returns, which is the number of queued entries, and leaves the started
    tasks alone.  The size of every other session stays as it is. *)
Lemma quiet_session_queue_size_accounting (evs : list Event) :
  let s := quietRun evs initialState in
  (forall tsk opts now k,
     sopt_sessionKey opts <> "" ->
     let s' := quietEnqueueSessionTask tsk opts now s in
     getSessionQueueSize k s'
     = getSessionQueueSize k s
       + (if decide (k = sopt_sessionKey opts) then 1 else 0) /\
     getTotalSessionQueueSize s' = getTotalSessionQueueSize s + 1) /\
  (forall key entry k,
     (key, entry) ∈ sessionRunning s ->
     let s' := quietSessionTaskSettled key entry s in
     getSessionQueueSize k s'
     = getSessionQueueSize k s - (if decide (k = key) then 1 else 0) /\
     getTotalSessionQueueSize s' = getTotalSessionQueueSize s - 1) /\
  (forall key k,
     let s' := clearSessionLane key s in
     clearSessionLaneResult key s = Z.of_nat (length (queueOf key s)) /\
     getSessionQueueSize k s'
     = getSessionQueueSize k s
       - (if decide (k = key) then clearSessionLaneResult key s else 0) /\
     getTotalSessionQueueSize s'
     = getTotalSessionQueueSize s - clearSessionLaneResult key s /\
     queueOf key s' = [] /\
     sessionRunning s' = sessionRunning s /\
     activeSessionCount s' = activeSessionCount s).
Proof.
  intros s.
  pose proof (sessionOk_run evs _ sessionOk_initial) as [Hinv _]. fold s in Hinv.
  split; [|split].
  - intros tsk opts now k Hne s'. unfold s'.
    rewrite enqueueSessionTask_unfold by done.
    set (key := sopt_sessionKey opts).
    set (q := insertByPriority (queueOf key s) (sessionEntry tsk opts now)).
    destruct (drainSessionLane_sizes key (withQueue key q s)) as [Hk Ht].
    destruct (withQueue_sizes key q s) as [Hk' Ht'].
    rewrite Hk, Ht, Hk', Ht'. unfold q. rewrite length_insertByPriority.
    split; [destruct (decide (k = key))|]; lia.
  - intros key entry k Hin s'. unfold s', quietSessionTaskSettled.
    rewrite bool_decide_eq_true_2 by done.
    destruct Hinv as (_ & _ & _ & Hiff).
    assert (Hk : key ∈ (sessionRunning s).*1).
    { apply list_elem_of_fmap. by exists (key, entry). }
    apply Hiff in Hk as (st & Hget & Ha). rewrite Hget.
    match goal with |- context [quietDrainSessionLane key ?s0] => set (s0' := s0) end.
    destruct (drainWaitingSessions_sizes (quietDrainSessionLane key s0')) as [H1 T1].
    destruct (drainSessionLane_sizes key s0') as [H2 T2].
    destruct (set_lane_sizes key st
                {| sl_sessionKey := sl_sessionKey st; queue := queue st;
                   sl_active := false |} s Hget) as [H3 T3].
    rewrite H1, T1, H2, T2.
    change (getSessionQueueSize k s0')
      with (getSessionQueueSize k
              (withSessionLanes s
                 (JsMap.set key {| sl_sessionKey := sl_sessionKey st;
                                   queue := queue st; sl_active := false |}
                    (sessionLanes s)))).
    change (getTotalSessionQueueSize s0')
      with (getTotalSessionQueueSize
              (withSessionLanes s
                 (JsMap.set key {| sl_sessionKey := sl_sessionKey st;
                                   queue := queue st; sl_active := false |}
                    (sessionLanes s)))).
    rewrite H3, T3. unfold sessionLaneSize. simpl. rewrite Ha.
    split; [destruct (decide (k = key))|]; lia.
  - intros key k s'. unfold s', clearSessionLane, clearSessionLaneResult, queueOf.
    destruct (JsMap.get key (sessionLanes s)) as [st|] eqn:Hget.
    + destruct (set_lane_sizes key st
                  {| sl_sessionKey := sl_sessionKey st; queue := [];
                     sl_active := sl_active st |} s Hget) as [H3 T3].
      rewrite H3, T3. unfold sessionLaneSize. simpl.
      rewrite JsMap.get_set_eq. simpl.
      split; [done|]. split; [destruct (decide (k = key)); lia|].
      split; [lia|done].
    + rewrite Hget. split; [done|]. split; [destruct (decide (k = key)); lia|].
      split; [lia|done].
Qed.

(** *** Named lanes: what a pump does *)

Local Ltac pump_stops :=
  exists []; rewrite app_nil_r; simpl;
  split; [done|]; split; [lia|]; split; [done|];
  split; [by rewrite (left_id_L ∅ (∪))|];
  split; [lia|]; split; [lia|]; split; [lia|done].

(** The tasks one run of the [while] loop of [pump] starts: they are
    numbered from [nextTaskId] on, leave the queue, are counted in [active]
    and recorded in [activeTaskIds]; the loop never lifts [active] above the
    larger of its old value and [maxConcurrent]. *)
Lemma pumpLoop_facts fuel : forall name st tid started,
  let r := quietPumpLoop fuel name st tid started in
  exists new,
    r.2 = started ++ new /\
    r.1.2 = (tid + length new)%nat /\
    new.*1 = map (fun i => (name, i)) (seq tid (length new)) /\
    activeTaskIds r.1.1 = list_to_set (seq tid (length new)) ∪ activeTaskIds st /\
    active r.1.1 = active st + Z.of_nat (length new) /\
    (getTotalQueued r.1.1 + length new = getTotalQueued st)%nat /\
    active r.1.1 <= Z.max (active st) (maxConcurrent st) /\
    maxConcurrent r.1.1 = maxConcurrent st /\
    draining r.1.1 = draining st /\
    lane r.1.1 = lane st.
Proof.
  induction fuel as [|fuel IH]; intros name st tid started; simpl.
  { pump_stops. }
  destruct ((active st <? maxConcurrent st) && (0 <? getTotalQueued st)%nat) eqn:Hguard;
    [|pump_stops].
  apply andb_true_iff in Hguard as [Hlt _]. apply Z.ltb_lt in Hlt.
  unfold dequeueHighestPriority.
  pose proof (dequeueBuckets_total (buckets st)) as Htot.
  destruct (dequeueBuckets (buckets st)) as [[entry|] bs']; [|pump_stops].
  destruct (IH name (startedLane (withBuckets st bs') tid) (S tid)
              (started ++ [(name, tid, entry)]))
    as (new & H1 & H2 & H3 & H4 & H5 & H6 & H7 & H8 & H9 & H10).
  exists ((name, tid, entry) :: new).
  split; [by rewrite H1, <- app_assoc|].
  split; [rewrite H2; simpl; lia|].
  split; [by rewrite fmap_cons, H3|].
  split.
  { rewrite H4. simpl.
    by rewrite (assoc_L (∪)), (comm_L (∪) (list_to_set _) {[tid]}). }
  split; [rewrite H5; simpl; lia|].
  split; [unfold getTotalQueued in *; simpl in *; lia|].
  split; [simpl in H7; lia|].
  by rewrite H8, H9, H10.
Qed.

(** The lane that the pump of a state leaves under [name]. *)
Definition pumpedLane (name : string) (st : LaneState) (tid : nat) : LaneState :=
  withDraining (quietPumpLoop (getTotalQueued st) name st tid []).1.1 false.

Lemma pump_unfold name s st :
  JsMap.get name (lanes s) = Some st ->
  quietPump name s
  = {| lanes := JsMap.set name (pumpedLane name st (nextTaskId s)) (lanes s);
       nextTaskId := (quietPumpLoop (getTotalQueued st) name st (nextTaskId s) []).1.2;
       sessionLanes := sessionLanes s;
       maxConcurrentSessions := maxConcurrentSessions s;
       activeSessionCount := activeSessionCount s;
       laneRunning :=
         laneRunning s ++ (quietPumpLoop (getTotalQueued st) name st (nextTaskId s) []).2;
       sessionRunning := sessionRunning s |}.
Proof.
  intros Hget. unfold quietPump, pumpedLane. rewrite Hget.
  by destruct (quietPumpLoop _ _ _ _ _) as [[st' tid] started].
Qed.

(** *** Named lanes: no lane idles with work queued *)












(** *** Named lanes: sizes and the concurrency limit *)

(** [getTotalQueued(state) + state.active] *)
Definition laneSize (st : LaneState) : Z := Z.of_nat (getTotalQueued st) + active st.

(** Size, number of executing tasks and limit of the lane stored under a
    key; a lane that does not exist yet counts as the lane [getLaneState]
    would create. *)
Definition laneSizeOf (k : string) (ls : list (string * LaneState)) : Z :=
  from_option laneSize 0 (JsMap.get k ls).

Definition laneActiveOf (k : string) (ls : list (string * LaneState)) : Z :=
  from_option active 0 (JsMap.get k ls).

Definition laneCapOf (k : string) (ls : list (string * LaneState)) : Z :=
  from_option maxConcurrent 1 (JsMap.get k ls).

Definition totalSize (ls : list (string * LaneState)) : Z :=
  foldl (fun total st => total + laneSize st) 0 (JsMap.values ls).

(** [getQueueSize(lane)]: no lane is created for the question. *)
Definition getQueueSize (name : string) (s : QueueState) : Z :=
  match JsMap.get (cleanedLane name) (lanes s) with
  | None => 0
  | Some st => laneSize st
  end.

(** [getTotalQueueSize()] *)
Definition getTotalQueueSize (s : QueueState) : Z := totalSize (lanes s).

(** [getActiveTaskCount()] *)
Definition getActiveTaskCount (s : QueueState) : Z :=
  foldl (fun total st => total + active st) 0 (JsMap.values (lanes s)).

(** The number [clearCommandLane] returns. *)
Definition clearCommandLaneResult (name : string) (s : QueueState) : Z :=
  match JsMap.get (cleanedLane name) (lanes s) with
  | None => 0
  | Some st => Z.of_nat (getTotalQueued st)
  end.

(** The lanes after an operation that moves entries from queues to
    execution only: sizes and limits are the same, and [active] grew at most
    up to the limit. *)
Definition kept (ls ls' : list (string * LaneState)) : Prop :=
  (forall k, laneSizeOf k ls' = laneSizeOf k ls /\
             laneCapOf k ls' = laneCapOf k ls /\
             laneActiveOf k ls <= laneActiveOf k ls'
               <= Z.max (laneActiveOf k ls) (laneCapOf k ls)) /\
  totalSize ls' = totalSize ls.

Lemma kept_refl ls : kept ls ls.
Proof. split; [|done]. intros k. lia. Qed.

Lemma kept_trans ls1 ls2 ls3 : kept ls1 ls2 -> kept ls2 ls3 -> kept ls1 ls3.
Proof.
  intros [H1 T1] [H2 T2]. split; [|congruence].
  intros k. specialize (H1 k). specialize (H2 k). lia.
Qed.

(** The measures after [Map.prototype.set] on an existing key. *)
Lemma measures_set name st st' ls :
  JsMap.get name ls = Some st ->
  (forall k,
     laneSizeOf k (JsMap.set name st' ls)
     = (if decide (k = name) then laneSize st' else laneSizeOf k ls) /\
     laneCapOf k (JsMap.set name st' ls)
     = (if decide (k = name) then maxConcurrent st' else laneCapOf k ls) /\
     laneActiveOf k (JsMap.set name st' ls)
     = (if decide (k = name) then active st' else laneActiveOf k ls)) /\
  totalSize (JsMap.set name st' ls) = totalSize ls + laneSize st' - laneSize st.
Proof.
  intros Hget. split.
  - intros k. unfold laneSizeOf, laneCapOf, laneActiveOf.
    destruct (decide (k = name)) as [->|Hne].
    + by rewrite JsMap.get_set_eq.
    + by rewrite JsMap.get_set_ne.
  - pose proof (sumValues_set_present laneSize name st' st ls Hget) as H.
    unfold sumValues in H. unfold totalSize. rewrite H. lia.
Qed.

Lemma kept_set name st st' ls :
  JsMap.get name ls = Some st ->
  laneSize st' = laneSize st -> maxConcurrent st' = maxConcurrent st ->
  active st <= active st' <= Z.max (active st) (maxConcurrent st) ->
  kept ls (JsMap.set name st' ls).
Proof.
  intros Hget Hs Hc Ha. destruct (measures_set name st st' ls Hget) as [Hk Ht].
  split; [|lia]. intros k. destruct (Hk k) as (-> & -> & ->).
  unfold laneSizeOf, laneCapOf, laneActiveOf.
  destruct (decide (k = name)) as [->|Hne]; [|lia].
  rewrite Hget. simpl. lia.
Qed.

Lemma getLaneState_lookup name s :
  JsMap.get name (lanes (getLaneState name s).2) = Some (getLaneState name s).1.
Proof.
  unfold getLaneState. destruct (JsMap.get name (lanes s)) eqn:Hget; simpl; [done|].
  by rewrite JsMap.get_set_eq.
Qed.

Lemma kept_getLaneState name s : kept (lanes s) (lanes (getLaneState name s).2).
Proof.
  unfold getLaneState.
  destruct (JsMap.get name (lanes s)) as [st|] eqn:Hget; simpl; [apply kept_refl|].
  split.
  - intros k. unfold laneSizeOf, laneCapOf, laneActiveOf.
    destruct (decide (name = k)) as [<-|Hne].
    + rewrite JsMap.get_set_eq, Hget. simpl.
      split; [reflexivity|]. split; [reflexivity|]. lia.
    + rewrite JsMap.get_set_ne by done. lia.
  - pose proof (sumValues_set_absent laneSize name (newLane name) (lanes s) Hget) as H.
    unfold sumValues in H. unfold totalSize.
    change {| lane := name; buckets := createEmptyBuckets; active := 0;
              activeTaskIds := ∅; maxConcurrent := 1; draining := false |}
      with (newLane name).
    rewrite H. change (laneSize (newLane name)) with 0. lia.
Qed.

Lemma kept_pump name s : kept (lanes s) (lanes (quietPump name s)).
Proof.
  destruct (JsMap.get name (lanes s)) as [st|] eqn:Hget.
  - rewrite (pump_unfold name s st Hget). simpl.
    destruct (pumpLoop_facts (getTotalQueued st) name st (nextTaskId s) [])
      as (new & _ & _ & _ & _ & H5 & H6 & H7 & H8 & _).
    apply (kept_set name st); [done| | |]; unfold pumpedLane, laneSize; simpl.
    + change (getTotalQueued (withDraining ?x false)) with (getTotalQueued x). lia.
    + done.
    + lia.
  - unfold quietPump. rewrite Hget. apply kept_refl.
Qed.

Lemma kept_drainLane name s : kept (lanes s) (lanes (quietDrainLane name s)).
Proof.
  unfold quietDrainLane.
  pose proof (kept_getLaneState name s) as H1.
  pose proof (getLaneState_lookup name s) as Hget.
  destruct (getLaneState name s) as [st s1]. simpl in *.
  destruct (draining st); [done|].
  eapply kept_trans; [exact H1|]. eapply kept_trans; [|apply kept_pump].
  simpl. apply (kept_set name st); [done|done|done|simpl; lia].
Qed.

(** Lanes whose queue grew by one entry under [name]. *)
Definition grownAt (name : string) (ls ls' : list (string * LaneState)) : Prop :=
  (forall k, laneSizeOf k ls'
             = laneSizeOf k ls + (if decide (k = name) then 1 else 0) /\
             laneCapOf k ls' = laneCapOf k ls /\
             laneActiveOf k ls <= laneActiveOf k ls'
               <= Z.max (laneActiveOf k ls) (laneCapOf k ls)) /\
  totalSize ls' = totalSize ls + 1.

Lemma totalQueued_alter (bs : list (list QueueEntry)) (i : nat) entry :
  (i < length bs)%nat ->
  totalQueued (alter (fun bucket => bucket ++ [entry]) i bs) = S (totalQueued bs).
Proof.
  revert i. induction bs as [|b bs IH]; intros i Hi; simpl in Hi; [lia|].
  destruct i as [|i]; simpl.
  - rewrite !totalQueued_cons, length_app. simpl. lia.
  - change (list_alter ?f i bs) with (alter f i bs).
    rewrite !totalQueued_cons, IH by lia. lia.
Qed.

Lemma enqueueCommandInLane_grows name tsk opts now s :
  lanesOk s ->
  grownAt (cleanedLane name) (lanes s) (lanes (quietEnqueueCommandInLane name tsk opts now s)).
Proof.
  intros Hok. unfold quietEnqueueCommandInLane.
  set (c := cleanedLane name).
  set (entry := {| task := tsk |}).
  pose proof (kept_getLaneState c s) as [K1 T1].
  destruct (lanesOk_getLaneState c s Hok) as (_ & Hlen & Hget & _).
  destruct (getLaneState c s) as [st s1]. simpl in *.
  set (st2 := enqueueWithPriority st entry).
  pose proof (kept_drainLane c (withLanes s1 (JsMap.set c st2 (lanes s1)))) as [K3 T3].
  simpl in K3, T3.
  destruct (measures_set c st st2 (lanes s1) Hget) as [K2 T2].
  assert (Hsize : laneSize st2 = laneSize st + 1).
  { unfold st2, laneSize, getTotalQueued, enqueueWithPriority. simpl.
    rewrite totalQueued_alter; [lia|]. rewrite Hlen. unfold bucketIndex. lia. }
  split.
  - intros k. destruct (K1 k) as (S1 & C1 & A1). destruct (K2 k) as (S2 & C2 & A2).
    destruct (K3 k) as (S3 & C3 & A3).
    rewrite S3, C3, S2, C2. rewrite A2 in A3. rewrite C2 in A3.
    unfold laneSizeOf, laneCapOf, laneActiveOf in *.
    destruct (decide (k = c)) as [->|Hne].
    + rewrite Hget in *. simpl in *. unfold st2 in *. simpl in *. lia.
    + lia.
  - rewrite T3, T2, T1. lia.
Qed.

(** *** Named lanes: the books of the executing tasks *)

Definition laneOf (r : string * nat * QueueEntry) : string := r.1.1.
Definition tidOf (r : string * nat * QueueEntry) : nat := r.1.2.

(** The books are right: lane names are unique; task ids are unique and
    below [nextTaskId]; every executing task belongs to a lane that exists;
    [activeTaskIds] of a lane holds the ids of the tasks executing on it and
    [active] is their number; the sum of the [active] counters is the number
    of executing tasks. *)
Definition laneBookOn (ls : list (string * LaneState)) (n : nat)
    (running : list (string * nat * QueueEntry)) : Prop :=
  JsMap.wf ls /\
  NoDup (tidOf <$> running) /\
  (forall r, r ∈ running ->
     (tidOf r < n)%nat /\ is_Some (JsMap.get (laneOf r) ls)) /\
  (forall name st, JsMap.get name ls = Some st ->
     (forall t, t ∈ activeTaskIds st <-> exists e, (name, t, e) ∈ running) /\
     active st = Z.of_nat (size (activeTaskIds st))) /\
  sumValues active ls = Z.of_nat (length running).

Definition laneBook (s : QueueState) : Prop :=
  laneBookOn (lanes s) (nextTaskId s) (laneRunning s).

Lemma get_set_is_Some {V} k name (v : V) (m : list (string * V)) :
  is_Some (JsMap.get k m) -> is_Some (JsMap.get k (JsMap.set name v m)).
Proof.
  intros H. destruct (decide (name = k)) as [<-|Hne].
  - rewrite JsMap.get_set_eq. by eexists.
  - by rewrite JsMap.get_set_ne.
Qed.

(** A lane object is replaced by one with the same books. *)
Lemma laneBookOn_update ls n running name st st' :
  laneBookOn ls n running ->
  JsMap.get name ls = Some st ->
  activeTaskIds st' = activeTaskIds st -> active st' = active st ->
  laneBookOn (JsMap.set name st' ls) n running.
Proof.
  intros (Hwf & Hnd & Hrun & Hlane & Hsum) Hget Hids Hact.
  split; [by apply JsMap.wf_set|]. split; [done|]. split; [|split].
  - intros r Hr. destruct (Hrun r Hr) as [Hlt Hsome].
    split; [done|]. by apply get_set_is_Some.
  - intros k st0 Hk. destruct (decide (name = k)) as [<-|Hne].
    + rewrite JsMap.get_set_eq in Hk. injection Hk as <-.
      rewrite Hids, Hact. by apply Hlane.
    + rewrite JsMap.get_set_ne in Hk by done. by apply Hlane.
  - rewrite (sumValues_set_present active name st' st ls Hget). lia.
Qed.

(** A lane is created. *)
Lemma laneBookOn_create ls n running name :
  laneBookOn ls n running ->
  JsMap.get name ls = None ->
  laneBookOn (JsMap.set name (newLane name) ls) n running.
Proof.
  intros (Hwf & Hnd & Hrun & Hlane & Hsum) Hget.
  split; [by apply JsMap.wf_set|]. split; [done|]. split; [|split].
  - intros r Hr. destruct (Hrun r Hr) as [Hlt Hsome].
    split; [done|]. by apply get_set_is_Some.
  - intros k st0 Hk. destruct (decide (name = k)) as [<-|Hne].
    + rewrite JsMap.get_set_eq in Hk. injection Hk as <-. split.
      * intros t. simpl. split; [intros Ht; by apply elem_of_empty in Ht|].
        intros [e He]. destruct (Hrun _ He) as [_ [x Hx]].
        unfold laneOf in Hx. simpl in Hx. congruence.
      * change (0 = Z.of_nat (size (∅ : gset nat))). by rewrite size_empty.
    + rewrite JsMap.get_set_ne in Hk by done. by apply Hlane.
  - rewrite (sumValues_set_absent active name (newLane name) ls Hget). simpl. lia.
Qed.

Lemma laneBook_getLaneState name s : laneBook s -> laneBook (getLaneState name s).2.
Proof.
  intros Hb. unfold getLaneState.
  destruct (JsMap.get name (lanes s)) as [st|] eqn:Hget; [done|].
  by apply laneBookOn_create.
Qed.

Lemma started_tids name (new : list (string * nat * QueueEntry)) (n : nat) :
  new.*1 = map (fun i => (name, i)) (seq n (length new)) ->
  tidOf <$> new = seq n (length new) /\
  Forall (fun r => laneOf r = name) new.
Proof.
  revert n. induction new as [|[[k t] e] new IH]; intros n H; [done|].
  rewrite fmap_cons in H. simpl in H.
  injection H as -> -> H. destruct (IH _ H) as [H1 H2].
  split; [|by constructor].
  rewrite fmap_cons, H1. done.
Qed.

(** The pump starts tasks: the books follow. *)
Lemma laneBookOn_start ls n running name st st' new :
  laneBookOn ls n running ->
  JsMap.get name ls = Some st ->
  new.*1 = map (fun i => (name, i)) (seq n (length new)) ->
  activeTaskIds st' = list_to_set (seq n (length new)) ∪ activeTaskIds st ->
  active st' = active st + Z.of_nat (length new) ->
  laneBookOn (JsMap.set name st' ls) (n + length new) (running ++ new).
Proof.
  intros (Hwf & Hnd & Hrun & Hlane & Hsum) Hget Hnew Hids Hact.
  destruct (started_tids name new n Hnew) as [Htids Hlanes].
  rewrite Forall_forall in Hlanes.
  destruct (Hlane name st Hget) as [Hiff Hsize].
  assert (Hold : forall t, t ∈ activeTaskIds st -> (t < n)%nat).
  { intros t Ht. apply Hiff in Ht as [e He]. by destruct (Hrun _ He). }
  split; [by apply JsMap.wf_set|]. split; [|split; [|split]].
  - rewrite fmap_app, Htids. apply NoDup_app. split; [done|]. split; [|apply NoDup_seq].
    intros t Ht Hs. apply elem_of_seq in Hs.
    apply list_elem_of_fmap in Ht as (r & -> & Hr). destruct (Hrun r Hr). lia.
  - intros r Hr. apply elem_of_app in Hr as [Hr|Hr].
    + destruct (Hrun r Hr) as [Hlt Hsome]. split; [lia|].
      by apply get_set_is_Some.
    + split.
      * assert (Ht : tidOf r ∈ tidOf <$> new) by by apply list_elem_of_fmap_2.
        rewrite Htids in Ht. apply elem_of_seq in Ht. lia.
      * rewrite (Hlanes r Hr), JsMap.get_set_eq. by eexists.
  - intros k st0 Hk. destruct (decide (name = k)) as [<-|Hne].
    + rewrite JsMap.get_set_eq in Hk. injection Hk as <-. split.
      * intros t. rewrite Hids, elem_of_union, elem_of_list_to_set, Hiff.
        split.
        -- intros [Ht|[e He]].
           ++ rewrite <- Htids in Ht.
              apply list_elem_of_fmap in Ht as ([[k t'] e] & Heq & Hr).
              pose proof (Hlanes _ Hr) as Hl. unfold laneOf, tidOf in *.
              simpl in *. subst. exists e. apply elem_of_app. by right.
           ++ exists e. apply elem_of_app. by left.
        -- intros [e He]. apply elem_of_app in He as [He|He]; [right; by exists e|].
           left. rewrite <- Htids.
           by apply (list_elem_of_fmap_2' tidOf _ (name, t, e)).
      * rewrite Hact, Hids, size_union.
        -- rewrite size_list_to_set by apply NoDup_seq.
           rewrite length_seq, Hsize. lia.
        -- intros t Ht1 Ht2. apply elem_of_list_to_set, elem_of_seq in Ht1.
           apply Hold in Ht2. lia.
    + rewrite JsMap.get_set_ne in Hk by done.
      destruct (Hlane k st0 Hk) as [Hiff' Hsize']. split; [|done].
      intros t. rewrite Hiff'. split.
      * intros [e He]. exists e. apply elem_of_app. by left.
      * intros [e He]. apply elem_of_app in He as [He|He]; [by exists e|].
        pose proof (Hlanes _ He) as Hl. unfold laneOf in Hl. simpl in Hl. congruence.
  - rewrite (sumValues_set_present active name st' st ls Hget), length_app. lia.
Qed.

Lemma laneBook_pump name s : laneBook s -> laneBook (quietPump name s).
Proof.
  intros Hb. destruct (JsMap.get name (lanes s)) as [st|] eqn:Hget.
  - rewrite (pump_unfold name s st Hget).
    destruct (pumpLoop_facts (getTotalQueued st) name st (nextTaskId s) [])
      as (new & H1 & H2 & H3 & H4 & H5 & _).
    unfold laneBook. simpl. rewrite H1, H2. simpl.
    by apply (laneBookOn_start _ _ _ name st).
  - unfold quietPump. by rewrite Hget.
Qed.

Lemma laneBook_drainLane name s : laneBook s -> laneBook (quietDrainLane name s).
Proof.
  intros Hb. unfold quietDrainLane.
  pose proof (laneBook_getLaneState name s Hb) as Hb1.
  pose proof (getLaneState_lookup name s) as Hget.
  destruct (getLaneState name s) as [st s1]. simpl in *.
  destruct (draining st); [done|].
  apply laneBook_pump. unfold laneBook. simpl.
  by apply (laneBookOn_update _ _ _ name st).
Qed.

Lemma same_tid (running : list (string * nat * QueueEntry)) r r' :
  NoDup (tidOf <$> running) -> r ∈ running -> r' ∈ running ->
  tidOf r = tidOf r' -> r = r'.
Proof.
  induction running as [|x running IH]; simpl; intros Hnd Hr Hr'.
  - by apply elem_of_nil in Hr.
  - apply NoDup_cons in Hnd as [Hx Hnd]. intros Heq.
    apply elem_of_cons in Hr as [->|Hr]; apply elem_of_cons in Hr' as [->|Hr'].
    + done.
    + exfalso. apply Hx. rewrite Heq. by apply list_elem_of_fmap_2.
    + exfalso. apply Hx. rewrite <- Heq. by apply list_elem_of_fmap_2.
    + by apply IH.
Qed.

Lemma length_remove (running : list (string * nat * QueueEntry)) r :
  NoDup (tidOf <$> running) -> r ∈ running ->
  (length (filter (fun x => x <> r) running) + 1 = length running)%nat.
Proof.
  induction running as [|x running IH]; simpl; intros Hnd Hr.
  - by apply elem_of_nil in Hr.
  - apply NoDup_cons in Hnd as [Hx Hnd].
    destruct (decide (x = r)) as [->|Hne].
    + rewrite filter_cons_False by (intros H; by apply H).
      assert (Hsame : filter (fun y => y <> r) running = running).
      { clear IH Hnd Hr. induction running as [|y running IH]; [done|].
        rewrite filter_cons_True.
        - f_equal. apply IH. intros H. apply Hx. simpl. by right.
        - intros ->. apply Hx. simpl. left. }
      rewrite Hsame. lia.
    + rewrite filter_cons_True by done. simpl.
      apply elem_of_cons in Hr as [->|Hr]; [done|].
      specialize (IH Hnd Hr). lia.
Qed.

(** A task settles: the books follow. *)
Lemma laneBookOn_settle ls n running name taskId entry st :
  laneBookOn ls n running ->
  (name, taskId, entry) ∈ running ->
  JsMap.get name ls = Some st ->
  laneBookOn (JsMap.set name (settledLane st taskId) ls) n
    (filter (fun r => r <> (name, taskId, entry)) running).
Proof.
  intros (Hwf & Hnd & Hrun & Hlane & Hsum) Hin Hget.
  destruct (Hlane name st Hget) as [Hiff Hsize].
  split; [by apply JsMap.wf_set|]. split; [|split; [|split]].
  - apply (sublist_NoDup _ (tidOf <$> running)); [exact Hnd|].
    apply fmap_sublist, sublist_filter.
  - intros r Hr. apply list_elem_of_filter in Hr as [_ Hr].
    destruct (Hrun r Hr) as [Hlt Hsome]. split; [done|]. by apply get_set_is_Some.
  - intros k st0 Hk. destruct (decide (name = k)) as [<-|Hne].
    + rewrite JsMap.get_set_eq in Hk. injection Hk as <-. simpl. split.
      * intros t. rewrite elem_of_difference, elem_of_singleton, Hiff. split.
        -- intros [[e He] Hne]. exists e. apply list_elem_of_filter.
           split; [|done]. intros [= ?]. done.
        -- intros [e He]. apply list_elem_of_filter in He as [Hne He].
           split; [by exists e|]. intros ->. apply Hne.
           by apply (same_tid running).
      * rewrite size_difference, size_singleton.
        -- assert (0 < size (activeTaskIds st))%nat; [|lia].
           assert (Ht : taskId ∈ activeTaskIds st) by (apply Hiff; by exists entry).
           destruct (decide (size (activeTaskIds st) = 0%nat)) as [H0|]; [|lia].
           apply size_empty_inv in H0. apply H0 in Ht. by apply elem_of_empty in Ht.
        -- intros t Ht. apply elem_of_singleton in Ht as ->. apply Hiff. by exists entry.
    + rewrite JsMap.get_set_ne in Hk by done.
      destruct (Hlane k st0 Hk) as [Hiff' Hsize']. split; [|done].
      intros t. rewrite Hiff'. split.
      * intros [e He]. exists e. apply list_elem_of_filter. split; [|done].
        intros [= ? ? ?]. done.
      * intros [e He]. apply list_elem_of_filter in He as [_ He]. by exists e.
  - rewrite (sumValues_set_present active name _ st ls Hget). simpl.
    pose proof (length_remove running (name, taskId, entry) Hnd Hin). lia.
Qed.

Lemma laneBook_same s s' :
  lanes s' = lanes s -> nextTaskId s' = nextTaskId s -> laneRunning s' = laneRunning s ->
  laneBook s -> laneBook s'.
Proof. unfold laneBook. intros -> -> ->. done. Qed.

(** The named lanes' share of the state. *)
Definition namedPart (s : QueueState)
  : list (string * LaneState) * nat * list (string * nat * QueueEntry) :=
  (lanes s, nextTaskId s, laneRunning s).

Lemma namedPart_getSessionLaneState key s :
  namedPart (getSessionLaneState key s).2 = namedPart s.
Proof. unfold getSessionLaneState. by destruct (JsMap.get key (sessionLanes s)). Qed.

Lemma namedPart_drainSessionLane key s :
  namedPart (quietDrainSessionLane key s) = namedPart s.
Proof.
  pose proof (namedPart_getSessionLaneState key s) as H.
  destruct (drainSessionLane_cases key s) as [[-> _]|(e & rest & _ & _ & _ & ->)];
    done.
Qed.

Lemma namedPart_drainWaitingLoop ks : forall s,
  namedPart (quietDrainWaitingLoop ks s) = namedPart s.
Proof.
  induction ks as [|k ks IH]; intros s; simpl; [done|].
  destruct (JsMap.get k (sessionLanes s)) as [st|]; [|auto].
  destruct (negb (sl_active st) && (0 <? length (queue st))%nat); [|auto].
  destruct (_ <=? _); [apply namedPart_drainSessionLane|].
  by rewrite IH, namedPart_drainSessionLane.
Qed.

Lemma namedPart_drainWaitingSessions s :
  namedPart (quietDrainWaitingSessions s) = namedPart s.
Proof.
  unfold quietDrainWaitingSessions. destruct (_ <=? _); [done|].
  apply namedPart_drainWaitingLoop.
Qed.

(** The events that leave the named lanes alone. *)
Definition sessionOnly (ev : Event) : bool :=
  match ev with
  | EnqueueSessionTask _ opts _ => negb (String.eqb (sopt_sessionKey opts) "")
  | SessionTaskSettled _ _ _ _ | SetMaxConcurrentSessions _ _ | ClearSessionLane _ => true
  | _ => false
  end.

Lemma namedPart_sessionOnly s ev :
  sessionOnly ev = true -> namedPart (quietStep s ev) = namedPart s.
Proof.
  destruct ev as [name tsk opts now|name taskId entry ok0 now0|name n now0|name
                 |tsk opts now|key entry ok0 now0|n now0|key]; simpl; try done.
  - intros Hne. unfold quietEnqueueSessionTask.
    destruct (String.eqb (sopt_sessionKey opts) ""); [done|].
    pose proof (namedPart_getSessionLaneState (sopt_sessionKey opts) s) as H.
    destruct (getSessionLaneState (sopt_sessionKey opts) s) as [st s1]. simpl in H.
    by rewrite namedPart_drainSessionLane.
  - intros _. unfold quietSessionTaskSettled. case_bool_decide; [|done].
    destruct (JsMap.get key (sessionLanes s)) as [st|]; [|done].
    by rewrite namedPart_drainWaitingSessions, namedPart_drainSessionLane.
  - intros _. unfold quietSetMaxConcurrentSessions. destruct (_ <? _); [|done].
    by rewrite namedPart_drainWaitingSessions.
  - intros _. unfold clearSessionLane. by destruct (JsMap.get key (sessionLanes s)).
Qed.

Lemma keyless_enqueue tsk opts now s :
  String.eqb (sopt_sessionKey opts) "" = true ->
  quietEnqueueSessionTask tsk opts now s
  = quietEnqueueCommandInLane Main tsk
      {| opt_warnAfterMs := Some (default 2000 (sopt_warnAfterMs opts));
         opt_priority := Some (default Normal (sopt_priority opts));
         opt_onWait := sopt_onWait opts |} now s.
Proof. intros H. unfold quietEnqueueSessionTask. by rewrite H. Qed.

Lemma laneBook_part s s' : namedPart s' = namedPart s -> laneBook s -> laneBook s'.
Proof. unfold namedPart, laneBook. intros [= -> -> ->]. done. Qed.

Lemma laneBook_enqueueCommandInLane name tsk opts now s :
  laneBook s -> laneBook (quietEnqueueCommandInLane name tsk opts now s).
Proof.
  intros Hb. unfold quietEnqueueCommandInLane.
  pose proof (laneBook_getLaneState (cleanedLane name) s Hb) as Hb1.
  pose proof (getLaneState_lookup (cleanedLane name) s) as Hget.
  destruct (getLaneState (cleanedLane name) s) as [st s1]. simpl in *.
  apply laneBook_drainLane. unfold laneBook. simpl.
  by apply (laneBookOn_update _ _ _ (cleanedLane name) st).
Qed.

Lemma laneBook_step s ev : laneBook s -> laneBook (quietStep s ev).
Proof.
  intros Hb. destruct (sessionOnly ev) eqn:Hev.
  { eapply laneBook_part; [by apply namedPart_sessionOnly|done]. }
  destruct ev as [name tsk opts now|name taskId entry ok0 now0|name n now0|name
                 |tsk opts now|key entry ok0 now0|n now0|key]; simpl in *; try done.
  - by apply laneBook_enqueueCommandInLane.
  - unfold quietLaneTaskSettled. case_bool_decide as Hin; [|done].
    destruct (JsMap.get name (lanes s)) as [st|] eqn:Hget; [|done].
    apply laneBook_pump. unfold laneBook. simpl.
    by apply laneBookOn_settle.
  - unfold quietSetCommandLaneConcurrency.
    pose proof (laneBook_getLaneState (cleanedLane name) s Hb) as Hb1.
    pose proof (getLaneState_lookup (cleanedLane name) s) as Hget.
    destruct (getLaneState (cleanedLane name) s) as [st s1]. simpl in *.
    apply laneBook_drainLane. unfold laneBook. simpl.
    by apply (laneBookOn_update _ _ _ (cleanedLane name) st).
  - unfold clearCommandLane.
    destruct (JsMap.get (cleanedLane name) (lanes s)) as [st|] eqn:Hget; [|done].
    unfold laneBook. simpl. by apply (laneBookOn_update _ _ _ (cleanedLane name) st).
  - apply negb_false_iff in Hev. rewrite keyless_enqueue by done.
    by apply laneBook_enqueueCommandInLane.
Qed.

Lemma laneBook_run evs : forall s, laneBook s -> laneBook (quietRun evs s).
Proof.
  induction evs as [|ev evs IH]; intros s Hb; [done|].
  simpl. by apply IH, laneBook_step.
Qed.

Lemma laneBook_initial : laneBook initialState.
Proof.
  split; [constructor|]. split; [constructor|]. split; [|split; [|done]].
  - intros r Hr. by apply elem_of_nil in Hr.
  - intros name st H. done.
Qed.

(** Tasks the pump of a lane has started and not yet seen settle, counted
    from the list of executing tasks. *)
Definition runningOn (name : string) (s : QueueState)
  : list (string * nat * QueueEntry) :=
  filter (fun r => laneOf r = name) (laneRunning s).

(** On the quiet scheduler.
    The books of the named lanes are right in every state the module
    reaches.  Task ids are unique among the executing tasks and below
    [nextTaskId]; for every lane, [activeTaskIds] is the set of ids of the
    tasks started on the lane and not settled yet, and [active] is their
    number; [getActiveTaskCount()] is the number of all tasks executing on
    named lanes (tasks of session lanes are not counted). *)
Lemma quiet_named_lane_books (evs : list Event) :
  let s := quietRun evs initialState in
  NoDup (tidOf <$> laneRunning s) /\
  (forall r, r ∈ laneRunning s -> (tidOf r < nextTaskId s)%nat) /\
  (forall name st, JsMap.get name (lanes s) = Some st ->
     (forall t, t ∈ activeTaskIds st <-> exists e, (name, t, e) ∈ laneRunning s) /\
     active st = Z.of_nat (size (activeTaskIds st)) /\
     active st = Z.of_nat (length (runningOn name s))) /\
  getActiveTaskCount s = Z.of_nat (length (laneRunning s)).
Proof.
  intros s.
  pose proof (laneBook_run evs _ laneBook_initial) as (Hwf & Hnd & Hrun & Hlane & Hsum).
  fold s in Hwf, Hnd, Hrun, Hlane, Hsum.
  split; [done|]. split; [intros r Hr; by destruct (Hrun r Hr)|]. split; [|done].
  intros name st Hget. destruct (Hlane name st Hget) as [Hiff Hsize].
  split; [done|]. split; [done|]. rewrite Hsize. f_equal.
  assert (Hset : activeTaskIds st = list_to_set (tidOf <$> runningOn name s)).
  { apply set_eq. intros t. rewrite Hiff, elem_of_list_to_set, list_elem_of_fmap.
    unfold runningOn. split.
    - intros [e He]. exists (name, t, e). split; [done|].
      by apply list_elem_of_filter.
    - intros ([[k t'] e] & -> & Hr). apply list_elem_of_filter in Hr as [Hk Hr].
      unfold laneOf, tidOf in *. simpl in *. subst. by exists e. }
  rewrite Hset, size_list_to_set, length_fmap; [done|].
  apply (sublist_NoDup _ (tidOf <$> laneRunning s)); [exact Hnd|].
  apply fmap_sublist, sublist_filter.
Qed.






(** Lane "main", raised to two tasks at a time and given three. *)
Definition twoAtATimeTrace : list Event :=
  [SetCommandLaneConcurrency "main" 2 0;
   EnqueueCommandInLane "main" 10 (laneOpts Normal) 0;
   EnqueueCommandInLane "main" 11 (laneOpts Normal) 1;
   EnqueueCommandInLane "main" 12 (laneOpts Urgent) 2].

Lemma getQueueSize_laneSizeOf name s :
  getQueueSize name s = laneSizeOf (cleanedLane name) (lanes s).
Proof. unfold getQueueSize, laneSizeOf. by destruct (JsMap.get _ _). Qed.

(** On the quiet scheduler.
    Size accounting of the named lanes, in every state the module reaches:
    [enqueueCommandInLane] adds exactly one to [getQueueSize] of the lane it
    names (after [trim], "main" for a blank name) and to
    [getTotalQueueSize]; the settling of an executing task takes exactly one
    away from both; [clearCommandLane] takes away the number it returns,
    which is the number of queued entries of the lane, so that the lane's
    size is then the number of tasks it executes, and it leaves the
    executing tasks alone.  The size of every other lane stays as it is. *)
Lemma quiet_named_lane_size_accounting (evs : list Event) :
  let s := quietRun evs initialState in
  (forall name tsk opts now lane,
     let s' := quietEnqueueCommandInLane name tsk opts now s in
     getQueueSize lane s'
     = getQueueSize lane s
       + (if decide (cleanedLane lane = cleanedLane name) then 1 else 0) /\
     getTotalQueueSize s' = getTotalQueueSize s + 1) /\
  (forall name taskId entry lane,
     (name, taskId, entry) ∈ laneRunning s ->
     let s' := quietLaneTaskSettled name taskId entry s in
     getQueueSize lane s'
     = getQueueSize lane s - (if decide (cleanedLane lane = name) then 1 else 0) /\
     getTotalQueueSize s' = getTotalQueueSize s - 1) /\
  (forall name lane,
     let s' := clearCommandLane name s in
     getQueueSize lane s'
     = getQueueSize lane s
       - (if decide (cleanedLane lane = cleanedLane name)
          then clearCommandLaneResult name s else 0) /\
     getTotalQueueSize s' = getTotalQueueSize s - clearCommandLaneResult name s /\
     getQueueSize name s' = laneActiveOf (cleanedLane name) (lanes s) /\
     clearCommandLaneResult name s' = 0 /\
     laneRunning s' = laneRunning s).
Proof.
  intros s.
  pose proof (lanesOk_run evs _ lanesOk_initial) as Hok. fold s in Hok.
  pose proof (laneBook_run evs _ laneBook_initial) as (_ & _ & Hrun & _).
  fold s in Hrun.
  split; [|split].
  - intros name tsk opts now lane s'.
    destruct (enqueueCommandInLane_grows name tsk opts now s Hok) as [Hk Ht].
    rewrite !getQueueSize_laneSizeOf. unfold s'.
    destruct (Hk (cleanedLane lane)) as (-> & _). done.
  - intros name taskId entry lane Hin s'.
    destruct (Hrun _ Hin) as [_ [st Hget]]. unfold laneOf in Hget. simpl in Hget.
    rewrite !getQueueSize_laneSizeOf. unfold s', quietLaneTaskSettled.
    rewrite bool_decide_eq_true_2 by done. rewrite Hget.
    match goal with |- context [quietPump name ?s0] => set (s1 := s0) end.
    destruct (kept_pump name s1) as [K3 T3].
    destruct (K3 (cleanedLane lane)) as (S3 & _).
    change (lanes s1) with (JsMap.set name (settledLane st taskId) (lanes s)) in S3, T3.
    destruct (measures_set name st (settledLane st taskId) (lanes s) Hget) as [K2 T2].
    destruct (K2 (cleanedLane lane)) as (S2 & _).
    unfold getTotalQueueSize. rewrite S3, T3, S2, T2.
    assert (Hsize : laneSize (settledLane st taskId) = laneSize st - 1).
    { unfold laneSize, getTotalQueued. simpl. lia. }
    rewrite Hsize. unfold laneSizeOf.
    split; [|lia].
    destruct (decide (cleanedLane lane = name)) as [->|Hne]; [|lia].
    rewrite Hget. simpl. lia.
  - intros name lane s'. rewrite !getQueueSize_laneSizeOf.
    unfold s', clearCommandLane, clearCommandLaneResult, getTotalQueueSize.
    set (c := cleanedLane name).
    destruct (JsMap.get c (lanes s)) as [st|] eqn:Hget.
    + destruct (measures_set c st (withBuckets st createEmptyBuckets) (lanes s) Hget)
        as [K2 T2].
      simpl. rewrite JsMap.get_set_eq. simpl.
      destruct (K2 (cleanedLane lane)) as (-> & _). destruct (K2 c) as (-> & _).
      assert (Hsize : laneSize (withBuckets st createEmptyBuckets) = active st)
        by done.
      assert (Hst : laneSize st = Z.of_nat (getTotalQueued st) + active st) by done.
      rewrite T2, Hsize. unfold laneSizeOf, laneActiveOf. rewrite Hget. simpl.
      destruct (decide (c = c)); [|done].
      split; [|split; [lia|done]].
      destruct (decide (cleanedLane lane = c)) as [->|Hne]; [|lia].
      rewrite Hget. simpl. lia.
    + rewrite Hget. unfold laneSizeOf, laneActiveOf. rewrite Hget. simpl.
      split; [destruct (decide (cleanedLane lane = c)); lia|]. split; [lia|done].
Qed.

(** *** [waitForActiveTasks] *)

(** The state of one call of [waitForActiveTasks]: the ids collected from
    the [activeTaskIds] of all lanes at the call, and the deadline. *)
Record ActiveWait := mkActiveWait {
  activeAtStart : gset nat;
  deadline : Z;
}.

(** [waitForActiveTasks(timeoutMs)], called at time [now]. *)
Definition waitForActiveTasks (timeoutMs now : Z) (s : QueueState) : ActiveWait :=
  {| activeAtStart :=
       foldl (fun acc st => acc ∪ activeTaskIds st) ∅ (JsMap.values (lanes s));
     deadline := now + timeoutMs |}.

(** The search of [check] for a task of the call that still executes. *)
Definition hasPending (w : ActiveWait) (s : QueueState) : bool :=
  existsb
    (fun st => bool_decide (set_Exists (fun taskId => taskId ∈ activeAtStart w)
                              (activeTaskIds st)))
    (JsMap.values (lanes s)).

(** One run of [check] at time [now]: the promise is resolved with
    [{ drained }], or [check] is scheduled again ([None]). *)
Definition check (w : ActiveWait) (now : Z) (s : QueueState) : option bool :=
  if bool_decide (size (activeAtStart w) = 0%nat) then Some true
  else if negb (hasPending w s) then Some true
  else if deadline w <=? now then Some false
  else None.

Lemma elem_of_union_values (vs : list LaneState) : forall (acc : gset nat) t,
  t ∈ foldl (fun acc st => acc ∪ activeTaskIds st) acc vs
  <-> t ∈ acc \/ exists st, st ∈ vs /\ t ∈ activeTaskIds st.
Proof.
  induction vs as [|v vs IH]; intros acc t; simpl.
  - split; [auto|]. intros [?|(st & H & _)]; [done|]. by apply elem_of_nil in H.
  - rewrite IH, elem_of_union. split.
    + intros [[?|?]|(st & H & Ht)]; [by left| |].
      * right. exists v. split; [left|done].
      * right. exists st. split; [by right|done].
    + intros [?|(st & H & Ht)]; [by left; left|].
      apply elem_of_cons in H as [->|H]; [left; by right|].
      right. by exists st.
Qed.

Lemma wf_elem_get {V} k (v : V) (m : list (string * V)) :
  JsMap.wf m -> (k, v) ∈ m -> JsMap.get k m = Some v.
Proof.
  unfold JsMap.wf. induction m as [|[k' v'] m IH]; simpl; intros Hnd Hin.
  - by apply elem_of_nil in Hin.
  - apply NoDup_cons in Hnd as [Hn Hnd].
    apply elem_of_cons in Hin as [[= -> ->]|Hin].
    + by rewrite String.eqb_refl.
    + destruct (String.eqb k k') eqn:E; [|by apply IH].
      apply String.eqb_eq in E. subst. exfalso. apply Hn.
      apply list_elem_of_fmap. by exists (k', v).
Qed.

Lemma get_elem {V} k (v : V) (m : list (string * V)) :
  JsMap.get k m = Some v -> (k, v) ∈ m.
Proof.
  induction m as [|[k' v'] m IH]; simpl; [done|].
  destruct (String.eqb k k') eqn:E.
  - apply String.eqb_eq in E. subst. intros [= ->]. left.
  - intros H. right. by apply IH.
Qed.

(** Tasks are numbered in the order they start: what executes after some
    steps executed before them or has an id that was not used before. *)
Definition later (s s' : QueueState) : Prop :=
  (nextTaskId s <= nextTaskId s')%nat /\
  forall r, r ∈ laneRunning s' ->
            r ∈ laneRunning s \/ (nextTaskId s <= tidOf r)%nat.

Lemma later_refl s : later s s.
Proof. split; [done|]. intros r Hr. by left. Qed.

Lemma later_trans s1 s2 s3 : later s1 s2 -> later s2 s3 -> later s1 s3.
Proof.
  intros [N1 H1] [N2 H2]. split; [lia|]. intros r Hr.
  destruct (H2 r Hr) as [Hr2|Hn]; [|right; lia].
  destruct (H1 r Hr2) as [?|?]; auto.
Qed.

Lemma later_part s s' : namedPart s' = namedPart s -> later s s'.
Proof.
  unfold namedPart. intros [= _ Hn Hr]. split; [lia|].
  intros r H. left. by rewrite <- Hr.
Qed.

(** *** Callers: priorities and the gateway's limits *)

(** The hints of [resolvePriority] (lanes.ts); an absent flag is falsy. *)
Record PriorityHints := mkHints {
  isHeartbeat : option bool;
  isCron : option bool;
  isSubagent : option bool;
  isMention : option bool;
  isReply : option bool;
  hint_priority : option Z;
}.

Definition flag (b : option bool) : bool := default false b.

(** [resolvePriority(hints?)] *)
Definition resolvePriority (hints : option PriorityHints) : Z :=
  match hints with
  | None => Normal
  | Some h =>
      match hint_priority h with
      | Some p => p
      | None =>
          if flag (isMention h) || flag (isReply h) then Urgent
          else if flag (isHeartbeat h) || flag (isCron h) then Background
          else if flag (isSubagent h) then Normal
          else Normal
      end
  end.

(** The parameters of [resolveRunPriority], the run-context variant that
    also knows an [isUrgent] flag. *)
Record RunPriorityParams := mkRunParams {
  run_hints : PriorityHints;
  isUrgent : option bool;
}.

(** [resolveRunPriority(params)] *)
Definition resolveRunPriority (params : RunPriorityParams) : Z :=
  let h := run_hints params in
  match hint_priority h with
  | Some p => p
  | None =>
      if flag (isUrgent params) then Urgent
      else if flag (isMention h) || flag (isReply h) then Urgent
      else if flag (isHeartbeat h) || flag (isCron h) then Background
      else if flag (isSubagent h) then Normal
      else Normal
  end.

(** Priority resolution.  An explicit priority wins in both resolvers; on
    parameters without the [isUrgent] flag [resolveRunPriority] agrees with
    [resolvePriority]; with the flag and no explicit priority the result is
    Urgent; a mention or reply is Urgent even for a heartbeat or cron run;
    and without an explicit priority the result is one of the three levels,
    which [enqueueWithPriority] uses as the bucket index unchanged. *)
Theorem resolveRunPriority_extends_resolvePriority (params : RunPriorityParams) :
  let h := run_hints params in
  (forall p, hint_priority h = Some p ->
     resolveRunPriority params = p /\ resolvePriority (Some h) = p) /\
  (flag (isUrgent params) = false ->
   resolveRunPriority params = resolvePriority (Some h)) /\
  (hint_priority h = None ->
   (flag (isUrgent params) = true -> resolveRunPriority params = Urgent) /\
   (flag (isMention h) || flag (isReply h) = true ->
    resolveRunPriority params = Urgent /\ resolvePriority (Some h) = Urgent) /\
   resolveRunPriority params ∈ [Urgent; Normal; Background] /\
   resolvePriority (Some h) ∈ [Urgent; Normal; Background] /\
   bucketIndex 3 (resolveRunPriority params) = resolveRunPriority params /\
   bucketIndex 3 (resolvePriority (Some h)) = resolvePriority (Some h)).
Proof.
  intros h. unfold resolveRunPriority, resolvePriority. fold h.
  split; [|split].
  - intros p ->. done.
  - intros ->. done.
  - intros ->.
    destruct (flag (isUrgent params)), (flag (isMention h)), (flag (isReply h)),
      (flag (isHeartbeat h)), (flag (isCron h)), (flag (isSubagent h)); simpl;
      repeat split; try done; try (intros; discriminate);
      repeat (first [apply list_elem_of_here | apply list_elem_of_further]).
Qed.

(** The lane names of lanes.ts beside "main". *)
Definition Cron : string := "cron".
Definition Subagent : string := "subagent".

(** The limits the gateway reads from its configuration:
    [cfg.cron?.maxConcurrentRuns], the results of [resolveAgentMaxConcurrent]
    and [resolveSubagentMaxConcurrent] (config/agent-limits.js), and
    [cfg.agents?.defaults?.maxConcurrentSessions] when it is a finite
    number. *)
Record GatewayLimits := mkLimits {
  cronMaxConcurrentRuns : option Z;
  agentMaxConcurrent : Z;
  subagentMaxConcurrent : Z;
  configuredMaxSessions : option Z;
}.

Definition DEFAULT_MAX_CONCURRENT_SESSIONS : Z := 16.

(** [resolveMaxConcurrentSessions(cfg)] *)
Definition resolveMaxConcurrentSessions (cfg : GatewayLimits) : Z :=
  match configuredMaxSessions cfg with
  | Some raw => Z.max 1 raw
  | None => DEFAULT_MAX_CONCURRENT_SESSIONS
  end.






(** *** [getQueueStats] *)

Record LaneStats := mkLaneStats {
  ls_queued : Z;
  ls_active : Z;
  ls_maxConcurrent : Z;
}.

Record SessionStats := mkSessionStats {
  ss_total : Z;
  ss_active : Z;
  ss_maxConcurrent : Z;
}.

Record PriorityStats := mkPriorityStats {
  urgent : Z;
  normal : Z;
  background : Z;
}.

(** The object [getQueueStats] returns; [stats_lanes] lists the properties
    the first loop writes into [laneStats], in the order of the writes. *)
Record QueueStats := mkQueueStats {
  stats_lanes : list (string * LaneStats);
  stats_sessions : SessionStats;
  stats_byPriority : PriorityStats;
}.

(** [state.buckets[p]?.length ?? 0] *)
Definition bucketLength (st : LaneState) (p : Z) : Z :=
  Z.of_nat (length (default [] (buckets st !! Z.to_nat p))).

(** One round of the loop over the named lanes. *)
Definition countLane (acc : list (string * LaneStats) * PriorityStats)
    (kv : string * LaneState) : list (string * LaneStats) * PriorityStats :=
  (acc.1 ++ [(kv.1, {| ls_queued := Z.of_nat (getTotalQueued kv.2);
                       ls_active := active kv.2;
                       ls_maxConcurrent := maxConcurrent kv.2 |})],
   {| urgent := urgent acc.2 + bucketLength kv.2 Urgent;
      normal := normal acc.2 + bucketLength kv.2 Normal;
      background := background acc.2 + bucketLength kv.2 Background |}).

(** The [switch] on the priority of a queued session entry. *)
Definition countEntry (totals : PriorityStats) (entry : QueueEntry) : PriorityStats :=
  if priority entry =? Urgent then
    {| urgent := urgent totals + 1; normal := normal totals;
       background := background totals |}
  else if priority entry =? Normal then
    {| urgent := urgent totals; normal := normal totals + 1;
       background := background totals |}
  else if priority entry =? Background then
    {| urgent := urgent totals; normal := normal totals;
       background := background totals + 1 |}
  else totals.

Definition countSession (totals : PriorityStats) (st : SessionLaneState)
  : PriorityStats :=
  foldl countEntry totals (queue st).

(** [getQueueStats()] *)
Definition getQueueStats (s : QueueState) : QueueStats :=
  let named :=
    foldl countLane ([], {| urgent := 0; normal := 0; background := 0 |}) (lanes s) in
  {| stats_lanes := named.1;
     stats_sessions :=
       {| ss_total := Z.of_nat (JsMap.size (sessionLanes s));
          ss_active := activeSessionCount s;
          ss_maxConcurrent := maxConcurrentSessions s |};
     stats_byPriority :=
       foldl countSession named.2 (JsMap.values (sessionLanes s)) |}.

(** The three totals together. *)
Definition allPriorities (t : PriorityStats) : Z := urgent t + normal t + background t.

(** Is the priority one that the [switch] counts? *)
Definition counted (entry : QueueEntry) : bool :=
  (priority entry =? Urgent) || (priority entry =? Normal)
  || (priority entry =? Background).

Definition laneStatsOf (st : LaneState) : LaneStats :=
  {| ls_queued := Z.of_nat (getTotalQueued st); ls_active := active st;
     ls_maxConcurrent := maxConcurrent st |}.

Lemma countEntry_spec t e :
  allPriorities (countEntry t e) = allPriorities t + (if counted e then 1 else 0) /\
  urgent t <= urgent (countEntry t e) /\ normal t <= normal (countEntry t e) /\
  background t <= background (countEntry t e).
Proof.
  unfold countEntry, counted, allPriorities.
  destruct (priority e =? Urgent); simpl; [lia|].
  destruct (priority e =? Normal); simpl; [lia|].
  destruct (priority e =? Background); simpl; lia.
Qed.

Lemma countSession_spec q : forall t,
  allPriorities (foldl countEntry t q)
  = allPriorities t + Z.of_nat (length (filter (fun e => counted e = true) q)) /\
  urgent t <= urgent (foldl countEntry t q) /\
  normal t <= normal (foldl countEntry t q) /\
  background t <= background (foldl countEntry t q).
Proof.
  induction q as [|e q IH]; intros t; simpl; [lia|].
  destruct (IH (countEntry t e)) as (H1 & H2 & H3 & H4).
  destruct (countEntry_spec t e) as (E1 & E2 & E3 & E4).
  rewrite filter_cons. destruct (counted e); simpl in *; lia.
Qed.

Lemma countSessions_spec (ls : list (string * SessionLaneState)) : forall t,
  allPriorities (foldl countSession t (JsMap.values ls))
  = allPriorities t
    + sumValues (fun st => Z.of_nat (length (filter (fun e => counted e = true)
                                                     (queue st)))) ls /\
  urgent t <= urgent (foldl countSession t (JsMap.values ls)) /\
  normal t <= normal (foldl countSession t (JsMap.values ls)) /\
  background t <= background (foldl countSession t (JsMap.values ls)).
Proof.
  induction ls as [|[k st] ls IH]; intros t.
  - unfold sumValues. simpl. lia.
  - rewrite sumValues_cons.
    change (JsMap.values ((k, st) :: ls)) with (st :: JsMap.values ls). simpl foldl.
    destruct (IH (countSession t st)) as (H1 & H2 & H3 & H4).
    destruct (countSession_spec (queue st) t) as (E1 & E2 & E3 & E4).
    unfold countSession in *. lia.
Qed.

Lemma countLanes_spec (ls : list (string * LaneState)) : forall acc,
  (foldl countLane acc ls).1 = acc.1 ++ map (fun kv => (kv.1, laneStatsOf kv.2)) ls /\
  allPriorities (foldl countLane acc ls).2
  = allPriorities acc.2
    + sumValues (fun st => bucketLength st Urgent + bucketLength st Normal
                           + bucketLength st Background) ls /\
  urgent acc.2 <= urgent (foldl countLane acc ls).2 /\
  normal acc.2 <= normal (foldl countLane acc ls).2 /\
  background acc.2 <= background (foldl countLane acc ls).2.
Proof.
  induction ls as [|[k st] ls IH]; intros acc.
  - unfold sumValues. simpl. rewrite app_nil_r. split; [done|lia].
  - rewrite sumValues_cons. simpl foldl.
    destruct (IH (countLane acc (k, st))) as (H0 & H1 & H2 & H3 & H4).
    rewrite H0, H1. unfold countLane, allPriorities, bucketLength in *. simpl in *.
    split; [by rewrite <- app_assoc|]. lia.
Qed.

Lemma three_buckets st :
  length (buckets st) = 3%nat ->
  bucketLength st Urgent + bucketLength st Normal + bucketLength st Background
  = Z.of_nat (getTotalQueued st).
Proof.
  unfold bucketLength, getTotalQueued, totalQueued.
  destruct (buckets st) as [|b0 [|b1 [|b2 [|b3 bs]]]]; simpl; try done.
  intros _. lia.
Qed.

Lemma sumValues_ext {V} (f g : V -> Z) (m : list (string * V)) :
  Forall (fun kv => f kv.2 = g kv.2) m -> sumValues f m = sumValues g m.
Proof.
  induction m as [|[k v] m IH]; intros H; [done|].
  apply Forall_cons in H as [Hv H]. rewrite !sumValues_cons, IH by done.
  simpl in Hv. lia.
Qed.

Lemma sumValues_le {V} (f g : V -> Z) (m : list (string * V)) :
  Forall (fun kv => f kv.2 <= g kv.2) m -> sumValues f m <= sumValues g m.
Proof.
  induction m as [|[k v] m IH]; intros H; [done|].
  apply Forall_cons in H as [Hv H]. rewrite !sumValues_cons.
  specialize (IH H). simpl in Hv. lia.
Qed.

Lemma sumValues_plus {V} (f g : V -> Z) (m : list (string * V)) :
  sumValues (fun v => f v + g v) m = sumValues f m + sumValues g m.
Proof.
  induction m as [|[k v] m IH]; [done|]. rewrite !sumValues_cons, IH. lia.
Qed.

Lemma sumValues_count {V} (p : V -> bool) (m : list (string * V)) :
  sumValues (fun v => if p v then 1 else 0) m = Z.of_nat (JsMap.count p m).
Proof.
  induction m as [|[k v] m IH]; [done|]. rewrite sumValues_cons, IH. simpl.
  destruct (p v); lia.
Qed.

Lemma get_map_values {V W} (f : V -> W) (m : list (string * V)) k :
  JsMap.get k (map (fun kv => (kv.1, f kv.2)) m) = f <$> JsMap.get k m.
Proof.
  induction m as [|[k' v] m IH]; simpl; [done|].
  by destruct (String.eqb k k').
Qed.

(** On the quiet scheduler.
    The statistics are consistent with the size functions.  In every state
    the module reaches, [getQueueStats()] reports for every named lane its
    queued entries, [active] and [maxConcurrent], with
    [queued + active = getQueueSize]; the three totals of [byPriority] are
    not negative and together count every entry queued on a named lane and
    every entry queued for a session whose priority is one of the three
    levels: their sum is at most
    [getTotalQueueSize() - getActiveTaskCount()
     + getTotalSessionQueueSize() - getActiveSessionCount()],
    and equal to it when every queued session entry has one of the three
    priorities; [sessions.active] is the number of session lanes executing a
    task and is at most [sessions.total]. *)
Lemma quiet_getQueueStats_consistent (evs : list Event) :
  let s := quietRun evs initialState in
  let q := getQueueStats s in
  (forall name, JsMap.get name (stats_lanes q) = laneStatsOf <$> JsMap.get name (lanes s)) /\
  (forall name st, JsMap.get name (lanes s) = Some st ->
     ls_queued (laneStatsOf st) + ls_active (laneStatsOf st) = laneSizeOf name (lanes s)) /\
  0 <= urgent (stats_byPriority q) /\
  0 <= normal (stats_byPriority q) /\
  0 <= background (stats_byPriority q) /\
  allPriorities (stats_byPriority q)
  <= getTotalQueueSize s - getActiveTaskCount s
     + (getTotalSessionQueueSize s - activeSessionCount s) /\
  (Forall (fun kv => Forall (fun e => counted e = true) (queue kv.2)) (sessionLanes s) ->
   allPriorities (stats_byPriority q)
   = getTotalQueueSize s - getActiveTaskCount s
     + (getTotalSessionQueueSize s - activeSessionCount s)) /\
  ss_total (stats_sessions q) = Z.of_nat (length (sessionLanes s)) /\
  ss_active (stats_sessions q) = Z.of_nat (JsMap.count sl_active (sessionLanes s)) /\
  0 <= ss_active (stats_sessions q) <= ss_total (stats_sessions q) /\
  ss_maxConcurrent (stats_sessions q) = maxConcurrentSessions s.
Proof.
  intros s q.
  pose proof (lanesOk_run evs _ lanesOk_initial) as Hlanes. fold s in Hlanes.
  destruct (sessionOk_run evs _ sessionOk_initial) as [(Hcount & _) _].
  fold s in Hcount.
  destruct (countLanes_spec (lanes s)
              ([], {| urgent := 0; normal := 0; background := 0 |}))
    as (L0 & L1 & L2 & L3 & L4).
  set (named := foldl countLane ([], {| urgent := 0; normal := 0; background := 0 |})
                  (lanes s)) in *.
  destruct (countSessions_spec (sessionLanes s) named.2) as (S1 & S2 & S3 & S4).
  assert (Hnamed : allPriorities named.2 = getTotalQueueSize s - getActiveTaskCount s).
  { rewrite L1. unfold allPriorities at 1. simpl.
    rewrite (sumValues_ext _ (fun st => Z.of_nat (getTotalQueued st)) (lanes s)).
    - unfold getTotalQueueSize, totalSize, getActiveTaskCount.
      change (foldl (fun total st => total + laneSize st) 0 (JsMap.values (lanes s)))
        with (sumValues laneSize (lanes s)).
      change (foldl (fun total st => total + active st) 0 (JsMap.values (lanes s)))
        with (sumValues active (lanes s)).
      unfold laneSize. rewrite sumValues_plus. lia.
    - eapply Forall_impl; [exact Hlanes|]. intros kv Hkv. by apply three_buckets. }
  assert (Hqueued : getTotalSessionQueueSize s - activeSessionCount s
                    = sumValues (fun st => Z.of_nat (length (queue st))) (sessionLanes s)).
  { unfold getTotalSessionQueueSize.
    change (foldl (fun total st => total + sessionLaneSize st) 0
              (JsMap.values (sessionLanes s)))
      with (sumValues sessionLaneSize (sessionLanes s)).
    unfold sessionLaneSize. rewrite sumValues_plus, sumValues_count. lia. }
  assert (Hsize : Z.of_nat (JsMap.count sl_active (sessionLanes s))
                  <= Z.of_nat (length (sessionLanes s))).
  { clear. induction (sessionLanes s) as [|[k st] m IH]; simpl; [lia|].
    destruct (sl_active st); lia. }
  split.
  { intros name. change (stats_lanes q) with named.1. rewrite L0. simpl.
    apply get_map_values. }
  split.
  { intros name st Hget. unfold laneSizeOf. rewrite Hget. done. }
  change (stats_byPriority q)
    with (foldl countSession named.2 (JsMap.values (sessionLanes s))).
  simpl in L2, L3, L4.
  split; [lia|]. split; [lia|]. split; [lia|]. split; [|split].
  - rewrite S1, Hnamed, Hqueued.
    assert (sumValues (fun st => Z.of_nat (length (filter (fun e => counted e = true)
                                                          (queue st))))
              (sessionLanes s)
            <= sumValues (fun st => Z.of_nat (length (queue st))) (sessionLanes s));
      [|lia].
    apply sumValues_le, Forall_forall. intros kv _. simpl.
    pose proof (length_filter (fun e => counted e = true) (queue kv.2)). lia.
  - intros Hvalid. rewrite S1, Hnamed, Hqueued. f_equal.
    apply sumValues_ext. eapply Forall_impl; [exact Hvalid|].
    intros kv Hkv. simpl in *. f_equal. f_equal.
    induction (queue kv.2) as [|e l IH]; [done|].
    apply Forall_cons in Hkv as [He Hl].
    by rewrite filter_cons_True, IH.
  - split; [done|]. simpl. split; [done|]. split; [unfold JsMap.size; lia|done].
Qed.

(** *** Callbacks that return: the drains are the quiet ones *)

(** No [onWait] callback throws. *)
Definition callbacksReturn (throws : nat -> Z -> nat -> bool) : Prop :=
  forall cb waitedMs queuedAhead, throws cb waitedMs queuedAhead = false.

(** The callbacks of a caller that passes none that throws. *)
Definition neverThrows : nat -> Z -> nat -> bool := fun _ _ _ => false.

Lemma neverThrows_return : callbacksReturn neverThrows.
Proof. by intros cb w q. Qed.

Section Returning.
Variable throws : nat -> Z -> nat -> bool.
Hypothesis Hret : callbacksReturn throws.

Lemma returning_waitCall entry now q : waitCallThrows throws entry now q = false.
Proof.
  unfold waitCallThrows. destruct (onWait entry) as [cb|].
  - by rewrite Hret, andb_false_r.
  - by rewrite andb_false_r.
Qed.

Lemma returning_pumpLoop fuel : forall name now st tid started,
  pumpLoop throws fuel name now st tid started
  = (quietPumpLoop fuel name st tid started, Returned).
Proof.
  induction fuel as [|fuel IH]; intros name now st tid started; simpl; [done|].
  destruct ((active st <? maxConcurrent st) && (0 <? getTotalQueued st)%nat); [|done].
  destruct (dequeueHighestPriority st) as [[entry|] st']; [|done].
  by rewrite returning_waitCall, IH.
Qed.

Lemma returning_pump name now s : pump throws name now s = (quietPump name s, Returned).
Proof.
  unfold pump, quietPump. destruct (JsMap.get name (lanes s)) as [st|]; [|done].
  rewrite returning_pumpLoop.
  by destruct (quietPumpLoop _ _ _ _ _) as [[st' tid] started].
Qed.

Lemma returning_drainLane name now s :
  drainLane throws name now s = (quietDrainLane name s, Returned).
Proof.
  unfold drainLane, quietDrainLane. destruct (getLaneState name s) as [st s1].
  destruct (draining st); [done|]. by rewrite returning_pump.
Qed.

Lemma returning_enqueueCommandInLane name tsk opts now s :
  enqueueCommandInLane throws name tsk opts now s
  = quietEnqueueCommandInLane name tsk opts now s.
Proof.
  unfold enqueueCommandInLane, quietEnqueueCommandInLane.
  destruct (getLaneState (cleanedLane name) s) as [st s1].
  by rewrite returning_drainLane.
Qed.

Lemma returning_laneTaskSettled name taskId entry fulfilled now s :
  laneTaskSettled throws name taskId entry fulfilled now s
  = quietLaneTaskSettled name taskId entry s.
Proof.
  unfold laneTaskSettled, quietLaneTaskSettled, settleAndPump.
  case_bool_decide; [|done].
  destruct (JsMap.get name (lanes s)) as [st|]; [|done].
  by rewrite returning_pump.
Qed.

Lemma returning_setCommandLaneConcurrency name n now s :
  setCommandLaneConcurrency throws name n now s
  = (quietSetCommandLaneConcurrency name n s, Returned).
Proof.
  unfold setCommandLaneConcurrency, quietSetCommandLaneConcurrency.
  destruct (getLaneState (cleanedLane name) s) as [st s1].
  by rewrite returning_drainLane.
Qed.

Lemma returning_drainSessionLane key now s :
  drainSessionLane throws key now s = (quietDrainSessionLane key s, Returned).
Proof.
  unfold drainSessionLane, quietDrainSessionLane.
  destruct (getSessionLaneState key s) as [st s1].
  destruct (sl_active st); [done|].
  destruct (queue st) as [|entry rest]; [done|].
  destruct (_ <=? _); [done|]. by rewrite returning_waitCall.
Qed.

Lemma returning_drainWaitingLoop ks : forall now s,
  drainWaitingLoop throws ks now s = (quietDrainWaitingLoop ks s, Returned).
Proof.
  induction ks as [|k ks IH]; intros now s; simpl; [done|].
  destruct (JsMap.get k (sessionLanes s)) as [st|]; [|apply IH].
  destruct (negb (sl_active st) && (0 <? length (queue st))%nat); [|apply IH].
  rewrite returning_drainSessionLane.
  destruct (_ <=? _); [done|apply IH].
Qed.

Lemma returning_drainWaitingSessions now s :
  drainWaitingSessions throws now s = (quietDrainWaitingSessions s, Returned).
Proof.
  unfold drainWaitingSessions, quietDrainWaitingSessions.
  destruct (_ <=? _); [done|apply returning_drainWaitingLoop].
Qed.

Lemma returning_setMaxConcurrentSessions n now s :
  setMaxConcurrentSessions throws n now s
  = (quietSetMaxConcurrentSessions n s, Returned).
Proof.
  unfold setMaxConcurrentSessions, quietSetMaxConcurrentSessions.
  destruct (_ <? _); [apply returning_drainWaitingSessions|done].
Qed.

Lemma returning_enqueueSessionTask tsk opts now s :
  enqueueSessionTask throws tsk opts now s = quietEnqueueSessionTask tsk opts now s.
Proof.
  unfold enqueueSessionTask, quietEnqueueSessionTask.
  destruct (String.eqb (sopt_sessionKey opts) "");
    [apply returning_enqueueCommandInLane|].
  destruct (getSessionLaneState (sopt_sessionKey opts) s) as [st s1].
  by rewrite returning_drainSessionLane.
Qed.

Lemma returning_sessionTaskSettled key entry fulfilled now s :
  sessionTaskSettled throws key entry fulfilled now s
  = quietSessionTaskSettled key entry s.
Proof.
  unfold sessionTaskSettled, quietSessionTaskSettled, settleAndDrain.
  case_bool_decide; [|done].
  destruct (JsMap.get key (sessionLanes s)) as [st|]; [|done].
  by rewrite returning_drainSessionLane, returning_drainWaitingSessions.
Qed.

Lemma returning_step s ev : step throws s ev = quietStep s ev.
Proof.
  destruct ev; simpl.
  - apply returning_enqueueCommandInLane.
  - apply returning_laneTaskSettled.
  - by rewrite returning_setCommandLaneConcurrency.
  - done.
  - apply returning_enqueueSessionTask.
  - apply returning_sessionTaskSettled.
  - by rewrite returning_setMaxConcurrentSessions.
  - done.
Qed.

Lemma returning_run evs : forall s, run throws evs s = quietRun evs s.
Proof.
  induction evs as [|ev evs IH]; intros s; [done|].
  simpl. by rewrite returning_step, IH.
Qed.

End Returning.

(** *** Whatever the callbacks do *)

(** The books of the task ids: lane names are unique; task ids are unique
    and below [nextTaskId]; every executing task belongs to a lane that
    exists; [activeTaskIds] of a lane holds the ids of the tasks executing
    on it. *)
Definition idBookOn (ls : list (string * LaneState)) (n : nat)
    (running : list (string * nat * QueueEntry)) : Prop :=
  JsMap.wf ls /\
  NoDup (tidOf <$> running) /\
  (forall r, r ∈ running ->
     (tidOf r < n)%nat /\ is_Some (JsMap.get (laneOf r) ls)) /\
  (forall name st, JsMap.get name ls = Some st ->
     forall t, t ∈ activeTaskIds st <-> exists e, (name, t, e) ∈ running).

Definition idBook (s : QueueState) : Prop :=
  idBookOn (lanes s) (nextTaskId s) (laneRunning s).

Lemma idBookOn_update ls n running name st st' :
  idBookOn ls n running ->
  JsMap.get name ls = Some st ->
  activeTaskIds st' = activeTaskIds st ->
  idBookOn (JsMap.set name st' ls) n running.
Proof.
  intros (Hwf & Hnd & Hrun & Hlane) Hget Hids.
  split; [by apply JsMap.wf_set|]. split; [done|]. split.
  - intros r Hr. destruct (Hrun r Hr) as [Hlt Hsome].
    split; [done|]. by apply get_set_is_Some.
  - intros k st0 Hk. destruct (decide (name = k)) as [<-|Hne].
    + rewrite JsMap.get_set_eq in Hk. injection Hk as <-.
      rewrite Hids. by apply Hlane.
    + rewrite JsMap.get_set_ne in Hk by done. by apply Hlane.
Qed.

Lemma idBookOn_create ls n running name :
  idBookOn ls n running ->
  JsMap.get name ls = None ->
  idBookOn (JsMap.set name (newLane name) ls) n running.
Proof.
  intros (Hwf & Hnd & Hrun & Hlane) Hget.
  split; [by apply JsMap.wf_set|]. split; [done|]. split.
  - intros r Hr. destruct (Hrun r Hr) as [Hlt Hsome].
    split; [done|]. by apply get_set_is_Some.
  - intros k st0 Hk. destruct (decide (name = k)) as [<-|Hne].
    + rewrite JsMap.get_set_eq in Hk. injection Hk as <-.
      intros t. simpl. split; [intros Ht; by apply elem_of_empty in Ht|].
      intros [e He]. destruct (Hrun _ He) as [_ [x Hx]].
      unfold laneOf in Hx. simpl in Hx. congruence.
    + rewrite JsMap.get_set_ne in Hk by done. by apply Hlane.
Qed.

Lemma idBook_getLaneState name s : idBook s -> idBook (getLaneState name s).2.
Proof.
  intros Hb. unfold getLaneState.
  destruct (JsMap.get name (lanes s)) as [st|] eqn:Hget; [done|].
  by apply idBookOn_create.
Qed.

(** The pump starts tasks: the books follow. *)
Lemma idBookOn_start ls n running name st st' new :
  idBookOn ls n running ->
  JsMap.get name ls = Some st ->
  new.*1 = map (fun i => (name, i)) (seq n (length new)) ->
  activeTaskIds st' = list_to_set (seq n (length new)) ∪ activeTaskIds st ->
  idBookOn (JsMap.set name st' ls) (n + length new) (running ++ new).
Proof.
  intros (Hwf & Hnd & Hrun & Hlane) Hget Hnew Hids.
  destruct (started_tids name new n Hnew) as [Htids Hlanes].
  rewrite Forall_forall in Hlanes.
  pose proof (Hlane name st Hget) as Hiff.
  split; [by apply JsMap.wf_set|]. split; [|split].
  - rewrite fmap_app, Htids. apply NoDup_app. split; [done|]. split; [|apply NoDup_seq].
    intros t Ht Hs. apply elem_of_seq in Hs.
    apply list_elem_of_fmap in Ht as (r & -> & Hr). destruct (Hrun r Hr). lia.
  - intros r Hr. apply elem_of_app in Hr as [Hr|Hr].
    + destruct (Hrun r Hr) as [Hlt Hsome]. split; [lia|].
      by apply get_set_is_Some.
    + split.
      * assert (Ht : tidOf r ∈ tidOf <$> new) by by apply list_elem_of_fmap_2.
        rewrite Htids in Ht. apply elem_of_seq in Ht. lia.
      * rewrite (Hlanes r Hr), JsMap.get_set_eq. by eexists.
  - intros k st0 Hk. destruct (decide (name = k)) as [<-|Hne].
    + rewrite JsMap.get_set_eq in Hk. injection Hk as <-.
      intros t. rewrite Hids, elem_of_union, elem_of_list_to_set, Hiff.
      split.
      * intros [Ht|[e He]].
        -- rewrite <- Htids in Ht.
           apply list_elem_of_fmap in Ht as ([[k t'] e] & Heq & Hr).
           pose proof (Hlanes _ Hr) as Hl. unfold laneOf, tidOf in *.
           simpl in *. subst. exists e. apply elem_of_app. by right.
        -- exists e. apply elem_of_app. by left.
      * intros [e He]. apply elem_of_app in He as [He|He]; [right; by exists e|].
        left. rewrite <- Htids.
        by apply (list_elem_of_fmap_2' tidOf _ (name, t, e)).
    + rewrite JsMap.get_set_ne in Hk by done.
      pose proof (Hlane k st0 Hk) as Hiff'.
      intros t. rewrite Hiff'. split.
      * intros [e He]. exists e. apply elem_of_app. by left.
      * intros [e He]. apply elem_of_app in He as [He|He]; [by exists e|].
        pose proof (Hlanes _ He) as Hl. unfold laneOf in Hl. simpl in Hl. congruence.
Qed.

(** A task settles: the books follow. *)
Lemma idBookOn_settle ls n running name taskId entry st :
  idBookOn ls n running ->
  (name, taskId, entry) ∈ running ->
  JsMap.get name ls = Some st ->
  idBookOn (JsMap.set name (settledLane st taskId) ls) n
    (filter (fun r => r <> (name, taskId, entry)) running).
Proof.
  intros (Hwf & Hnd & Hrun & Hlane) Hin Hget.
  pose proof (Hlane name st Hget) as Hiff.
  split; [by apply JsMap.wf_set|]. split; [|split].
  - apply (sublist_NoDup _ (tidOf <$> running)); [exact Hnd|].
    apply fmap_sublist, sublist_filter.
  - intros r Hr. apply list_elem_of_filter in Hr as [_ Hr].
    destruct (Hrun r Hr) as [Hlt Hsome]. split; [done|]. by apply get_set_is_Some.
  - intros k st0 Hk. destruct (decide (name = k)) as [<-|Hne].
    + rewrite JsMap.get_set_eq in Hk. injection Hk as <-. simpl.
      intros t. rewrite elem_of_difference, elem_of_singleton, Hiff. split.
      * intros [[e He] Hne]. exists e. apply list_elem_of_filter.
        split; [|done]. intros [= ?]. done.
      * intros [e He]. apply list_elem_of_filter in He as [Hne He].
        split; [by exists e|]. intros ->. apply Hne.
        by apply (same_tid running).
    + rewrite JsMap.get_set_ne in Hk by done.
      pose proof (Hlane k st0 Hk) as Hiff'.
      intros t. rewrite Hiff'. split.
      * intros [e He]. exists e. apply list_elem_of_filter. split; [|done].
        intros [= ? ? ?]. done.
      * intros [e He]. apply list_elem_of_filter in He as [_ He]. by exists e.
Qed.

(** The [catch] arm after the [try] arm: the id was taken off the books
    already, and taking it off again changes nothing. *)
Lemma idBookOn_resettle ls n running name taskId st :
  idBookOn ls n running ->
  JsMap.get name ls = Some st ->
  (forall e, (name, taskId, e) ∉ running) ->
  idBookOn (JsMap.set name (settledLane st taskId) ls) n running.
Proof.
  intros (Hwf & Hnd & Hrun & Hlane) Hget Hgone.
  pose proof (Hlane name st Hget) as Hiff.
  split; [by apply JsMap.wf_set|]. split; [done|]. split.
  - intros r Hr. destruct (Hrun r Hr) as [Hlt Hsome].
    split; [done|]. by apply get_set_is_Some.
  - intros k st0 Hk. destruct (decide (name = k)) as [<-|Hne].
    + rewrite JsMap.get_set_eq in Hk. injection Hk as <-. simpl.
      intros t. rewrite elem_of_difference, elem_of_singleton, Hiff. split.
      * by intros [? _].
      * intros [e He]. split; [by exists e|]. intros ->. by apply (Hgone e).
    + rewrite JsMap.get_set_ne in Hk by done. by apply Hlane.
Qed.

Lemma idBook_part s s' : namedPart s' = namedPart s -> idBook s -> idBook s'.
Proof. unfold namedPart, idBook. intros [= -> -> ->]. done. Qed.

Lemma idBook_initial : idBook initialState.
Proof.
  split; [constructor|]. split; [constructor|]. split.
  - intros r Hr. by apply elem_of_nil in Hr.
  - intros name st Hget. done.
Qed.

Lemma queuesOrdered_same s s' :
  sessionLanes s' = sessionLanes s -> queuesOrdered s -> queuesOrdered s'.
Proof. unfold queuesOrdered. by intros ->. Qed.

Lemma queuesOrdered_part s s' :
  sessionPart s' = sessionPart s -> queuesOrdered s -> queuesOrdered s'.
Proof. unfold sessionPart. intros [= H _ _ _]. by apply queuesOrdered_same. Qed.

Lemma queuesOrdered_getSessionLaneState key s :
  queuesOrdered s -> queuesOrdered (getSessionLaneState key s).2.
Proof.
  intros Hord. unfold getSessionLaneState.
  destruct (JsMap.get key (sessionLanes s)); [done|].
  unfold queuesOrdered. simpl.
  apply (JsMap.Forall_values_set (fun st => ordered (queue st))); [done|].
  constructor.
Qed.

Lemma queuesOrdered_initial : queuesOrdered initialState.
Proof. constructor. Qed.

Section AnyCallbacks.
Variable throws : nat -> Z -> nat -> bool.

Local Ltac loop_stops :=
  exists []; rewrite app_nil_r; simpl;
  split; [done|]; split; [lia|]; split; [done|];
  by rewrite (left_id_L ∅ (∪)).

(** The tasks one run of the [while] loop of [pump] starts, whether the
    loop ends or is left by an exception: they are numbered from
    [nextTaskId] on and recorded in [activeTaskIds]. *)
Lemma pumpLoop_started fuel : forall name now st tid started,
  let r := pumpLoop throws fuel name now st tid started in
  exists new,
    r.1.2 = started ++ new /\
    r.1.1.2 = (tid + length new)%nat /\
    new.*1 = map (fun i => (name, i)) (seq tid (length new)) /\
    activeTaskIds r.1.1.1 = list_to_set (seq tid (length new)) ∪ activeTaskIds st.
Proof.
  induction fuel as [|fuel IH]; intros name now st tid started; simpl.
  { loop_stops. }
  destruct ((active st <? maxConcurrent st) && (0 <? getTotalQueued st)%nat);
    [|loop_stops].
  unfold dequeueHighestPriority.
  destruct (dequeueBuckets (buckets st)) as [[entry|] bs']; [|loop_stops].
  destruct (waitCallThrows throws entry now _); [loop_stops|].
  destruct (IH name now (startedLane (withBuckets st bs') tid) (S tid)
              (started ++ [(name, tid, entry)]))
    as (new & H1 & H2 & H3 & H4).
  exists ((name, tid, entry) :: new).
  split; [by rewrite H1, <- app_assoc|].
  split; [rewrite H2; simpl; lia|].
  split; [by rewrite fmap_cons, H3|].
  rewrite H4. simpl.
  by rewrite (assoc_L (∪)), (comm_L (∪) (list_to_set _) {[tid]}).
Qed.

Lemma pump_started name now s st :
  JsMap.get name (lanes s) = Some st ->
  exists st' new,
    (pump throws name now s).1
    = {| lanes := JsMap.set name st' (lanes s);
         nextTaskId := (nextTaskId s + length new)%nat;
         sessionLanes := sessionLanes s;
         maxConcurrentSessions := maxConcurrentSessions s;
         activeSessionCount := activeSessionCount s;
         laneRunning := laneRunning s ++ new;
         sessionRunning := sessionRunning s |} /\
    new.*1 = map (fun i => (name, i)) (seq (nextTaskId s) (length new)) /\
    activeTaskIds st'
    = list_to_set (seq (nextTaskId s) (length new)) ∪ activeTaskIds st.
Proof.
  intros Hget. unfold pump. rewrite Hget.
  pose proof (pumpLoop_started (getTotalQueued st) name now st (nextTaskId s) []) as H.
  destruct (pumpLoop _ _ _ _ _ _ _) as [[[st' tid] started] c]. simpl in H.
  destruct H as (new & H1 & H2 & H3 & H4). simpl in H1. subst.
  exists (match c with Returned => withDraining st' false | Threw => st' end), new.
  split; [done|]. split; [done|]. by destruct c.
Qed.

(** **** The named lanes leave the sessions alone *)

Lemma sessionPart_pumpA name now s :
  sessionPart (pump throws name now s).1 = sessionPart s.
Proof.
  destruct (JsMap.get name (lanes s)) as [st|] eqn:Hget.
  - by destruct (pump_started name now s st Hget) as (st' & new & -> & _).
  - unfold pump. by rewrite Hget.
Qed.

Lemma sessionPart_drainLaneA name now s :
  sessionPart (drainLane throws name now s).1 = sessionPart s.
Proof.
  unfold drainLane.
  pose proof (sessionPart_getLaneState name s) as H.
  destruct (getLaneState name s) as [st s1]. simpl in H.
  destruct (draining st); [done|]. by rewrite sessionPart_pumpA.
Qed.

Lemma sessionPart_enqueueCommandInLaneA name tsk opts now s :
  sessionPart (enqueueCommandInLane throws name tsk opts now s) = sessionPart s.
Proof.
  unfold enqueueCommandInLane.
  pose proof (sessionPart_getLaneState (cleanedLane name) s) as H.
  destruct (getLaneState (cleanedLane name) s) as [st s1]. simpl in H.
  by rewrite sessionPart_drainLaneA.
Qed.

Lemma sessionPart_laneTaskSettledA name taskId entry fulfilled now s :
  sessionPart (laneTaskSettled throws name taskId entry fulfilled now s)
  = sessionPart s.
Proof.
  unfold laneTaskSettled, settleAndPump. case_bool_decide; [|done].
  destruct (JsMap.get name (lanes s)) as [st|]; [|done].
  match goal with |- context [pump throws name now ?s0] =>
    pose proof (sessionPart_pumpA name now s0) as H1;
    destruct (pump throws name now s0) as [s1 c] end.
  simpl in H1. destruct c; [done|]. destruct fulfilled; [|done].
  destruct (JsMap.get name (lanes s1)) as [st1|]; [|done].
  by rewrite sessionPart_pumpA.
Qed.

Lemma sessionPart_setCommandLaneConcurrencyA name n now s :
  sessionPart (setCommandLaneConcurrency throws name n now s).1 = sessionPart s.
Proof.
  unfold setCommandLaneConcurrency.
  pose proof (sessionPart_getLaneState (cleanedLane name) s) as H.
  destruct (getLaneState (cleanedLane name) s) as [st s1]. simpl in H.
  by rewrite sessionPart_drainLaneA.
Qed.

(** **** The sessions leave the named lanes alone *)

Lemma namedPart_drainSessionLaneA key now s :
  namedPart (drainSessionLane throws key now s).1 = namedPart s.
Proof.
  unfold drainSessionLane.
  pose proof (namedPart_getSessionLaneState key s) as H.
  destruct (getSessionLaneState key s) as [st s1]. simpl in H.
  destruct (sl_active st); [done|].
  destruct (queue st) as [|entry rest]; [done|].
  destruct (_ <=? _); [done|].
  by destruct (waitCallThrows throws entry now _).
Qed.

Lemma namedPart_drainWaitingLoopA ks : forall now s,
  namedPart (drainWaitingLoop throws ks now s).1 = namedPart s.
Proof.
  induction ks as [|k ks IH]; intros now s; simpl; [done|].
  destruct (JsMap.get k (sessionLanes s)) as [st|]; [|auto].
  destruct (negb (sl_active st) && (0 <? length (queue st))%nat); [|auto].
  pose proof (namedPart_drainSessionLaneA k now s) as H1.
  destruct (drainSessionLane throws k now s) as [s' c]. simpl in H1.
  destruct c; [|done]. destruct (_ <=? _); [done|]. by rewrite IH.
Qed.

Lemma namedPart_drainWaitingSessionsA now s :
  namedPart (drainWaitingSessions throws now s).1 = namedPart s.
Proof.
  unfold drainWaitingSessions. destruct (_ <=? _); [done|].
  apply namedPart_drainWaitingLoopA.
Qed.

Lemma namedPart_settleAndDrainA key st now s :
  namedPart (settleAndDrain throws key st now s).1 = namedPart s.
Proof.
  unfold settleAndDrain.
  match goal with |- context [drainSessionLane throws key now ?s0] =>
    pose proof (namedPart_drainSessionLaneA key now s0) as H1;
    destruct (drainSessionLane throws key now s0) as [s1 c] end.
  simpl in H1. destruct c; [|done].
  by rewrite namedPart_drainWaitingSessionsA.
Qed.

Lemma namedPart_sessionOnlyA s ev :
  sessionOnly ev = true -> namedPart (step throws s ev) = namedPart s.
Proof.
  destruct ev as [name tsk opts now|name taskId entry ok0 now0|name n now0|name
                 |tsk opts now|key entry ok0 now0|n now0|key]; simpl; try done.
  - intros Hne. unfold enqueueSessionTask.
    destruct (String.eqb (sopt_sessionKey opts) ""); [done|].
    pose proof (namedPart_getSessionLaneState (sopt_sessionKey opts) s) as H.
    destruct (getSessionLaneState (sopt_sessionKey opts) s) as [st s1]. simpl in H.
    by rewrite namedPart_drainSessionLaneA.
  - intros _. unfold sessionTaskSettled. case_bool_decide; [|done].
    destruct (JsMap.get key (sessionLanes s)) as [st|]; [|done].
    match goal with |- context [settleAndDrain throws key st now0 ?s0] =>
      pose proof (namedPart_settleAndDrainA key st now0 s0) as H1;
      destruct (settleAndDrain throws key st now0 s0) as [s1 c] end.
    simpl in H1. destruct c; [done|]. destruct ok0; [|done].
    destruct (JsMap.get key (sessionLanes s1)) as [st1|]; [|done].
    by rewrite namedPart_settleAndDrainA.
  - intros _. unfold setMaxConcurrentSessions. destruct (_ <? _); [|done].
    by rewrite namedPart_drainWaitingSessionsA.
  - intros _. unfold clearSessionLane. by destruct (JsMap.get key (sessionLanes s)).
Qed.

Lemma keyless_enqueueA tsk opts now s :
  String.eqb (sopt_sessionKey opts) "" = true ->
  enqueueSessionTask throws tsk opts now s
  = enqueueCommandInLane throws Main tsk
      {| opt_warnAfterMs := Some (default 2000 (sopt_warnAfterMs opts));
         opt_priority := Some (default Normal (sopt_priority opts));
         opt_onWait := sopt_onWait opts |} now s.
Proof. intros H. unfold enqueueSessionTask. by rewrite H. Qed.

(** **** Session queues stay sorted *)

Lemma queuesOrdered_drainSessionLane key now s :
  queuesOrdered s -> queuesOrdered (drainSessionLane throws key now s).1.
Proof.
  intros Hord. unfold drainSessionLane.
  pose proof (queuesOrdered_getSessionLaneState key s Hord) as H1.
  destruct (getSessionLaneState_spec key s) as (Hget & _).
  destruct (getSessionLaneState key s) as [st s1]. simpl in *.
  destruct (sl_active st); [done|].
  destruct (queue st) as [|entry rest] eqn:Hq; [done|].
  destruct (_ <=? _); [done|].
  assert (Hrest : ordered rest).
  { pose proof (JsMap.Forall_values_get (fun st => ordered (queue st))
                  _ _ _ H1 Hget) as Ho.
    simpl in Ho. rewrite Hq in Ho. by eapply ordered_tail. }
  destruct (waitCallThrows throws entry now _); unfold queuesOrdered; simpl;
    by apply (JsMap.Forall_values_set (fun st => ordered (queue st))).
Qed.

Lemma queuesOrdered_drainWaitingLoop ks : forall now s,
  queuesOrdered s -> queuesOrdered (drainWaitingLoop throws ks now s).1.
Proof.
  induction ks as [|k ks IH]; intros now s Hord; simpl; [done|].
  destruct (JsMap.get k (sessionLanes s)) as [st|]; [|auto].
  destruct (negb (sl_active st) && (0 <? length (queue st))%nat); [|auto].
  pose proof (queuesOrdered_drainSessionLane k now s Hord) as H1.
  destruct (drainSessionLane throws k now s) as [s' c]. simpl in H1.
  destruct c; [|done]. destruct (_ <=? _); [done|]. by apply IH.
Qed.

Lemma queuesOrdered_drainWaitingSessions now s :
  queuesOrdered s -> queuesOrdered (drainWaitingSessions throws now s).1.
Proof.
  intros Hord. unfold drainWaitingSessions. destruct (_ <=? _); [done|].
  by apply queuesOrdered_drainWaitingLoop.
Qed.

Lemma queuesOrdered_settleAndDrain key st now s :
  queuesOrdered s -> JsMap.get key (sessionLanes s) = Some st ->
  queuesOrdered (settleAndDrain throws key st now s).1.
Proof.
  intros Hord Hget. unfold settleAndDrain.
  match goal with |- context [drainSessionLane throws key now ?s0] =>
    assert (H0 : queuesOrdered s0);
    [|pose proof (queuesOrdered_drainSessionLane key now s0 H0) as H1;
      destruct (drainSessionLane throws key now s0) as [s1 c]] end.
  { unfold queuesOrdered. simpl.
    apply (JsMap.Forall_values_set (fun st => ordered (queue st))); [done|].
    exact (JsMap.Forall_values_get (fun st => ordered (queue st)) _ _ _ Hord Hget). }
  simpl in H1. destruct c; [|done].
  by apply queuesOrdered_drainWaitingSessions.
Qed.

Lemma enqueueSessionTask_unfoldA tsk opts now s :
  sopt_sessionKey opts <> "" ->
  enqueueSessionTask throws tsk opts now s
  = (drainSessionLane throws (sopt_sessionKey opts) now
       (withQueue (sopt_sessionKey opts)
          (insertByPriority (queueOf (sopt_sessionKey opts) s)
             (sessionEntry tsk opts now)) s)).1.
Proof.
  intros Hne. unfold enqueueSessionTask, withQueue, queueOf, getSessionLaneState.
  apply String.eqb_neq in Hne. rewrite Hne.
  destruct (JsMap.get (sopt_sessionKey opts) (sessionLanes s)); reflexivity.
Qed.

Lemma queuesOrdered_withQueue key q s :
  queuesOrdered s -> ordered q -> queuesOrdered (withQueue key q s).
Proof.
  intros Hord Hq. unfold withQueue.
  pose proof (queuesOrdered_getSessionLaneState key s Hord) as H1.
  destruct (getSessionLaneState key s) as [st s1]. simpl in *.
  unfold queuesOrdered. simpl.
  by apply (JsMap.Forall_values_set (fun st => ordered (queue st))).
Qed.

Lemma queuesOrdered_step s ev :
  queuesOrdered s -> queuesOrdered (step throws s ev).
Proof.
  intros Hord.
  destruct ev as [name tsk opts now|name taskId entry ok0 now0|name n now0|name
                 |tsk opts now|key entry ok0 now0|n now0|key]; simpl.
  - apply (queuesOrdered_part s); [apply sessionPart_enqueueCommandInLaneA|done].
  - apply (queuesOrdered_part s); [apply sessionPart_laneTaskSettledA|done].
  - apply (queuesOrdered_part s); [apply sessionPart_setCommandLaneConcurrencyA|done].
  - apply (queuesOrdered_part s); [apply sessionPart_clearCommandLane|done].
  - destruct (decide (sopt_sessionKey opts = "")) as [He|Hne].
    + rewrite keyless_enqueueA by by rewrite He.
      apply (queuesOrdered_part s); [apply sessionPart_enqueueCommandInLaneA|done].
    + rewrite enqueueSessionTask_unfoldA by done.
      apply queuesOrdered_drainSessionLane, queuesOrdered_withQueue; [done|].
      by apply ordered_insertByPriority, queueOf_ordered.
  - unfold sessionTaskSettled. case_bool_decide; [|done].
    destruct (JsMap.get key (sessionLanes s)) as [st|] eqn:Hget; [|done].
    match goal with |- context [settleAndDrain throws key st now0 ?s0] =>
      pose proof (queuesOrdered_settleAndDrain key st now0 s0 Hord Hget) as H1;
      destruct (settleAndDrain throws key st now0 s0) as [s1 c] end.
    simpl in H1. destruct c; [done|]. destruct ok0; [|done].
    destruct (JsMap.get key (sessionLanes s1)) as [st1|] eqn:Hget1; [|done].
    by apply queuesOrdered_settleAndDrain.
  - unfold setMaxConcurrentSessions. destruct (_ <? _); [|done].
    by apply queuesOrdered_drainWaitingSessions.
  - unfold clearSessionLane.
    destruct (JsMap.get key (sessionLanes s)) as [st|]; [|done].
    unfold queuesOrdered. simpl.
    apply (JsMap.Forall_values_set (fun st => ordered (queue st))); [done|].
    constructor.
Qed.

Lemma queuesOrdered_run evs : forall s,
  queuesOrdered s -> queuesOrdered (run throws evs s).
Proof.
  induction evs as [|ev evs IH]; intros s Hord; [done|].
  simpl. by apply IH, queuesOrdered_step.
Qed.

(** **** The books of the task ids *)

Lemma idBook_pump name now s : idBook s -> idBook (pump throws name now s).1.
Proof.
  intros Hb. destruct (JsMap.get name (lanes s)) as [st|] eqn:Hget.
  - destruct (pump_started name now s st Hget) as (st' & new & -> & H3 & H4).
    unfold idBook. simpl. by apply (idBookOn_start _ _ _ name st).
  - unfold pump. by rewrite Hget.
Qed.

Lemma later_pumpA name now s : later s (pump throws name now s).1.
Proof.
  destruct (JsMap.get name (lanes s)) as [st|] eqn:Hget.
  - destruct (pump_started name now s st Hget) as (st' & new & -> & H3 & H4).
    destruct (started_tids name new (nextTaskId s) H3) as [Htids _].
    split; simpl; [lia|].
    intros r Hr. apply elem_of_app in Hr as [Hr|Hr]; [by left|]. right.
    assert (Ht : tidOf r ∈ tidOf <$> new) by by apply list_elem_of_fmap_2.
    rewrite Htids in Ht. apply elem_of_seq in Ht. lia.
  - unfold pump. rewrite Hget. apply later_refl.
Qed.

Lemma idBook_drainLane name now s : idBook s -> idBook (drainLane throws name now s).1.
Proof.
  intros Hb. unfold drainLane.
  pose proof (idBook_getLaneState name s Hb) as Hb1.
  pose proof (getLaneState_lookup name s) as Hget.
  destruct (getLaneState name s) as [st s1]. simpl in *.
  destruct (draining st); [done|].
  apply idBook_pump. unfold idBook. simpl.
  by apply (idBookOn_update _ _ _ name st).
Qed.

Lemma later_same s s' :
  nextTaskId s' = nextTaskId s -> laneRunning s' = laneRunning s -> later s s'.
Proof. intros Hn Hr. split; [lia|]. intros r H. left. by rewrite <- Hr. Qed.

Lemma later_drainLaneA name now s : later s (drainLane throws name now s).1.
Proof.
  unfold drainLane.
  assert (Hp : namedPart (getLaneState name s).2
               = ((lanes (getLaneState name s).2), nextTaskId s, laneRunning s)).
  { unfold getLaneState. by destruct (JsMap.get name (lanes s)). }
  destruct (getLaneState name s) as [st s1]. simpl in *.
  unfold namedPart in Hp. injection Hp as Hn Hr.
  destruct (draining st); [by apply later_same|].
  eapply later_trans; [|apply later_pumpA]. by apply later_same.
Qed.

Lemma idBook_enqueueCommandInLane name tsk opts now s :
  idBook s -> idBook (enqueueCommandInLane throws name tsk opts now s).
Proof.
  intros Hb. unfold enqueueCommandInLane.
  pose proof (idBook_getLaneState (cleanedLane name) s Hb) as Hb1.
  pose proof (getLaneState_lookup (cleanedLane name) s) as Hget.
  destruct (getLaneState (cleanedLane name) s) as [st s1]. simpl in *.
  apply idBook_drainLane. unfold idBook. simpl.
  by apply (idBookOn_update _ _ _ (cleanedLane name) st).
Qed.

Lemma later_enqueueCommandInLaneA name tsk opts now s :
  later s (enqueueCommandInLane throws name tsk opts now s).
Proof.
  unfold enqueueCommandInLane.
  assert (Hp : namedPart (getLaneState (cleanedLane name) s).2
               = ((lanes (getLaneState (cleanedLane name) s).2),
                  nextTaskId s, laneRunning s)).
  { unfold getLaneState. by destruct (JsMap.get _ (lanes s)). }
  destruct (getLaneState (cleanedLane name) s) as [st s1]. simpl in *.
  unfold namedPart in Hp. injection Hp as Hn Hr.
  eapply later_trans; [|apply later_drainLaneA]. by apply later_same.
Qed.

Lemma idBook_setCommandLaneConcurrency name n now s :
  idBook s -> idBook (setCommandLaneConcurrency throws name n now s).1.
Proof.
  intros Hb. unfold setCommandLaneConcurrency.
  pose proof (idBook_getLaneState (cleanedLane name) s Hb) as Hb1.
  pose proof (getLaneState_lookup (cleanedLane name) s) as Hget.
  destruct (getLaneState (cleanedLane name) s) as [st s1]. simpl in *.
  apply idBook_drainLane. unfold idBook. simpl.
  by apply (idBookOn_update _ _ _ (cleanedLane name) st).
Qed.

Lemma later_setCommandLaneConcurrencyA name n now s :
  later s (setCommandLaneConcurrency throws name n now s).1.
Proof.
  unfold setCommandLaneConcurrency.
  assert (Hp : namedPart (getLaneState (cleanedLane name) s).2
               = ((lanes (getLaneState (cleanedLane name) s).2),
                  nextTaskId s, laneRunning s)).
  { unfold getLaneState. by destruct (JsMap.get _ (lanes s)). }
  destruct (getLaneState (cleanedLane name) s) as [st s1]. simpl in *.
  unfold namedPart in Hp. injection Hp as Hn Hr.
  eapply later_trans; [|apply later_drainLaneA]. by apply later_same.
Qed.

(** A task settles, in the [try] arm and, when that arm's [pump()] throws,
    in the [catch] arm once more. *)
Lemma laneTaskSettled_spec name taskId entry fulfilled now s :
  idBook s ->
  idBook (laneTaskSettled throws name taskId entry fulfilled now s) /\
  later s (laneTaskSettled throws name taskId entry fulfilled now s).
Proof.
  intros Hb. unfold laneTaskSettled, settleAndPump.
  case_bool_decide as Hin; [|split; [done|apply later_refl]].
  destruct (JsMap.get name (lanes s)) as [st|] eqn:Hget;
    [|split; [done|apply later_refl]].
  match goal with |- context [pump throws name now ?s0] => set (s0' := s0) end.
  assert (Hb0 : idBook s0').
  { unfold idBook, s0'. simpl. by apply idBookOn_settle. }
  assert (Hl0 : later s s0').
  { split; [done|]. intros r Hr. left. simpl in Hr.
    by apply list_elem_of_filter in Hr as [_ Hr]. }
  pose proof (idBook_pump name now s0' Hb0) as Hb1.
  pose proof (later_pumpA name now s0') as Hl1.
  destruct (pump throws name now s0') as [s1 c]. simpl in Hb1, Hl1.
  assert (Hl01 : later s s1) by by eapply later_trans.
  destruct c; [done|]. destruct fulfilled; [|done].
  destruct (JsMap.get name (lanes s1)) as [st1|] eqn:Hget1; [|done].
  assert (Hgone : forall e, (name, taskId, e) ∉ laneRunning s1).
  { intros e He. destruct Hb as (_ & Hnd & Hrun & _).
    destruct (Hrun _ Hin) as [Hlt _]. unfold tidOf in Hlt. simpl in Hlt.
    destruct Hl1 as [_ Hl1]. destruct (Hl1 _ He) as [H0|Hge].
    - unfold s0' in H0. simpl in H0.
      apply list_elem_of_filter in H0 as [Hne H0]. apply Hne.
      by apply (same_tid (laneRunning s)).
    - unfold tidOf in Hge. simpl in Hge. unfold s0' in Hge. simpl in Hge. lia. }
  match goal with |- context [pump throws name now ?s2] => set (s2' := s2) end.
  assert (Hb2 : idBook s2').
  { unfold idBook, s2'. simpl. by apply idBookOn_resettle. }
  split; [by apply idBook_pump|].
  eapply later_trans; [exact Hl01|].
  eapply later_trans; [|apply later_pumpA]. by apply later_same.
Qed.

Lemma idBook_step s ev : idBook s -> idBook (step throws s ev).
Proof.
  intros Hb. destruct (sessionOnly ev) eqn:Hev.
  { apply (idBook_part s); [by apply namedPart_sessionOnlyA|done]. }
  destruct ev as [name tsk opts now|name taskId entry ok0 now0|name n now0|name
                 |tsk opts now|key entry ok0 now0|n now0|key]; simpl in *; try done.
  - by apply idBook_enqueueCommandInLane.
  - by apply laneTaskSettled_spec.
  - by apply idBook_setCommandLaneConcurrency.
  - unfold clearCommandLane.
    destruct (JsMap.get (cleanedLane name) (lanes s)) as [st|] eqn:Hget; [|done].
    unfold idBook. simpl. by apply (idBookOn_update _ _ _ _ st).
  - apply negb_false_iff in Hev. rewrite keyless_enqueueA by done.
    by apply idBook_enqueueCommandInLane.
Qed.

Lemma idBook_run evs : forall s, idBook s -> idBook (run throws evs s).
Proof.
  induction evs as [|ev evs IH]; intros s Hb; [done|].
  simpl. by apply IH, idBook_step.
Qed.

Lemma later_stepA s ev : idBook s -> later s (step throws s ev).
Proof.
  intros Hb. destruct (sessionOnly ev) eqn:Hev.
  { by apply later_part, namedPart_sessionOnlyA. }
  destruct ev as [name tsk opts now|name taskId entry ok0 now0|name n now0|name
                 |tsk opts now|key entry ok0 now0|n now0|key]; simpl in *; try done.
  - apply later_enqueueCommandInLaneA.
  - by apply laneTaskSettled_spec.
  - apply later_setCommandLaneConcurrencyA.
  - unfold clearCommandLane.
    destruct (JsMap.get (cleanedLane name) (lanes s)); [|apply later_refl].
    by apply later_same.
  - apply negb_false_iff in Hev. rewrite keyless_enqueueA by done.
    apply later_enqueueCommandInLaneA.
Qed.

Lemma later_runA evs : forall s, idBook s -> later s (run throws evs s).
Proof.
  induction evs as [|ev evs IH]; intros s Hb; [apply later_refl|].
  simpl. eapply later_trans; [by apply later_stepA|]. by apply IH, idBook_step.
Qed.

End AnyCallbacks.

(** *** The claims about the scheduler *)

(** A trace that never lowers the session cap, started from [s]. *)
Fixpoint capNeverLowered (throws : nat -> Z -> nat -> bool) (evs : list Event)
    (s : QueueState) : Prop :=
  match evs with
  | [] => True
  | ev :: evs' =>
      maxConcurrentSessions s <= capAfter s ev /\
      capNeverLowered throws evs' (step throws s ev)
  end.

Lemma returning_capNeverLowered throws evs : forall s,
  callbacksReturn throws ->
  capNeverLowered throws evs s -> quietCapNeverLowered evs s.
Proof.
  induction evs as [|ev evs IH]; intros s Hret; simpl; [done|].
  rewrite (returning_step throws Hret). intros [H1 H2]. split; [done|]. by apply IH.
Qed.

(** C2, as the code has it.  As long as no [onWait] callback throws, in
    every state the module reaches: no session lane has two started tasks
    and a lane is flagged active exactly when it has one;
    [activeSessionCount] is the number of active lanes and of started
    session tasks; [drainSessionLane], in whatever state it is called,
    starts a task only on a lane that is not active and only while
    [activeSessionCount] is strictly below [maxConcurrentSessions]; no event
    lifts the counter above the larger of its old value and the cap; and the
    counter is within the cap as long as [setMaxConcurrentSessions] never
    lowered the cap. *)
Theorem session_scheduler_invariant (throws : nat -> Z -> nat -> bool)
    (evs : list Event) :
  callbacksReturn throws ->
  let s := run throws evs initialState in
  NoDup (sessionRunning s).*1 /\
  (forall k, k ∈ (sessionRunning s).*1 <->
             exists st, JsMap.get k (sessionLanes s) = Some st /\
                        sl_active st = true) /\
  activeSessionCount s = Z.of_nat (JsMap.count sl_active (sessionLanes s)) /\
  activeSessionCount s = Z.of_nat (length (sessionRunning s)) /\
  (forall key now s0,
     let s0' := (drainSessionLane throws key now s0).1 in
     sessionRunning s0' = sessionRunning s0 \/
     (exists entry,
        sessionRunning s0' = sessionRunning s0 ++ [(key, entry)] /\
        (forall st, JsMap.get key (sessionLanes s0) = Some st -> sl_active st = false) /\
        activeSessionCount s0 < maxConcurrentSessions s0 /\
        activeSessionCount s0' = activeSessionCount s0 + 1)) /\
  (forall ev,
     activeSessionCount (step throws s ev)
       <= Z.max (activeSessionCount s) (maxConcurrentSessions (step throws s ev))) /\
  (capNeverLowered throws evs initialState ->
   activeSessionCount s <= maxConcurrentSessions s).
Proof.
  intros Hret s. unfold s. rewrite (returning_run throws Hret).
  pose proof (quiet_session_scheduler_invariant evs) as H. cbv zeta in H.
  destruct H as (H1 & H2 & H3 & H4 & H5 & H6 & H7).
  do 4 (split; [done|]). split; [|split].
  - intros key now s0. cbv zeta. rewrite (returning_drainSessionLane throws Hret).
    apply H5.
  - intros ev. rewrite (returning_step throws Hret). apply H6.
  - intros Hcap. by apply H7, (returning_capNeverLowered throws).
Qed.

Lemma session_scheduler_invariant_witness :
  callbacksReturn neverThrows /\
  capNeverLowered neverThrows raisedCapTrace initialState /\
  activeSessionCount (run neverThrows raisedCapTrace initialState)
    <= maxConcurrentSessions (run neverThrows raisedCapTrace initialState).
Proof.
  assert (Hret : callbacksReturn neverThrows) by (intros cb w q; reflexivity).
  assert (H : capNeverLowered neverThrows raisedCapTrace initialState).
  { simpl. repeat split; lia. }
  split; [exact Hret|]. split; [exact H|].
  exact (proj2 (proj2 (proj2 (proj2 (proj2 (proj2
           (session_scheduler_invariant neverThrows raisedCapTrace Hret)))))) H).
Defined.

(** C2 as stated fails: after [setMaxConcurrentSessions(1)] with two sessions
    active, the sum of active sessions is 2 and the cap is 1.  No callback
    is involved. *)
Lemma session_cap_exceeded_after_lowering :
  activeSessionCount (run neverThrows loweredCapTrace initialState) = 2 /\
  maxConcurrentSessions (run neverThrows loweredCapTrace initialState) = 1 /\
  ~ (activeSessionCount (run neverThrows loweredCapTrace initialState)
       <= maxConcurrentSessions (run neverThrows loweredCapTrace initialState)).
Proof.
  split; [reflexivity|]. split; [reflexivity|].
  vm_compute. intros H. by apply H.
Qed.

(** What a throwing callback does to the session scheduler. *)

(** The callback number 7 throws, whatever it is called with. *)
Definition seventhThrows : nat -> Z -> nat -> bool := fun cb _ _ => Nat.eqb cb 7.

(** Options of a task whose [onWait] is due at once. *)
Definition impatientOpts (key : string) (cb : nat) : SessionEnqueueOptions :=
  {| sopt_sessionKey := key; sopt_warnAfterMs := Some 0; sopt_priority := None;
     sopt_onWait := Some cb |}.

(** The first task of a session whose [onWait] throws: the lane is flagged
    active and counted, and no task was started; the lane never drains
    again. *)
Example session_flagged_without_task :
  let s := run seventhThrows [EnqueueSessionTask 1 (impatientOpts "a" 7) 0]
             initialState in
  JsMap.get "a" (sessionLanes s)
  = Some {| sl_sessionKey := "a"; queue := []; sl_active := true |} /\
  activeSessionCount s = 1 /\
  sessionRunning s = [] /\
  run seventhThrows [EnqueueSessionTask 2 (sessionOpts "a" Normal) 1] s
  = withQueue "a" [sessionEntry 2 (sessionOpts "a" Normal) 1] s.
Proof. vm_compute. done. Qed.

(** Session "x" runs task 1 with tasks 2 and 3 queued; sessions "v" and "w"
    wait under a cap of 1 with callbacks that throw.  Raising the cap drains
    "v", whose callback throws and leaves the loop, so "w" still waits.  When
    task 1 fulfils, the [try] arm starts task 2 and then drains "w", whose
    callback throws; the [catch] arm resets the lane of "x" and starts
    task 3. *)
Definition twoWaitersTrace : list Event :=
  [SetMaxConcurrentSessions 1 0;
   EnqueueSessionTask 1 (sessionOpts "x" Normal) 0;
   EnqueueSessionTask 2 (sessionOpts "x" Normal) 0;
   EnqueueSessionTask 3 (sessionOpts "x" Normal) 0;
   EnqueueSessionTask 4 (impatientOpts "v" 7) 0;
   EnqueueSessionTask 5 (impatientOpts "w" 7) 0;
   SetMaxConcurrentSessions 4 1;
   SessionTaskSettled "x" (sessionEntry 1 (sessionOpts "x" Normal) 0) true 2].

(** Two tasks of session "x" execute at once, and the counter is not the
    number of lanes flagged active. *)
Example session_runs_two_tasks_when_onWait_throws :
  let s := run seventhThrows twoWaitersTrace initialState in
  map (fun r => (r.1, task r.2)) (sessionRunning s) = [("x", 2%nat); ("x", 3%nat)] /\
  activeSessionCount s = 3 /\
  JsMap.count sl_active (sessionLanes s) = 3%nat /\
  length (sessionRunning s) = 2%nat.
Proof. vm_compute. done. Qed.

(** C6.  In every state the module reaches, [enqueueSessionTask] with a
    non-empty session key splits the lane's queue in two: every entry of the
    first part has a priority value at most the new one (higher or equal
    priority), every entry of the second part has a strictly greater value
    (strictly lower priority), and the new entry goes between them before the
    lane is drained.  So the entry sits right before the first strictly lower
    entry, at the end when there is none, and behind every entry of its own
    priority. *)
Theorem session_enqueue_position (throws : nat -> Z -> nat -> bool)
    (evs : list Event) (tsk : nat) (opts : SessionEnqueueOptions) (now : Z) :
  sopt_sessionKey opts <> "" ->
  let s := run throws evs initialState in
  let key := sopt_sessionKey opts in
  let entry := sessionEntry tsk opts now in
  exists before after,
    queueOf key s = before ++ after /\
    Forall (fun e => priority e <= priority entry) before /\
    Forall (fun e => priority entry < priority e) after /\
    enqueueSessionTask throws tsk opts now s
    = (drainSessionLane throws key now
         (withQueue key (before ++ entry :: after) s)).1.
Proof.
  intros Hne s key entry.
  pose proof (queuesOrdered_run throws evs _ queuesOrdered_initial) as Hord.
  fold s in Hord.
  destruct (insertByPriority_split (queueOf key s) entry)
    as (before & after & Hq & Hins & Hb & Ha).
  exists before, after. split; [done|]. split; [done|]. split.
  - apply (ordered_after before); [|done]. rewrite <- Hq.
    by apply queueOf_ordered.
  - rewrite enqueueSessionTask_unfoldA by done. fold key entry s.
    by rewrite Hins.
Qed.

Lemma session_enqueue_position_witness :
  exists before after,
    queueOf "a" (run neverThrows busySessionTrace initialState) = before ++ after /\
    Forall (fun e => priority e <= Normal) before /\
    Forall (fun e => Normal < priority e) after /\
    enqueueSessionTask neverThrows 4 (sessionOpts "a" Normal) 3
      (run neverThrows busySessionTrace initialState)
    = (drainSessionLane neverThrows "a" 3
         (withQueue "a" (before ++ sessionEntry 4 (sessionOpts "a" Normal) 3 :: after)
            (run neverThrows busySessionTrace initialState))).1.
Proof.
  apply (session_enqueue_position neverThrows busySessionTrace 4
           (sessionOpts "a" Normal) 3).
  simpl. discriminate.
Defined.

(** The queue in that witness: the new Normal entry lands between the
    waiting Normal entry and the Background one. *)
Example session_enqueue_position_example :
  map task
    (queueOf "a" (enqueueSessionTask neverThrows 4 (sessionOpts "a" Normal) 3
                    (run neverThrows busySessionTrace initialState)))
  = [3; 4; 2]%nat.
Proof. reflexivity. Qed.

(** C9.  In every state the module reaches, whatever the callbacks do,
    [enqueueSessionTask] with the empty session key is
    [enqueueCommandInLane] on the main lane with the [warnAfterMs],
    [priority] and [onWait] it destructured, which is the same as passing
    the caller's options on (both functions default an absent option alike);
    the session lanes, the active session counter, the cap and the started
    session tasks are unchanged.  When no callback throws, the entry it
    builds, which carries these options, ends up held by the lane named
    "main": queued there or started from it. *)
Theorem enqueueSessionTask_without_key (throws : nat -> Z -> nat -> bool)
    (evs : list Event) (tsk : nat) (opts : SessionEnqueueOptions) (now : Z) :
  sopt_sessionKey opts = "" ->
  let s := run throws evs initialState in
  let s' := enqueueSessionTask throws tsk opts now s in
  s' = enqueueCommandInLane throws Main tsk
         {| opt_warnAfterMs := Some (default 2000 (sopt_warnAfterMs opts));
            opt_priority := Some (default Normal (sopt_priority opts));
            opt_onWait := sopt_onWait opts |} now s /\
  s' = enqueueCommandInLane throws Main tsk
         {| opt_warnAfterMs := sopt_warnAfterMs opts;
            opt_priority := sopt_priority opts;
            opt_onWait := sopt_onWait opts |} now s /\
  sessionLanes s' = sessionLanes s /\
  activeSessionCount s' = activeSessionCount s /\
  maxConcurrentSessions s' = maxConcurrentSessions s /\
  sessionRunning s' = sessionRunning s /\
  (callbacksReturn throws ->
   onLane "main"
     {| task := tsk; enqueuedAt := now;
        warnAfterMs := default 2000 (sopt_warnAfterMs opts);
        priority := default Normal (sopt_priority opts);
        sessionKey := None; onWait := sopt_onWait opts |} s').
Proof.
  intros Hkey s s'.
  assert (Heq : s' = enqueueCommandInLane throws Main tsk
                       {| opt_warnAfterMs := sopt_warnAfterMs opts;
                          opt_priority := sopt_priority opts;
                          opt_onWait := sopt_onWait opts |} now s).
  { unfold s', enqueueSessionTask. rewrite Hkey. simpl.
    unfold enqueueCommandInLane. simpl. done. }
  split; [unfold s', enqueueSessionTask; by rewrite Hkey|].
  split; [exact Heq|].
  pose proof (sessionPart_enqueueCommandInLaneA throws Main tsk
                {| opt_warnAfterMs := sopt_warnAfterMs opts;
                   opt_priority := sopt_priority opts;
                   opt_onWait := sopt_onWait opts |} now s) as Hp.
  rewrite <- Heq in Hp. unfold sessionPart in Hp.
  injection Hp as H1 H2 H3 H4. do 4 (split; [done|]).
  intros Hret.
  pose proof (quiet_enqueueSessionTask_without_key evs tsk opts now Hkey) as H.
  cbv zeta in H. destruct H as (_ & _ & H & _).
  unfold s', s. by rewrite (returning_run throws Hret),
                           (returning_enqueueSessionTask throws Hret).
Qed.

Lemma enqueueSessionTask_without_key_witness :
  let s := run neverThrows keylessTrace initialState in
  let s' := enqueueSessionTask neverThrows 3 (sessionOpts "" Urgent) 2 s in
  s' = enqueueCommandInLane neverThrows Main 3
         {| opt_warnAfterMs := Some 2000; opt_priority := Some Urgent;
            opt_onWait := None |} 2 s /\
  s' = enqueueCommandInLane neverThrows Main 3
         {| opt_warnAfterMs := None; opt_priority := Some Urgent;
            opt_onWait := None |} 2 s /\
  sessionLanes s' = sessionLanes s /\
  activeSessionCount s' = activeSessionCount s /\
  maxConcurrentSessions s' = maxConcurrentSessions s /\
  sessionRunning s' = sessionRunning s /\
  (callbacksReturn neverThrows ->
   onLane "main"
     {| task := 3; enqueuedAt := 2; warnAfterMs := 2000; priority := Urgent;
        sessionKey := None; onWait := None |} s').
Proof.
  apply (enqueueSessionTask_without_key neverThrows keylessTrace 3
           (sessionOpts "" Urgent) 2).
  reflexivity.
Defined.

(** A task without a session key whose [onWait] is due at once and throws:
    [pump] has taken the entry from its bucket, the entry is not started,
    and the lane named "main" is left marked as draining, so that later
    entries are queued and never started. *)
Example keyless_entry_lost_when_onWait_throws :
  let s := run seventhThrows [EnqueueSessionTask 1 (impatientOpts "" 7) 0]
             initialState in
  let s' := run seventhThrows [EnqueueSessionTask 2 (sessionOpts "" Normal) 1] s in
  (draining <$> JsMap.get "main" (lanes s)) = Some true /\
  (getTotalQueued <$> JsMap.get "main" (lanes s)) = Some 0%nat /\
  laneRunning s = [] /\
  (getTotalQueued <$> JsMap.get "main" (lanes s')) = Some 1%nat /\
  laneRunning s' = [] /\
  sessionLanes s' = [] /\ activeSessionCount s' = 0.
Proof. vm_compute. done. Qed.

(** End-to-end scenario "priority preemption" of the specification: lane
    main with concurrency 1; A (Normal) runs, then B (Background), C (Urgent)
    and D (Normal) are enqueued; the tasks are started in the order A, C, D, B. *)
Example priority_preemption_scenario :
  let s1 := run neverThrows
              [EnqueueCommandInLane "main" 10 (laneOpts Normal) 0;
               EnqueueCommandInLane "main" 11 (laneOpts Background) 1;
               EnqueueCommandInLane "main" 12 (laneOpts Urgent) 2;
               EnqueueCommandInLane "main" 13 (laneOpts Normal) 3] initialState in
  let s2 := run neverThrows
              [LaneTaskSettled "main" 1 (laneEntry 10 0 Normal) true 4;
               LaneTaskSettled "main" 2 (laneEntry 12 2 Urgent) true 5;
               LaneTaskSettled "main" 3 (laneEntry 13 3 Normal) false 6] s1 in
  map (fun r => task r.2) (laneRunning s1) = [10%nat] /\
  map (fun r => (r.1.2, task r.2)) (laneRunning s2) = [(4%nat, 11%nat)] /\
  nextTaskId s2 = 5%nat.
Proof. vm_compute. done. Qed.

(** *** More about the session scheduler *)

(** Every session queue is sorted by priority in every state the module
    reaches, whatever the callbacks do.  As long as no [onWait] callback
    throws, the session scheduler serves a session in that order: when a
    task of the session settles (fulfilled or rejected) while the number of
    active sessions is within the limit, the task started next for the
    session is the head of its queue, and no queued entry of the session
    has a higher priority (a lower priority value) than it. *)
Theorem session_next_task_by_priority (throws : nat -> Z -> nat -> bool)
    (evs : list Event) (key : string) :
  callbacksReturn throws ->
  let s := run throws evs initialState in
  ordered (queueOf key s) /\
  forall settledEntry next rest fulfilled now,
    (key, settledEntry) ∈ sessionRunning s ->
    queueOf key s = next :: rest ->
    activeSessionCount s <= maxConcurrentSessions s ->
    let s' := sessionTaskSettled throws key settledEntry fulfilled now s in
    (key, next) ∈ sessionRunning s' /\
    queueOf key s' = rest /\
    Forall (fun e => priority next <= priority e) rest.
Proof.
  intros Hret s. unfold s. rewrite (returning_run throws Hret).
  pose proof (quiet_session_next_task_by_priority evs key) as H. cbv zeta in H.
  destruct H as [H1 H2]. split; [exact H1|].
  intros e0 next rest fulfilled now Hin Hq Hle. cbv zeta.
  rewrite (returning_sessionTaskSettled throws Hret). by apply H2.
Qed.

Lemma session_next_task_by_priority_witness :
  let s := run neverThrows busySessionTrace initialState in
  let s' := sessionTaskSettled neverThrows "a"
              (sessionEntry 1 (sessionOpts "a" Normal) 0) true 9 s in
  ("a", sessionEntry 3 (sessionOpts "a" Normal) 2) ∈ sessionRunning s' /\
  queueOf "a" s' = [sessionEntry 2 (sessionOpts "a" Background) 1] /\
  Forall (fun e => Normal <= priority e) [sessionEntry 2 (sessionOpts "a" Background) 1].
Proof.
  destruct (session_next_task_by_priority neverThrows busySessionTrace "a"
              (fun _ _ _ => eq_refl)) as [_ H].
  apply (H (sessionEntry 1 (sessionOpts "a" Normal) 0)
           (sessionEntry 3 (sessionOpts "a" Normal) 2)
           [sessionEntry 2 (sessionOpts "a" Background) 1] true 9).
  - vm_compute. left.
  - reflexivity.
  - vm_compute. discriminate.
Defined.

(** Work conservation of the session scheduler.  As long as no [onWait]
    callback throws, in every state the module reaches a session lane that
    has work queued and is not executing a task exists only while the number
    of active sessions has reached [maxConcurrentSessions]. *)
Theorem session_work_conserving (throws : nat -> Z -> nat -> bool)
    (evs : list Event) (key : string) (st : SessionLaneState) :
  callbacksReturn throws ->
  let s := run throws evs initialState in
  JsMap.get key (sessionLanes s) = Some st ->
  sl_active st = false -> queue st <> [] ->
  maxConcurrentSessions s <= activeSessionCount s.
Proof.
  intros Hret s. unfold s. rewrite (returning_run throws Hret).
  apply quiet_session_work_conserving.
Qed.

Lemma session_work_conserving_witness :
  maxConcurrentSessions (run neverThrows oneSessionTrace initialState)
  <= activeSessionCount (run neverThrows oneSessionTrace initialState).
Proof.
  apply (session_work_conserving neverThrows oneSessionTrace "b"
           {| sl_sessionKey := "b";
              queue := [sessionEntry 2 (sessionOpts "b" Normal) 1];
              sl_active := false |}).
  - intros cb w q. reflexivity.
  - reflexivity.
  - reflexivity.
  - simpl. discriminate.
Defined.

(** Sessions do not block each other.  As long as no [onWait] callback
    throws, in every state the module reaches a task enqueued for a session
    that is not executing a task, while the number of active sessions is
    below the limit, is started by the enqueue itself, however much work
    other sessions have queued. *)
Theorem idle_session_starts_at_once (throws : nat -> Z -> nat -> bool)
    (evs : list Event) (tsk : nat) (opts : SessionEnqueueOptions) (now : Z) :
  callbacksReturn throws ->
  let s := run throws evs initialState in
  let key := sopt_sessionKey opts in
  key <> "" ->
  activeSessionCount s < maxConcurrentSessions s ->
  (forall st, JsMap.get key (sessionLanes s) = Some st -> sl_active st = false) ->
  let s' := enqueueSessionTask throws tsk opts now s in
  sessionRunning s' = sessionRunning s ++ [(key, sessionEntry tsk opts now)] /\
  queueOf key s' = [] /\
  activeSessionCount s' = activeSessionCount s + 1.
Proof.
  intros Hret s. unfold s. rewrite (returning_run throws Hret). cbv zeta.
  rewrite (returning_enqueueSessionTask throws Hret).
  apply quiet_idle_session_starts_at_once.
Qed.

(** Session "a" is busy; a first task arrives for session "c". *)
Lemma idle_session_starts_at_once_witness :
  let s := run neverThrows busySessionTrace initialState in
  let s' := enqueueSessionTask neverThrows 9 (sessionOpts "c" Background) 5 s in
  sessionRunning s'
  = sessionRunning s ++ [("c", sessionEntry 9 (sessionOpts "c" Background) 5)] /\
  queueOf "c" s' = [] /\
  activeSessionCount s' = activeSessionCount s + 1.
Proof.
  apply (idle_session_starts_at_once neverThrows busySessionTrace 9
           (sessionOpts "c" Background) 5).
  - intros cb w q. reflexivity.
  - simpl. discriminate.
  - vm_compute. reflexivity.
  - intros st H. vm_compute in H. discriminate.
Defined.

(** Size accounting of the session lanes.  As long as no [onWait] callback
    throws, in every state the module reaches: [enqueueSessionTask] with a
    session key adds exactly one to [getSessionQueueSize] of that session
    and to [getTotalSessionQueueSize]; the settling of a started session
    task takes exactly one away from both; [clearSessionLane] takes away the
    number it returns, which is the number of queued entries, and leaves the
    started tasks alone.  The size of every other session stays as it is. *)
Theorem session_queue_size_accounting (throws : nat -> Z -> nat -> bool)
    (evs : list Event) :
  callbacksReturn throws ->
  let s := run throws evs initialState in
  (forall tsk opts now k,
     sopt_sessionKey opts <> "" ->
     let s' := enqueueSessionTask throws tsk opts now s in
     getSessionQueueSize k s'
     = getSessionQueueSize k s
       + (if decide (k = sopt_sessionKey opts) then 1 else 0) /\
     getTotalSessionQueueSize s' = getTotalSessionQueueSize s + 1) /\
  (forall key entry fulfilled now k,
     (key, entry) ∈ sessionRunning s ->
     let s' := sessionTaskSettled throws key entry fulfilled now s in
     getSessionQueueSize k s'
     = getSessionQueueSize k s - (if decide (k = key) then 1 else 0) /\
     getTotalSessionQueueSize s' = getTotalSessionQueueSize s - 1) /\
  (forall key k,
     let s' := clearSessionLane key s in
     clearSessionLaneResult key s = Z.of_nat (length (queueOf key s)) /\
     getSessionQueueSize k s'
     = getSessionQueueSize k s
       - (if decide (k = key) then clearSessionLaneResult key s else 0) /\
     getTotalSessionQueueSize s'
     = getTotalSessionQueueSize s - clearSessionLaneResult key s /\
     queueOf key s' = [] /\
     sessionRunning s' = sessionRunning s /\
     activeSessionCount s' = activeSessionCount s).
Proof.
  intros Hret s. unfold s. rewrite (returning_run throws Hret).
  pose proof (quiet_session_queue_size_accounting evs) as H. cbv zeta in H.
  destruct H as (H1 & H2 & H3). split; [|split; [|exact H3]].
  - intros tsk opts now k Hne. cbv zeta.
    rewrite (returning_enqueueSessionTask throws Hret). by apply H1.
  - intros key entry fulfilled now k Hin. cbv zeta.
    rewrite (returning_sessionTaskSettled throws Hret). by apply H2.
Qed.

Lemma session_queue_size_accounting_witness :
  let s := run neverThrows busySessionTrace initialState in
  let s' := enqueueSessionTask neverThrows 4 (sessionOpts "a" Normal) 3 s in
  getSessionQueueSize "a" s = 3 /\
  getSessionQueueSize "a" s' = getSessionQueueSize "a" s + 1 /\
  getTotalSessionQueueSize s' = getTotalSessionQueueSize s + 1.
Proof.
  split; [reflexivity|].
  destruct (session_queue_size_accounting neverThrows busySessionTrace
              (fun _ _ _ => eq_refl)) as (H & _).
  apply (H 4%nat (sessionOpts "a" Normal) 3 "a"). simpl. discriminate.
Defined.

(** *** More about the named lanes *)


(** Lane "main" after the four enqueues of the priority scenario. *)
Definition fourOnMainTrace : list Event :=
  [EnqueueCommandInLane "main" 10 (laneOpts Normal) 0;
   EnqueueCommandInLane "main" 11 (laneOpts Background) 1;
   EnqueueCommandInLane "main" 12 (laneOpts Urgent) 2;
   EnqueueCommandInLane "main" 13 (laneOpts Normal) 3].


(** The books of the named lanes.  As long as no [onWait] callback throws,
    in every state the module reaches: task ids are unique among the
    executing tasks and below [nextTaskId]; for every lane, [activeTaskIds]
    is the set of ids of the tasks started on the lane and not settled yet,
    and [active] is their number; [getActiveTaskCount()] is the number of
    all tasks executing on named lanes (tasks of session lanes are not
    counted). *)
Theorem named_lane_books (throws : nat -> Z -> nat -> bool) (evs : list Event) :
  callbacksReturn throws ->
  let s := run throws evs initialState in
  NoDup (tidOf <$> laneRunning s) /\
  (forall r, r ∈ laneRunning s -> (tidOf r < nextTaskId s)%nat) /\
  (forall name st, JsMap.get name (lanes s) = Some st ->
     (forall t, t ∈ activeTaskIds st <-> exists e, (name, t, e) ∈ laneRunning s) /\
     active st = Z.of_nat (size (activeTaskIds st)) /\
     active st = Z.of_nat (length (runningOn name s))) /\
  getActiveTaskCount s = Z.of_nat (length (laneRunning s)).
Proof.
  intros Hret s. unfold s. rewrite (returning_run throws Hret).
  apply quiet_named_lane_books.
Qed.

Lemma named_lane_books_witness :
  getActiveTaskCount (run neverThrows twoAtATimeTrace initialState)
  = Z.of_nat (length (laneRunning (run neverThrows twoAtATimeTrace initialState))).
Proof.
  exact (proj2 (proj2 (proj2 (named_lane_books neverThrows twoAtATimeTrace
                                (fun _ _ _ => eq_refl))))).
Defined.





(** A task whose [pump()] throws in the [try] arm is settled twice: the
    lane "main" with limit 1 ends up with [active = -1] and no task, and
    then starts two tasks at once. *)
Definition impatientLaneOpts (cb : nat) : EnqueueOptions :=
  {| opt_warnAfterMs := Some 0; opt_priority := None; opt_onWait := Some cb |}.

Example lane_counter_negative_when_onWait_throws :
  let s := run seventhThrows
             [EnqueueCommandInLane "main" 1 (laneOpts Normal) 0;
              EnqueueCommandInLane "main" 2 (impatientLaneOpts 7) 0;
              LaneTaskSettled "main" 1 (laneEntry 1 0 Normal) true 1] initialState in
  let s' := run seventhThrows
              [EnqueueCommandInLane "main" 3 (laneOpts Normal) 2;
               EnqueueCommandInLane "main" 4 (laneOpts Normal) 3] s in
  laneActiveOf "main" (lanes s) = -1 /\
  laneRunning s = [] /\
  laneCapOf "main" (lanes s') = 1 /\
  map (fun r => task r.2) (laneRunning s') = [3%nat; 4%nat].
Proof. vm_compute. done. Qed.

(** Size accounting of the named lanes.  As long as no [onWait] callback
    throws, in every state the module reaches: [enqueueCommandInLane] adds
    exactly one to [getQueueSize] of the lane it names (after [trim], "main"
    for a blank name) and to [getTotalQueueSize]; the settling of an
    executing task takes exactly one away from both; [clearCommandLane]
    takes away the number it returns, which is the number of queued entries
    of the lane, so that the lane's size is then the number of tasks it
    executes, and it leaves the executing tasks alone.  The size of every
    other lane stays as it is. *)
Theorem named_lane_size_accounting (throws : nat -> Z -> nat -> bool)
    (evs : list Event) :
  callbacksReturn throws ->
  let s := run throws evs initialState in
  (forall name tsk opts now lane,
     let s' := enqueueCommandInLane throws name tsk opts now s in
     getQueueSize lane s'
     = getQueueSize lane s
       + (if decide (cleanedLane lane = cleanedLane name) then 1 else 0) /\
     getTotalQueueSize s' = getTotalQueueSize s + 1) /\
  (forall name taskId entry fulfilled now lane,
     (name, taskId, entry) ∈ laneRunning s ->
     let s' := laneTaskSettled throws name taskId entry fulfilled now s in
     getQueueSize lane s'
     = getQueueSize lane s - (if decide (cleanedLane lane = name) then 1 else 0) /\
     getTotalQueueSize s' = getTotalQueueSize s - 1) /\
  (forall name lane,
     let s' := clearCommandLane name s in
     getQueueSize lane s'
     = getQueueSize lane s
       - (if decide (cleanedLane lane = cleanedLane name)
          then clearCommandLaneResult name s else 0) /\
     getTotalQueueSize s' = getTotalQueueSize s - clearCommandLaneResult name s /\
     getQueueSize name s' = laneActiveOf (cleanedLane name) (lanes s) /\
     clearCommandLaneResult name s' = 0 /\
     laneRunning s' = laneRunning s).
Proof.
  intros Hret s. unfold s. rewrite (returning_run throws Hret).
  pose proof (quiet_named_lane_size_accounting evs) as H. cbv zeta in H.
  destruct H as (H1 & H2 & H3). split; [|split; [|exact H3]].
  - intros name tsk opts now lane. cbv zeta.
    rewrite (returning_enqueueCommandInLane throws Hret). apply H1.
  - intros name taskId entry fulfilled now lane Hin. cbv zeta.
    rewrite (returning_laneTaskSettled throws Hret). by apply H2.
Qed.

(** A lane name of white space only, here a no-break space and a line
    separator around a tab, is the lane "main". *)
Lemma named_lane_size_accounting_witness :
  let s := run neverThrows fourOnMainTrace initialState in
  let blank := utf8 [194; 160; 9; 226; 128; 168]%nat in
  let s' := enqueueCommandInLane neverThrows blank 14 (laneOpts Normal) 4 s in
  cleanedLane blank = "main" /\
  getQueueSize "main" s = 4 /\
  getQueueSize " main " s' = getQueueSize " main " s + 1 /\
  getTotalQueueSize s' = getTotalQueueSize s + 1.
Proof.
  split; [reflexivity|]. split; [reflexivity|].
  destruct (named_lane_size_accounting neverThrows fourOnMainTrace
              (fun _ _ _ => eq_refl)) as (H & _).
  exact (H (utf8 [194; 160; 9; 226; 128; 168]%nat) 14%nat (laneOpts Normal) 4 " main ").
Defined.

(** *** [waitForActiveTasks] *)

(** With right books, the ids found in the [activeTaskIds] of the lanes are
    the ids of the executing tasks. *)
Lemma idBook_ids s t :
  idBook s ->
  (exists st, st ∈ JsMap.values (lanes s) /\ t ∈ activeTaskIds st)
  <-> exists r, r ∈ laneRunning s /\ tidOf r = t.
Proof.
  intros (Hwf & Hnd & Hrun & Hlane). split.
  - intros (st & Hst & Ht). apply list_elem_of_fmap in Hst as ([k st'] & -> & Hin).
    apply wf_elem_get in Hin; [|done].
    apply (Hlane k st' Hin) in Ht as [e He]. by exists (k, t, e).
  - intros ([[k t'] e] & Hr & <-). destruct (Hrun _ Hr) as [_ [st Hget]].
    unfold laneOf, tidOf in *. simpl in *.
    exists st. split.
    + apply list_elem_of_fmap. exists (k, st). split; [done|by apply get_elem].
    + apply (Hlane k st Hget). by exists e.
Qed.

(** [waitForActiveTasks] waits for the tasks of its call only, whatever the
    callbacks do.  Let the function be called in a state the module reaches,
    and let [check] run at time [now] after any further events.  [check]
    resolves the promise with [drained: true] exactly when none of the
    named-lane tasks that were executing at the call is still executing
    (tasks started after the call and tasks of session lanes do not count);
    otherwise it resolves with [drained: false] when the deadline
    [t0 + timeoutMs] has passed, and schedules itself again when it has
    not. *)
Theorem waitForActiveTasks_waits_for_snapshot (throws : nat -> Z -> nat -> bool)
    (evs evs' : list Event) (timeoutMs t0 now : Z) :
  let s := run throws evs initialState in
  let w := waitForActiveTasks timeoutMs t0 s in
  let s' := run throws evs' s in
  let stillRunning := exists r, r ∈ laneRunning s /\ r ∈ laneRunning s' in
  (check w now s' = Some true <-> ~ stillRunning) /\
  (check w now s' = Some false <-> stillRunning /\ t0 + timeoutMs <= now) /\
  (check w now s' = None <-> stillRunning /\ now < t0 + timeoutMs).
Proof.
  intros s w s' stillRunning.
  pose proof (idBook_run throws evs _ idBook_initial) as Hb. fold s in Hb.
  pose proof (idBook_run throws evs' _ Hb) as Hb'. fold s' in Hb'.
  destruct (later_runA throws evs' s Hb) as [_ Hlater]. fold s' in Hlater.
  assert (HA : forall t, t ∈ activeAtStart w <-> exists r, r ∈ laneRunning s /\ tidOf r = t).
  { intros t. unfold w. simpl. rewrite elem_of_union_values, <- (idBook_ids s t Hb).
    split; [intros [H|H]; [by apply elem_of_empty in H|done]|by right]. }
  assert (HB : hasPending w s' = true <-> stillRunning).
  { unfold hasPending. rewrite existsb_exists. split.
    - intros (st & Hst & Hex). apply bool_decide_eq_true in Hex as (t & Ht & Hsnap).
      apply list_elem_of_In in Hst.
      destruct (proj1 (idBook_ids s' t Hb')) as (r' & Hr' & Htid); [by exists st|].
      apply HA in Hsnap as (r & Hr & Htid0).
      destruct Hb as (_ & _ & Hrun & _). destruct (Hrun r Hr) as [Hlt _].
      exists r'. split; [|done].
      destruct (Hlater r' Hr') as [?|Hge]; [done|]. lia.
    - intros (r & Hr & Hr').
      destruct (proj2 (idBook_ids s' (tidOf r) Hb')) as (st & Hst & Ht);
        [by exists r|].
      exists st. split; [by apply list_elem_of_In|].
      apply bool_decide_eq_true. exists (tidOf r). split; [done|].
      apply HA. by exists r. }
  assert (HC : size (activeAtStart w) = 0%nat -> ~ stillRunning).
  { intros H0 (r & Hr & _). apply size_empty_inv in H0.
    assert (Ht : tidOf r ∈ activeAtStart w) by (apply HA; by exists r).
    apply H0 in Ht. by apply elem_of_empty in Ht. }
  unfold check. change (deadline w) with (t0 + timeoutMs).
  case_bool_decide as Hsize.
  { specialize (HC Hsize). split; [done|]. split; split; try done; tauto. }
  destruct (hasPending w s') eqn:Hp; simpl.
  - assert (Hstill : stillRunning) by by apply HB.
    destruct (t0 + timeoutMs <=? now) eqn:Hd.
    + apply Z.leb_le in Hd. split; [split; [done|tauto]|].
      split; [done|]. split; [done|]. lia.
    + apply Z.leb_gt in Hd. split; [split; [done|tauto]|].
      split; [|done]. split; [done|]. lia.
  - assert (Hnot : ~ stillRunning).
    { intros H. apply HB in H. congruence. }
    split; [done|]. split; split; try done; tauto.
Qed.

(** *** The gateway's limits *)

(** [applyGatewayLaneConcurrency(cfg)] at time [now]: the four setters in
    turn; an exception of one of them leaves the function. *)
Definition applyGatewayLaneConcurrency (throws : nat -> Z -> nat -> bool)
    (cfg : GatewayLimits) (now : Z) (s : QueueState) : QueueState * Completion :=
  match setCommandLaneConcurrency throws Cron
          (default 1 (cronMaxConcurrentRuns cfg)) now s with
  | (s1, Threw) => (s1, Threw)
  | (s1, Returned) =>
      match setCommandLaneConcurrency throws Main (agentMaxConcurrent cfg) now s1 with
      | (s2, Threw) => (s2, Threw)
      | (s2, Returned) =>
          match setCommandLaneConcurrency throws Subagent
                  (subagentMaxConcurrent cfg) now s2 with
          | (s3, Threw) => (s3, Threw)
          | (s3, Returned) =>
              setMaxConcurrentSessions throws (resolveMaxConcurrentSessions cfg) now s3
          end
      end
  end.





(** The lane "cron" executes a task and has a second one queued whose
    [onWait] throws: raising the limits takes that entry from its bucket,
    does not start it, and leaves before the limits of "main" and
    "subagent" and the session limit are set. *)
Example gateway_limits_aborted_when_onWait_throws :
  let s := run seventhThrows
             [EnqueueCommandInLane "cron" 1 (laneOpts Normal) 0;
              EnqueueCommandInLane "cron" 2 (impatientLaneOpts 7) 0] initialState in
  let r := applyGatewayLaneConcurrency seventhThrows
             {| cronMaxConcurrentRuns := Some 2; agentMaxConcurrent := 4;
                subagentMaxConcurrent := 2; configuredMaxSessions := Some 8 |} 1 s in
  r.2 = Threw /\
  getQueueSize "cron" s = 2 /\ getQueueSize "cron" r.1 = 1 /\
  laneCapOf "cron" (lanes r.1) = 2 /\
  JsMap.get "main" (lanes r.1) = None /\
  maxConcurrentSessions r.1 = 16.
Proof. vm_compute. done. Qed.

(** *** The statistics *)

(** The statistics are consistent with the size functions.  As long as no
    [onWait] callback throws, in every state the module reaches
    [getQueueStats()] reports for every named lane its queued entries,
    [active] and [maxConcurrent], with [queued + active = getQueueSize]; the
    three totals of [byPriority] are not negative and together count every
    entry queued on a named lane and every entry queued for a session whose
    priority is one of the three levels: their sum is at most
    [getTotalQueueSize() - getActiveTaskCount()
     + getTotalSessionQueueSize() - getActiveSessionCount()],
    and equal to it when every queued session entry has one of the three
    priorities; [sessions.active] is the number of session lanes executing a
    task and is at most [sessions.total]. *)
Theorem getQueueStats_consistent (throws : nat -> Z -> nat -> bool)
    (evs : list Event) :
  callbacksReturn throws ->
  let s := run throws evs initialState in
  let q := getQueueStats s in
  (forall name, JsMap.get name (stats_lanes q) = laneStatsOf <$> JsMap.get name (lanes s)) /\
  (forall name st, JsMap.get name (lanes s) = Some st ->
     ls_queued (laneStatsOf st) + ls_active (laneStatsOf st) = laneSizeOf name (lanes s)) /\
  0 <= urgent (stats_byPriority q) /\
  0 <= normal (stats_byPriority q) /\
  0 <= background (stats_byPriority q) /\
  allPriorities (stats_byPriority q)
  <= getTotalQueueSize s - getActiveTaskCount s
     + (getTotalSessionQueueSize s - activeSessionCount s) /\
  (Forall (fun kv => Forall (fun e => counted e = true) (queue kv.2)) (sessionLanes s) ->
   allPriorities (stats_byPriority q)
   = getTotalQueueSize s - getActiveTaskCount s
     + (getTotalSessionQueueSize s - activeSessionCount s)) /\
  ss_total (stats_sessions q) = Z.of_nat (length (sessionLanes s)) /\
  ss_active (stats_sessions q) = Z.of_nat (JsMap.count sl_active (sessionLanes s)) /\
  0 <= ss_active (stats_sessions q) <= ss_total (stats_sessions q) /\
  ss_maxConcurrent (stats_sessions q) = maxConcurrentSessions s.
Proof.
  intros Hret s. unfold s. rewrite (returning_run throws Hret).
  apply quiet_getQueueStats_consistent.
Qed.

Lemma getQueueStats_consistent_witness :
  let s := run neverThrows busySessionTrace initialState in
  ss_active (stats_sessions (getQueueStats s))
  = Z.of_nat (JsMap.count sl_active (sessionLanes s)) /\
  ss_active (stats_sessions (getQueueStats s)) = 1.
Proof.
  split; [|reflexivity].
  exact (proj1 (proj2 (proj2 (proj2 (proj2 (proj2 (proj2 (proj2
           (getQueueStats_consistent neverThrows busySessionTrace
              (fun _ _ _ => eq_refl)))))))))).
Defined.

(** Lane "main" with two tasks executing and an urgent one queued. *)
Example queue_stats_scenario :
  let q := getQueueStats (run neverThrows twoAtATimeTrace initialState) in
  stats_lanes q
  = [("main", {| ls_queued := 1; ls_active := 2; ls_maxConcurrent := 2 |})] /\
  stats_byPriority q = {| urgent := 1; normal := 0; background := 0 |} /\
  stats_sessions q = {| ss_total := 0; ss_active := 0; ss_maxConcurrent := 16 |}.
Proof. vm_compute. done. Qed.

End CommandQueue.

(** ** src/agents/request-coalescing.ts *)

Module Coalesce.

Definition DEFAULT_WINDOW_MS : Z := 1500.
Definition MAX_WINDOW_MS : Z := 5000.
Definition MAX_MESSAGES_PER_BATCH : Z := 10.

Record CoalesceMessage := mkMessage {
  text : string;
  images : option (list (string * string));   (* { type, data } *)
  timestamp : Z;
  senderId : option string;
  senderName : option string;
}.

(** A window object.  [timer] names the pending [setTimeout]; [resolve] is
    the closure stored in the window: the resolver of the promise that opened
    the window, wrapped once per joining call.  Calling it calls the
    resolvers of these promises in the listed order (oldest first). *)
Record CoalesceWindow := mkWindow {
  sessionKey : string;
  messages : list CoalesceMessage;
  startedAt : Z;
  timer : nat;
  resolve : list nat;
}.

(** [CoalesceConfig] as given to [configureCoalescing]; a [RegExp] of
    [excludePatterns] is the predicate its [test] computes. *)
Record CoalesceConfig := mkConfig {
  cfg_enabled : option bool;
  cfg_windowMs : option Z;
  cfg_maxMessages : option Z;
  cfg_excludePatterns : option (list (string -> bool));
}.

Record RequiredConfig := mkRequired {
  enabled : bool;
  windowMs : Z;
  maxMessages : Z;
  excludePatterns : list (string -> bool);
}.

Definition defaultConfig : RequiredConfig :=
  {| enabled := true; windowMs := DEFAULT_WINDOW_MS;
     maxMessages := MAX_MESSAGES_PER_BATCH; excludePatterns := [] |}.

(** The module state.  Window objects live in [heap] and [activeWindows]
    maps a session key to the address of its window, so that a reference
    held by a caller ([existing]) survives the removal from the map.
    [timers] are the pending timeouts with the session key their callback
    closes; [resolveCalls] logs every call of a promise resolver with its
    argument, in call order: a promise is resolved when the log has an entry
    for it, with the value of its first entry. *)
Record State := mkState {
  globalConfig : RequiredConfig;
  activeWindows : list (string * nat);
  heap : gmap nat CoalesceWindow;
  nextWindow : nat;
  timers : gmap nat string;
  nextTimer : nat;
  nextPromise : nat;
  resolveCalls : list (nat * list CoalesceMessage);
}.

Definition initialState : State :=
  {| globalConfig := defaultConfig; activeWindows := []; heap := ∅;
     nextWindow := 0; timers := ∅; nextTimer := 0; nextPromise := 0;
     resolveCalls := [] |}.

(** [configureCoalescing] *)
Definition configureCoalescing (config : CoalesceConfig) (s : State) : State :=
  {| globalConfig :=
       {| enabled := default (enabled defaultConfig) (cfg_enabled config);
          windowMs := Z.min (default (windowMs defaultConfig) (cfg_windowMs config))
                            MAX_WINDOW_MS;
          maxMessages := default (maxMessages defaultConfig) (cfg_maxMessages config);
          excludePatterns :=
            default (excludePatterns defaultConfig) (cfg_excludePatterns config) |};
     activeWindows := activeWindows s; heap := heap s; nextWindow := nextWindow s;
     timers := timers s; nextTimer := nextTimer s; nextPromise := nextPromise s;
     resolveCalls := resolveCalls s |}.

(** [String.prototype.includes] *)
Fixpoint includes (needle s : string) : bool :=
  String.prefix needle s ||
  match s with
  | EmptyString => false
  | String _ s' => includes needle s'
  end.

(** [shouldSkipCoalescing].  An exclude pattern is the predicate that
    [pattern.test(sessionKey)] computes; this is a regular expression
    without the [g] or [y] flag, whose [test] keeps no state between calls. *)
Definition shouldSkipCoalescing (key : string) (s : State) : bool :=
  if negb (enabled (globalConfig s)) then true
  else if includes "subagent:" key then true
  else existsb (fun pattern => pattern key) (excludePatterns (globalConfig s)).

(** Calling a window's [resolve] closure with [msgs]. *)
Definition callResolve (ps : list nat) (msgs : list CoalesceMessage)
  : list (nat * list CoalesceMessage) :=
  map (fun p => (p, msgs)) ps.

(** [closeWindow]: [clearTimeout], [activeWindows.delete], then
    [window.resolve(window.messages)]. *)
Definition closeWindow (key : string) (s : State) : State :=
  match JsMap.get key (activeWindows s) with
  | None => s
  | Some addr =>
      match heap s !! addr with
      | None => s
      | Some window =>
          {| globalConfig := globalConfig s;
             activeWindows := JsMap.delete key (activeWindows s);
             heap := heap s; nextWindow := nextWindow s;
             timers := delete (timer window) (timers s);
             nextTimer := nextTimer s; nextPromise := nextPromise s;
             resolveCalls :=
               resolveCalls s ++ callResolve (resolve window) (messages window) |}
      end
  end.

Definition withHeap (s : State) (h : gmap nat CoalesceWindow) : State :=
  {| globalConfig := globalConfig s; activeWindows := activeWindows s;
     heap := h; nextWindow := nextWindow s; timers := timers s;
     nextTimer := nextTimer s; nextPromise := nextPromise s;
     resolveCalls := resolveCalls s |}.

Definition pushMessage (w : CoalesceWindow) (m : CoalesceMessage) : CoalesceWindow :=
  {| sessionKey := sessionKey w; messages := messages w ++ [m];
     startedAt := startedAt w; timer := timer w; resolve := resolve w |}.

Definition wrapResolve (w : CoalesceWindow) (p : nat) : CoalesceWindow :=
  {| sessionKey := sessionKey w; messages := messages w;
     startedAt := startedAt w; timer := timer w; resolve := resolve w ++ [p] |}.

(** [coalesceMessage(sessionKey, message)], called at time [now]; the result
    is the promise it returns and the new state. *)
Definition coalesceMessage (key : string) (message : CoalesceMessage) (now : Z)
    (s : State) : nat * State :=
  let p := nextPromise s in
  if shouldSkipCoalescing key s then
    (* Promise.resolve([message]) *)
    (p, {| globalConfig := globalConfig s; activeWindows := activeWindows s;
           heap := heap s; nextWindow := nextWindow s; timers := timers s;
           nextTimer := nextTimer s; nextPromise := S p;
           resolveCalls := resolveCalls s ++ [(p, [message])] |})
  else
    match JsMap.get key (activeWindows s) with
    | Some existing =>
        match heap s !! existing with
        | None => (p, s)   (* no such state: a mapped address has its object *)
        | Some w =>
            (* existing.messages.push(message) *)
            let w1 := pushMessage w message in
            let s1 := withHeap s (<[existing := w1]> (heap s)) in
            (* close the window when the batch is full *)
            let s2 :=
              if maxMessages (globalConfig s) <=? Z.of_nat (length (messages w1))
              then closeWindow key s1 else s1 in
            (* the new promise wraps existing.resolve *)
            let s3 :=
              match heap s2 !! existing with
              | Some w2 => withHeap s2 (<[existing := wrapResolve w2 p]> (heap s2))
              | None => s2
              end in
            (p, {| globalConfig := globalConfig s3; activeWindows := activeWindows s3;
                   heap := heap s3; nextWindow := nextWindow s3;
                   timers := timers s3; nextTimer := nextTimer s3;
                   nextPromise := S p; resolveCalls := resolveCalls s3 |})
        end
    | None =>
        (* a new window, its timer and the promise resolved on closure *)
        let window := {| sessionKey := key; messages := [message];
                         startedAt := now; timer := nextTimer s;
                         resolve := [p] |} in
        (p, {| globalConfig := globalConfig s;
               activeWindows := JsMap.set key (nextWindow s) (activeWindows s);
               heap := <[nextWindow s := window]> (heap s);
               nextWindow := S (nextWindow s);
               timers := <[nextTimer s := key]> (timers s);
               nextTimer := S (nextTimer s); nextPromise := S p;
               resolveCalls := resolveCalls s |})
    end.

(** The callback of a window timer: [() => closeWindow(sessionKey)].  The
    runtime calls it once, and only while the timeout is pending: the
    [None] branch is the runtime's, the callback itself has no such check. *)
Definition timerFired (t : nat) (s : State) : State :=
  match timers s !! t with
  | None => s
  | Some key =>
      closeWindow key
        {| globalConfig := globalConfig s; activeWindows := activeWindows s;
           heap := heap s; nextWindow := nextWindow s;
           timers := delete t (timers s);
           nextTimer := nextTimer s; nextPromise := nextPromise s;
           resolveCalls := resolveCalls s |}
  end.

Definition flushCoalesceWindow (key : string) (s : State) : State := closeWindow key s.

(** [clearAllWindows]: [for (const sessionKey of activeWindows.keys())
    closeWindow(sessionKey)].  The iterator is live, but [closeWindow] only
    deletes the key being visited, so every key of the map is visited. *)
Definition clearAllWindows (s : State) : State :=
  foldl (fun s' key => closeWindow key s') s (JsMap.keys (activeWindows s)).

Definition hasActiveWindow (key : string) (s : State) : bool :=
  JsMap.has key (activeWindows s).

Definition getPendingCount (key : string) (s : State) : nat :=
  match JsMap.get key (activeWindows s) with
  | Some addr => from_option (fun w => length (messages w)) 0%nat (heap s !! addr)
  | None => 0%nat
  end.

(** The value a promise was resolved with, if it was. *)
Fixpoint firstCall (p : nat) (calls : list (nat * list CoalesceMessage))
  : option (list CoalesceMessage) :=
  match calls with
  | [] => None
  | (q, msgs) :: calls' => if Nat.eqb q p then Some msgs else firstCall p calls'
  end.

Definition resolution (p : nat) (s : State) : option (list CoalesceMessage) :=
  firstCall p (resolveCalls s).

Inductive Event :=
| Configure (config : CoalesceConfig)
| Submit (key : string) (message : CoalesceMessage) (now : Z)
| TimerFired (t : nat)
| Flush (key : string)
| ClearAll.

Definition step (s : State) (ev : Event) : State :=
  match ev with
  | Configure config => configureCoalescing config s
  | Submit key message now => (coalesceMessage key message now s).2
  | TimerFired t => timerFired t s
  | Flush key => flushCoalesceWindow key s
  | ClearAll => clearAllWindows s
  end.

Definition run (evs : list Event) (s : State) : State := foldl step s evs.

(** *** Invariants of the coalescer *)

(** The map has one entry per key; a mapped address holds the window of
    that session, whose resolvers belong to promises already created; heap
    addresses and logged promises are below the allocation counters. *)
Definition invOn (aw : list (string * nat)) (h : gmap nat CoalesceWindow)
    (nw np : nat) (log : list (nat * list CoalesceMessage)) : Prop :=
  JsMap.wf aw /\
  (forall k addr, JsMap.get k aw = Some addr ->
     exists w, h !! addr = Some w /\ sessionKey w = k /\
               Forall (fun q => (q < np)%nat) (resolve w)) /\
  (forall addr, is_Some (h !! addr) -> (addr < nw)%nat) /\
  Forall (fun call => (call.1 < np)%nat) log.

Definition inv (s : State) : Prop :=
  invOn (activeWindows s) (heap s) (nextWindow s) (nextPromise s) (resolveCalls s).

(** Promise [p] is lost: it exists, no resolver call was made for it, and no
    window of the map holds its resolver. *)
Definition lostOn (p : nat) (aw : list (string * nat))
    (h : gmap nat CoalesceWindow) (np : nat)
    (log : list (nat * list CoalesceMessage)) : Prop :=
  (p < np)%nat /\
  Forall (fun call => call.1 <> p) log /\
  (forall k addr w, JsMap.get k aw = Some addr -> h !! addr = Some w ->
                    p ∉ resolve w).

Definition lost (p : nat) (s : State) : Prop :=
  lostOn p (activeWindows s) (heap s) (nextPromise s) (resolveCalls s).

Lemma firstCall_None p log :
  Forall (fun call => call.1 <> p) log -> firstCall p log = None.
Proof.
  induction log as [|[q msgs] log IH]; simpl; intros H; [done|].
  apply Forall_cons in H as [Hq H]. simpl in Hq.
  destruct (Nat.eqb q p) eqn:E; [|auto].
  apply Nat.eqb_eq in E. done.
Qed.

Lemma get_delete_Some {V} k k' (a : V) (m : list (string * V)) :
  JsMap.wf m -> JsMap.get k' (JsMap.delete k m) = Some a ->
  k' <> k /\ JsMap.get k' m = Some a.
Proof.
  intros Hwf Hget. destruct (decide (k' = k)) as [->|Hne].
  - by rewrite JsMap.get_delete_eq in Hget.
  - split; [done|]. by rewrite JsMap.get_delete_ne in Hget.
Qed.

Lemma invOn_bump aw h nw np log :
  invOn aw h nw np log -> invOn aw h nw (S np) log.
Proof.
  intros (Hwf & Ha & Hd & Hl). split; [done|]. split; [|split; [done|]].
  - intros k addr Hget. destruct (Ha k addr Hget) as (w & Hw & Hk & Hr).
    exists w. split; [done|]. split; [done|].
    eapply Forall_impl; [exact Hr|]. simpl. lia.
  - eapply Forall_impl; [exact Hl|]. simpl. lia.
Qed.

Lemma invOn_update_active aw h nw np log key addr w' :
  invOn aw h nw np log ->
  JsMap.get key aw = Some addr ->
  sessionKey w' = key -> Forall (fun q => (q < np)%nat) (resolve w') ->
  invOn aw (<[addr := w']> h) nw np log.
Proof.
  intros (Hwf & Ha & Hd & Hl) Hget Hkey Hres.
  split; [done|]. split; [|split; [|done]].
  - intros k a Hk. destruct (Ha k a Hk) as (w & Hw & Hsk & Hr).
    destruct (decide (a = addr)) as [->|Hne].
    + exists w'. rewrite lookup_insert_eq. split; [done|]. split; [|done].
      destruct (Ha key addr Hget) as (w0 & Hw0 & Hsk0 & _). congruence.
    + exists w. by rewrite lookup_insert_ne.
  - intros a Hs. destruct (decide (a = addr)) as [->|Hne].
    + apply Hd. destruct (Ha key addr Hget) as (w0 & Hw0 & _). by exists w0.
    + apply Hd. by rewrite lookup_insert_ne in Hs.
Qed.

Lemma invOn_update_inactive aw h nw np log addr w' :
  invOn aw h nw np log ->
  (forall k, JsMap.get k aw <> Some addr) -> is_Some (h !! addr) ->
  invOn aw (<[addr := w']> h) nw np log.
Proof.
  intros (Hwf & Ha & Hd & Hl) Hfree Hsome.
  split; [done|]. split; [|split; [|done]].
  - intros k a Hk. destruct (Ha k a Hk) as (w & Hw & Hsk & Hr).
    exists w. rewrite lookup_insert_ne; [done|]. intros <-. by apply (Hfree k).
  - intros a Hs. destruct (decide (a = addr)) as [->|Hne]; [by apply Hd|].
    apply Hd. by rewrite lookup_insert_ne in Hs.
Qed.

Lemma invOn_close aw h nw np log key addr w :
  invOn aw h nw np log ->
  JsMap.get key aw = Some addr -> h !! addr = Some w ->
  invOn (JsMap.delete key aw) h nw np
        (log ++ callResolve (resolve w) (messages w)) /\
  (forall k, JsMap.get k (JsMap.delete key aw) <> Some addr).
Proof.
  intros (Hwf & Ha & Hd & Hl) Hget Hw.
  destruct (Ha key addr Hget) as (w0 & Hw0 & Hsk & Hr).
  assert (w0 = w) as -> by congruence.
  split; [split; [by apply JsMap.wf_delete|split; [|split; [done|]]]|].
  - intros k a Hk. apply get_delete_Some in Hk as [_ Hk]; auto.
  - apply Forall_app. split; [done|]. unfold callResolve.
    apply Forall_fmap. eapply Forall_impl; [exact Hr|]. done.
  - intros k Hk. apply get_delete_Some in Hk as [Hne Hk]; [|done].
    destruct (Ha k addr Hk) as (w1 & Hw1 & Hsk1 & _). congruence.
Qed.

Lemma closeWindow_inv key s : inv s -> inv (closeWindow key s).
Proof.
  intros Hinv. unfold closeWindow.
  destruct (JsMap.get key (activeWindows s)) as [addr|] eqn:Hget; [|done].
  destruct (heap s !! addr) as [w|] eqn:Hw; [|done].
  unfold inv. simpl. by apply (invOn_close _ _ _ _ _ key addr w).
Qed.

Lemma closeWindow_lost p key s : inv s -> lost p s -> lost p (closeWindow key s).
Proof.
  intros (Hwf & _) (Hlt & Hlog & Hres). unfold closeWindow.
  destruct (JsMap.get key (activeWindows s)) as [addr|] eqn:Hget; [|done].
  destruct (heap s !! addr) as [w|] eqn:Hw; [|done].
  split; [done|]. simpl. split.
  - apply Forall_app. split; [done|]. unfold callResolve.
    apply Forall_fmap, Forall_forall. intros q Hq. simpl. intros ->.
    by apply (Hres key addr w).
  - intros k a w' Hk Hw'. apply get_delete_Some in Hk as [_ Hk]; [|done].
    by apply (Hres k a w').
Qed.

Lemma lostOn_bump p aw h np log :
  lostOn p aw h np log -> lostOn p aw h (S np) log.
Proof. intros (Hlt & Hlog & Hres). split; [lia|done]. Qed.

Lemma lostOn_update p aw h np log addr w w' :
  lostOn p aw h np log ->
  h !! addr = Some w -> (p ∈ resolve w' -> p ∈ resolve w \/ (np <= p)%nat) ->
  lostOn p aw (<[addr := w']> h) np log.
Proof.
  intros (Hlt & Hlog & Hres) Hw Hsub. split; [done|]. split; [done|].
  intros k a w0 Hk Hw0. destruct (decide (a = addr)) as [->|Hne].
  - rewrite lookup_insert_eq in Hw0. injection Hw0 as <-.
    intros Hin. destruct (Hsub Hin) as [H|H]; [|lia].
    by apply (Hres k addr w).
  - rewrite lookup_insert_ne in Hw0 by done. by apply (Hres k a).
Qed.

(** [coalesceMessage] in closed form, one lemma per path through the code. *)

Lemma coalesceMessage_skip key message now s :
  shouldSkipCoalescing key s = true ->
  coalesceMessage key message now s =
    (nextPromise s,
     {| globalConfig := globalConfig s; activeWindows := activeWindows s;
        heap := heap s; nextWindow := nextWindow s; timers := timers s;
        nextTimer := nextTimer s; nextPromise := S (nextPromise s);
        resolveCalls := resolveCalls s ++ [(nextPromise s, [message])] |}).
Proof. intros H. unfold coalesceMessage. by rewrite H. Qed.

Lemma coalesceMessage_new key message now s :
  shouldSkipCoalescing key s = false ->
  JsMap.get key (activeWindows s) = None ->
  coalesceMessage key message now s =
    (nextPromise s,
     {| globalConfig := globalConfig s;
        activeWindows := JsMap.set key (nextWindow s) (activeWindows s);
        heap := <[nextWindow s :=
                    {| sessionKey := key; messages := [message];
                       startedAt := now; timer := nextTimer s;
                       resolve := [nextPromise s] |}]> (heap s);
        nextWindow := S (nextWindow s);
        timers := <[nextTimer s := key]> (timers s);
        nextTimer := S (nextTimer s); nextPromise := S (nextPromise s);
        resolveCalls := resolveCalls s |}).
Proof. intros H Hget. unfold coalesceMessage. by rewrite H, Hget. Qed.

(** Joining a window that stays open: the message is pushed and the new
    promise's resolver is chained behind the window's. *)
Lemma coalesceMessage_join_open key message now s addr w :
  shouldSkipCoalescing key s = false ->
  JsMap.get key (activeWindows s) = Some addr ->
  heap s !! addr = Some w ->
  Z.of_nat (length (messages w)) + 1 < maxMessages (globalConfig s) ->
  coalesceMessage key message now s =
    (nextPromise s,
     {| globalConfig := globalConfig s; activeWindows := activeWindows s;
        heap := <[addr := wrapResolve (pushMessage w message) (nextPromise s)]>
                  (heap s);
        nextWindow := nextWindow s; timers := timers s;
        nextTimer := nextTimer s; nextPromise := S (nextPromise s);
        resolveCalls := resolveCalls s |}).
Proof.
  intros H Hget Hw Hlen. unfold coalesceMessage. rewrite H, Hget, Hw.
  simpl. rewrite length_app. simpl.
  destruct (_ <=? _) eqn:E; [apply Z.leb_le in E; lia|].
  simpl. rewrite lookup_insert_eq. simpl. by rewrite insert_insert_eq.
Qed.

(** Joining a window with the message that fills it: [closeWindow] runs
    first and calls the resolvers chained so far; the new promise's resolver
    is then stored in the window object, which the map no longer holds. *)
Lemma coalesceMessage_join_closing key message now s addr w :
  shouldSkipCoalescing key s = false ->
  JsMap.get key (activeWindows s) = Some addr ->
  heap s !! addr = Some w ->
  maxMessages (globalConfig s) <= Z.of_nat (length (messages w)) + 1 ->
  coalesceMessage key message now s =
    (nextPromise s,
     {| globalConfig := globalConfig s;
        activeWindows := JsMap.delete key (activeWindows s);
        heap := <[addr := wrapResolve (pushMessage w message) (nextPromise s)]>
                  (heap s);
        nextWindow := nextWindow s;
        timers := delete (timer w) (timers s);
        nextTimer := nextTimer s; nextPromise := S (nextPromise s);
        resolveCalls :=
          resolveCalls s ++ callResolve (resolve w) (messages w ++ [message]) |}).
Proof.
  intros H Hget Hw Hlen. unfold coalesceMessage. rewrite H, Hget, Hw.
  simpl. rewrite length_app. simpl.
  destruct (_ <=? _) eqn:E; [|apply Z.leb_gt in E; lia].
  unfold closeWindow. simpl. rewrite Hget, lookup_insert_eq. simpl.
  rewrite lookup_insert_eq. simpl. by rewrite insert_insert_eq.
Qed.

Lemma coalesceMessage_preserves key message now s :
  inv s ->
  inv (coalesceMessage key message now s).2 /\
  forall q, lost q s -> lost q (coalesceMessage key message now s).2.
Proof.
  intros Hinv. pose proof Hinv as (Hwf & Ha & Hd & Hl).
  destruct (shouldSkipCoalescing key s) eqn:Hskip.
  { rewrite coalesceMessage_skip by done. simpl. split.
    - destruct (invOn_bump _ _ _ _ _ Hinv) as (? & ? & ? & Hl').
      split; [done|]. split; [done|]. split; [done|]. simpl.
      apply Forall_app. split; [done|]. repeat constructor.
    - intros q (Hlt & Hlog & Hres). split; [simpl; lia|]. split; [|done].
      simpl. apply Forall_app. split; [done|]. repeat constructor. simpl. lia. }
  destruct (JsMap.get key (activeWindows s)) as [addr|] eqn:Hget.
  - destruct (Ha key addr Hget) as (w & Hw & Hsk & Hr).
    assert (Hr' : Forall (fun q => (q < S (nextPromise s))%nat)
                    (resolve (wrapResolve (pushMessage w message) (nextPromise s)))).
    { simpl. apply Forall_app. split; [|repeat constructor].
      eapply Forall_impl; [exact Hr|]. simpl. lia. }
    assert (Hsub : forall q,
              q ∈ resolve (wrapResolve (pushMessage w message) (nextPromise s)) ->
              q ∈ resolve w \/ (nextPromise s <= q)%nat).
    { intros q. simpl. rewrite elem_of_app, list_elem_of_singleton.
      intros [?| ->]; [by left|right; lia]. }
    destruct (Z_lt_le_dec (Z.of_nat (length (messages w)) + 1)
                (maxMessages (globalConfig s))) as [Hopen|Hfull].
    + rewrite (coalesceMessage_join_open _ _ _ _ addr w) by done. simpl. split.
      * unfold inv. simpl.
        apply (invOn_update_active _ _ _ _ _ key); [by apply invOn_bump|done..].
      * intros q Hlost. unfold lost. simpl.
        apply lostOn_bump. eapply lostOn_update; [exact Hlost|exact Hw|].
        apply Hsub.
    + rewrite (coalesceMessage_join_closing _ _ _ _ addr w) by done. simpl.
      destruct (invOn_close _ _ _ _ _ key addr w Hinv Hget Hw) as [Hinv' Hfree].
      split.
      * unfold inv. simpl. apply invOn_bump.
        apply invOn_update_inactive; [|done|by exists w].
        destruct Hinv' as (? & ? & ? & Hl'). split; [done|]. split; [done|].
        split; [done|]. apply Forall_app. apply Forall_app in Hl' as [? ?].
        split; [done|]. unfold callResolve in *. by rewrite Forall_fmap in *.
      * intros q Hlost.
        pose proof (closeWindow_lost q key s Hinv Hlost) as Hc.
        unfold closeWindow in Hc. rewrite Hget, Hw in Hc.
        destruct Hc as (Hlt & Hlog & Hres). simpl in *.
        apply lostOn_bump. eapply lostOn_update; [|exact Hw|apply Hsub].
        split; [done|]. split; [|done].
        apply Forall_app. apply Forall_app in Hlog as [? Hlog].
        split; [done|]. unfold callResolve in *. by rewrite Forall_fmap in *.
  - rewrite coalesceMessage_new by done. simpl. split.
    + unfold inv. simpl. split; [by apply JsMap.wf_set|]. split; [|split].
      * intros k a Hk. destruct (decide (key = k)) as [<-|Hne].
        -- rewrite JsMap.get_set_eq in Hk. injection Hk as <-.
           eexists. rewrite lookup_insert_eq. split; [done|]. split; [done|].
           simpl. repeat constructor.
        -- rewrite JsMap.get_set_ne in Hk by done.
           destruct (Ha k a Hk) as (w & Hw & Hsk & Hr). exists w.
           rewrite lookup_insert_ne.
           ++ split; [done|]. split; [done|].
              eapply Forall_impl; [exact Hr|]. simpl. lia.
           ++ intros <-. assert (nextWindow s < nextWindow s)%nat; [|lia].
              apply Hd. by exists w.
      * intros a Hs. destruct (decide (a = nextWindow s)) as [->|Hne]; [lia|].
        rewrite lookup_insert_ne in Hs by done. specialize (Hd a Hs). lia.
      * eapply Forall_impl; [exact Hl|]. simpl. lia.
    + intros q (Hlt & Hlog & Hres). split; [simpl; lia|]. split; [done|].
      simpl. intros k a w Hk Hw. destruct (decide (key = k)) as [<-|Hne].
      * rewrite JsMap.get_set_eq in Hk. injection Hk as <-.
        rewrite lookup_insert_eq in Hw. injection Hw as <-. simpl.
        rewrite list_elem_of_singleton. lia.
      * rewrite JsMap.get_set_ne in Hk by done.
        destruct (Ha k a Hk) as (w0 & Hw0 & _).
        rewrite lookup_insert_ne in Hw.
        -- by apply (Hres k a w).
        -- intros <-. assert (nextWindow s < nextWindow s)%nat; [|lia].
           apply Hd. by exists w0.
Qed.

Lemma closeAll_preserves ks : forall s,
  inv s ->
  inv (foldl (fun s' key => closeWindow key s') s ks) /\
  forall q, lost q s -> lost q (foldl (fun s' key => closeWindow key s') s ks).
Proof.
  induction ks as [|k ks IH]; intros s Hinv; simpl; [done|].
  destruct (IH (closeWindow k s) (closeWindow_inv k s Hinv)) as [Hi Hl].
  split; [done|]. intros q Hq. by apply Hl, closeWindow_lost.
Qed.

Lemma coalesce_step_preserves s ev :
  inv s -> inv (step s ev) /\ forall q, lost q s -> lost q (step s ev).
Proof.
  intros Hinv. destruct ev as [config|key message now|t|key|]; simpl.
  - done.
  - by apply coalesceMessage_preserves.
  - unfold timerFired. destruct (timers s !! t) as [key|]; [|done].
    split; [by apply closeWindow_inv|]. intros q Hq. by apply closeWindow_lost.
  - split; [by apply closeWindow_inv|]. intros q Hq. by apply closeWindow_lost.
  - by apply closeAll_preserves.
Qed.

Lemma coalesce_run_preserves evs : forall s,
  inv s -> inv (run evs s) /\ forall q, lost q s -> lost q (run evs s).
Proof.
  induction evs as [|ev evs IH]; intros s Hinv; simpl; [done|].
  destruct (coalesce_step_preserves s ev Hinv) as [Hi Hl].
  destruct (IH _ Hi) as [Hi' Hl']. split; [done|]. auto.
Qed.

Lemma inv_initial : inv initialState.
Proof.
  split; [constructor|]. split; [done|]. split; [|constructor].
  intros addr [w Hw]. simpl in Hw. by rewrite lookup_empty in Hw.
Qed.

Lemma lost_resolution p s : lost p s -> resolution p s = None.
Proof. intros (_ & Hlog & _). by apply firstCall_None. Qed.

(** The windows of the map, in insertion order. *)
Definition windowsOf (s : State) : list CoalesceWindow :=
  omap (fun kv => heap s !! kv.2) (activeWindows s).

Definition closingCalls (ws : list CoalesceWindow)
  : list (nat * list CoalesceMessage) :=
  concat (map (fun w => callResolve (resolve w) (messages w)) ws).

Definition clearTimers (ts : gmap nat string) (ws : list CoalesceWindow)
  : gmap nat string :=
  foldl (fun ts' w => delete (timer w) ts') ts ws.

Lemma closeAll_spec aw : forall s,
  activeWindows s = aw -> inv s ->
  let s' := foldl (fun s' key => closeWindow key s') s (JsMap.keys aw) in
  activeWindows s' = [] /\
  length (windowsOf s) = length aw /\
  resolveCalls s' = resolveCalls s ++ closingCalls (windowsOf s) /\
  timers s' = clearTimers (timers s) (windowsOf s).
Proof.
  induction aw as [|[k addr] aw IH]; intros s Haw Hinv; simpl.
  - unfold windowsOf. rewrite Haw. simpl. by rewrite app_nil_r.
  - pose proof Hinv as (Hwf & Ha & _).
    assert (Hget : JsMap.get k (activeWindows s) = Some addr).
    { rewrite Haw. simpl. by rewrite String.eqb_refl. }
    destruct (Ha k addr Hget) as (w & Hw & _).
    pose proof (closeWindow_inv k s Hinv) as Hinv1.
    set (s1 :=
      {| globalConfig := globalConfig s; activeWindows := aw;
         heap := heap s; nextWindow := nextWindow s;
         timers := delete (timer w) (timers s);
         nextTimer := nextTimer s; nextPromise := nextPromise s;
         resolveCalls := resolveCalls s ++ callResolve (resolve w) (messages w) |}).
    assert (Hclose : closeWindow k s = s1).
    { unfold closeWindow. rewrite Hget, Hw, Haw. simpl.
      by rewrite String.eqb_refl. }
    rewrite Hclose in Hinv1 |- *.
    destruct (IH s1 eq_refl Hinv1) as (He & Hlen & Hlog & Ht).
    assert (Hws : windowsOf s = w :: windowsOf s1).
    { unfold windowsOf. rewrite Haw. simpl. by rewrite Hw. }
    rewrite Hws. split; [done|]. split; [simpl; by rewrite Hlen|].
    split; [|done]. rewrite Hlog. simpl. unfold closingCalls. simpl.
    by rewrite app_assoc.
Qed.

Lemma clearTimers_lookup ws : forall (ts : gmap nat string) w,
  w ∈ ws -> clearTimers ts ws !! timer w = None.
Proof.
  assert (Hkeep : forall ws (ts : gmap nat string) t,
            ts !! t = None -> clearTimers ts ws !! t = None).
  { clear. induction ws as [|w ws IH]; intros ts t Ht; simpl; [done|].
    apply IH. destruct (decide (timer w = t)) as [<-|Hne].
    - apply lookup_delete_eq.
    - by rewrite lookup_delete_ne. }
  induction ws as [|w0 ws IH]; intros ts w Hin; simpl.
  - by apply elem_of_nil in Hin.
  - apply elem_of_cons in Hin as [->|Hin]; [|by apply IH].
    apply Hkeep, lookup_delete_eq.
Qed.

(** Callers that join a window which stays open share its batch: when the
    window is closed next, the resolvers chained so far and the joining
    caller's resolver are all called with the same accumulated list. *)
Lemma joiners_share_the_batch key message now s addr w :
  shouldSkipCoalescing key s = false ->
  JsMap.get key (activeWindows s) = Some addr ->
  heap s !! addr = Some w ->
  Z.of_nat (length (messages w)) + 1 < maxMessages (globalConfig s) ->
  let p := (coalesceMessage key message now s).1 in
  let s1 := (coalesceMessage key message now s).2 in
  resolveCalls (closeWindow key s1)
  = resolveCalls s ++ callResolve (resolve w ++ [p]) (messages w ++ [message]).
Proof.
  intros Hskip Hget Hw Hlen.
  rewrite (coalesceMessage_join_open _ _ _ _ addr w) by done. simpl.
  unfold closeWindow. simpl. rewrite Hget, lookup_insert_eq. done.
Qed.

(** C1, what the code does.  In every state the coalescer reaches, a call
    that joins an existing window with the message that makes the count
    reach [maxMessages] closes the window (the callers before it are resolved
    with the accumulated list, the new message included), but the promise it
    returns is resolved by no later event whatsoever. *)
Theorem closing_join_promise_never_resolves (evs : list Event)
    (key : string) (message : CoalesceMessage) (now : Z)
    (addr : nat) (w : CoalesceWindow) :
  let s := run evs initialState in
  shouldSkipCoalescing key s = false ->
  JsMap.get key (activeWindows s) = Some addr ->
  heap s !! addr = Some w ->
  maxMessages (globalConfig s) <= Z.of_nat (length (messages w)) + 1 ->
  let p := (coalesceMessage key message now s).1 in
  let s1 := (coalesceMessage key message now s).2 in
  hasActiveWindow key s1 = false /\
  resolveCalls s1
  = resolveCalls s ++ callResolve (resolve w) (messages w ++ [message]) /\
  forall evs', resolution p (run evs' s1) = None.
Proof.
  intros s Hskip Hget Hw Hfull p s1.
  destruct (coalesce_run_preserves evs _ inv_initial) as [Hinv _]. fold s in Hinv.
  pose proof Hinv as (Hwf & Ha & Hd & Hl).
  destruct (coalesceMessage_preserves key message now s Hinv) as [Hinv1 _].
  fold s1 in Hinv1.
  assert (Hlost : lost p s1).
  { unfold p, s1.
    rewrite (coalesceMessage_join_closing _ _ _ _ addr w) by done. simpl.
    destruct (Ha key addr Hget) as (w0 & Hw0 & Hsk & Hr).
    assert (w0 = w) as -> by congruence.
    split; [simpl; lia|]. split; simpl.
    - apply Forall_app. split.
      + eapply Forall_impl; [exact Hl|]. simpl. lia.
      + unfold callResolve. apply Forall_fmap.
        eapply Forall_impl; [exact Hr|]. simpl. lia.
    - intros k a w' Hk Hw'.
      apply get_delete_Some in Hk as [Hne Hk]; [|done].
      destruct (Ha k a Hk) as (w1 & Hw1 & Hsk1 & Hr1).
      rewrite lookup_insert_ne in Hw' by congruence.
      assert (w1 = w') as -> by congruence.
      intros Hin. rewrite Forall_forall in Hr1. specialize (Hr1 _ Hin). lia. }
  split; [|split].
  - unfold s1, hasActiveWindow.
    rewrite (coalesceMessage_join_closing _ _ _ _ addr w) by done. simpl.
    unfold JsMap.has. by rewrite JsMap.get_delete_eq.
  - unfold s1. by rewrite (coalesceMessage_join_closing _ _ _ _ addr w).
  - intros evs'. apply lost_resolution.
    by apply (coalesce_run_preserves evs' s1 Hinv1).
Qed.

(** The scenario of the module's test "closes window when max messages
    reached": [maxMessages = 3], three messages on "session-1". *)
Definition msg (t : string) (ts : Z) : CoalesceMessage :=
  {| text := t; images := None; timestamp := ts; senderId := None;
     senderName := None |}.

Definition maxThreeConfig : CoalesceConfig :=
  {| cfg_enabled := Some true; cfg_windowMs := Some 5000;
     cfg_maxMessages := Some 3; cfg_excludePatterns := None |}.

Definition twoSubmitted : list Event :=
  [Configure maxThreeConfig;
   Submit "session-1" (msg "1" 0) 0;
   Submit "session-1" (msg "2" 1) 1].

Lemma closing_join_promise_never_resolves_witness :
  let s := run twoSubmitted initialState in
  let p := (coalesceMessage "session-1" (msg "3" 2) 2 s).1 in
  let s1 := (coalesceMessage "session-1" (msg "3" 2) 2 s).2 in
  hasActiveWindow "session-1" s1 = false /\
  resolveCalls s1
  = resolveCalls s ++ callResolve [0; 1]%nat [msg "1" 0; msg "2" 1; msg "3" 2] /\
  forall evs', resolution p (run evs' s1) = None.
Proof.
  apply (closing_join_promise_never_resolves twoSubmitted "session-1"
           (msg "3" 2) 2 0%nat
           {| sessionKey := "session-1"; messages := [msg "1" 0; msg "2" 1];
              startedAt := 0; timer := 0; resolve := [0; 1]%nat |}).
  - reflexivity.
  - reflexivity.
  - reflexivity.
  - vm_compute. discriminate.
Defined.

(** The same scenario evaluated: the first two callers are resolved with the
    three messages, the third caller's promise (number 2) is pending, and it
    stays pending when the module is flushed and cleared afterwards. *)
Example max_messages_test_scenario :
  let s := run (twoSubmitted ++ [Submit "session-1" (msg "3" 2) 2]) initialState in
  let batch := [msg "1" 0; msg "2" 1; msg "3" 2] in
  resolution 0 s = Some batch /\
  resolution 1 s = Some batch /\
  resolution 2 s = None /\
  hasActiveWindow "session-1" s = false /\
  resolution 2 (run [Flush "session-1"; TimerFired 0; ClearAll] s) = None.
Proof. vm_compute. done. Qed.

(** End-to-end scenario "coalesce batching" of the specification: three
    messages inside one window of at most five, then the timer fires. *)
Example coalesce_batching_scenario :
  let s := run [Configure {| cfg_enabled := Some true; cfg_windowMs := Some 20;
                             cfg_maxMessages := Some 5;
                             cfg_excludePatterns := None |};
                Submit "session-1" (msg "a" 0) 0;
                Submit "session-1" (msg "b" 5) 5;
                Submit "session-1" (msg "c" 10) 10;
                TimerFired 0] initialState in
  let batch := [msg "a" 0; msg "b" 5; msg "c" 10] in
  resolution 0 s = Some batch /\ resolution 1 s = Some batch /\
  resolution 2 s = Some batch /\ hasActiveWindow "session-1" s = false.
Proof. vm_compute. done. Qed.

(** *** The books of the open windows *)

(** Session [k] has the open window [w]. *)
Definition openOn (aw : list (string * nat)) (h : gmap nat CoalesceWindow)
    (k : string) (w : CoalesceWindow) : Prop :=
  exists addr, JsMap.get k aw = Some addr /\ h !! addr = Some w.

Definition openAt (s : State) (k : string) (w : CoalesceWindow) : Prop :=
  openOn (activeWindows s) (heap s) k w.

(** An open window belongs to a session that is not a subagent's, holds one
    resolver per message and at least one, all different and none called
    yet, and its timer is pending; windows share no resolver; no resolver
    was called twice; and a pending timer is the timer of the open window of
    its session. *)
Definition booksOn (aw : list (string * nat)) (h : gmap nat CoalesceWindow)
    (ts : gmap nat string) (nt : nat) (log : list (nat * list CoalesceMessage))
  : Prop :=
  (forall k w, openOn aw h k w ->
     includes "subagent:" k = false /\
     ((1 <= length (resolve w))%nat /\
      length (resolve w) = length (messages w)) /\
     NoDup (resolve w) /\
     (forall q, q ∈ resolve w -> q ∉ log.*1) /\
     ts !! timer w = Some k) /\
  (forall k1 w1 k2 w2 q, openOn aw h k1 w1 -> openOn aw h k2 w2 ->
     q ∈ resolve w1 -> q ∈ resolve w2 -> k1 = k2) /\
  NoDup log.*1 /\
  (forall t k, ts !! t = Some k ->
     (t < nt)%nat /\ exists w, openOn aw h k w /\ timer w = t).

Definition books (s : State) : Prop :=
  booksOn (activeWindows s) (heap s) (timers s) (nextTimer s) (resolveCalls s).

Lemma callResolve_promises ps (msgs : list CoalesceMessage) :
  (callResolve ps msgs).*1 = ps.
Proof.
  induction ps as [|p ps IH]; [done|].
  change ((callResolve (p :: ps) msgs).*1) with (p :: (callResolve ps msgs).*1).
  by rewrite IH.
Qed.

Lemma open_same_key aw h nw np log k k' addr :
  invOn aw h nw np log ->
  JsMap.get k aw = Some addr -> JsMap.get k' aw = Some addr -> k = k'.
Proof.
  intros (_ & Ha & _) Hk Hk'.
  destruct (Ha k addr Hk) as (w & Hw & Hsk & _).
  destruct (Ha k' addr Hk') as (w' & Hw' & Hsk' & _). congruence.
Qed.

Lemma open_below aw h nw np log k w :
  invOn aw h nw np log -> openOn aw h k w ->
  forall q, q ∈ resolve w -> (q < np)%nat.
Proof.
  intros (_ & Ha & _) (addr & Hget & Hw) q Hq.
  destruct (Ha k addr Hget) as (w0 & Hw0 & _ & Hr).
  assert (w0 = w) as -> by congruence.
  rewrite Forall_forall in Hr. by apply Hr.
Qed.

Lemma logged_below aw h nw np log q :
  invOn aw h nw np log -> q ∈ log.*1 -> (q < np)%nat.
Proof.
  intros (_ & _ & _ & Hl) Hq. apply list_elem_of_fmap in Hq as (call & -> & Hin).
  rewrite Forall_forall in Hl. by apply Hl.
Qed.

(** Closing the window of [key]; the heap may change at its address. *)
Lemma booksOn_close aw h h' nw np ts nt log key addr w msgs :
  invOn aw h nw np log -> booksOn aw h ts nt log ->
  JsMap.get key aw = Some addr -> h !! addr = Some w ->
  (forall a, a <> addr -> h' !! a = h !! a) ->
  booksOn (JsMap.delete key aw) h' (delete (timer w) ts) nt
          (log ++ callResolve (resolve w) msgs).
Proof.
  intros Hinv (Hwin & Hdis & Hnd & Htm) Hget Hw Hagree.
  pose proof Hinv as (Hwf & _).
  assert (Hopen : openOn aw h key w) by by exists addr.
  assert (Hold : forall k w', openOn (JsMap.delete key aw) h' k w' ->
                              k <> key /\ openOn aw h k w').
  { intros k w' (a & Hg & Hh). apply get_delete_Some in Hg as [Hne Hg]; [|done].
    split; [done|]. exists a. split; [done|]. rewrite <- Hagree; [done|].
    intros ->. apply Hne. by apply (open_same_key _ _ _ _ _ _ _ addr Hinv). }
  destruct (Hwin key w Hopen) as (_ & _ & Hndw & Hnew & Htw).
  split; [|split; [|split]].
  - intros k w' Ho. destruct (Hold k w' Ho) as [Hne Ho'].
    destruct (Hwin k w' Ho') as (H1 & H2 & H3 & H4 & H5).
    split; [done|]. split; [done|]. split; [done|]. split.
    + intros q Hq. rewrite fmap_app, callResolve_promises, not_elem_of_app.
      split; [by apply H4|]. intros Hq'.
      apply Hne. by apply (Hdis k w' key w q).
    + rewrite lookup_delete_ne; [done|]. intros Heq. rewrite Heq in Htw. congruence.
  - intros k1 w1 k2 w2 q Ho1 Ho2. destruct (Hold _ _ Ho1) as [_ Ho1'].
    destruct (Hold _ _ Ho2) as [_ Ho2']. by apply Hdis.
  - rewrite fmap_app, callResolve_promises. apply NoDup_app.
    split; [done|]. split; [|done]. intros q Hq Hq'. by apply (Hnew q).
  - intros t k Ht. apply lookup_delete_Some in Ht as [Hne Ht].
    destruct (Htm t k Ht) as [Hlt (w' & Ho & Htw')]. split; [done|].
    exists w'. split; [|done]. destruct Ho as (a & Hg & Hh).
    assert (Hk : k <> key).
    { intros ->. assert (a = addr) as -> by congruence.
      assert (w' = w) as -> by congruence. done. }
    exists a. split; [by rewrite JsMap.get_delete_ne|].
    rewrite Hagree; [done|]. intros ->. apply Hk.
    by apply (open_same_key _ _ _ _ _ _ _ addr Hinv).
Qed.

(** A promise resolved at once. *)
Lemma booksOn_skip aw h nw np ts nt log msgs :
  invOn aw h nw np log -> booksOn aw h ts nt log ->
  booksOn aw h ts nt (log ++ [(np, msgs)]).
Proof.
  intros Hinv (Hwin & Hdis & Hnd & Htm). split; [|split; [done|split; [|done]]].
  - intros k w Ho. destruct (Hwin k w Ho) as (H1 & H2 & H3 & H4 & H5).
    split; [done|]. split; [done|]. split; [done|]. split; [|done].
    intros q Hq. rewrite fmap_app, not_elem_of_app. split; [by apply H4|].
    simpl. rewrite list_elem_of_singleton. intros ->.
    pose proof (open_below _ _ _ _ _ _ _ Hinv Ho _ Hq). lia.
  - rewrite fmap_app. apply NoDup_app. split; [done|]. split.
    + intros q Hq Hq'. simpl in Hq'. apply list_elem_of_singleton in Hq' as ->.
      pose proof (logged_below _ _ _ _ _ _ Hinv Hq). lia.
    + simpl. apply NoDup_singleton.
Qed.

(** A new window. *)
Lemma booksOn_new aw h nw np ts nt log key message now :
  invOn aw h nw np log -> booksOn aw h ts nt log ->
  JsMap.get key aw = None -> includes "subagent:" key = false ->
  booksOn (JsMap.set key nw aw)
          (<[nw := {| sessionKey := key; messages := [message]; startedAt := now;
                      timer := nt; resolve := [np] |}]> h)
          (<[nt := key]> ts) (S nt) log.
Proof.
  intros Hinv (Hwin & Hdis & Hnd & Htm) Hnone Hsub.
  pose proof Hinv as (Hwf & Ha & Hd & Hl).
  set (window := {| sessionKey := key; messages := [message]; startedAt := now;
                    timer := nt; resolve := [np] |}).
  assert (Hcases : forall k w, openOn (JsMap.set key nw aw) (<[nw := window]> h) k w ->
                     (k = key /\ w = window) \/ (k <> key /\ openOn aw h k w)).
  { intros k w (a & Hg & Hh). destruct (decide (key = k)) as [<-|Hne].
    - left. rewrite JsMap.get_set_eq in Hg. injection Hg as <-.
      rewrite lookup_insert_eq in Hh. by injection Hh as <-.
    - right. split; [done|]. rewrite JsMap.get_set_ne in Hg by done.
      exists a. split; [done|]. rewrite lookup_insert_ne in Hh; [done|].
      intros <-. destruct (Ha k nw Hg) as (w0 & Hw0 & _).
      assert (nw < nw)%nat; [|lia]. apply Hd. by exists w0. }
  assert (Hkeep : forall k w, openOn aw h k w ->
                    openOn (JsMap.set key nw aw) (<[nw := window]> h) k w).
  { intros k w (a & Hg & Hh). exists a.
    assert (key <> k) by (intros <-; congruence).
    rewrite JsMap.get_set_ne by done. split; [done|].
    rewrite lookup_insert_ne; [done|]. intros <-.
    assert (nw < nw)%nat; [|lia]. apply Hd. by exists w. }
  split; [|split; [|split; [done|]]].
  - intros k w Ho. destruct (Hcases k w Ho) as [[-> ->]|[Hne Ho']].
    + split; [done|]. split; [done|]. split; [apply NoDup_singleton|]. split.
      * intros q Hq. simpl in Hq. apply list_elem_of_singleton in Hq as ->.
        intros Hq. pose proof (logged_below _ _ _ _ _ _ Hinv Hq). lia.
      * simpl. apply lookup_insert_eq.
    + destruct (Hwin k w Ho') as (H1 & H2 & H3 & H4 & H5).
      split; [done|]. split; [done|]. split; [done|]. split; [done|].
      rewrite lookup_insert_ne; [done|]. intros Heq.
      destruct (Htm _ _ H5) as [Hlt _]. lia.
  - intros k1 w1 k2 w2 q Ho1 Ho2 Hq1 Hq2.
    destruct (Hcases _ _ Ho1) as [[-> ->]|[Hne1 Ho1']];
      destruct (Hcases _ _ Ho2) as [[-> ->]|[Hne2 Ho2']]; [done| | |by eapply Hdis].
    + simpl in Hq1. apply list_elem_of_singleton in Hq1 as ->.
      pose proof (open_below _ _ _ _ _ _ _ Hinv Ho2' _ Hq2). lia.
    + simpl in Hq2. apply list_elem_of_singleton in Hq2 as ->.
      pose proof (open_below _ _ _ _ _ _ _ Hinv Ho1' _ Hq1). lia.
  - intros t k Ht. apply lookup_insert_Some in Ht as [[<- <-]|[Hne Ht]].
    + split; [lia|]. exists window. split; [|done]. exists nw.
      by rewrite JsMap.get_set_eq, lookup_insert_eq.
    + destruct (Htm t k Ht) as [Hlt (w & Ho & Htw)]. split; [lia|].
      exists w. split; [by apply Hkeep|done].
Qed.

(** A caller joins a window that stays open. *)
Lemma booksOn_join aw h nw np ts nt log key addr w message :
  invOn aw h nw np log -> booksOn aw h ts nt log ->
  JsMap.get key aw = Some addr -> h !! addr = Some w ->
  booksOn aw (<[addr := wrapResolve (pushMessage w message) np]> h) ts nt log.
Proof.
  intros Hinv (Hwin & Hdis & Hnd & Htm) Hget Hw.
  set (w2 := wrapResolve (pushMessage w message) np).
  assert (Hopen : openOn aw h key w) by by exists addr.
  assert (Hcases : forall k w', openOn aw (<[addr := w2]> h) k w' ->
                     (k = key /\ w' = w2) \/ (k <> key /\ openOn aw h k w')).
  { intros k w' (a & Hg & Hh). destruct (decide (a = addr)) as [->|Hne].
    - left. rewrite lookup_insert_eq in Hh. injection Hh as <-.
      split; [|done]. by apply (open_same_key _ _ _ _ _ _ _ addr Hinv).
    - right. rewrite lookup_insert_ne in Hh by done.
      split; [intros ->; congruence|]. by exists a. }
  assert (Hkeep : forall k w', openOn aw h k w' ->
                    exists w'', openOn aw (<[addr := w2]> h) k w'' /\ timer w'' = timer w').
  { intros k w' (a & Hg & Hh). destruct (decide (a = addr)) as [->|Hne].
    - exists w2. split; [exists addr; by rewrite lookup_insert_eq|].
      assert (w' = w) as -> by congruence. done.
    - exists w'. split; [|done]. exists a. by rewrite lookup_insert_ne. }
  assert (Hres : forall q, q ∈ resolve w2 -> q ∈ resolve w \/ q = np).
  { intros q. unfold w2. simpl. rewrite elem_of_app, list_elem_of_singleton. tauto. }
  destruct (Hwin key w Hopen) as (W1 & W2 & W3 & W4 & W5).
  assert (Hfresh : forall k w', openOn aw h k w' -> np ∉ resolve w').
  { intros k w' Ho Hin. pose proof (open_below _ _ _ _ _ _ _ Hinv Ho _ Hin). lia. }
  split; [|split; [|split; [done|]]].
  - intros k w' Ho. destruct (Hcases k w' Ho) as [[-> ->]|[Hne Ho']]; [|by apply Hwin].
    split; [done|]. split; [unfold w2; simpl; rewrite !length_app; simpl; lia|].
    split; [|split; [|done]].
    + unfold w2. simpl. apply NoDup_app. split; [done|].
      split; [|apply NoDup_singleton].
      intros q Hq Hq'. apply list_elem_of_singleton in Hq' as ->.
      by apply (Hfresh key w).
    + intros q Hq. destruct (Hres q Hq) as [Hq'| ->]; [by apply W4|].
      intros Hl. pose proof (logged_below _ _ _ _ _ _ Hinv Hl). lia.
  - intros k1 w1 k2 w2' q Ho1 Ho2 Hq1 Hq2.
    destruct (Hcases _ _ Ho1) as [[-> ->]|[Hne1 Ho1']];
      destruct (Hcases _ _ Ho2) as [[-> ->]|[Hne2 Ho2']]; [done| | |by eapply Hdis].
    + destruct (Hres q Hq1) as [Hq| ->]; [by apply (Hdis key w k2 w2' q)|].
      by destruct (Hfresh k2 w2' Ho2').
    + destruct (Hres q Hq2) as [Hq| ->]; [by apply (Hdis k1 w1 key w q)|].
      by destruct (Hfresh k1 w1 Ho1').
  - intros t k Ht. destruct (Htm t k Ht) as [Hlt (w' & Ho & Htw)]. split; [done|].
    destruct (Hkeep k w' Ho) as (w'' & Ho'' & Htw''). exists w''.
    split; [done|congruence].
Qed.

Lemma skip_subagent key s :
  shouldSkipCoalescing key s = false -> includes "subagent:" key = false.
Proof.
  unfold shouldSkipCoalescing. destruct (negb (enabled (globalConfig s))); [done|].
  by destruct (includes "subagent:" key).
Qed.

Lemma books_closeWindow key s : inv s -> books s -> books (closeWindow key s).
Proof.
  intros Hinv Hb. unfold closeWindow.
  destruct (JsMap.get key (activeWindows s)) as [addr|] eqn:Hget; [|done].
  destruct (heap s !! addr) as [w|] eqn:Hw; [|done].
  unfold books. simpl. by eapply booksOn_close.
Qed.

Lemma books_coalesceMessage key message now s :
  inv s -> books s -> books (coalesceMessage key message now s).2.
Proof.
  intros Hinv Hb. pose proof Hinv as (_ & Ha & _).
  destruct (shouldSkipCoalescing key s) eqn:Hskip.
  { rewrite coalesceMessage_skip by done. unfold books. simpl.
    by eapply booksOn_skip. }
  destruct (JsMap.get key (activeWindows s)) as [addr|] eqn:Hget.
  - destruct (Ha key addr Hget) as (w & Hw & _).
    destruct (Z_lt_le_dec (Z.of_nat (length (messages w)) + 1)
                (maxMessages (globalConfig s))) as [Hopen|Hfull].
    + rewrite (coalesceMessage_join_open _ _ _ _ addr w) by done.
      unfold books. simpl. by eapply booksOn_join.
    + rewrite (coalesceMessage_join_closing _ _ _ _ addr w) by done.
      unfold books. simpl. eapply booksOn_close; [exact Hinv|exact Hb|done|done|].
      intros a Hne. by rewrite lookup_insert_ne.
  - rewrite coalesceMessage_new by done. unfold books. simpl.
    eapply booksOn_new; [exact Hinv|exact Hb|done|]. by eapply skip_subagent.
Qed.

(** The callback of a pending timer closes the window of its session, the
    one the timer belongs to. *)
Lemma timerFired_closes t key s :
  books s -> timers s !! t = Some key -> timerFired t s = closeWindow key s.
Proof.
  intros (Hwin & _ & _ & Htm) Ht. unfold timerFired. rewrite Ht.
  destruct (Htm t key Ht) as [_ (w & (addr & Hget & Hw) & Htw)].
  unfold closeWindow. simpl. rewrite Hget, Hw. subst t.
  by rewrite delete_delete_eq.
Qed.

Lemma books_closeAll ks : forall s,
  inv s -> books s -> books (foldl (fun s' key => closeWindow key s') s ks).
Proof.
  induction ks as [|k ks IH]; intros s Hinv Hb; simpl; [done|].
  apply IH; [by apply closeWindow_inv|by apply books_closeWindow].
Qed.

Lemma books_step s ev : inv s -> books s -> books (step s ev).
Proof.
  intros Hinv Hb. destruct ev as [config|key message now|t|key|]; simpl.
  - done.
  - by apply books_coalesceMessage.
  - destruct (timers s !! t) as [key|] eqn:Ht.
    + rewrite (timerFired_closes t key) by done. by apply books_closeWindow.
    + unfold timerFired. by rewrite Ht.
  - by apply books_closeWindow.
  - by apply books_closeAll.
Qed.

Lemma books_run evs : forall s, inv s -> books s -> inv (run evs s) /\ books (run evs s).
Proof.
  induction evs as [|ev evs IH]; intros s Hinv Hb; simpl; [done|].
  apply IH; [by apply coalesce_step_preserves|by apply books_step].
Qed.

Lemma books_initial : books initialState.
Proof.
  split; [|split; [|split; [constructor|]]].
  - intros k w (addr & Hget & _). done.
  - intros k1 w1 k2 w2 q (addr & Hget & _). done.
  - intros t k Ht. simpl in Ht. by rewrite lookup_empty in Ht.
Qed.

Lemma firstCall_app p log log' :
  firstCall p (log ++ log')
  = match firstCall p log with Some msgs => Some msgs | None => firstCall p log' end.
Proof.
  induction log as [|[q msgs] log IH]; simpl; [done|].
  by destruct (Nat.eqb q p).
Qed.

Lemma firstCall_fresh p log : p ∉ log.*1 -> firstCall p log = None.
Proof.
  intros Hp. apply firstCall_None, Forall_forall. intros call Hin Heq.
  apply Hp. apply list_elem_of_fmap. by exists call.
Qed.

Lemma firstCall_callResolve p ps msgs :
  p ∈ ps -> firstCall p (callResolve ps msgs) = Some msgs.
Proof.
  induction ps as [|q ps IH]; simpl; intros Hin; [by apply elem_of_nil in Hin|].
  destruct (Nat.eqb q p) eqn:E; [done|]. apply Nat.eqb_neq in E.
  apply elem_of_cons in Hin as [?|?]; [congruence|auto].
Qed.

(** A window of the map is the open window of some session, and conversely. *)
Lemma elem_of_windowsOf s w :
  JsMap.wf (activeWindows s) ->
  w ∈ windowsOf s <-> exists key, openAt s key w.
Proof.
  intros Hwf. unfold windowsOf, openAt, openOn. rewrite list_elem_of_omap.
  generalize dependent (activeWindows s). intros aw Hwf. split.
  - intros ([k addr] & Hin & Hw). exists k, addr. split; [|done].
    clear Hw. induction aw as [|[k' a'] aw IH]; [by apply elem_of_nil in Hin|].
    apply NoDup_cons in Hwf as [Hk Hwf]. simpl.
    apply elem_of_cons in Hin as [[= -> ->]|Hin]; [by rewrite String.eqb_refl|].
    destruct (String.eqb k k') eqn:E; [|by apply IH].
    apply String.eqb_eq in E. subst. exfalso. apply Hk.
    apply list_elem_of_fmap. by exists (k', addr).
  - intros (k & addr & Hget & Hw). exists (k, addr). split; [|done].
    clear Hw Hwf. induction aw as [|[k' a'] aw IH]; [done|]. simpl in Hget.
    destruct (String.eqb k k') eqn:E.
    + apply String.eqb_eq in E. injection Hget as ->. subst. left.
    + right. by apply IH.
Qed.

Lemma elem_of_closingCalls ws q :
  q ∈ (closingCalls ws).*1 -> exists w, w ∈ ws /\ q ∈ resolve w.
Proof.
  unfold closingCalls. induction ws as [|w ws IH]; simpl.
  - intros H. by apply elem_of_nil in H.
  - rewrite fmap_app, callResolve_promises, elem_of_app. intros [Hq|Hq].
    + exists w. split; [left|done].
    + destruct (IH Hq) as (w' & Hin & Hq'). exists w'. split; [by right|done].
Qed.

(** The first call of a resolver among the calls that close a list of
    windows, when every window that holds the resolver holds the same batch. *)
Lemma firstCall_closingCalls ws w q :
  w ∈ ws -> q ∈ resolve w ->
  (forall w', w' ∈ ws -> q ∈ resolve w' -> messages w' = messages w) ->
  firstCall q (closingCalls ws) = Some (messages w).
Proof.
  unfold closingCalls. induction ws as [|w0 ws IH]; simpl; intros Hin Hq Hsame.
  - by apply elem_of_nil in Hin.
  - rewrite firstCall_app.
    destruct (decide (q ∈ resolve w0)) as [Hq0|Hq0].
    + rewrite (firstCall_callResolve q _ _ Hq0).
      f_equal. apply Hsame; [left|done].
    + rewrite firstCall_fresh by by rewrite callResolve_promises.
      apply IH; [|done|].
      * apply elem_of_cons in Hin as [->|Hin]; [done|done].
      * intros w' Hw'. apply Hsame. by right.
Qed.

Lemma clearTimers_keeps ws : forall (ts : gmap nat string) t,
  ts !! t = None -> clearTimers ts ws !! t = None.
Proof.
  induction ws as [|w ws IH]; intros ts t Ht; simpl; [done|].
  apply IH. destruct (decide (timer w = t)) as [<-|Hne].
  - apply lookup_delete_eq.
  - by rewrite lookup_delete_ne.
Qed.

(** C10.  In every state the coalescer reaches, [clearAllWindows] leaves
    the map of active windows empty and no timer pending; every key of the
    map had a window; the resolver calls it makes are, window by window in
    map order, the window's resolve callback applied to the window's
    accumulated messages; every open window had at least one caller waiting,
    none of them resolved yet, and after the call each of them is resolved
    with the accumulated messages of its window; the promises of no open
    window are left as they were. *)
Theorem clearAllWindows_closes_every_window (evs : list Event) :
  let s := run evs initialState in
  let s' := clearAllWindows s in
  activeWindows s' = [] /\
  (forall key, hasActiveWindow key s' = false) /\
  length (windowsOf s) = length (activeWindows s) /\
  resolveCalls s' = resolveCalls s ++ closingCalls (windowsOf s) /\
  timers s' = clearTimers (timers s) (windowsOf s) /\
  (forall t, timers s' !! t = None) /\
  (forall key w, openAt s key w ->
     w ∈ windowsOf s /\
     (1 <= length (resolve w))%nat /\
     forall q, q ∈ resolve w ->
       resolution q s = None /\ resolution q s' = Some (messages w)) /\
  (forall q, (forall key w, openAt s key w -> q ∉ resolve w) ->
     resolution q s' = resolution q s).
Proof.
  intros s s'.
  destruct (books_run evs _ inv_initial books_initial) as [Hinv Hb]. fold s in Hinv, Hb.
  destruct (closeAll_spec (activeWindows s) s eq_refl Hinv) as (He & Hlen & Hlog & Ht).
  fold (clearAllWindows s) in He, Hlog, Ht. fold s' in He, Hlog, Ht.
  pose proof Hinv as (Hwf & _).
  destruct Hb as (Hwin & Hdis & _ & Htm).
  split; [done|]. split.
  { intros key. unfold hasActiveWindow. by rewrite He. }
  split; [done|]. split; [done|]. split; [done|]. split; [|split].
  - intros t. rewrite Ht. destruct (timers s !! t) as [k|] eqn:Hk.
    + destruct (Htm t k Hk) as [_ (w & Ho & <-)].
      apply clearTimers_lookup. apply elem_of_windowsOf; [done|]. by exists k.
    + by apply clearTimers_keeps.
  - intros key w Ho.
    assert (Hin : w ∈ windowsOf s) by (apply elem_of_windowsOf; [done|]; by exists key).
    destruct (Hwin key w Ho) as (_ & [Hpos _] & _ & Hfresh & _).
    split; [done|]. split; [done|]. intros q Hq.
    assert (Hnone : resolution q s = None) by by apply firstCall_fresh, Hfresh.
    split; [done|]. unfold resolution in *. rewrite Hlog, firstCall_app, Hnone.
    apply firstCall_closingCalls; [done|done|].
    intros w' Hw' Hq'. apply elem_of_windowsOf in Hw' as [key' Ho']; [|done].
    assert (key' = key) as -> by by apply (Hdis key' w' key w q).
    destruct Ho as (a1 & G1 & H1). destruct Ho' as (a2 & G2 & H2). congruence.
  - intros q Hq. unfold resolution. rewrite Hlog, firstCall_app.
    destruct (firstCall q (resolveCalls s)); [done|].
    apply firstCall_fresh. intros Hin.
    apply elem_of_closingCalls in Hin as (w & Hw & Hqw).
    apply elem_of_windowsOf in Hw as [key Ho]; [|done].
    by apply (Hq key w).
Qed.

(** The callers of an open window share one batch.  In every state the
    coalescer reaches, an open window holds one waiting caller per
    accumulated message, [getPendingCount] is their number and is at least
    1, none of them has been resolved yet, and closing the window resolves
    every one of them with the whole list of accumulated messages and
    removes the window. *)
Theorem open_window_callers_share_the_batch (evs : list Event) (key : string)
    (w : CoalesceWindow) :
  let s := run evs initialState in
  openAt s key w ->
  length (resolve w) = length (messages w) /\
  getPendingCount key s = length (messages w) /\
  (1 <= getPendingCount key s)%nat /\
  hasActiveWindow key s = true /\
  NoDup (resolve w) /\
  (forall q, q ∈ resolve w -> resolution q s = None) /\
  (forall q, q ∈ resolve w ->
     resolution q (flushCoalesceWindow key s) = Some (messages w)) /\
  hasActiveWindow key (flushCoalesceWindow key s) = false /\
  getPendingCount key (flushCoalesceWindow key s) = 0%nat.
Proof.
  intros s Ho.
  destruct (books_run evs _ inv_initial books_initial) as [Hinv Hb]. fold s in Hinv, Hb.
  pose proof Hinv as (Hwf & Ha & _).
  destruct Hb as (Hwin & _).
  destruct (Hwin key w Ho) as (_ & [Hpos Hlen] & Hnd & Hfresh & _).
  destruct Ho as (addr & Hget & Hw).
  assert (Hcount : getPendingCount key s = length (messages w)).
  { unfold getPendingCount. by rewrite Hget, Hw. }
  assert (Hclosed : JsMap.get key (activeWindows (flushCoalesceWindow key s)) = None).
  { unfold flushCoalesceWindow, closeWindow. rewrite Hget, Hw. simpl.
    by apply JsMap.get_delete_eq. }
  split; [done|]. split; [done|]. split.
  { by rewrite Hcount, <- Hlen. }
  split; [unfold hasActiveWindow, JsMap.has; by rewrite Hget|].
  split; [done|]. split.
  { intros q Hq. by apply firstCall_fresh, Hfresh. }
  split.
  { intros q Hq. unfold resolution, flushCoalesceWindow, closeWindow.
    rewrite Hget, Hw. simpl. rewrite firstCall_app.
    rewrite (firstCall_fresh q (resolveCalls s)) by by apply Hfresh.
    by apply firstCall_callResolve. }
  split; [unfold hasActiveWindow, JsMap.has; by rewrite Hclosed|].
  unfold getPendingCount. by rewrite Hclosed.
Qed.

(** The window of "session-1" after two messages. *)
Lemma open_window_callers_share_the_batch_witness :
  let s := run twoSubmitted initialState in
  getPendingCount "session-1" s = 2%nat /\
  resolution 0 s = None /\ resolution 1 s = None /\
  resolution 0 (flushCoalesceWindow "session-1" s) = Some [msg "1" 0; msg "2" 1] /\
  resolution 1 (flushCoalesceWindow "session-1" s) = Some [msg "1" 0; msg "2" 1].
Proof.
  destruct (open_window_callers_share_the_batch twoSubmitted "session-1"
              {| sessionKey := "session-1"; messages := [msg "1" 0; msg "2" 1];
                 startedAt := 0; timer := 0; resolve := [0; 1]%nat |})
    as (_ & Hcount & _ & _ & _ & Hwait & Hflush & _).
  - exists 0%nat. split; reflexivity.
  - split; [exact Hcount|].
    split; [apply Hwait; left|]. split; [apply Hwait; right; left|].
    split; [apply Hflush; left|apply Hflush; right; left].
Defined.

(** No resolver is called twice.  In every state the coalescer reaches, the
    log of resolver calls names every promise at most once, the resolvers
    waiting in open windows have not been called, and no resolver waits in
    two windows: a caller gets one batch, and a batch goes to the callers
    of one session. *)
Theorem resolvers_called_at_most_once (evs : list Event) :
  let s := run evs initialState in
  NoDup (resolveCalls s).*1 /\
  (forall call, call ∈ resolveCalls s -> (call.1 < nextPromise s)%nat) /\
  (forall k w q, openAt s k w -> q ∈ resolve w ->
     (q < nextPromise s)%nat /\ q ∉ (resolveCalls s).*1) /\
  (forall k1 w1 k2 w2 q, openAt s k1 w1 -> openAt s k2 w2 ->
     q ∈ resolve w1 -> q ∈ resolve w2 -> k1 = k2 /\ w1 = w2).
Proof.
  intros s.
  destruct (books_run evs _ inv_initial books_initial) as [Hinv Hb]. fold s in Hinv, Hb.
  destruct Hb as (Hwin & Hdis & Hnd & _).
  split; [done|]. split; [|split].
  - intros call Hin. destruct Hinv as (_ & _ & _ & Hl).
    rewrite Forall_forall in Hl. by apply Hl.
  - intros k w q Ho Hq. split; [by apply (open_below _ _ _ _ _ _ _ Hinv Ho)|].
    destruct (Hwin k w Ho) as (_ & _ & _ & Hfresh & _). by apply Hfresh.
  - intros k1 w1 k2 w2 q Ho1 Ho2 Hq1 Hq2.
    assert (k1 = k2) as -> by by apply (Hdis k1 w1 k2 w2 q).
    split; [done|]. destruct Ho1 as (a1 & G1 & H1). destruct Ho2 as (a2 & G2 & H2).
    congruence.
Qed.

(** Timers and windows go together.  In every state the coalescer reaches,
    the pending timers are exactly the timers of the open windows, each
    registered for the session of its window; when a pending timer fires it
    closes that window, which is what [flushCoalesceWindow] of the session
    does, and is no longer pending. *)
Theorem window_timers_match_windows (evs : list Event) :
  let s := run evs initialState in
  (forall t k, timers s !! t = Some k <-> exists w, openAt s k w /\ timer w = t) /\
  (forall t k, timers s !! t = Some k ->
     timerFired t s = flushCoalesceWindow k s /\
     timers (timerFired t s) !! t = None /\
     hasActiveWindow k (timerFired t s) = false).
Proof.
  intros s.
  destruct (books_run evs _ inv_initial books_initial) as [Hinv Hb]. fold s in Hinv, Hb.
  pose proof Hb as (Hwin & _ & _ & Htm). pose proof Hinv as (Hwf & _).
  split.
  - intros t k. split.
    + intros Ht. by destruct (Htm t k Ht) as [_ ?].
    + intros (w & Ho & <-). by destruct (Hwin k w Ho) as (_ & _ & _ & _ & ?).
  - intros t k Ht. rewrite (timerFired_closes t k) by done.
    split; [done|]. destruct (Htm t k Ht) as [_ (w & (addr & Hget & Hw) & <-)].
    unfold closeWindow, hasActiveWindow, JsMap.has. rewrite Hget, Hw. simpl.
    split; [apply lookup_delete_eq|]. by rewrite JsMap.get_delete_eq.
Qed.

(** A session that skips coalescing is answered at once.  The exclude
    patterns are regular expressions without the [g] or [y] flag, so that
    [pattern.test] is a predicate of the session key alone.  In every state
    the coalescer reaches, when [shouldSkipCoalescing] holds for the session
    the promise that [coalesceMessage] returns is resolved on return, with
    the list of the one message; no window is opened, no timer is set and
    no other promise is touched. *)
Theorem skipped_session_resolves_at_once (evs : list Event) (key : string)
    (message : CoalesceMessage) (now : Z) :
  let s := run evs initialState in
  let r := coalesceMessage key message now s in
  shouldSkipCoalescing key s = true ->
  resolution r.1 r.2 = Some [message] /\
  (forall q, q <> r.1 -> resolution q r.2 = resolution q s) /\
  activeWindows r.2 = activeWindows s /\
  heap r.2 = heap s /\
  timers r.2 = timers s.
Proof.
  intros s r Hskip.
  destruct (books_run evs _ inv_initial books_initial) as [Hinv _]. fold s in Hinv.
  unfold r. rewrite coalesceMessage_skip by done. unfold resolution. simpl.
  split; [|split; [|done]].
  - rewrite firstCall_app, firstCall_fresh; [simpl; by rewrite Nat.eqb_refl|].
    intros Hin. pose proof (logged_below _ _ _ _ _ _ Hinv Hin). lia.
  - intros q Hq. rewrite firstCall_app. destruct (firstCall q (resolveCalls s)); [done|].
    simpl. destruct (Nat.eqb (nextPromise s) q) eqn:E; [|done].
    apply Nat.eqb_eq in E. congruence.
Qed.

Definition onlyMainConfig : CoalesceConfig :=
  {| cfg_enabled := Some true; cfg_windowMs := None; cfg_maxMessages := None;
     cfg_excludePatterns := Some [fun key => negb (String.prefix "agent:main" key)] |}.

(** A session excluded by a pattern, while another session has a window. *)
Lemma skipped_session_resolves_at_once_witness :
  let s := run [Configure onlyMainConfig; Submit "agent:main:1" (msg "a" 0) 0]
             initialState in
  let r := coalesceMessage "cron:nightly" (msg "b" 1) 1 s in
  resolution r.1 r.2 = Some [msg "b" 1] /\ activeWindows r.2 = activeWindows s.
Proof.
  destruct (skipped_session_resolves_at_once
              [Configure onlyMainConfig; Submit "agent:main:1" (msg "a" 0) 0]
              "cron:nightly" (msg "b" 1) 1) as (H1 & _ & H3 & _).
  - reflexivity.
  - split; [exact H1|exact H3].
Defined.

(** Subagent sessions are never coalesced.  Whatever the configuration and
    whatever happened before, a session key that contains "subagent:" skips
    coalescing, has no window and no pending message. *)
Theorem subagent_sessions_never_coalesced (evs : list Event) (key : string) :
  let s := run evs initialState in
  includes "subagent:" key = true ->
  shouldSkipCoalescing key s = true /\
  hasActiveWindow key s = false /\
  getPendingCount key s = 0%nat.
Proof.
  intros s Hsub.
  destruct (books_run evs _ inv_initial books_initial) as [Hinv Hb]. fold s in Hinv, Hb.
  assert (Hnone : JsMap.get key (activeWindows s) = None).
  { destruct (JsMap.get key (activeWindows s)) as [addr|] eqn:Hget; [|done].
    destruct Hinv as (_ & Ha & _). destruct (Ha key addr Hget) as (w & Hw & _).
    destruct Hb as (Hwin & _).
    destruct (Hwin key w) as (Hno & _); [by exists addr|]. congruence. }
  split; [|split].
  - unfold shouldSkipCoalescing. destruct (negb (enabled (globalConfig s))); [done|].
    by rewrite Hsub.
  - unfold hasActiveWindow, JsMap.has. by rewrite Hnone.
  - unfold getPendingCount. by rewrite Hnone.
Qed.

Lemma subagent_sessions_never_coalesced_witness :
  let s := run twoSubmitted initialState in
  shouldSkipCoalescing "agent:main:subagent:42" s = true /\
  hasActiveWindow "agent:main:subagent:42" s = false /\
  getPendingCount "agent:main:subagent:42" s = 0%nat.
Proof.
  apply (subagent_sessions_never_coalesced twoSubmitted "agent:main:subagent:42").
  reflexivity.
Defined.

End Coalesce.

(** ** src/agents/subagent-registry.ts *)

Module SubagentRegistry.

(** The model covers the registry map, the lifecycle listener, the cleanup
    bookkeeping and the waiters.  Persistence ([persistSubagentRuns], whose
    failures are swallowed) is left out, and a sweep removes a record as
    [releaseSubagentRun] does.  The restore from disk has a part of its
    own ([Registry], [initSubagentRegistry]); the traces of [Action] are
    those of a process that restores nothing. *)

(** [SubagentRunOutcome] as the listener builds it. *)
Inductive Outcome :=
| OutcomeOk
| OutcomeError (error : option string)
| OutcomeTimeout.

Inductive Cleanup := CleanupDelete | CleanupKeep.

#[global] Instance Cleanup_eq_dec : EqDecision Cleanup.
Proof. solve_decision. Defined.

(** A JavaScript number as far as the module tells numbers apart: the
    listener stores whatever number an event carries, and the module only
    tests such a number for truthiness.  [NaN] is a number and is falsy, as
    [0] is; every other number behaves as a non-zero integer does. *)
Inductive JsNumber := Num (z : Z) | NaN.

#[global] Instance JsNumber_eq_dec : EqDecision JsNumber.
Proof. solve_decision. Defined.

(** [SubagentRunRecord]; [requesterOrigin] is an opaque delivery context.
    [startedAt] and [endedAt] hold a number that an event may have supplied;
    the other times are computed by the module from [Date.now()]. *)
Record SubagentRunRecord := mkRecord {
  runId : string;
  childSessionKey : string;
  requesterSessionKey : string;
  requesterOrigin : option string;
  requesterDisplayKey : string;
  task : string;
  cleanup : Cleanup;
  label : option string;
  createdAt : Z;
  startedAt : option JsNumber;
  endedAt : option JsNumber;
  outcome : option Outcome;
  archiveAtMs : option Z;
  cleanupCompletedAt : option Z;
  cleanupHandled : option bool;
}.

(** Truthiness of an optional number: [undefined], [0] and [NaN] are
    falsy. *)
Definition truthy (v : option JsNumber) : bool :=
  match v with
  | Some (Num z) => negb (z =? 0)
  | Some NaN => false
  | None => false
  end.

(** Truthiness of an optional time that the module computed itself (an
    integer, never [NaN]). *)
Definition truthyTime (v : option Z) : bool :=
  match v with
  | Some z => negb (z =? 0)
  | None => false
  end.

Definition withStartedAt (r : SubagentRunRecord) (t : JsNumber) : SubagentRunRecord :=
  {| runId := runId r; childSessionKey := childSessionKey r;
     requesterSessionKey := requesterSessionKey r;
     requesterOrigin := requesterOrigin r;
     requesterDisplayKey := requesterDisplayKey r; task := task r;
     cleanup := cleanup r; label := label r; createdAt := createdAt r;
     startedAt := Some t; endedAt := endedAt r; outcome := outcome r;
     archiveAtMs := archiveAtMs r; cleanupCompletedAt := cleanupCompletedAt r;
     cleanupHandled := cleanupHandled r |}.

Definition withEnded (r : SubagentRunRecord) (t : JsNumber) (o : Outcome)
  : SubagentRunRecord :=
  {| runId := runId r; childSessionKey := childSessionKey r;
     requesterSessionKey := requesterSessionKey r;
     requesterOrigin := requesterOrigin r;
     requesterDisplayKey := requesterDisplayKey r; task := task r;
     cleanup := cleanup r; label := label r; createdAt := createdAt r;
     startedAt := startedAt r; endedAt := Some t; outcome := Some o;
     archiveAtMs := archiveAtMs r; cleanupCompletedAt := cleanupCompletedAt r;
     cleanupHandled := cleanupHandled r |}.

Definition withCleanupHandled (r : SubagentRunRecord) (b : bool) : SubagentRunRecord :=
  {| runId := runId r; childSessionKey := childSessionKey r;
     requesterSessionKey := requesterSessionKey r;
     requesterOrigin := requesterOrigin r;
     requesterDisplayKey := requesterDisplayKey r; task := task r;
     cleanup := cleanup r; label := label r; createdAt := createdAt r;
     startedAt := startedAt r; endedAt := endedAt r; outcome := outcome r;
     archiveAtMs := archiveAtMs r; cleanupCompletedAt := cleanupCompletedAt r;
     cleanupHandled := Some b |}.

Definition withCleanupCompletedAt (r : SubagentRunRecord) (t : Z) : SubagentRunRecord :=
  {| runId := runId r; childSessionKey := childSessionKey r;
     requesterSessionKey := requesterSessionKey r;
     requesterOrigin := requesterOrigin r;
     requesterDisplayKey := requesterDisplayKey r; task := task r;
     cleanup := cleanup r; label := label r; createdAt := createdAt r;
     startedAt := startedAt r; endedAt := endedAt r; outcome := outcome r;
     archiveAtMs := archiveAtMs r; cleanupCompletedAt := Some t;
     cleanupHandled := cleanupHandled r |}.

(** The closure of one pending [waitForSubagentRun] promise: the run it
    waits for, its [settled] flag, and whether its timeout is still armed. *)
Record Waiter := mkWaiter {
  w_runId : string;
  settled : bool;
  timerPending : bool;
}.

(** A lifecycle event of the agent event bus, with the fields of [data] the
    listener reads.  A field that is absent or of another type than the
    listener tests for ([typeof ... === "number"], [=== "string"]) is [None]. *)
Record AgentEvent := mkEvent {
  evt_runId : string;
  stream : string;
  phase : option string;
  data_startedAt : option JsNumber;
  data_endedAt : option JsNumber;
  data_error : option string;
  data_aborted : bool;
}.

(** The module state.  Records are objects: [subagentRuns] maps a run id to
    the address of its record in [heap], and a waiter is resolved with that
    address.  [completionWaiters] maps a run id to the callbacks registered
    for it, in registration order, each named by the promise it resolves.
    The remaining fields are logs: [settlements] has every call of a
    waiter promise's [resolve] with its argument ([None] for [null]);
    [emitted] the [subagent_complete] events given to the bus; [announces]
    the announce flows launched; [endedAtWrites] every execution of
    [entry.endedAt = endedAt], with the run id, the record and the value. *)
Record State := mkState {
  subagentRuns : list (string * nat);
  heap : gmap nat SubagentRunRecord;
  nextObject : nat;
  listenerStarted : bool;
  completionWaiters : list (string * list nat);
  waiters : gmap nat Waiter;
  nextPromise : nat;
  settlements : list (nat * option nat);
  emitted : list (string * nat);
  announces : list (string * Cleanup);
  endedAtWrites : list (string * nat * JsNumber);
}.

Definition initialState : State :=
  {| subagentRuns := []; heap := ∅; nextObject := 0; listenerStarted := false;
     completionWaiters := []; waiters := ∅; nextPromise := 0;
     settlements := []; emitted := []; announces := []; endedAtWrites := [] |}.

Definition withRuns (s : State) (rs : list (string * nat)) : State :=
  {| subagentRuns := rs; heap := heap s; nextObject := nextObject s;
     listenerStarted := listenerStarted s;
     completionWaiters := completionWaiters s; waiters := waiters s;
     nextPromise := nextPromise s; settlements := settlements s;
     emitted := emitted s; announces := announces s;
     endedAtWrites := endedAtWrites s |}.

Definition withHeap (s : State) (h : gmap nat SubagentRunRecord) : State :=
  {| subagentRuns := subagentRuns s; heap := h; nextObject := nextObject s;
     listenerStarted := listenerStarted s;
     completionWaiters := completionWaiters s; waiters := waiters s;
     nextPromise := nextPromise s; settlements := settlements s;
     emitted := emitted s; announces := announces s;
     endedAtWrites := endedAtWrites s |}.

Definition withCompletionWaiters (s : State) (cw : list (string * list nat)) : State :=
  {| subagentRuns := subagentRuns s; heap := heap s; nextObject := nextObject s;
     listenerStarted := listenerStarted s;
     completionWaiters := cw; waiters := waiters s;
     nextPromise := nextPromise s; settlements := settlements s;
     emitted := emitted s; announces := announces s;
     endedAtWrites := endedAtWrites s |}.

Definition withWaiters (s : State) (ws : gmap nat Waiter) : State :=
  {| subagentRuns := subagentRuns s; heap := heap s; nextObject := nextObject s;
     listenerStarted := listenerStarted s;
     completionWaiters := completionWaiters s; waiters := ws;
     nextPromise := nextPromise s; settlements := settlements s;
     emitted := emitted s; announces := announces s;
     endedAtWrites := endedAtWrites s |}.

(** A new promise and one call of its [resolve]. *)
Definition settle (p : nat) (v : option nat) (s : State) : State :=
  {| subagentRuns := subagentRuns s; heap := heap s; nextObject := nextObject s;
     listenerStarted := listenerStarted s;
     completionWaiters := completionWaiters s; waiters := waiters s;
     nextPromise := nextPromise s; settlements := settlements s ++ [(p, v)];
     emitted := emitted s; announces := announces s;
     endedAtWrites := endedAtWrites s |}.

Definition withNextPromise (s : State) (n : nat) : State :=
  {| subagentRuns := subagentRuns s; heap := heap s; nextObject := nextObject s;
     listenerStarted := listenerStarted s;
     completionWaiters := completionWaiters s; waiters := waiters s;
     nextPromise := n; settlements := settlements s;
     emitted := emitted s; announces := announces s;
     endedAtWrites := endedAtWrites s |}.

Definition logEmitted (s : State) (e : string * nat) : State :=
  {| subagentRuns := subagentRuns s; heap := heap s; nextObject := nextObject s;
     listenerStarted := listenerStarted s;
     completionWaiters := completionWaiters s; waiters := waiters s;
     nextPromise := nextPromise s; settlements := settlements s;
     emitted := emitted s ++ [e]; announces := announces s;
     endedAtWrites := endedAtWrites s |}.

Definition logAnnounce (s : State) (a : string * Cleanup) : State :=
  {| subagentRuns := subagentRuns s; heap := heap s; nextObject := nextObject s;
     listenerStarted := listenerStarted s;
     completionWaiters := completionWaiters s; waiters := waiters s;
     nextPromise := nextPromise s; settlements := settlements s;
     emitted := emitted s; announces := announces s ++ [a];
     endedAtWrites := endedAtWrites s |}.

Definition logEndedAtWrite (s : State) (w : string * nat * JsNumber) : State :=
  {| subagentRuns := subagentRuns s; heap := heap s; nextObject := nextObject s;
     listenerStarted := listenerStarted s;
     completionWaiters := completionWaiters s; waiters := waiters s;
     nextPromise := nextPromise s; settlements := settlements s;
     emitted := emitted s; announces := announces s;
     endedAtWrites := endedAtWrites s ++ [w] |}.

(** *** Waiters *)

(** [waiters.delete(callback)], then [completionWaiters.delete(runId)] when
    the set became empty. *)
Definition removeWaiter (rid : string) (i : nat) (cw : list (string * list nat))
  : list (string * list nat) :=
  match JsMap.get rid cw with
  | None => cw
  | Some ws =>
      match filter (fun j => j <> i) ws with
      | [] => JsMap.delete rid cw
      | ws' => JsMap.set rid ws' cw
      end
  end.

(** [finish(record)] of waiter [i]: nothing when [settled]; else set the
    flag, clear the timeout, leave the waiter set and resolve. *)
Definition finish (i : nat) (record : option nat) (s : State) : State :=
  match waiters s !! i with
  | None => s
  | Some w =>
      if settled w then s
      else
        settle i record
          (withCompletionWaiters
             (withWaiters s
                (<[i := {| w_runId := w_runId w; settled := true;
                           timerPending := false |}]> (waiters s)))
             (removeWaiter (w_runId w) i (completionWaiters s)))
  end.

(** [notifyCompletionWaiters]: every callback of the run's set is called
    with the record (a callback removes itself from the set while the set is
    iterated, which does not end the iteration), then the set is dropped. *)
Definition notifyCompletionWaiters (rid : string) (record : nat) (s : State) : State :=
  match JsMap.get rid (completionWaiters s) with
  | None => s
  | Some [] => s
  | Some ws =>
      let s' := foldl (fun s' i => finish i (Some record) s') s ws in
      withCompletionWaiters s' (JsMap.delete rid (completionWaiters s'))
  end.

(** [waitForSubagentRun(runId, timeoutMs)]: the promise it returns and the
    new state.  The timeout ([Math.max(1, timeoutMs)] ms) is armed with the
    waiter; its firing is the event [WaiterTimeout]. *)
Definition waitForSubagentRun (rid : string) (timeoutMs : Z) (s : State)
  : nat * State :=
  let p := nextPromise s in
  let s0 := withNextPromise s (S p) in
  match JsMap.get rid (subagentRuns s) with
  | None => (p, settle p None s0)                        (* not found *)
  | Some addr =>
      if truthy (heap s !! addr ≫= endedAt) then
        (p, settle p (Some addr) s0)                     (* already completed *)
      else
        let ws := default [] (JsMap.get rid (completionWaiters s)) in
        (p, withCompletionWaiters
              (withWaiters s0
                 (<[p := {| w_runId := rid; settled := false;
                            timerPending := true |}]> (waiters s)))
              (JsMap.set rid (ws ++ [p]) (completionWaiters s)))
  end.

(** The timeout of waiter [i] fires: [finish(null)]. *)
Definition waiterTimeout (i : nat) (s : State) : State :=
  match waiters s !! i with
  | None => s
  | Some w =>
      if timerPending w then
        finish i None
          (withWaiters s
             (<[i := {| w_runId := w_runId w; settled := settled w;
                        timerPending := false |}]> (waiters s)))
      else s
  end.

(** *** The lifecycle listener *)

Definition phaseIs (p : option string) (name : string) : bool :=
  match p with
  | Some q => String.eqb q name
  | None => false
  end.

(** [beginSubagentCleanup] *)
Definition beginSubagentCleanup (rid : string) (s : State) : bool * State :=
  match JsMap.get rid (subagentRuns s) with
  | None => (false, s)
  | Some addr =>
      match heap s !! addr with
      | None => (false, s)
      | Some entry =>
          if truthyTime (cleanupCompletedAt entry) then (false, s)
          else if default false (cleanupHandled entry) then (false, s)
          else (true, withHeap s (<[addr := withCleanupHandled entry true]> (heap s)))
      end
  end.

(** The outcome the listener computes for an end or error event. *)
Definition outcomeOf (evt : AgentEvent) : Outcome :=
  if phaseIs (phase evt) "error" then OutcomeError (data_error evt)
  else if data_aborted evt then OutcomeTimeout
  else OutcomeOk.

(** The callback that [ensureListener] subscribes, run on event [evt] at
    time [now]. *)
Definition listener (evt : AgentEvent) (now : Z) (s : State) : State :=
  if negb (String.eqb (stream evt) "lifecycle") then s
  else
    match JsMap.get (evt_runId evt) (subagentRuns s) with
    | None => s
    | Some addr =>
        match heap s !! addr with
        | None => s
        | Some entry =>
            if phaseIs (phase evt) "start" then
              if truthy (data_startedAt evt) then
                withHeap s
                  (<[addr := withStartedAt entry (default (Num 0) (data_startedAt evt))]>
                     (heap s))
              else s
            else if phaseIs (phase evt) "end" || phaseIs (phase evt) "error" then
              let ended := default (Num now) (data_endedAt evt) in
              (* entry.endedAt = endedAt; entry.outcome = ... *)
              let s1 :=
                logEndedAtWrite
                  (withHeap s (<[addr := withEnded entry ended (outcomeOf evt)]> (heap s)))
                  (evt_runId evt, addr, ended) in
              let s2 := notifyCompletionWaiters (evt_runId evt) addr s1 in
              (* emitSubagentCompletionEvent(entry) *)
              let s3 := logEmitted s2 (requesterSessionKey entry, addr) in
              let '(ok, s4) := beginSubagentCleanup (evt_runId evt) s3 in
              if ok then logAnnounce s4 (evt_runId evt, cleanup entry) else s4
            else s
        end
    end.

(** [emitAgentEvent] reaches the listener once [ensureListener] subscribed it. *)
Definition deliver (evt : AgentEvent) (now : Z) (s : State) : State :=
  if listenerStarted s then listener evt now s else s.

(** [finalizeSubagentCleanup], the continuation of the announce flow. *)
Definition finalizeSubagentCleanup (rid : string) (c : Cleanup) (didAnnounce : bool)
    (now : Z) (s : State) : State :=
  match JsMap.get rid (subagentRuns s) with
  | None => s
  | Some addr =>
      match heap s !! addr with
      | None => s
      | Some entry =>
          if negb didAnnounce then
            withHeap s (<[addr := withCleanupHandled entry false]> (heap s))
          else if bool_decide (c = CleanupDelete) then
            withRuns s (JsMap.delete rid (subagentRuns s))
          else
            withHeap s (<[addr := withCleanupCompletedAt entry now]> (heap s))
      end
  end.

(** [resolveArchiveAfterMs] on the configured [archiveAfterMinutes]. *)
Definition resolveArchiveAfterMs (minutes : option Z) : option Z :=
  let m := default 60 minutes in
  if m <=? 0 then None else Some (Z.max 1 m * 60000).

Record RegisterParams := mkParams {
  p_runId : string;
  p_childSessionKey : string;
  p_requesterSessionKey : string;
  p_requesterOrigin : option string;
  p_requesterDisplayKey : string;
  p_task : string;
  p_cleanup : Cleanup;
  p_label : option string;
}.

(** [registerSubagentRun]: a new record object replaces any record of that
    run id, and the listener is subscribed. *)
Definition registerSubagentRun (params : RegisterParams) (now : Z)
    (archiveAfterMinutes : option Z) (s : State) : State :=
  let record :=
    {| runId := p_runId params; childSessionKey := p_childSessionKey params;
       requesterSessionKey := p_requesterSessionKey params;
       requesterOrigin := p_requesterOrigin params;
       requesterDisplayKey := p_requesterDisplayKey params;
       task := p_task params; cleanup := p_cleanup params;
       label := p_label params; createdAt := now; startedAt := Some (Num now);
       endedAt := None; outcome := None;
       archiveAtMs := (fun ms => now + ms) <$> resolveArchiveAfterMs archiveAfterMinutes;
       cleanupCompletedAt := None; cleanupHandled := Some false |} in
  {| subagentRuns := JsMap.set (p_runId params) (nextObject s) (subagentRuns s);
     heap := <[nextObject s := record]> (heap s);
     nextObject := S (nextObject s);
     listenerStarted := true;
     completionWaiters := completionWaiters s; waiters := waiters s;
     nextPromise := nextPromise s; settlements := settlements s;
     emitted := emitted s; announces := announces s;
     endedAtWrites := endedAtWrites s |}.

(** [releaseSubagentRun]; an archival sweep removes a record the same way. *)
Definition releaseSubagentRun (rid : string) (s : State) : State :=
  withRuns s (JsMap.delete rid (subagentRuns s)).

Definition getSubagentRun (rid : string) (s : State) : option SubagentRunRecord :=
  JsMap.get rid (subagentRuns s) ≫= fun addr => heap s !! addr.

Inductive Action :=
| Register (params : RegisterParams) (now : Z) (archiveAfterMinutes : option Z)
| Deliver (evt : AgentEvent) (now : Z)
| AnnounceDone (rid : string) (c : Cleanup) (didAnnounce : bool) (now : Z)
| Release (rid : string)
| Wait (rid : string) (timeoutMs : Z)
| WaiterTimeout (i : nat).

Definition step (s : State) (a : Action) : State :=
  match a with
  | Register params now minutes => registerSubagentRun params now minutes s
  | Deliver evt now => deliver evt now s
  | AnnounceDone rid c didAnnounce now => finalizeSubagentCleanup rid c didAnnounce now s
  | Release rid => releaseSubagentRun rid s
  | Wait rid timeoutMs => (waitForSubagentRun rid timeoutMs s).2
  | WaiterTimeout i => waiterTimeout i s
  end.

Definition run (acts : list Action) (s : State) : State := foldl step s acts.

(** *** Assignments of [endedAt] *)

Lemma endedAtWrites_finish i record s :
  endedAtWrites (finish i record s) = endedAtWrites s.
Proof.
  unfold finish. destruct (waiters s !! i) as [w|]; [|done].
  by destruct (settled w).
Qed.

Lemma endedAtWrites_finish_all record ws : forall s,
  endedAtWrites (foldl (fun s' i => finish i record s') s ws) = endedAtWrites s.
Proof.
  induction ws as [|i ws IH]; intros s; simpl; [done|].
  by rewrite IH, endedAtWrites_finish.
Qed.

Lemma endedAtWrites_notify rid record s :
  endedAtWrites (notifyCompletionWaiters rid record s) = endedAtWrites s.
Proof.
  unfold notifyCompletionWaiters.
  destruct (JsMap.get rid (completionWaiters s)) as [[|i ws]|]; [done| |done].
  simpl. by rewrite endedAtWrites_finish_all, endedAtWrites_finish.
Qed.

Lemma endedAtWrites_begin rid s :
  endedAtWrites (beginSubagentCleanup rid s).2 = endedAtWrites s.
Proof.
  unfold beginSubagentCleanup.
  destruct (JsMap.get rid (subagentRuns s)) as [addr|]; [|done].
  destruct (heap s !! addr) as [entry|]; [|done].
  destruct (truthyTime (cleanupCompletedAt entry)); [done|].
  by destruct (default false (cleanupHandled entry)).
Qed.

(** Is the event an end or error lifecycle event? *)
Definition isCompletion (evt : AgentEvent) : bool :=
  String.eqb (stream evt) "lifecycle" &&
  negb (phaseIs (phase evt) "start") &&
  (phaseIs (phase evt) "end" || phaseIs (phase evt) "error").

(** The assignment of [endedAt] that delivering [evt] performs in [s]: one
    when the event is an end or error lifecycle event, the listener is
    subscribed and the run has a record; none otherwise. *)
Definition assignedBy (s : State) (a : Action) : list (string * nat * JsNumber) :=
  match a with
  | Deliver evt now =>
      if listenerStarted s && isCompletion evt then
        match JsMap.get (evt_runId evt) (subagentRuns s) with
        | Some addr =>
            match heap s !! addr with
            | Some _ => [(evt_runId evt, addr, default (Num now) (data_endedAt evt))]
            | None => []
            end
        | None => []
        end
      else []
  | _ => []
  end.

Lemma endedAtWrites_step s a :
  endedAtWrites (step s a) = endedAtWrites s ++ assignedBy s a.
Proof.
  destruct a as [params now minutes|evt now|rid c didAnnounce now|rid
                |rid timeoutMs|i]; simpl; rewrite ?app_nil_r.
  - done.
  - unfold deliver, listener, isCompletion.
    destruct (listenerStarted s); simpl; [|by rewrite app_nil_r].
    destruct (String.eqb (stream evt) "lifecycle"); simpl; [|by rewrite app_nil_r].
    destruct (JsMap.get (evt_runId evt) (subagentRuns s)) as [addr|];
      [|by destruct (_ && _); rewrite app_nil_r].
    destruct (heap s !! addr) as [entry|];
      [|by destruct (_ && _); rewrite app_nil_r].
    destruct (phaseIs (phase evt) "start"); simpl.
    { rewrite app_nil_r. by destruct (truthy (data_startedAt evt)). }
    destruct (phaseIs (phase evt) "end" || phaseIs (phase evt) "error");
      [|by rewrite app_nil_r].
    match goal with |- context [beginSubagentCleanup ?r ?s0] =>
      pose proof (endedAtWrites_begin r s0) as Hb;
      destruct (beginSubagentCleanup r s0) as [ok s4] end.
    simpl in Hb.
    assert (endedAtWrites s4
            = endedAtWrites s ++ [(evt_runId evt, addr, default (Num now) (data_endedAt evt))])
      as Hw.
    { rewrite Hb. simpl. by rewrite endedAtWrites_notify. }
    by destruct ok.
  - unfold finalizeSubagentCleanup.
    destruct (JsMap.get rid (subagentRuns s)) as [addr|]; [|done].
    destruct (heap s !! addr) as [entry|]; [|done].
    destruct (negb didAnnounce); [done|]. by case_bool_decide.
  - done.
  - unfold waitForSubagentRun.
    destruct (JsMap.get rid (subagentRuns s)) as [addr|]; [|done].
    by destruct (truthy _).
  - unfold waiterTimeout. destruct (waiters s !! i) as [w|]; [|done].
    destruct (timerPending w); [|done]. by rewrite endedAtWrites_finish.
Qed.

(** The assignments of [endedAt] logged for a run. *)
Definition writesFor (rid : string) (s : State) : list (string * nat * JsNumber) :=
  filter (fun w => w.1.1 = rid) (endedAtWrites s).

(** The end or error lifecycle events of a trace that name a run. *)
Definition isCompletionFor (rid : string) (a : Action) : bool :=
  match a with
  | Deliver evt _ => isCompletion evt && String.eqb (evt_runId evt) rid
  | _ => false
  end.

Definition completionEvents (rid : string) (acts : list Action) : list Action :=
  filter (fun a => isCompletionFor rid a = true) acts.

Lemma assignedBy_bound rid s a :
  (length (filter (fun w => w.1.1 = rid) (assignedBy s a))
   <= length (completionEvents rid [a]))%nat.
Proof.
  destruct a as [params now minutes|evt now|rid' c didAnnounce now|rid'
                |rid' timeoutMs|i]; simpl; try lia.
  destruct (listenerStarted s); simpl; [|lia].
  destruct (isCompletion evt) eqn:Hc; simpl; [|lia].
  destruct (JsMap.get (evt_runId evt) (subagentRuns s)) as [addr|]; simpl; [|lia].
  destruct (heap s !! addr); simpl; [|lia].
  unfold completionEvents.
  destruct (decide (evt_runId evt = rid)) as [He|Hne].
  - rewrite filter_cons_True by done.
    rewrite (filter_cons_True _ (Deliver evt now)).
    + simpl. lia.
    + simpl. rewrite Hc. simpl. by apply String.eqb_eq.
  - rewrite filter_cons_False by done. simpl. lia.
Qed.

Lemma writes_bound rid acts : forall s,
  (length (writesFor rid (run acts s))
   <= length (writesFor rid s) + length (completionEvents rid acts))%nat.
Proof.
  induction acts as [|a acts IH]; intros s; simpl; [lia|].
  specialize (IH (step s a)).
  assert (Hstep : (length (writesFor rid (step s a))
                   <= length (writesFor rid s) + length (completionEvents rid [a]))%nat).
  { unfold writesFor. rewrite endedAtWrites_step, filter_app, length_app.
    pose proof (assignedBy_bound rid s a). lia. }
  assert (Hcons : length (completionEvents rid (a :: acts))
                  = (length (completionEvents rid [a])
                     + length (completionEvents rid acts))%nat).
  { unfold completionEvents.
    change (a :: acts) with ([a] ++ acts). by rewrite filter_app, length_app. }
  lia.
Qed.

(** C3, as the code has it.  Every step of the registry assigns [endedAt]
    exactly when it delivers an end or error lifecycle event to the
    subscribed listener for a run that has a record; hence, over any trace,
    [endedAt] is assigned for a run at most as often as such events name it:
    at most once when there is at most one of them. *)
Theorem endedAt_assigned_per_completion_event (acts : list Action) (rid : string) :
  let s := run acts initialState in
  (forall a, endedAtWrites (step s a) = endedAtWrites s ++ assignedBy s a) /\
  (length (writesFor rid s) <= length (completionEvents rid acts))%nat.
Proof.
  intros s. split; [apply endedAtWrites_step|].
  pose proof (writes_bound rid acts initialState) as H. simpl in H. exact H.
Qed.

Definition testParams (rid child : string) : RegisterParams :=
  {| p_runId := rid; p_childSessionKey := child;
     p_requesterSessionKey := "agent:main:main"; p_requesterOrigin := None;
     p_requesterDisplayKey := "main"; p_task := "Test task";
     p_cleanup := CleanupKeep; p_label := None |}.

Definition endEvent (rid : string) (ended : option JsNumber) : AgentEvent :=
  {| evt_runId := rid; stream := "lifecycle"; phase := Some "end";
     data_startedAt := None; data_endedAt := ended; data_error := None;
     data_aborted := false |}.

(** A run whose end event is delivered twice. *)
Definition duplicateEndTrace : list Action :=
  [Register (testParams "run-1" "agent:main:subagent:child-1") 10 None;
   Deliver (endEvent "run-1" (Some (Num 100))) 100;
   Deliver (endEvent "run-1" (Some (Num 200))) 200].

(** C3 as stated fails: the two end events both assign [endedAt] of the one
    record of "run-1"; the second assignment overwrites the first. *)
Lemma endedAt_assigned_twice :
  endedAtWrites (run duplicateEndTrace initialState)
  = [("run-1", 0%nat, Num 100); ("run-1", 0%nat, Num 200)] /\
  (getSubagentRun "run-1" (run (take 2 duplicateEndTrace) initialState)) ≫= endedAt
  = Some (Num 100) /\
  (getSubagentRun "run-1" (run duplicateEndTrace initialState)) ≫= endedAt
  = Some (Num 200) /\
  ~ (length (writesFor "run-1" (run duplicateEndTrace initialState)) <= 1)%nat.
Proof.
  split; [reflexivity|]. split; [reflexivity|]. split; [reflexivity|].
  vm_compute. lia.
Qed.

(** *** Waiters: the invariant *)

(** Number of [resolve] calls logged for promise [i]. *)
Definition count (i : nat) (log : list (nat * option nat)) : nat :=
  length (filter (fun st => st.1 = i) log).

Lemma count_app i log1 log2 : count i (log1 ++ log2) = (count i log1 + count i log2)%nat.
Proof. unfold count. by rewrite filter_app, length_app. Qed.

Lemma count_single i j v : count i [(j, v)] = if decide (j = i) then 1%nat else 0%nat.
Proof.
  unfold count. destruct (decide (j = i)) as [->|Hne].
  - by rewrite filter_cons_True.
  - by rewrite filter_cons_False.
Qed.

Lemma count_fresh i (np : nat) log :
  Forall (fun st => (st.1 < np)%nat) log -> (np <= i)%nat -> count i log = 0%nat.
Proof.
  intros Hall Hle. unfold count. induction log as [|st log IH]; [done|].
  apply Forall_cons in Hall as [Hst Hall].
  rewrite filter_cons_False by lia. auto.
Qed.

(** The invariant on waiters.  A waiter that is not settled has its timeout
    armed, no [resolve] call yet, and its callback in the set of its run; a
    settled waiter has no armed timeout and exactly one [resolve] call; the
    callbacks of a run's set belong to unsettled waiters of that run; no
    promise has more than one [resolve] call. *)
Definition waitersInvOn (cw : list (string * list nat)) (wm : gmap nat Waiter)
    (np : nat) (log : list (nat * option nat)) : Prop :=
  (forall i w, wm !! i = Some w -> (i < np)%nat) /\
  (forall i w, wm !! i = Some w -> settled w = false ->
     timerPending w = true /\ count i log = 0%nat /\
     exists ws, JsMap.get (w_runId w) cw = Some ws /\ i ∈ ws) /\
  (forall i w, wm !! i = Some w -> settled w = true ->
     timerPending w = false /\ count i log = 1%nat) /\
  Forall (fun st => (st.1 < np)%nat) log /\
  (forall rid ws i, JsMap.get rid cw = Some ws -> i ∈ ws ->
     exists w, wm !! i = Some w /\ w_runId w = rid /\ settled w = false) /\
  JsMap.wf cw /\
  (forall i, (count i log <= 1)%nat).

Definition waitersInv (s : State) : Prop :=
  waitersInvOn (completionWaiters s) (waiters s) (nextPromise s) (settlements s).

Definition waiterPart (s : State)
  : list (string * list nat) * gmap nat Waiter * nat * list (nat * option nat) :=
  (completionWaiters s, waiters s, nextPromise s, settlements s).

Lemma waitersInv_part s s' : waiterPart s' = waiterPart s -> waitersInv s -> waitersInv s'.
Proof.
  unfold waiterPart, waitersInv. intros [= H1 H2 H3 H4]. by rewrite H1, H2, H3, H4.
Qed.

Lemma get_removeWaiter_other rid rid' i cw :
  rid <> rid' ->
  JsMap.get rid' (removeWaiter rid i cw) = JsMap.get rid' cw.
Proof.
  intros Hne. unfold removeWaiter.
  destruct (JsMap.get rid cw) as [ws|]; [|done].
  destruct (filter _ ws).
  - by apply JsMap.get_delete_ne.
  - by apply JsMap.get_set_ne.
Qed.

Lemma get_removeWaiter_same rid i cw ws :
  JsMap.wf cw -> JsMap.get rid cw = Some ws ->
  JsMap.get rid (removeWaiter rid i cw)
  = match filter (fun j => j <> i) ws with
    | [] => None
    | ws' => Some ws'
    end.
Proof.
  intros Hwf Hget. unfold removeWaiter. rewrite Hget.
  destruct (filter _ ws) eqn:E.
  - by apply JsMap.get_delete_eq.
  - by rewrite JsMap.get_set_eq.
Qed.

Lemma wf_removeWaiter rid i cw : JsMap.wf cw -> JsMap.wf (removeWaiter rid i cw).
Proof.
  intros Hwf. unfold removeWaiter.
  destruct (JsMap.get rid cw) as [ws|]; [|done].
  destruct (filter _ ws); [by apply JsMap.wf_delete|by apply JsMap.wf_set].
Qed.

(** [finish] in closed form for a waiter that is not settled. *)
Lemma finish_unsettled i record s w :
  waiters s !! i = Some w -> settled w = false ->
  finish i record s =
    settle i record
      (withCompletionWaiters
         (withWaiters s
            (<[i := {| w_runId := w_runId w; settled := true;
                       timerPending := false |}]> (waiters s)))
         (removeWaiter (w_runId w) i (completionWaiters s))).
Proof. intros Hw Hs. unfold finish. by rewrite Hw, Hs. Qed.

Lemma finish_settled i record s w :
  waiters s !! i = Some w -> settled w = true -> finish i record s = s.
Proof. intros Hw Hs. unfold finish. by rewrite Hw, Hs. Qed.

Lemma finish_inv i record s : waitersInv s -> waitersInv (finish i record s).
Proof.
  intros Hinv. destruct (waiters s !! i) as [w|] eqn:Hw;
    [|unfold finish; by rewrite Hw].
  destruct (settled w) eqn:Hs; [by rewrite (finish_settled i record s w)|].
  rewrite (finish_unsettled i record s w) by done.
  destruct Hinv as (W1 & W2 & W3 & W4 & W5 & W6 & W7).
  destruct (W2 i w Hw Hs) as (_ & Hc0 & ws & Hws & Hi).
  unfold waitersInv. simpl. split; [|split; [|split; [|split; [|split; [|split]]]]].
  - intros j wj Hj. destruct (decide (i = j)) as [<-|Hne]; [by eapply W1|].
    rewrite lookup_insert_ne in Hj by done. by eapply W1.
  - intros j wj Hj Hsj. destruct (decide (i = j)) as [<-|Hne].
    { rewrite lookup_insert_eq in Hj. by injection Hj as <-. }
    rewrite lookup_insert_ne in Hj by done.
    destruct (W2 j wj Hj Hsj) as (Ht & Hc & wsj & Hwsj & Hjin).
    split; [done|]. split.
    { rewrite count_app, count_single, Hc. by rewrite decide_False. }
    destruct (decide (w_runId w = w_runId wj)) as [He|Hn].
    + rewrite <- He in *. assert (wsj = ws) as -> by congruence.
      rewrite (get_removeWaiter_same _ _ _ ws) by done.
      assert (Hin : j ∈ filter (fun k => k <> i) ws).
      { apply list_elem_of_filter. split; [congruence|done]. }
      destruct (filter _ ws) as [|x l]; [by apply elem_of_nil in Hin|].
      by eexists.
    + rewrite get_removeWaiter_other by done. by exists wsj.
  - intros j wj Hj Hsj. destruct (decide (i = j)) as [<-|Hne].
    + rewrite lookup_insert_eq in Hj. injection Hj as <-. simpl. split; [done|].
      rewrite count_app, count_single, Hc0. by rewrite decide_True.
    + rewrite lookup_insert_ne in Hj by done.
      destruct (W3 j wj Hj Hsj) as [Ht Hc]. split; [done|].
      rewrite count_app, count_single, Hc. by rewrite decide_False.
  - apply Forall_app. split; [done|]. repeat constructor. simpl. by eapply W1.
  - intros rid wsr j Hget Hj.
    destruct (decide (w_runId w = rid)) as [<-|Hn].
    + rewrite (get_removeWaiter_same _ _ _ ws) in Hget by done.
      destruct (filter (fun k => k <> i) ws) as [|x l] eqn:E; [done|].
      injection Hget as <-. rewrite <- E in Hj.
      apply list_elem_of_filter in Hj as [Hne Hj].
      destruct (W5 _ _ _ Hws Hj) as (wj & Hwj & Hr & Hsj).
      exists wj. by rewrite lookup_insert_ne.
    + rewrite get_removeWaiter_other in Hget by done.
      destruct (W5 _ _ _ Hget Hj) as (wj & Hwj & Hr & Hsj).
      exists wj. rewrite lookup_insert_ne; [done|]. intros <-. congruence.
  - by apply wf_removeWaiter.
  - intros j. rewrite count_app, count_single.
    destruct (decide (i = j)) as [<-|Hne]; [lia|]. specialize (W7 j). lia.
Qed.

(** What [finish] can do to the waiters: none is added or dropped, none
    changes its run, none becomes unsettled again, and the log only grows. *)
Definition settles (s s' : State) : Prop :=
  (forall q wq, waiters s !! q = Some wq ->
     exists wq', waiters s' !! q = Some wq' /\ w_runId wq' = w_runId wq /\
                 (settled wq = true -> settled wq' = true)) /\
  (forall q wq', waiters s' !! q = Some wq' ->
     exists wq, waiters s !! q = Some wq /\ w_runId wq = w_runId wq' /\
                (settled wq' = false -> settled wq = false)) /\
  (exists extra, settlements s' = settlements s ++ extra).

Lemma settles_refl s : settles s s.
Proof.
  split; [|split].
  - intros q wq H. by exists wq.
  - intros q wq H. by exists wq.
  - exists []. by rewrite app_nil_r.
Qed.

Lemma settles_trans s1 s2 s3 : settles s1 s2 -> settles s2 s3 -> settles s1 s3.
Proof.
  intros (F1 & B1 & [e1 L1]) (F2 & B2 & [e2 L2]). split; [|split].
  - intros q wq H. destruct (F1 q wq H) as (w2 & H2 & Hr2 & Hs2).
    destruct (F2 q w2 H2) as (w3 & H3 & Hr3 & Hs3).
    exists w3. split; [done|]. split; [congruence|auto].
  - intros q wq H. destruct (B2 q wq H) as (w2 & H2 & Hr2 & Hs2).
    destruct (B1 q w2 H2) as (w1 & H1 & Hr1 & Hs1).
    exists w1. split; [done|]. split; [congruence|auto].
  - exists (e1 ++ e2). by rewrite L2, L1, app_assoc.
Qed.

Lemma finish_other i q record s :
  q <> i -> waiters (finish i record s) !! q = waiters s !! q.
Proof.
  intros Hne. unfold finish. destruct (waiters s !! i) as [w|]; [|done].
  destruct (settled w); [done|]. simpl. by rewrite lookup_insert_ne.
Qed.

Lemma finish_settles i record s : settles s (finish i record s).
Proof.
  destruct (waiters s !! i) as [w|] eqn:Hw;
    [|unfold finish; rewrite Hw; apply settles_refl].
  destruct (settled w) eqn:Hs;
    [rewrite (finish_settled i record s w) by done; apply settles_refl|].
  rewrite (finish_unsettled i record s w) by done. split; [|split]; simpl.
  - intros q wq Hq. destruct (decide (i = q)) as [<-|Hne].
    + eexists. rewrite lookup_insert_eq. split; [done|].
      assert (wq = w) as -> by congruence. done.
    + exists wq. by rewrite lookup_insert_ne.
  - intros q wq' Hq. destruct (decide (i = q)) as [<-|Hne].
    + rewrite lookup_insert_eq in Hq. injection Hq as <-. by exists w.
    + rewrite lookup_insert_ne in Hq by done. by exists wq'.
  - by eexists.
Qed.

Lemma finish_done i record s w :
  waiters s !! i = Some w ->
  exists w', waiters (finish i record s) !! i = Some w' /\ settled w' = true /\
             (settled w = false -> (i, record) ∈ settlements (finish i record s)).
Proof.
  intros Hw. destruct (settled w) eqn:Hs.
  - rewrite (finish_settled i record s w) by done. by exists w.
  - rewrite (finish_unsettled i record s w) by done. simpl.
    eexists. rewrite lookup_insert_eq. split; [done|]. split; [done|].
    intros _. apply elem_of_app. right. left.
Qed.

Lemma finish_all_spec record ws : forall s,
  waitersInv s ->
  let s' := foldl (fun s' i => finish i record s') s ws in
  waitersInv s' /\ settles s s' /\
  forall q wq, q ∈ ws -> waiters s !! q = Some wq ->
    exists wq', waiters s' !! q = Some wq' /\ settled wq' = true /\
                (settled wq = false -> (q, record) ∈ settlements s').
Proof.
  induction ws as [|i ws IH]; intros s Hinv; simpl.
  - split; [done|]. split; [apply settles_refl|].
    intros q wq Hq. by apply elem_of_nil in Hq.
  - destruct (IH (finish i record s) (finish_inv i record s Hinv))
      as (Hinv' & Hset & Hall).
    split; [done|]. split; [by eapply settles_trans; [apply finish_settles|]|].
    intros q wq Hq Hwq. destruct (decide (q = i)) as [->|Hne].
    + destruct (finish_done i record s wq Hwq) as (w1 & Hw1 & Hs1 & Hlog1).
      destruct Hset as (F & _ & [extra Hextra]).
      destruct (F i w1 Hw1) as (w2 & Hw2 & _ & Hs2).
      exists w2. split; [done|]. split; [auto|].
      intros Hu. rewrite Hextra. apply elem_of_app. left. auto.
    + apply elem_of_cons in Hq as [?|Hq]; [done|].
      apply (Hall q wq Hq). by rewrite finish_other.
Qed.

(** [notifyCompletionWaiters] resolves every unsettled waiter of the run
    with the record it is given, and keeps the invariant. *)
Lemma notify_spec rid record s :
  waitersInv s ->
  let s' := notifyCompletionWaiters rid record s in
  waitersInv s' /\
  (exists extra, settlements s' = settlements s ++ extra) /\
  forall q wq, waiters s !! q = Some wq -> w_runId wq = rid -> settled wq = false ->
    (q, Some record) ∈ settlements s' /\
    exists wq', waiters s' !! q = Some wq' /\ settled wq' = true.
Proof.
  intros Hinv. pose proof Hinv as (W1 & W2 & W3 & W4 & W5 & W6 & W7).
  unfold notifyCompletionWaiters.
  destruct (JsMap.get rid (completionWaiters s)) as [ws|] eqn:Hget.
  2:{ split; [done|]. split; [exists []; by rewrite app_nil_r|].
      intros q wq Hq Hr Hs. destruct (W2 q wq Hq Hs) as (_ & _ & ws & Hws & _).
      congruence. }
  destruct ws as [|i ws].
  { split; [done|]. split; [exists []; by rewrite app_nil_r|].
    intros q wq Hq Hr Hs. destruct (W2 q wq Hq Hs) as (_ & _ & ws & Hws & Hin).
    rewrite Hr, Hget in Hws. injection Hws as <-. by apply elem_of_nil in Hin. }
  destruct (finish_all_spec (Some record) (i :: ws) s Hinv) as (Hinv' & Hset & Hall).
  set (s' := foldl _ s (i :: ws)) in *.
  assert (Hall' : forall q wq, waiters s !! q = Some wq -> w_runId wq = rid ->
            settled wq = false ->
            (q, Some record) ∈ settlements s' /\
            exists wq', waiters s' !! q = Some wq' /\ settled wq' = true).
  { intros q wq Hq Hr Hs. destruct (W2 q wq Hq Hs) as (_ & _ & ws' & Hws & Hin).
    rewrite Hr, Hget in Hws. injection Hws as <-.
    destruct (Hall q wq Hin Hq) as (wq' & Hq' & Hs' & Hlog). split; [auto|].
    by exists wq'. }
  split; [|split; [apply Hset|exact Hall']].
  destruct Hinv' as (V1 & V2 & V3 & V4 & V5 & V6 & V7).
  unfold waitersInv. simpl.
  split; [done|]. split; [|split; [done|split; [done|split; [|split; [|done]]]]].
  - intros j wj Hj Hsj. destruct (V2 j wj Hj Hsj) as (Ht & Hc & wsj & Hwsj & Hin).
    split; [done|]. split; [done|].
    destruct (decide (rid = w_runId wj)) as [He|Hne].
    + exfalso. destruct Hset as (_ & B & _).
      destruct (B j wj Hj) as (w0 & Hw0 & Hr0 & Hs0).
      destruct (Hall' j w0 Hw0) as (_ & w1 & Hw1 & Hs1); [congruence|auto|].
      congruence.
    + exists wsj. by rewrite JsMap.get_delete_ne.
  - intros rid' ws' j Hg Hj. destruct (decide (rid = rid')) as [<-|Hne].
    + by rewrite JsMap.get_delete_eq in Hg.
    + rewrite JsMap.get_delete_ne in Hg by done. by eapply V5.
  - by apply JsMap.wf_delete.
Qed.

(** *** The registry's share of the state *)

Definition registryPart (s : State)
  : list (string * nat) * gmap nat SubagentRunRecord * bool :=
  (subagentRuns s, heap s, listenerStarted s).

Lemma registryPart_finish i record s :
  registryPart (finish i record s) = registryPart s.
Proof.
  unfold finish. destruct (waiters s !! i) as [w|]; [|done]. by destruct (settled w).
Qed.

Lemma registryPart_finish_all record ws : forall s,
  registryPart (foldl (fun s' i => finish i record s') s ws) = registryPart s.
Proof.
  induction ws as [|i ws IH]; intros s; simpl; [done|].
  by rewrite IH, registryPart_finish.
Qed.

Lemma registryPart_notify rid record s :
  registryPart (notifyCompletionWaiters rid record s) = registryPart s.
Proof.
  unfold notifyCompletionWaiters.
  destruct (JsMap.get rid (completionWaiters s)) as [[|i ws]|]; [done| |done].
  unfold registryPart at 1. simpl.
  pose proof (registryPart_finish_all (Some record) ws (finish i (Some record) s)) as H.
  rewrite registryPart_finish in H. exact H.
Qed.

Lemma waiterPart_begin rid s :
  waiterPart (beginSubagentCleanup rid s).2 = waiterPart s.
Proof.
  unfold beginSubagentCleanup.
  destruct (JsMap.get rid (subagentRuns s)) as [addr|]; [|done].
  destruct (heap s !! addr) as [entry|]; [|done].
  destruct (truthyTime (cleanupCompletedAt entry)); [done|].
  by destruct (default false (cleanupHandled entry)).
Qed.

(** Run ids map to records that exist, and whenever a run has a record the
    listener is subscribed. *)
Definition registryInv (s : State) : Prop :=
  JsMap.wf (subagentRuns s) /\
  forall rid addr, JsMap.get rid (subagentRuns s) = Some addr ->
    is_Some (heap s !! addr) /\ listenerStarted s = true.

Lemma registryInv_heap s addr r :
  registryInv s -> registryInv (withHeap s (<[addr := r]> (heap s))).
Proof.
  intros [Hwf Hreg]. split; [done|]. simpl. intros rid a Hget.
  destruct (Hreg rid a Hget) as [Hs Hl]. split; [|done].
  destruct (decide (addr = a)) as [->|Hne].
  - rewrite lookup_insert_eq. by eexists.
  - by rewrite lookup_insert_ne.
Qed.

Lemma registryInv_part s s' :
  registryPart s' = registryPart s -> registryInv s -> registryInv s'.
Proof.
  unfold registryPart, registryInv. intros [= H1 H2 H3]. by rewrite H1, H2, H3.
Qed.

Lemma registryInv_begin rid s :
  registryInv s -> registryInv (beginSubagentCleanup rid s).2.
Proof.
  intros Hinv. unfold beginSubagentCleanup.
  destruct (JsMap.get rid (subagentRuns s)) as [addr|]; [|done].
  destruct (heap s !! addr) as [entry|]; [|done].
  destruct (truthyTime (cleanupCompletedAt entry)); [done|].
  destruct (default false (cleanupHandled entry)); [done|].
  by apply registryInv_heap.
Qed.

(** The listener on an end or error lifecycle event for a run with a record:
    the state in which the waiters are notified, and the rest of its work,
    which leaves the waiters alone. *)
Definition endedState (evt : AgentEvent) (now : Z) (addr : nat)
    (entry : SubagentRunRecord) (s : State) : State :=
  logEndedAtWrite
    (withHeap s
       (<[addr := withEnded entry (default (Num now) (data_endedAt evt)) (outcomeOf evt)]>
          (heap s)))
    (evt_runId evt, addr, default (Num now) (data_endedAt evt)).

Lemma isCompletion_inv evt :
  isCompletion evt = true ->
  String.eqb (stream evt) "lifecycle" = true /\
  phaseIs (phase evt) "start" = false /\
  phaseIs (phase evt) "end" || phaseIs (phase evt) "error" = true.
Proof.
  unfold isCompletion. intros H.
  apply andb_true_iff in H as [H H3]. apply andb_true_iff in H as [H1 H2].
  apply negb_true_iff in H2. done.
Qed.


Lemma listener_preserves evt now s :
  waitersInv s -> registryInv s ->
  waitersInv (listener evt now s) /\ registryInv (listener evt now s).
Proof.
  intros Hw Hr. unfold listener.
  destruct (negb (String.eqb (stream evt) "lifecycle")); [done|].
  destruct (JsMap.get (evt_runId evt) (subagentRuns s)) as [addr|] eqn:Hget; [|done].
  destruct (heap s !! addr) as [entry|] eqn:Hentry; [|done].
  destruct (phaseIs (phase evt) "start").
  { destruct (truthy (data_startedAt evt)); [|done].
    split; [done|]. by apply registryInv_heap. }
  destruct (phaseIs (phase evt) "end" || phaseIs (phase evt) "error"); [|done].
  fold (endedState evt now addr entry s).
  set (s1 := endedState evt now addr entry s).
  assert (Hw1 : waitersInv s1) by exact Hw.
  assert (Hr1 : registryInv s1).
  { unfold s1, endedState.
    eapply registryInv_part; [|by apply (registryInv_heap s addr)]. done. }
  destruct (notify_spec (evt_runId evt) addr s1 Hw1) as (Hw2 & _ & _).
  pose proof (registryInv_part _ _ (registryPart_notify (evt_runId evt) addr s1) Hr1) as Hr2.
  set (s2 := notifyCompletionWaiters (evt_runId evt) addr s1) in *.
  set (s3 := logEmitted s2 (requesterSessionKey entry, addr)).
  assert (Hw3 : waitersInv s3) by exact Hw2.
  assert (Hr3 : registryInv s3) by exact Hr2.
  pose proof (waiterPart_begin (evt_runId evt) s3) as Hb.
  pose proof (registryInv_begin (evt_runId evt) s3 Hr3) as Hrb.
  destruct (beginSubagentCleanup (evt_runId evt) s3) as [ok s4]. simpl in *.
  assert (Hw4 : waitersInv s4) by (by apply (waitersInv_part s3)).
  destruct ok; [|done]. split; [exact Hw4|exact Hrb].
Qed.

(** *** [waitForSubagentRun], path by path *)

Lemma wait_unknown rid timeoutMs s :
  JsMap.get rid (subagentRuns s) = None ->
  waitForSubagentRun rid timeoutMs s
  = (nextPromise s,
     settle (nextPromise s) None (withNextPromise s (S (nextPromise s)))).
Proof. intros H. unfold waitForSubagentRun. by rewrite H. Qed.

Lemma wait_ended rid timeoutMs s addr :
  JsMap.get rid (subagentRuns s) = Some addr ->
  truthy (heap s !! addr ≫= endedAt) = true ->
  waitForSubagentRun rid timeoutMs s
  = (nextPromise s,
     settle (nextPromise s) (Some addr) (withNextPromise s (S (nextPromise s)))).
Proof. intros H Ht. unfold waitForSubagentRun. by rewrite H, Ht. Qed.

Lemma wait_pending rid timeoutMs s addr :
  JsMap.get rid (subagentRuns s) = Some addr ->
  truthy (heap s !! addr ≫= endedAt) = false ->
  waitForSubagentRun rid timeoutMs s
  = (nextPromise s,
     withCompletionWaiters
       (withWaiters (withNextPromise s (S (nextPromise s)))
          (<[nextPromise s := {| w_runId := rid; settled := false;
                                 timerPending := true |}]> (waiters s)))
       (JsMap.set rid
          (default [] (JsMap.get rid (completionWaiters s)) ++ [nextPromise s])
          (completionWaiters s))).
Proof. intros H Ht. unfold waitForSubagentRun. by rewrite H, Ht. Qed.

Lemma settle_fresh_inv v s :
  waitersInv s ->
  waitersInv (settle (nextPromise s) v (withNextPromise s (S (nextPromise s)))).
Proof.
  intros (W1 & W2 & W3 & W4 & W5 & W6 & W7). unfold waitersInv. simpl.
  assert (Hfresh : count (nextPromise s) (settlements s) = 0%nat)
    by (by eapply count_fresh).
  split; [|split; [|split; [|split; [|split; [done|split; [done|]]]]]].
  - intros i w Hi. specialize (W1 i w Hi). lia.
  - intros i w Hi Hs. destruct (W2 i w Hi Hs) as (Ht & Hc & Hws).
    split; [done|]. split; [|done]. rewrite count_app, count_single, Hc.
    specialize (W1 i w Hi). rewrite decide_False by lia. done.
  - intros i w Hi Hs. destruct (W3 i w Hi Hs) as (Ht & Hc).
    split; [done|]. rewrite count_app, count_single, Hc.
    specialize (W1 i w Hi). rewrite decide_False by lia. done.
  - apply Forall_app. split; [|repeat constructor].
    eapply Forall_impl; [exact W4|]. simpl. lia.
  - intros i. rewrite count_app, count_single.
    destruct (decide (nextPromise s = i)) as [<-|Hne]; [lia|].
    specialize (W7 i). lia.
Qed.

Lemma wait_preserves rid timeoutMs s :
  waitersInv s -> waitersInv (waitForSubagentRun rid timeoutMs s).2.
Proof.
  intros Hinv. destruct (JsMap.get rid (subagentRuns s)) as [addr|] eqn:Hget.
  2:{ rewrite wait_unknown by done. by apply settle_fresh_inv. }
  destruct (truthy (heap s !! addr ≫= endedAt)) eqn:Ht.
  { rewrite (wait_ended _ _ _ addr) by done. by apply settle_fresh_inv. }
  rewrite (wait_pending _ _ _ addr) by done.
  destruct Hinv as (W1 & W2 & W3 & W4 & W5 & W6 & W7). unfold waitersInv. simpl.
  set (p := nextPromise s).
  assert (Hnew : waiters s !! p = None).
  { destruct (waiters s !! p) as [w|] eqn:E; [|done].
    specialize (W1 p w E). unfold p in W1. lia. }
  split; [|split; [|split; [|split; [|split; [|split; [|done]]]]]].
  - intros i w Hi. destruct (decide (p = i)) as [<-|Hne]; [lia|].
    rewrite lookup_insert_ne in Hi by done. specialize (W1 i w Hi). lia.
  - intros i w Hi Hs. destruct (decide (p = i)) as [<-|Hne].
    + rewrite lookup_insert_eq in Hi. injection Hi as <-. simpl.
      split; [done|]. split; [by eapply count_fresh|].
      eexists. rewrite JsMap.get_set_eq. split; [done|].
      apply elem_of_app. right. left.
    + rewrite lookup_insert_ne in Hi by done.
      destruct (W2 i w Hi Hs) as (Ht' & Hc & ws & Hws & Hin).
      split; [done|]. split; [done|].
      destruct (decide (rid = w_runId w)) as [He|Hn].
      * eexists. rewrite He, JsMap.get_set_eq. split; [done|].
        rewrite Hws. simpl. apply elem_of_app. by left.
      * exists ws. by rewrite JsMap.get_set_ne.
  - intros i w Hi Hs. destruct (decide (p = i)) as [<-|Hne].
    + rewrite lookup_insert_eq in Hi. by injection Hi as <-.
    + rewrite lookup_insert_ne in Hi by done. by eapply W3.
  - eapply Forall_impl; [exact W4|]. simpl. lia.
  - intros rid' ws' i Hg Hin.
    assert (Hold : forall ws0, JsMap.get rid' (completionWaiters s) = Some ws0 ->
              i ∈ ws0 ->
              exists w, <[p := {| w_runId := rid; settled := false;
                                  timerPending := true |}]> (waiters s) !! i = Some w /\
                        w_runId w = rid' /\ settled w = false).
    { intros ws0 Hg0 Hi0. destruct (W5 _ _ _ Hg0 Hi0) as (w & Hw & Hr & Hs).
      exists w. rewrite lookup_insert_ne; [done|]. intros <-. congruence. }
    destruct (decide (rid = rid')) as [<-|Hn].
    + rewrite JsMap.get_set_eq in Hg. injection Hg as <-.
      apply elem_of_app in Hin as [Hin|Hin].
      * destruct (JsMap.get rid (completionWaiters s)) as [ws0|] eqn:E;
          [by apply (Hold ws0)|by apply elem_of_nil in Hin].
      * apply list_elem_of_singleton in Hin as ->.
        eexists. rewrite lookup_insert_eq. done.
    + rewrite JsMap.get_set_ne in Hg by done. by apply (Hold ws').
  - by apply JsMap.wf_set.
Qed.

(** The timeout of a waiter that is not settled is [finish(null)]. *)
Lemma waiterTimeout_pending i s w :
  waiters s !! i = Some w -> settled w = false -> timerPending w = true ->
  waiterTimeout i s = finish i None s.
Proof.
  intros Hw Hs Ht. unfold waiterTimeout. rewrite Hw, Ht.
  unfold finish at 1. simpl. rewrite lookup_insert_eq. simpl. rewrite Hs.
  rewrite (finish_unsettled i None s w) by done.
  unfold settle, withCompletionWaiters, withWaiters. simpl.
  by rewrite insert_insert_eq.
Qed.

Lemma waiterTimeout_cases i s :
  waitersInv s ->
  waiterTimeout i s = s \/
  exists w, waiters s !! i = Some w /\ settled w = false /\
            waiterTimeout i s = finish i None s.
Proof.
  intros (W1 & W2 & W3 & _).
  destruct (waiters s !! i) as [w|] eqn:Hw;
    [|left; unfold waiterTimeout; by rewrite Hw].
  destruct (timerPending w) eqn:Ht;
    [|left; unfold waiterTimeout; by rewrite Hw, Ht].
  destruct (settled w) eqn:Hs.
  - destruct (W3 i w Hw Hs) as [Hf _]. congruence.
  - right. exists w. split; [done|]. split; [done|].
    by apply (waiterTimeout_pending i s w).
Qed.

(** *** Every step keeps the invariants, the waiters and the log *)

Definition extends (s s' : State) : Prop :=
  (forall q wq, waiters s !! q = Some wq ->
     exists wq', waiters s' !! q = Some wq' /\ w_runId wq' = w_runId wq /\
                 (settled wq = true -> settled wq' = true)) /\
  (exists extra, settlements s' = settlements s ++ extra).

Lemma extends_refl s : extends s s.
Proof.
  split; [intros q wq H; by exists wq|]. exists []. by rewrite app_nil_r.
Qed.

Lemma extends_trans s1 s2 s3 : extends s1 s2 -> extends s2 s3 -> extends s1 s3.
Proof.
  intros (F1 & [e1 L1]) (F2 & [e2 L2]). split.
  - intros q wq H. destruct (F1 q wq H) as (w2 & H2 & Hr2 & Hs2).
    destruct (F2 q w2 H2) as (w3 & H3 & Hr3 & Hs3).
    exists w3. split; [done|]. split; [congruence|auto].
  - exists (e1 ++ e2). by rewrite L2, L1, app_assoc.
Qed.

Lemma settles_extends s s' : settles s s' -> extends s s'.
Proof. intros (F & _ & L). by split. Qed.

Lemma extends_part_l s0 s s' :
  waiterPart s0 = waiterPart s -> extends s0 s' -> extends s s'.
Proof.
  unfold waiterPart, extends. intros [= _ H2 _ H4]. by rewrite H2, H4.
Qed.

Lemma extends_part_r s s0 s' :
  waiterPart s' = waiterPart s0 -> extends s s0 -> extends s s'.
Proof.
  unfold waiterPart, extends. intros [= _ H2 _ H4]. by rewrite H2, H4.
Qed.

Lemma extends_fields_r s s0 s' :
  waiters s' = waiters s0 -> settlements s' = settlements s0 ->
  extends s s0 -> extends s s'.
Proof. unfold extends. intros H2 H4. by rewrite H2, H4. Qed.

Lemma finish_all_settles record ws : forall s,
  settles s (foldl (fun s' i => finish i record s') s ws).
Proof.
  induction ws as [|i ws IH]; intros s; simpl; [apply settles_refl|].
  eapply settles_trans; [apply finish_settles|apply IH].
Qed.

Lemma notify_extends rid record s :
  extends s (notifyCompletionWaiters rid record s).
Proof.
  unfold notifyCompletionWaiters.
  destruct (JsMap.get rid (completionWaiters s)) as [[|i ws]|];
    [apply extends_refl| |apply extends_refl].
  eapply extends_fields_r;
    [| |apply settles_extends, (finish_all_settles (Some record) (i :: ws))];
    done.
Qed.

Lemma listener_extends evt now s : extends s (listener evt now s).
Proof.
  unfold listener.
  destruct (negb (String.eqb (stream evt) "lifecycle")); [apply extends_refl|].
  destruct (JsMap.get (evt_runId evt) (subagentRuns s)) as [addr|];
    [|apply extends_refl].
  destruct (heap s !! addr) as [entry|]; [|apply extends_refl].
  destruct (phaseIs (phase evt) "start").
  { destruct (truthy (data_startedAt evt)); [|apply extends_refl].
    eapply extends_part_r; [|apply extends_refl]. done. }
  destruct (phaseIs (phase evt) "end" || phaseIs (phase evt) "error");
    [|apply extends_refl].
  fold (endedState evt now addr entry s).
  match goal with |- context [beginSubagentCleanup ?r ?s0] =>
    pose proof (waiterPart_begin r s0) as Hb;
    destruct (beginSubagentCleanup r s0) as [ok s4] end.
  simpl in Hb.
  assert (He : extends s s4).
  { eapply extends_part_r; [exact Hb|].
    eapply (extends_part_l (endedState evt now addr entry s)); [done|].
    apply notify_extends. }
  destruct ok; [|done]. eapply extends_part_r; [|exact He]. done.
Qed.

Definition allInv (s : State) : Prop := waitersInv s /\ registryInv s.

Lemma registryInv_delete rid s :
  registryInv s -> registryInv (withRuns s (JsMap.delete rid (subagentRuns s))).
Proof.
  intros [Hwf Hreg]. split; [by apply JsMap.wf_delete|]. simpl.
  intros rid' addr Hget. apply Hreg with rid'.
  destruct (decide (rid' = rid)) as [->|Hne].
  - by rewrite JsMap.get_delete_eq in Hget.
  - by rewrite JsMap.get_delete_ne in Hget.
Qed.

Lemma registry_step_preserves s a : allInv s -> allInv (step s a) /\ extends s (step s a).
Proof.
  intros [Hw Hr].
  destruct a as [params now minutes|evt now|rid c didAnnounce now|rid
                |rid timeoutMs|i]; simpl.
  - split; [|eapply extends_part_r; [|apply extends_refl]; done].
    split; [exact Hw|]. destruct Hr as [Hwf Hreg].
    split; [by apply JsMap.wf_set|]. simpl. intros rid addr Hget.
    split; [|done]. destruct (decide (p_runId params = rid)) as [<-|Hne].
    + rewrite JsMap.get_set_eq in Hget. injection Hget as <-.
      rewrite lookup_insert_eq. by eexists.
    + rewrite JsMap.get_set_ne in Hget by done.
      destruct (Hreg rid addr Hget) as [Hs _].
      destruct (decide (nextObject s = addr)) as [->|Hn].
      * rewrite lookup_insert_eq. by eexists.
      * by rewrite lookup_insert_ne.
  - unfold deliver. destruct (listenerStarted s).
    + split; [by apply listener_preserves|apply listener_extends].
    + split; [done|apply extends_refl].
  - unfold finalizeSubagentCleanup.
    destruct (JsMap.get rid (subagentRuns s)) as [addr|];
      [|split; [done|apply extends_refl]].
    destruct (heap s !! addr) as [entry|]; [|split; [done|apply extends_refl]].
    destruct (negb didAnnounce).
    { split; [|eapply extends_part_r; [|apply extends_refl]; done].
      split; [exact Hw|by apply registryInv_heap]. }
    case_bool_decide.
    + split; [|eapply extends_part_r; [|apply extends_refl]; done].
      split; [exact Hw|by apply registryInv_delete].
    + split; [|eapply extends_part_r; [|apply extends_refl]; done].
      split; [exact Hw|by apply registryInv_heap].
  - split; [|eapply extends_part_r; [|apply extends_refl]; done].
    split; [exact Hw|by apply registryInv_delete].
  - split; [split; [by apply wait_preserves|]|].
    + eapply registryInv_part; [|exact Hr]. unfold waitForSubagentRun.
      destruct (JsMap.get rid (subagentRuns s)) as [addr|]; [|done].
      by destruct (truthy _).
    + destruct Hw as (W1 & _). unfold waitForSubagentRun.
      destruct (JsMap.get rid (subagentRuns s)) as [addr|];
        [|split; [intros q wq H; by exists wq|by eexists]].
      destruct (truthy _); [split; [intros q wq H; by exists wq|by eexists]|].
      split; simpl; [|exists []; by rewrite app_nil_r].
      intros q wq Hq. exists wq. rewrite lookup_insert_ne; [done|].
      specialize (W1 q wq Hq). lia.
  - destruct (waiterTimeout_cases i s Hw) as [->|(w & Hwi & Hs & ->)].
    + split; [done|apply extends_refl].
    + split; [|apply settles_extends, finish_settles].
      split; [by apply finish_inv|].
      eapply registryInv_part; [apply registryPart_finish|done].
Qed.

Lemma registry_run_preserves acts : forall s,
  allInv s -> allInv (run acts s) /\ extends s (run acts s).
Proof.
  induction acts as [|a acts IH]; intros s Hinv; simpl.
  - split; [done|apply extends_refl].
  - destruct (registry_step_preserves s a Hinv) as [Hinv1 He1].
    destruct (IH _ Hinv1) as [Hinv2 He2]. split; [done|].
    by eapply extends_trans.
Qed.

Lemma allInv_initial : allInv initialState.
Proof.
  split.
  - unfold waitersInv. simpl.
    split; [intros i w H; by rewrite lookup_empty in H|].
    split; [intros i w H; by rewrite lookup_empty in H|].
    split; [intros i w H; by rewrite lookup_empty in H|].
    split; [constructor|]. split; [done|]. split; [constructor|].
    intros i. unfold count. simpl. lia.
  - split; [constructor|]. done.
Qed.

(** *** The claim about waiters *)






(** End-to-end scenario "subagent completion fan-out" of the specification:
    three waiters, one end event, the same record for all three. *)
Example completion_fan_out_scenario :
  let s := run [Register (testParams "run-6" "agent:main:subagent:child-6") 10 None;
                Wait "run-6" 5000; Wait "run-6" 5000; Wait "run-6" 5000;
                Deliver (endEvent "run-6" (Some (Num 30))) 30;
                WaiterTimeout 0; WaiterTimeout 1; WaiterTimeout 2] initialState in
  settlements s = [(0%nat, Some 0%nat); (1%nat, Some 0%nat); (2%nat, Some 0%nat)] /\
  getSubagentRun "run-6" s ≫= outcome = Some OutcomeOk /\
  emitted s = [("agent:main:main", 0%nat)] /\
  completionWaiters s = [].
Proof. vm_compute. done. Qed.

(** End-to-end scenario "subagent timeout": no lifecycle event arrives. *)
Example waiter_timeout_scenario :
  let s := run [Register (testParams "run-3" "agent:main:subagent:child-3") 10 None;
                Wait "run-3" 50; WaiterTimeout 0] initialState in
  settlements s = [(0%nat, None)] /\
  getSubagentRun "run-3" s ≫= endedAt = None /\
  completionWaiters s = [].
Proof. vm_compute. done. Qed.

(** *** The records and the logs of the registry *)

(** The registry's share of the state with its logs; the waiters take no
    part in it. *)
Definition recordPart (s : State)
  : list (string * nat) * gmap nat SubagentRunRecord * nat * bool
    * list (string * nat) * list (string * Cleanup) :=
  (subagentRuns s, heap s, nextObject s, listenerStarted s, emitted s, announces s).

Lemma recordPart_finish i record s : recordPart (finish i record s) = recordPart s.
Proof.
  unfold finish. destruct (waiters s !! i) as [w|]; [|done]. by destruct (settled w).
Qed.

Lemma recordPart_finish_all record ws : forall s,
  recordPart (foldl (fun s' i => finish i record s') s ws) = recordPart s.
Proof.
  induction ws as [|i ws IH]; intros s; simpl; [done|].
  by rewrite IH, recordPart_finish.
Qed.

Lemma recordPart_notify rid record s :
  recordPart (notifyCompletionWaiters rid record s) = recordPart s.
Proof.
  unfold notifyCompletionWaiters.
  destruct (JsMap.get rid (completionWaiters s)) as [[|i ws]|]; [done| |done].
  unfold recordPart at 1. simpl.
  pose proof (recordPart_finish_all (Some record) ws (finish i (Some record) s)) as H.
  rewrite recordPart_finish in H. exact H.
Qed.

Lemma recordPart_wait rid timeoutMs s :
  recordPart (waitForSubagentRun rid timeoutMs s).2 = recordPart s.
Proof.
  unfold waitForSubagentRun.
  destruct (JsMap.get rid (subagentRuns s)) as [addr|]; [|done].
  by destruct (truthy _).
Qed.

Lemma recordPart_waiterTimeout i s : recordPart (waiterTimeout i s) = recordPart s.
Proof.
  unfold waiterTimeout. destruct (waiters s !! i) as [w|]; [|done].
  destruct (timerPending w); [|done]. by rewrite recordPart_finish.
Qed.

(** Does [beginSubagentCleanup] go ahead on this record? *)
Definition cleanupDue (entry : SubagentRunRecord) : bool :=
  negb (truthyTime (cleanupCompletedAt entry)) && negb (default false (cleanupHandled entry)).

(** The record after the listener's assignments for an end or error event. *)
Definition endedRecord (evt : AgentEvent) (now : Z) (entry : SubagentRunRecord)
  : SubagentRunRecord :=
  withEnded entry (default (Num now) (data_endedAt evt)) (outcomeOf evt).

Lemma begin_spec rid s addr entry :
  JsMap.get rid (subagentRuns s) = Some addr -> heap s !! addr = Some entry ->
  beginSubagentCleanup rid s
  = if cleanupDue entry
    then (true, withHeap s (<[addr := withCleanupHandled entry true]> (heap s)))
    else (false, s).
Proof.
  intros Hget Hentry. unfold beginSubagentCleanup, cleanupDue. rewrite Hget, Hentry.
  destruct (truthyTime (cleanupCompletedAt entry)); [done|].
  by destruct (default false (cleanupHandled entry)).
Qed.

(** What the listener does to the records and the logs, the notification of
    the waiters left out. *)
Definition listenerRecords (evt : AgentEvent) (now : Z) (s : State)
  : list (string * nat) * gmap nat SubagentRunRecord * nat * bool
    * list (string * nat) * list (string * Cleanup) :=
  if negb (String.eqb (stream evt) "lifecycle") then recordPart s
  else
    match JsMap.get (evt_runId evt) (subagentRuns s) with
    | None => recordPart s
    | Some addr =>
        match heap s !! addr with
        | None => recordPart s
        | Some entry =>
            if phaseIs (phase evt) "start" then
              if truthy (data_startedAt evt) then
                (subagentRuns s,
                 <[addr := withStartedAt entry (default (Num 0) (data_startedAt evt))]> (heap s),
                 nextObject s, listenerStarted s, emitted s, announces s)
              else recordPart s
            else if phaseIs (phase evt) "end" || phaseIs (phase evt) "error" then
              (subagentRuns s,
               <[addr := if cleanupDue entry
                         then withCleanupHandled (endedRecord evt now entry) true
                         else endedRecord evt now entry]> (heap s),
               nextObject s, listenerStarted s,
               emitted s ++ [(requesterSessionKey entry, addr)],
               announces s ++ (if cleanupDue entry
                               then [(evt_runId evt, cleanup entry)] else []))
            else recordPart s
        end
    end.

Lemma listener_records evt now s :
  recordPart (listener evt now s) = listenerRecords evt now s.
Proof.
  unfold listener, listenerRecords.
  destruct (negb (String.eqb (stream evt) "lifecycle")); [done|].
  destruct (JsMap.get (evt_runId evt) (subagentRuns s)) as [addr|] eqn:Hget; [|done].
  destruct (heap s !! addr) as [entry|] eqn:Hentry; [|done].
  destruct (phaseIs (phase evt) "start").
  { by destruct (truthy (data_startedAt evt)). }
  destruct (phaseIs (phase evt) "end" || phaseIs (phase evt) "error"); [|done].
  fold (endedState evt now addr entry s). fold (endedRecord evt now entry).
  set (s1 := endedState evt now addr entry s).
  pose proof (recordPart_notify (evt_runId evt) addr s1) as Hn.
  set (s2 := notifyCompletionWaiters (evt_runId evt) addr s1) in *.
  set (s3 := logEmitted s2 (requesterSessionKey entry, addr)).
  unfold recordPart in Hn. simpl in Hn. injection Hn as H1 H2 H3 H4 H5 H6.
  rewrite (begin_spec (evt_runId evt) s3 addr (endedRecord evt now entry));
    [|simpl; by rewrite H1|simpl; rewrite H2; apply lookup_insert_eq].
  assert (cleanupDue (endedRecord evt now entry) = cleanupDue entry) as -> by done.
  destruct (cleanupDue entry); unfold recordPart; simpl;
    rewrite H1, H2, H3, H4, H5, H6; [by rewrite insert_insert_eq|].
  by rewrite app_nil_r.
Qed.

(** Records are objects of their own below the allocation counter, a run id
    names a record that carries it, and an emitted completion event carries
    a record of its requester whose [endedAt] and [outcome] are set. *)
Definition recordsOk (runs : list (string * nat)) (h : gmap nat SubagentRunRecord)
    (no : nat) (em : list (string * nat)) : Prop :=
  JsMap.wf runs /\
  (forall addr, is_Some (h !! addr) -> (addr < no)%nat) /\
  (forall rid addr, JsMap.get rid runs = Some addr ->
     exists r, h !! addr = Some r /\ runId r = rid) /\
  (forall req addr, (req, addr) ∈ em ->
     exists r, h !! addr = Some r /\ requesterSessionKey r = req /\
               is_Some (endedAt r) /\ is_Some (outcome r)).

Definition recInv (s : State) : Prop :=
  recordsOk (subagentRuns s) (heap s) (nextObject s) (emitted s).

Lemma recInv_part s s' : recordPart s' = recordPart s -> recInv s -> recInv s'.
Proof.
  unfold recordPart, recInv. intros [= H1 H2 H3 H4 H5 H6]. by rewrite H1, H2, H3, H5.
Qed.

Lemma recordsOk_update runs h no em addr e e' :
  recordsOk runs h no em -> h !! addr = Some e ->
  runId e' = runId e -> requesterSessionKey e' = requesterSessionKey e ->
  (is_Some (endedAt e) -> is_Some (endedAt e')) ->
  (is_Some (outcome e) -> is_Some (outcome e')) ->
  recordsOk runs (<[addr := e']> h) no em.
Proof.
  intros (Hwf & Ha & Hb & Hd) He Hid Hreq Hend Hout.
  split; [done|]. split; [|split].
  - intros a Hs. apply Ha. destruct (decide (addr = a)) as [<-|Hne]; [by exists e|].
    by rewrite lookup_insert_ne in Hs.
  - intros rid a Hget. destruct (Hb rid a Hget) as (r & Hr & Hrid).
    destruct (decide (addr = a)) as [<-|Hne].
    + exists e'. rewrite lookup_insert_eq. split; [done|]. congruence.
    + exists r. by rewrite lookup_insert_ne.
  - intros req a Hin. destruct (Hd req a Hin) as (r & Hr & H1 & H2 & H3).
    destruct (decide (addr = a)) as [<-|Hne].
    + exists e'. rewrite lookup_insert_eq. assert (r = e) as -> by congruence.
      split; [done|]. split; [congruence|]. split; auto.
    + exists r. by rewrite lookup_insert_ne.
Qed.

Lemma recordsOk_emit runs h no em addr r :
  recordsOk runs h no em -> h !! addr = Some r ->
  is_Some (endedAt r) -> is_Some (outcome r) ->
  recordsOk runs h no (em ++ [(requesterSessionKey r, addr)]).
Proof.
  intros (Hwf & Ha & Hb & Hd) Hr Hend Hout.
  split; [done|]. split; [done|]. split; [done|].
  intros req a Hin. apply elem_of_app in Hin as [Hin|Hin]; [by apply Hd|].
  apply list_elem_of_singleton in Hin as [= -> ->]. by exists r.
Qed.

Lemma recordsOk_delete rid runs h no em :
  recordsOk runs h no em -> recordsOk (JsMap.delete rid runs) h no em.
Proof.
  intros (Hwf & Ha & Hb & Hd).
  split; [by apply JsMap.wf_delete|]. split; [done|]. split; [|done].
  intros k a Hget. apply Hb.
  destruct (decide (k = rid)) as [->|Hne].
  - by rewrite JsMap.get_delete_eq in Hget.
  - by rewrite JsMap.get_delete_ne in Hget.
Qed.

Lemma recInv_listener evt now s : recInv s -> recInv (listener evt now s).
Proof.
  intros Hinv. pose proof (listener_records evt now s) as Hrec.
  unfold listenerRecords in Hrec.
  destruct (negb (String.eqb (stream evt) "lifecycle"));
    [by apply (recInv_part s)|].
  destruct (JsMap.get (evt_runId evt) (subagentRuns s)) as [addr|] eqn:Hget;
    [|by apply (recInv_part s)].
  destruct (heap s !! addr) as [entry|] eqn:Hentry; [|by apply (recInv_part s)].
  destruct (phaseIs (phase evt) "start").
  { destruct (truthy (data_startedAt evt)); [|by apply (recInv_part s)].
    unfold recordPart in Hrec. injection Hrec as H1 H2 H3 H4 H5 H6.
    unfold recInv. rewrite H1, H2, H3, H5.
    by apply (recordsOk_update _ _ _ _ addr entry). }
  destruct (phaseIs (phase evt) "end" || phaseIs (phase evt) "error");
    [|by apply (recInv_part s)].
  unfold recordPart in Hrec. injection Hrec as H1 H2 H3 H4 H5 H6.
  unfold recInv. rewrite H1, H2, H3, H5.
  set (e' := if cleanupDue entry
             then withCleanupHandled (endedRecord evt now entry) true
             else endedRecord evt now entry).
  assert (He' : runId e' = runId entry /\
                requesterSessionKey e' = requesterSessionKey entry /\
                is_Some (endedAt e') /\ is_Some (outcome e')).
  { unfold e'. destruct (cleanupDue entry); simpl; repeat split; by eexists. }
  destruct He' as (E1 & E2 & E3 & E4).
  rewrite <- E2. apply recordsOk_emit; [|apply lookup_insert_eq|done|done].
  by apply (recordsOk_update _ _ _ _ addr entry).
Qed.

Lemma recInv_step s a : recInv s -> recInv (step s a).
Proof.
  intros Hinv.
  destruct a as [params now minutes|evt now|rid c didAnnounce now|rid
                |rid timeoutMs|i]; simpl.
  - destruct Hinv as (Hwf & Ha & Hb & Hd). unfold recInv. simpl.
    split; [by apply JsMap.wf_set|]. split; [|split].
    + intros a Hs. destruct (decide (nextObject s = a)) as [<-|Hne]; [lia|].
      rewrite lookup_insert_ne in Hs by done. specialize (Ha a Hs). lia.
    + intros rid a Hget. destruct (decide (p_runId params = rid)) as [<-|Hne].
      * rewrite JsMap.get_set_eq in Hget. injection Hget as <-.
        eexists. by rewrite lookup_insert_eq.
      * rewrite JsMap.get_set_ne in Hget by done.
        destruct (Hb rid a Hget) as (r & Hr & Hrid). exists r.
        rewrite lookup_insert_ne; [done|]. intros <-.
        assert (nextObject s < nextObject s)%nat; [|lia]. apply Ha. by exists r.
    + intros req a Hin. destruct (Hd req a Hin) as (r & Hr & H1).
      exists r. rewrite lookup_insert_ne; [done|]. intros <-.
      assert (nextObject s < nextObject s)%nat; [|lia]. apply Ha. by exists r.
  - unfold deliver. destruct (listenerStarted s); [|done]. by apply recInv_listener.
  - unfold finalizeSubagentCleanup.
    destruct (JsMap.get rid (subagentRuns s)) as [addr|] eqn:Hget; [|done].
    destruct (heap s !! addr) as [entry|] eqn:Hentry; [|done].
    destruct (negb didAnnounce).
    { unfold recInv. simpl. by apply (recordsOk_update _ _ _ _ addr entry). }
    case_bool_decide.
    + unfold recInv. simpl. by apply recordsOk_delete.
    + unfold recInv. simpl. by apply (recordsOk_update _ _ _ _ addr entry).
  - unfold recInv. simpl. by apply recordsOk_delete.
  - apply (recInv_part s); [apply recordPart_wait|done].
  - apply (recInv_part s); [apply recordPart_waiterTimeout|done].
Qed.

Lemma recInv_run acts : forall s, recInv s -> recInv (run acts s).
Proof.
  induction acts as [|a acts IH]; intros s Hinv; [done|].
  simpl. by apply IH, recInv_step.
Qed.

Lemma recInv_initial : recInv initialState.
Proof.
  split; [constructor|]. split; [|split].
  - intros addr [r Hr]. simpl in Hr. by rewrite lookup_empty in Hr.
  - intros rid addr H. done.
  - intros req addr Hin. by apply elem_of_nil in Hin.
Qed.

(** *** Completion events *)

Lemma emitted_step s a :
  (emitted (step s a)).*2 = (emitted s).*2 ++ ((fun w => w.1.2) <$> assignedBy s a).
Proof.
  destruct a as [params now minutes|evt now|rid c didAnnounce now|rid
                |rid timeoutMs|i]; simpl; rewrite ?app_nil_r.
  - done.
  - unfold deliver. destruct (listenerStarted s); simpl; [|by rewrite app_nil_r].
    change (emitted (listener evt now s)) with (recordPart (listener evt now s)).1.2.
    rewrite listener_records. unfold listenerRecords, isCompletion.
    destruct (String.eqb (stream evt) "lifecycle"); simpl; [|by rewrite app_nil_r].
    destruct (JsMap.get (evt_runId evt) (subagentRuns s)) as [addr|];
      [|by destruct (_ && _); rewrite app_nil_r].
    destruct (heap s !! addr) as [entry|];
      [|by destruct (_ && _); rewrite app_nil_r].
    destruct (phaseIs (phase evt) "start"); simpl.
    { rewrite app_nil_r. by destruct (truthy (data_startedAt evt)). }
    destruct (phaseIs (phase evt) "end" || phaseIs (phase evt) "error"); simpl;
      [|by rewrite app_nil_r].
    by rewrite fmap_app.
  - unfold finalizeSubagentCleanup.
    destruct (JsMap.get rid (subagentRuns s)) as [addr|]; [|done].
    destruct (heap s !! addr) as [entry|]; [|done].
    destruct (negb didAnnounce); [done|]. by case_bool_decide.
  - done.
  - change (emitted (waitForSubagentRun rid timeoutMs s).2)
      with (recordPart (waitForSubagentRun rid timeoutMs s).2).1.2.
    by rewrite recordPart_wait.
  - change (emitted (waiterTimeout i s)) with (recordPart (waiterTimeout i s)).1.2.
    by rewrite recordPart_waiterTimeout.
Qed.

Lemma emitted_run acts : forall s,
  (emitted s).*2 = (fun w => w.1.2) <$> endedAtWrites s ->
  (emitted (run acts s)).*2 = (fun w => w.1.2) <$> endedAtWrites (run acts s).
Proof.
  induction acts as [|a acts IH]; intros s H; [done|].
  simpl. apply IH. by rewrite emitted_step, endedAtWrites_step, fmap_app, H.
Qed.

(** One completion event per assignment of [endedAt].  Over any trace, the
    [subagent_complete] events given to the bus are, in order, for the
    records whose [endedAt] the listener assigned: one event per assignment,
    none without one.  The record an event carries has [endedAt] and
    [outcome] set, also later on, and the event is addressed to the
    requester of that record. *)
Theorem completion_event_per_endedAt_write (acts : list Action) :
  let s := run acts initialState in
  (emitted s).*2 = (fun w => w.1.2) <$> endedAtWrites s /\
  length (emitted s) = length (endedAtWrites s) /\
  (forall req addr, (req, addr) ∈ emitted s ->
     exists r, heap s !! addr = Some r /\ requesterSessionKey r = req /\
               is_Some (endedAt r) /\ is_Some (outcome r)).
Proof.
  intros s.
  assert (H : (emitted s).*2 = (fun w => w.1.2) <$> endedAtWrites s)
    by by apply emitted_run.
  split; [done|]. split.
  - apply (f_equal length) in H. by rewrite !length_fmap in H.
  - by destruct (recInv_run acts _ recInv_initial) as (_ & _ & _ & Hd).
Qed.

(** *** The announce flow *)

(** The announce flows launched for a run. *)
Definition announcesFor (rid : string) (s : State) : list (string * Cleanup) :=
  filter (fun a => a.1 = rid) (announces s).

(** Would [beginSubagentCleanup(rid)] return true? *)
Definition cleanupOpen (rid : string) (s : State) : bool :=
  (beginSubagentCleanup rid s).1.

(** The announce flow that an action launches. *)
Definition announcedBy (s : State) (a : Action) : list (string * Cleanup) :=
  match a with
  | Deliver evt now =>
      if listenerStarted s && isCompletion evt && cleanupOpen (evt_runId evt) s then
        match getSubagentRun (evt_runId evt) s with
        | Some entry => [(evt_runId evt, cleanup entry)]
        | None => []
        end
      else []
  | _ => []
  end.

(** The actions after which the cleanup of a run can be begun (again): its
    registration, the end of an announce flow that did not announce, and
    the end of a "keep" announce flow at clock value 0, which leaves
    [cleanupCompletedAt] falsy. *)
Definition opensCleanup (rid : string) (a : Action) : bool :=
  match a with
  | Register params _ _ => String.eqb (p_runId params) rid
  | AnnounceDone r c didAnnounce now =>
      String.eqb r rid &&
      (negb didAnnounce || (bool_decide (c = CleanupKeep) && (now =? 0)))
  | _ => false
  end.

Definition cleanupOpenings (rid : string) (acts : list Action) : list Action :=
  filter (fun a => opensCleanup rid a = true) acts.

Definition dueOn (rid : string) (runs : list (string * nat))
    (h : gmap nat SubagentRunRecord) : bool :=
  match JsMap.get rid runs ≫= (fun addr => h !! addr) with
  | Some entry => cleanupDue entry
  | None => false
  end.

Lemma cleanupOpen_dueOn rid s : cleanupOpen rid s = dueOn rid (subagentRuns s) (heap s).
Proof.
  unfold cleanupOpen, dueOn, beginSubagentCleanup, cleanupDue.
  destruct (JsMap.get rid (subagentRuns s)) as [addr|]; simpl; [|done].
  destruct (heap s !! addr) as [entry|]; simpl; [|done].
  destruct (truthyTime (cleanupCompletedAt entry)); [done|].
  by destruct (default false (cleanupHandled entry)).
Qed.

Lemma dueOn_update_same rid runs h addr e' :
  JsMap.get rid runs = Some addr -> dueOn rid runs (<[addr := e']> h) = cleanupDue e'.
Proof. intros Hget. unfold dueOn. rewrite Hget. simpl. by rewrite lookup_insert_eq. Qed.

Lemma dueOn_update_other rid rid' runs h no em addr e' :
  recordsOk runs h no em -> JsMap.get rid' runs = Some addr -> rid' <> rid ->
  dueOn rid runs (<[addr := e']> h) = dueOn rid runs h.
Proof.
  intros (_ & _ & Hb & _) Hget Hne. unfold dueOn.
  destruct (JsMap.get rid runs) as [a|] eqn:Ha; simpl; [|done].
  rewrite lookup_insert_ne; [done|]. intros <-.
  destruct (Hb rid addr Ha) as (r & Hr & Hrid).
  destruct (Hb rid' addr Hget) as (r' & Hr' & Hrid'). congruence.
Qed.

Lemma dueOn_delete_other rid rid' runs h :
  rid' <> rid -> dueOn rid (JsMap.delete rid' runs) h = dueOn rid runs h.
Proof. intros Hne. unfold dueOn. by rewrite JsMap.get_delete_ne. Qed.

Lemma dueOn_delete_same rid runs h :
  JsMap.wf runs -> dueOn rid (JsMap.delete rid runs) h = false.
Proof. intros Hwf. unfold dueOn. by rewrite JsMap.get_delete_eq. Qed.

Lemma dueOn_lookup rid runs h addr entry :
  JsMap.get rid runs = Some addr -> h !! addr = Some entry ->
  dueOn rid runs h = cleanupDue entry.
Proof. intros Hget Hentry. unfold dueOn. rewrite Hget. simpl. by rewrite Hentry. Qed.

(** Announce flows of [rid] in [an], plus one while its cleanup is open. *)
Definition announceBudget (rid : string)
    (p : list (string * nat) * gmap nat SubagentRunRecord * nat * bool
         * list (string * nat) * list (string * Cleanup)) : nat :=
  (length (filter (fun a => a.1 = rid) p.2)
   + Nat.b2n (dueOn rid p.1.1.1.1.1 p.1.1.1.1.2))%nat.

Lemma announceBudget_spec rid s :
  announceBudget rid (recordPart s)
  = (length (announcesFor rid s) + Nat.b2n (cleanupOpen rid s))%nat.
Proof. unfold announceBudget, announcesFor. by rewrite cleanupOpen_dueOn. Qed.

Lemma b2n_le_1 b : (Nat.b2n b <= 1)%nat.
Proof. destruct b; simpl; lia. Qed.

Lemma announceBudget_listener rid evt now s :
  recInv s ->
  (announceBudget rid (listenerRecords evt now s) <= announceBudget rid (recordPart s))%nat.
Proof.
  intros Hinv. unfold listenerRecords.
  destruct (negb (String.eqb (stream evt) "lifecycle")); [done|].
  destruct (JsMap.get (evt_runId evt) (subagentRuns s)) as [addr|] eqn:Hget; [|done].
  destruct (heap s !! addr) as [entry|] eqn:Hentry; [|done].
  destruct (phaseIs (phase evt) "start").
  { destruct (truthy (data_startedAt evt)); [|done].
    unfold announceBudget, recordPart. simpl.
    destruct (decide (evt_runId evt = rid)) as [<-|Hne].
    - rewrite dueOn_update_same by done.
      rewrite (dueOn_lookup _ _ _ addr entry) by done. done.
    - by rewrite (dueOn_update_other rid (evt_runId evt) _ _ _ _ addr _ Hinv). }
  destruct (phaseIs (phase evt) "end" || phaseIs (phase evt) "error"); [|done].
  unfold announceBudget, recordPart. simpl.
  rewrite filter_app, length_app.
  destruct (decide (evt_runId evt = rid)) as [<-|Hne].
  - rewrite dueOn_update_same by done.
    rewrite (dueOn_lookup _ _ _ addr entry) by done.
    destruct (cleanupDue entry) eqn:Hdue.
    + rewrite filter_cons_True by done. simpl.
      unfold cleanupDue. simpl. rewrite andb_false_r. simpl. lia.
    + simpl. change (cleanupDue (endedRecord evt now entry)) with (cleanupDue entry).
      rewrite Hdue. simpl. lia.
  - rewrite (dueOn_update_other rid (evt_runId evt) _ _ _ _ addr _ Hinv) by done.
    destruct (cleanupDue entry); simpl; [|lia].
    rewrite filter_cons_False by done. simpl. lia.
Qed.

Lemma announceBudget_step rid s a :
  recInv s ->
  (announceBudget rid (recordPart (step s a))
   <= announceBudget rid (recordPart s) + Nat.b2n (opensCleanup rid a))%nat.
Proof.
  intros Hinv. pose proof Hinv as (Hwf & Ha & Hb & _).
  destruct a as [params now minutes|evt now|r c didAnnounce now|r
                |r timeoutMs|i]; simpl.
  - unfold announceBudget, recordPart. simpl.
    destruct (String.eqb (p_runId params) rid) eqn:E; simpl.
    + match goal with |- context [dueOn rid ?rs ?h] =>
        pose proof (b2n_le_1 (dueOn rid rs h)) end.
      lia.
    + apply String.eqb_neq in E.
      match goal with |- context [dueOn rid ?rs ?h] =>
        assert (dueOn rid rs h = dueOn rid (subagentRuns s) (heap s)) as -> end;
        [|lia].
      unfold dueOn. rewrite JsMap.get_set_ne by done.
      destruct (JsMap.get rid (subagentRuns s)) as [a|] eqn:Hget; simpl; [|done].
      rewrite lookup_insert_ne; [done|]. intros <-.
      destruct (Hb rid _ Hget) as (r0 & Hr0 & _).
      assert (nextObject s < nextObject s)%nat; [|lia]. apply Ha. by exists r0.
  - unfold deliver. destruct (listenerStarted s); [|lia].
    rewrite listener_records. pose proof (announceBudget_listener rid evt now s Hinv).
    lia.
  - unfold finalizeSubagentCleanup.
    destruct (JsMap.get r (subagentRuns s)) as [addr|] eqn:Hget; [|lia].
    destruct (heap s !! addr) as [entry|] eqn:Hentry; [|lia].
    unfold announceBudget, recordPart.
    destruct (decide (r = rid)) as [->|Hne].
    + rewrite String.eqb_refl. simpl.
      rewrite (dueOn_lookup rid (subagentRuns s) (heap s) addr entry) by done.
      destruct didAnnounce; simpl.
      * case_bool_decide as Hc; simpl.
        -- rewrite dueOn_delete_same by done.
           assert (bool_decide (c = CleanupKeep) = false) as ->
             by (apply bool_decide_eq_false; by subst c).
           simpl. lia.
        -- rewrite dueOn_update_same by done.
           assert (bool_decide (c = CleanupKeep) = true) as ->
             by (apply bool_decide_eq_true; by destruct c).
           simpl. unfold cleanupDue. simpl.
           destruct (now =? 0); simpl.
           ++ pose proof (b2n_le_1 (negb (default false (cleanupHandled entry)))).
              pose proof (b2n_le_1
                (negb (truthyTime (cleanupCompletedAt entry))
                 && negb (default false (cleanupHandled entry)))). lia.
           ++ lia.
      * rewrite dueOn_update_same by done.
        pose proof (b2n_le_1 (cleanupDue (withCleanupHandled entry false))). lia.
    + assert (String.eqb r rid = false) as -> by by apply String.eqb_neq.
      simpl. destruct (negb didAnnounce); simpl.
      { rewrite (dueOn_update_other rid r _ _ _ _ addr _ Hinv) by done. lia. }
      case_bool_decide; simpl.
      * rewrite dueOn_delete_other by done. lia.
      * rewrite (dueOn_update_other rid r _ _ _ _ addr _ Hinv) by done. lia.
  - unfold announceBudget, recordPart. simpl.
    destruct (decide (r = rid)) as [->|Hne].
    + rewrite dueOn_delete_same by done. simpl. lia.
    + rewrite dueOn_delete_other by done. lia.
  - rewrite recordPart_wait. lia.
  - rewrite recordPart_waiterTimeout. lia.
Qed.

Lemma announceBudget_run rid acts : forall s,
  recInv s ->
  (announceBudget rid (recordPart (run acts s))
   <= announceBudget rid (recordPart s) + length (cleanupOpenings rid acts))%nat.
Proof.
  induction acts as [|a acts IH]; intros s Hinv; simpl; [lia|].
  specialize (IH (step s a) (recInv_step s a Hinv)).
  pose proof (announceBudget_step rid s a Hinv) as Hstep.
  unfold cleanupOpenings in *. rewrite filter_cons.
  destruct (opensCleanup rid a); simpl in *; lia.
Qed.

Lemma announces_step s a : announces (step s a) = announces s ++ announcedBy s a.
Proof.
  destruct a as [params now minutes|evt now|rid c didAnnounce now|rid
                |rid timeoutMs|i]; simpl; rewrite ?app_nil_r.
  - done.
  - unfold deliver. destruct (listenerStarted s); simpl; [|by rewrite app_nil_r].
    change (announces (listener evt now s)) with (recordPart (listener evt now s)).2.
    rewrite listener_records.
    unfold listenerRecords, isCompletion, cleanupOpen, getSubagentRun.
    destruct (String.eqb (stream evt) "lifecycle"); simpl; [|by rewrite app_nil_r].
    destruct (JsMap.get (evt_runId evt) (subagentRuns s)) as [addr|] eqn:Hget; simpl;
      [|by destruct (_ && _); rewrite app_nil_r].
    destruct (heap s !! addr) as [entry|] eqn:Hentry; simpl;
      [|by destruct (_ && _); rewrite app_nil_r].
    rewrite (begin_spec _ _ addr entry) by done.
    destruct (phaseIs (phase evt) "start"); simpl.
    { rewrite app_nil_r. by destruct (truthy (data_startedAt evt)). }
    destruct (phaseIs (phase evt) "end" || phaseIs (phase evt) "error"); simpl;
      [|by rewrite app_nil_r].
    by destruct (cleanupDue entry).
  - unfold finalizeSubagentCleanup.
    destruct (JsMap.get rid (subagentRuns s)) as [addr|]; [|done].
    destruct (heap s !! addr) as [entry|]; [|done].
    destruct (negb didAnnounce); [done|]. by case_bool_decide.
  - done.
  - change (announces (waitForSubagentRun rid timeoutMs s).2)
      with (recordPart (waitForSubagentRun rid timeoutMs s).2).2.
    by rewrite recordPart_wait.
  - change (announces (waiterTimeout i s)) with (recordPart (waiterTimeout i s)).2.
    by rewrite recordPart_waiterTimeout.
Qed.

(** *** Restoring the registry *)

(** [typeof entry.endedAt === "number" && entry.endedAt > 0] *)
Definition endedPositive (v : option JsNumber) : bool :=
  match v with
  | Some (Num z) => 0 <? z
  | _ => false
  end.

(** [ensureListener], as far as the state goes. *)
Definition ensureListener (s : State) : State :=
  {| subagentRuns := subagentRuns s; heap := heap s; nextObject := nextObject s;
     listenerStarted := true;
     completionWaiters := completionWaiters s; waiters := waiters s;
     nextPromise := nextPromise s; settlements := settlements s;
     emitted := emitted s; announces := announces s;
     endedAtWrites := endedAtWrites s |}.

(** The module state with the two variables of the restore,
    [restoreAttempted] and [resumedRuns]. *)
Record Registry := mkRegistry {
  registry : State;
  restoreAttempted : bool;
  resumedRuns : gset string;
}.

Definition initialRegistry : Registry :=
  {| registry := initialState; restoreAttempted := false; resumedRuns := ∅ |}.

(** [resumeSubagentRun(runId)]: a run that has ended and whose cleanup can
    be begun gets its announce flow; for a run that has not ended the
    listener is started. *)
Definition resumeSubagentRun (rid : string) (r : Registry) : Registry :=
  if String.eqb rid "" || bool_decide (rid ∈ resumedRuns r) then r
  else
    let s := registry r in
    match JsMap.get rid (subagentRuns s) with
    | None => r
    | Some addr =>
        match heap s !! addr with
        | None => r
        | Some entry =>
            if truthyTime (cleanupCompletedAt entry) then r
            else if endedPositive (endedAt entry) then
              let '(ok, s1) := beginSubagentCleanup rid s in
              if ok then
                {| registry := logAnnounce s1 (rid, cleanup entry);
                   restoreAttempted := restoreAttempted r;
                   resumedRuns := {[rid]} ∪ resumedRuns r |}
              else r
            else
              {| registry := ensureListener s;
                 restoreAttempted := restoreAttempted r;
                 resumedRuns := {[rid]} ∪ resumedRuns r |}
        end
    end.

(** One round of the loop over the restored entries: an entry with a run id
    that is not in the map is adopted, as a new object. *)
Definition adoptRestored (s : State) (kv : string * SubagentRunRecord) : State :=
  if String.eqb kv.1 "" then s
  else if JsMap.has kv.1 (subagentRuns s) then s
  else
    {| subagentRuns := JsMap.set kv.1 (nextObject s) (subagentRuns s);
       heap := <[nextObject s := kv.2]> (heap s);
       nextObject := S (nextObject s);
       listenerStarted := listenerStarted s;
       completionWaiters := completionWaiters s; waiters := waiters s;
       nextPromise := nextPromise s; settlements := settlements s;
       emitted := emitted s; announces := announces s;
       endedAtWrites := endedAtWrites s |}.

(** [restoreSubagentRunsOnce].  [restored] is what
    [loadSubagentRegistryFromDisk()] returns, [None] when it throws; the
    store is not part of the sources. *)
Definition restoreSubagentRunsOnce
    (restored : option (list (string * SubagentRunRecord))) (r : Registry)
  : Registry :=
  if restoreAttempted r then r
  else
    match restored with
    | None | Some [] =>
        {| registry := registry r; restoreAttempted := true;
           resumedRuns := resumedRuns r |}
    | Some entries =>
        let s1 := ensureListener (foldl adoptRestored (registry r) entries) in
        foldl (fun acc rid => resumeSubagentRun rid acc)
              {| registry := s1; restoreAttempted := true;
                 resumedRuns := resumedRuns r |}
              (JsMap.keys (subagentRuns s1))
    end.

(** [initSubagentRegistry] *)
Definition initSubagentRegistry
    (restored : option (list (string * SubagentRunRecord))) (r : Registry)
  : Registry :=
  restoreSubagentRunsOnce restored r.

(** What can happen to the registry: a call of [initSubagentRegistry], or
    one of the actions above. *)
Inductive RegistryAction :=
| Init (restored : option (list (string * SubagentRunRecord)))
| Act (a : Action).

Definition registryStep (r : Registry) (a : RegistryAction) : Registry :=
  match a with
  | Init restored => initSubagentRegistry restored r
  | Act a =>
      {| registry := step (registry r) a; restoreAttempted := restoreAttempted r;
         resumedRuns := resumedRuns r |}
  end.

Definition registryRun (acts : list RegistryAction) (r : Registry) : Registry :=
  foldl registryStep r acts.

(** The store hands every record back under its own run id (it was written
    from the registry map, where this holds). *)
Definition ownIds (entries : list (string * SubagentRunRecord)) : Prop :=
  Forall (fun kv => runId kv.2 = kv.1) entries.

Definition wellRestored (acts : list RegistryAction) : Prop :=
  forall entries, Init (Some entries) ∈ acts -> ownIds entries.

(** The actions after which the cleanup of a run can be begun (again): those
    of [opensCleanup], and a restore that brings a record of the run. *)
Definition opensCleanupOrRestores (rid : string) (a : RegistryAction) : bool :=
  match a with
  | Act a => opensCleanup rid a
  | Init (Some entries) => bool_decide (rid ∈ entries.*1)
  | Init None => false
  end.

Lemma has_set_same {V} k (v : V) (m : list (string * V)) : JsMap.has k (JsMap.set k v m) = true.
Proof. unfold JsMap.has. by rewrite JsMap.get_set_eq. Qed.

Lemma has_set_other {V} k k' (v : V) (m : list (string * V)) :
  k <> k' -> JsMap.has k' (JsMap.set k v m) = JsMap.has k' m.
Proof. intros Hne. unfold JsMap.has. by rewrite JsMap.get_set_ne. Qed.

Lemma adopt_spec rid s kv :
  recInv s -> runId kv.2 = kv.1 ->
  let s' := adoptRestored s kv in
  recInv s' /\
  (announceBudget rid (recordPart s')
   <= announceBudget rid (recordPart s)
      + (if JsMap.has rid (subagentRuns s) then 0
         else Nat.b2n (bool_decide (kv.1 = rid))))%nat /\
  (JsMap.has rid (subagentRuns s) = true -> JsMap.has rid (subagentRuns s') = true) /\
  (JsMap.has rid (subagentRuns s) = false -> kv.1 <> rid ->
   JsMap.has rid (subagentRuns s') = false) /\
  (kv.1 = rid -> rid <> "" -> JsMap.has rid (subagentRuns s') = true).
Proof.
  intros Hinv Hown. destruct kv as [k e]. simpl in *. unfold adoptRestored. simpl.
  destruct (String.eqb k "") eqn:Ek.
  { apply String.eqb_eq in Ek. split; [done|]. split; [lia|]. split; [done|].
    split; [done|]. intros -> Hne. done. }
  destruct (JsMap.has k (subagentRuns s)) eqn:Hk.
  { split; [done|]. split; [lia|]. split; [done|]. split; [done|].
    by intros ->. }
  pose proof Hinv as (Hwf & Ha & Hb & Hd).
  assert (Hfresh : heap s !! nextObject s = None).
  { destruct (heap s !! nextObject s) eqn:E; [|done].
    assert (nextObject s < nextObject s)%nat; [|lia]. apply Ha. by eexists. }
  split; [|split; [|split; [|split]]].
  - unfold recInv. simpl. split; [by apply JsMap.wf_set|]. split; [|split].
    + intros a Hs. destruct (decide (nextObject s = a)) as [<-|Hne]; [lia|].
      rewrite lookup_insert_ne in Hs by done. specialize (Ha a Hs). lia.
    + intros rid0 a Hget. destruct (decide (k = rid0)) as [<-|Hne].
      * rewrite JsMap.get_set_eq in Hget. injection Hget as <-.
        exists e. by rewrite lookup_insert_eq.
      * rewrite JsMap.get_set_ne in Hget by done.
        destruct (Hb rid0 a Hget) as (r0 & Hr0 & Hrid). exists r0.
        rewrite lookup_insert_ne; [done|]. intros <-. congruence.
    + intros req a Hin. destruct (Hd req a Hin) as (r0 & Hr0 & H1).
      exists r0. rewrite lookup_insert_ne; [done|]. intros <-. congruence.
  - unfold announceBudget, recordPart. simpl.
    destruct (decide (k = rid)) as [->|Hne].
    + rewrite Hk. rewrite bool_decide_eq_true_2 by done. simpl.
      assert (dueOn rid (subagentRuns s) (heap s) = false) as ->.
      { unfold dueOn. unfold JsMap.has in Hk.
        by destruct (JsMap.get rid (subagentRuns s)). }
      match goal with |- context [dueOn rid ?rs ?h] =>
        pose proof (b2n_le_1 (dueOn rid rs h)) end.
      simpl. lia.
    + match goal with |- context [dueOn rid ?rs ?h] =>
        assert (dueOn rid rs h = dueOn rid (subagentRuns s) (heap s)) as -> end.
      { unfold dueOn. rewrite JsMap.get_set_ne by done.
        destruct (JsMap.get rid (subagentRuns s)) as [a|] eqn:Hget; simpl; [|done].
        rewrite lookup_insert_ne; [done|]. intros <-.
        destruct (Hb rid _ Hget) as (r0 & Hr0 & _). congruence. }
      destruct (JsMap.has rid (subagentRuns s)); lia.
  - intros H. destruct (decide (k = rid)) as [->|Hne]; [congruence|].
    simpl. by rewrite has_set_other.
  - intros H Hne. simpl. by rewrite has_set_other.
  - intros -> _. simpl. apply has_set_same.
Qed.

Lemma adoptAll_spec rid entries : forall s,
  recInv s -> ownIds entries ->
  let s' := foldl adoptRestored s entries in
  recInv s' /\
  (announceBudget rid (recordPart s')
   <= announceBudget rid (recordPart s)
      + (if JsMap.has rid (subagentRuns s) then 0
         else Nat.b2n (bool_decide (rid ∈ entries.*1))))%nat.
Proof.
  induction entries as [|kv entries IH]; intros s Hinv Hown; cbn [foldl];
    rewrite ?fmap_cons.
  { split; [done|]. destruct (JsMap.has rid (subagentRuns s)); simpl; lia. }
  apply Forall_cons in Hown as [Hkv Hown].
  destruct (adopt_spec rid s kv Hinv Hkv) as (Hinv1 & Hb1 & Hkeep & Hstay & Hnew).
  destruct (IH (adoptRestored s kv) Hinv1 Hown) as [Hinv2 Hb2].
  split; [done|].
  destruct (JsMap.has rid (subagentRuns s)) eqn:Hhas.
  - rewrite (Hkeep eq_refl) in Hb2. lia.
  - destruct (decide (kv.1 = rid)) as [Heq|Hne].
    + rewrite (bool_decide_eq_true_2 (kv.1 = rid)) in Hb1 by done.
      rewrite (bool_decide_eq_true_2 (rid ∈ kv.1 :: entries.*1))
        by (rewrite Heq; left).
      simpl in *.
      destruct (JsMap.has rid (subagentRuns (adoptRestored s kv))) eqn:Hhas1;
        [lia|].
      (* the entry was not adopted: its run id is the empty string *)
      assert (Hsame : adoptRestored s kv = s).
      { unfold adoptRestored. destruct (String.eqb kv.1 "") eqn:E; [done|].
        apply String.eqb_neq in E. rewrite Heq in E.
        by specialize (Hnew Heq E). }
      rewrite Hsame in Hb2. rewrite Hsame.
      pose proof (b2n_le_1 (bool_decide (rid ∈ entries.*1))). lia.
    + rewrite (bool_decide_eq_false_2 (kv.1 = rid)) in Hb1 by done.
      rewrite (Hstay eq_refl Hne) in Hb2. simpl in Hb1.
      assert (bool_decide (rid ∈ kv.1 :: entries.*1)
              = bool_decide (rid ∈ entries.*1)) as ->.
      { apply bool_decide_ext. rewrite elem_of_cons. split; [|by right].
        intros [?|?]; [congruence|done]. }
      lia.
Qed.

Lemma resume_spec rid rid0 r :
  recInv (registry r) ->
  let r' := resumeSubagentRun rid0 r in
  recInv (registry r') /\
  (announceBudget rid (recordPart (registry r'))
   <= announceBudget rid (recordPart (registry r)))%nat /\
  subagentRuns (registry r') = subagentRuns (registry r).
Proof.
  intros Hinv. unfold resumeSubagentRun.
  destruct (String.eqb rid0 "" || bool_decide (rid0 ∈ resumedRuns r)); [done|].
  destruct (JsMap.get rid0 (subagentRuns (registry r))) as [addr|] eqn:Hget; [|done].
  destruct (heap (registry r) !! addr) as [entry|] eqn:Hentry; [|done].
  destruct (truthyTime (cleanupCompletedAt entry)) eqn:Hdone; [done|].
  destruct (endedPositive (endedAt entry)); [|done].
  rewrite (begin_spec rid0 (registry r) addr entry Hget Hentry).
  destruct (cleanupDue entry) eqn:Hdue; [|done]. simpl.
  split; [|split; [|done]].
  - unfold recInv. simpl. by apply (recordsOk_update _ _ _ _ addr entry).
  - unfold announceBudget, recordPart. simpl. rewrite filter_app, length_app.
    destruct (decide (rid0 = rid)) as [->|Hne].
    + rewrite dueOn_update_same by done.
      rewrite (dueOn_lookup _ _ _ addr entry) by done. rewrite Hdue.
      rewrite filter_cons_True by done. simpl.
      unfold cleanupDue. simpl. rewrite andb_false_r. simpl. lia.
    + rewrite (dueOn_update_other rid rid0 _ _ _ _ addr _ Hinv) by done.
      rewrite filter_cons_False by done. simpl. lia.
Qed.

Lemma announceBudget_ensureListener rid s :
  announceBudget rid (recordPart (ensureListener s))
  = announceBudget rid (recordPart s).
Proof. done. Qed.

Lemma resumeAll_spec rid rids : forall r,
  recInv (registry r) ->
  let r' := foldl (fun acc rid0 => resumeSubagentRun rid0 acc) r rids in
  recInv (registry r') /\
  (announceBudget rid (recordPart (registry r'))
   <= announceBudget rid (recordPart (registry r)))%nat.
Proof.
  induction rids as [|rid0 rids IH]; intros r Hinv; simpl; [done|].
  destruct (resume_spec rid rid0 r Hinv) as (Hinv1 & Hb1 & _).
  destruct (IH _ Hinv1) as [Hinv2 Hb2]. split; [done|]. lia.
Qed.

Lemma init_spec rid restored r :
  recInv (registry r) ->
  (forall entries, restored = Some entries -> ownIds entries) ->
  let r' := initSubagentRegistry restored r in
  recInv (registry r') /\
  (announceBudget rid (recordPart (registry r'))
   <= announceBudget rid (recordPart (registry r))
      + Nat.b2n (opensCleanupOrRestores rid (Init restored)))%nat.
Proof.
  intros Hinv Hown. unfold initSubagentRegistry, restoreSubagentRunsOnce.
  destruct (restoreAttempted r); [split; [done|lia]|].
  destruct restored as [entries|]; [|split; [done|simpl; lia]].
  destruct entries as [|kv entries]; [split; [done|simpl; lia]|].
  destruct (adoptAll_spec rid (kv :: entries) (registry r) Hinv (Hown _ eq_refl))
    as [Hinv1 Hb1].
  match goal with |- context [foldl (fun acc rid0 => resumeSubagentRun rid0 acc) ?r0 ?ks] =>
    destruct (resumeAll_spec rid ks r0) as [Hinv2 Hb2]; [exact Hinv1|] end.
  split; [exact Hinv2|].
  cbn [registry] in Hb2. rewrite announceBudget_ensureListener in Hb2.
  unfold opensCleanupOrRestores.
  destruct (JsMap.has rid (subagentRuns (registry r))); lia.
Qed.

Lemma registryStep_spec rid r a :
  recInv (registry r) ->
  (forall entries, a = Init (Some entries) -> ownIds entries) ->
  recInv (registry (registryStep r a)) /\
  (announceBudget rid (recordPart (registry (registryStep r a)))
   <= announceBudget rid (recordPart (registry r))
      + Nat.b2n (opensCleanupOrRestores rid a))%nat.
Proof.
  intros Hinv Hown. destruct a as [restored|a]; simpl.
  - apply init_spec; [done|]. intros entries ->. by apply Hown.
  - split; [by apply recInv_step|by apply announceBudget_step].
Qed.

Lemma registryRun_spec rid acts : forall r,
  recInv (registry r) -> wellRestored acts ->
  recInv (registry (registryRun acts r)) /\
  (announceBudget rid (recordPart (registry (registryRun acts r)))
   <= announceBudget rid (recordPart (registry r))
      + length (filter (fun a => opensCleanupOrRestores rid a = true) acts))%nat.
Proof.
  induction acts as [|a acts IH]; intros r Hinv Hwell; simpl; [split; [done|lia]|].
  destruct (registryStep_spec rid r a Hinv) as [Hinv1 Hb1].
  { intros entries ->. apply Hwell. left. }
  destruct (IH _ Hinv1) as [Hinv2 Hb2].
  { intros entries Hin. apply Hwell. by right. }
  split; [done|]. rewrite filter_cons.
  destruct (opensCleanupOrRestores rid a); simpl in *; lia.
Qed.

(** A completed run is announced once per attempt.  The traces are those of
    the registry with its restore: calls of [initSubagentRegistry], whose
    store hands every record back under its own run id, and the actions of
    the registry.  An action of the registry launches an announce flow
    exactly when it delivers an end or error lifecycle event to the
    subscribed listener for a run whose cleanup can be begun (the record
    exists, [cleanupCompletedAt] and [cleanupHandled] are falsy), and the
    flow carries the record's cleanup mode; [initSubagentRegistry] restores
    at most once: a later call changes nothing.  Over any trace, the
    announce flows launched for a run, by the listener or by the restore,
    plus one while its cleanup can still be begun, never outnumber the
    registrations of the run, plus the announce flows of it that ended
    without announcing (or ended a "keep" flow at clock value 0), plus the
    restores that brought a record of the run: duplicate end events do not
    announce twice, and a restored run is announced at most once. *)
Theorem announce_once_per_attempt (acts : list RegistryAction) (rid : string) :
  wellRestored acts ->
  let r := registryRun acts initialRegistry in
  let s := registry r in
  (forall a, announces (step s a) = announces s ++ announcedBy s a) /\
  (forall restored, restoreAttempted r = true -> initSubagentRegistry restored r = r) /\
  (forall restored, restoreAttempted (initSubagentRegistry restored r) = true) /\
  (length (announcesFor rid s) + Nat.b2n (cleanupOpen rid s)
   <= length (filter (fun a => opensCleanupOrRestores rid a = true) acts))%nat.
Proof.
  intros Hwell r s. split; [apply announces_step|]. split; [|split].
  - intros restored Hdone. unfold initSubagentRegistry, restoreSubagentRunsOnce.
    by rewrite Hdone.
  - intros restored. unfold initSubagentRegistry, restoreSubagentRunsOnce.
    destruct (restoreAttempted r) eqn:Hdone; [done|].
    assert (Hkeep : forall rids r0, restoreAttempted r0 = true ->
              restoreAttempted
                (foldl (fun acc rid0 => resumeSubagentRun rid0 acc) r0 rids) = true).
    { clear. induction rids as [|rid0 rids IH]; intros r0 H0; simpl; [done|].
      apply IH. unfold resumeSubagentRun.
      destruct (String.eqb rid0 "" || bool_decide (rid0 ∈ resumedRuns r0)); [done|].
      destruct (JsMap.get rid0 (subagentRuns (registry r0))) as [addr|]; [|done].
      destruct (heap (registry r0) !! addr) as [entry|]; [|done].
      destruct (truthyTime (cleanupCompletedAt entry)); [done|].
      destruct (endedPositive (endedAt entry)); [|done].
      destruct (beginSubagentCleanup rid0 (registry r0)) as [[] s1]; done. }
    destruct restored as [[|kv entries]|]; try done. by apply Hkeep.
  - destruct (registryRun_spec rid acts initialRegistry recInv_initial Hwell)
      as [_ H].
    fold r in H. fold s in H. rewrite announceBudget_spec in H.
    unfold announceBudget, recordPart, dueOn in H. simpl in H. lia.
Qed.

(** A record of a run that ended, as the store hands it back. *)
Definition restoredRecord (rid : string) (ended : Z) : SubagentRunRecord :=
  {| runId := rid; childSessionKey := "agent:main:subagent:child";
     requesterSessionKey := "agent:main:main"; requesterOrigin := None;
     requesterDisplayKey := "main"; task := "task"; cleanup := CleanupKeep;
     label := None; createdAt := 1; startedAt := Some (Num 1);
     endedAt := Some (Num ended); outcome := Some OutcomeOk;
     archiveAtMs := None; cleanupCompletedAt := None;
     cleanupHandled := Some false |}.

(** The run "run-9" is restored after it ended; a second call of
    [initSubagentRegistry] and a late end event follow. *)
Definition restoreTrace : list RegistryAction :=
  [Init (Some [("run-9", restoredRecord "run-9" 5)]);
   Init (Some [("run-9", restoredRecord "run-9" 5)]);
   Act (Deliver (endEvent "run-9" (Some (Num 7))) 7)].

Lemma announce_once_per_attempt_witness :
  wellRestored restoreTrace /\
  announces (registry (registryRun restoreTrace initialRegistry))
  = [("run-9", CleanupKeep)] /\
  (length (announcesFor "run-9" (registry (registryRun restoreTrace initialRegistry)))
   + Nat.b2n (cleanupOpen "run-9" (registry (registryRun restoreTrace initialRegistry)))
   <= 2)%nat.
Proof.
  assert (Hwell : wellRestored restoreTrace).
  { intros entries Hin. unfold restoreTrace in Hin.
    repeat (apply elem_of_cons in Hin as [Hin|Hin];
            [try discriminate; injection Hin as ->; by repeat constructor|]).
    by apply elem_of_nil in Hin. }
  split; [exact Hwell|]. split; [reflexivity|].
  exact (proj2 (proj2 (proj2 (announce_once_per_attempt restoreTrace "run-9" Hwell)))).
Defined.

(** The two end events of "run-1" launch one announce flow. *)
Example duplicate_end_announces_once :
  announces (run duplicateEndTrace initialState) = [("run-1", CleanupKeep)] /\
  length (emitted (run duplicateEndTrace initialState)) = 2%nat /\
  length (cleanupOpenings "run-1" duplicateEndTrace) = 1%nat.
Proof. vm_compute. done. Qed.

(** *** Listing the runs of a requester *)

(** [[...subagentRuns.values()]] *)
Definition records (s : State) : list SubagentRunRecord :=
  omap (fun kv => heap s !! kv.2) (subagentRuns s).

(** [listSubagentRunsForRequester]; [trim] is [CommandQueue.trim]. *)
Definition listSubagentRunsForRequester (requester : string) (s : State)
  : list SubagentRunRecord :=
  let key := CommandQueue.trim requester in
  if String.eqb key "" then []
  else filter (fun entry => requesterSessionKey entry = key) (records s).

(** [getActiveSubagentRuns] *)
Definition getActiveSubagentRuns (requester : string) (s : State)
  : list SubagentRunRecord :=
  let key := CommandQueue.trim requester in
  if String.eqb key "" then []
  else filter (fun entry => requesterSessionKey entry = key /\
                            truthy (endedAt entry) = false) (records s).

Lemma elem_of_records s r :
  recInv s -> r ∈ records s <-> getSubagentRun (runId r) s = Some r.
Proof.
  intros (Hwf & _ & Hb & _). unfold records, getSubagentRun.
  rewrite list_elem_of_omap. split.
  - intros ([rid addr] & Hin & Hr). simpl in Hr.
    apply CommandQueue.wf_elem_get in Hin; [|done].
    destruct (Hb rid addr Hin) as (r0 & Hr0 & Hrid).
    assert (r0 = r) as -> by congruence. subst rid. by rewrite Hin.
  - intros H. destruct (JsMap.get (runId r) (subagentRuns s)) as [addr|] eqn:Hget;
      [|done].
    exists (runId r, addr). split; [by apply CommandQueue.get_elem|done].
Qed.

Lemma records_NoDup s : recInv s -> NoDup (runId <$> records s).
Proof.
  intros (Hwf & _ & Hb & _). unfold records.
  assert (H : forall runs : list (string * nat),
            (forall rid addr, (rid, addr) ∈ runs ->
               exists r, heap s !! addr = Some r /\ runId r = rid) ->
            runId <$> omap (fun kv => heap s !! kv.2) runs = JsMap.keys runs).
  { induction runs as [|[rid addr] runs IH]; intros Hall; [done|].
    destruct (Hall rid addr) as (r & Hr & Hrid); [left|].
    simpl. rewrite Hr. simpl. rewrite Hrid. f_equal. apply IH.
    intros rid' addr' Hin. apply Hall. by right. }
  rewrite H; [done|]. intros rid addr Hin. apply Hb.
  by apply CommandQueue.wf_elem_get.
Qed.

Lemma filter_and_sublist {A} (P Q : A -> Prop) `{!forall x, Decision (P x)}
    `{!forall x, Decision (Q x)} (l : list A) :
  filter (fun x => P x /\ Q x) l `sublist_of` filter P l.
Proof.
  induction l as [|x l IH]; [done|]. rewrite !filter_cons.
  destruct (decide (P x)) as [HP|HP].
  - destruct (decide (P x /\ Q x)); [by apply sublist_skip|by apply sublist_cons].
  - rewrite decide_False by tauto. done.
Qed.

Lemma listener_ended evt now s addr entry :
  isCompletion evt = true ->
  JsMap.get (evt_runId evt) (subagentRuns s) = Some addr ->
  heap s !! addr = Some entry ->
  exists e', subagentRuns (listener evt now s) = subagentRuns s /\
             heap (listener evt now s) = <[addr := e']> (heap s) /\
             endedAt e' = Some (default (Num now) (data_endedAt evt)) /\
             outcome e' = Some (outcomeOf evt) /\
             requesterSessionKey e' = requesterSessionKey entry /\
             runId e' = runId entry.
Proof.
  intros Hc Hget Hentry. apply isCompletion_inv in Hc as (H1 & H2 & H3).
  pose proof (listener_records evt now s) as Hrec. unfold listenerRecords in Hrec.
  rewrite H1, Hget, Hentry, H2, H3 in Hrec. simpl in Hrec.
  unfold recordPart in Hrec. injection Hrec as R1 R2 _ _ _ _.
  eexists. split; [done|]. split; [exact R2|].
  by destruct (cleanupDue entry).
Qed.

(** The listings of a requester.  In every state the registry reaches,
    [listSubagentRunsForRequester] holds the records, one per run id, that
    [getSubagentRun] finds under their own run id and whose requester is the
    trimmed key (none for a blank key); [getActiveSubagentRuns] holds those
    of them whose [endedAt] is falsy, in the same order.  A run registered
    for a trimmed, non-blank requester is active for it at once, and after
    an end or error event that leaves a truthy end time (a number other
    than 0 and [NaN]) no record of the run is active any more, for any
    requester. *)
Theorem requester_listings (acts : list Action) (requester : string)
    (r : SubagentRunRecord) :
  let s := run acts initialState in
  let key := CommandQueue.trim requester in
  (r ∈ listSubagentRunsForRequester requester s
   <-> key <> "" /\ requesterSessionKey r = key /\
       getSubagentRun (runId r) s = Some r) /\
  (r ∈ getActiveSubagentRuns requester s
   <-> r ∈ listSubagentRunsForRequester requester s /\ truthy (endedAt r) = false) /\
  getActiveSubagentRuns requester s `sublist_of` listSubagentRunsForRequester requester s /\
  NoDup (runId <$> listSubagentRunsForRequester requester s) /\
  (forall params now minutes,
     let k := p_requesterSessionKey params in
     CommandQueue.trim k = k -> k <> "" ->
     exists r', r' ∈ getActiveSubagentRuns k (registerSubagentRun params now minutes s) /\
                runId r' = p_runId params /\ endedAt r' = None) /\
  (forall evt now,
     isCompletion evt = true ->
     truthy (Some (default (Num now) (data_endedAt evt))) = true ->
     forall requester' r',
       r' ∈ getActiveSubagentRuns requester' (deliver evt now s) ->
       runId r' <> evt_runId evt).
Proof.
  intros s key.
  pose proof (recInv_run acts _ recInv_initial) as Hinv. fold s in Hinv.
  destruct (registry_run_preserves acts _ allInv_initial) as [[_ Hreg] _].
  fold s in Hreg.
  assert (Hlist : forall s0 req r0, recInv s0 ->
            r0 ∈ listSubagentRunsForRequester req s0
            <-> CommandQueue.trim req <> "" /\
                requesterSessionKey r0 = CommandQueue.trim req /\
                getSubagentRun (runId r0) s0 = Some r0).
  { intros s0 req r0 H0. unfold listSubagentRunsForRequester.
    destruct (String.eqb (CommandQueue.trim req) "") eqn:E.
    - apply String.eqb_eq in E. split; [intros H; by apply elem_of_nil in H|].
      by intros [? _].
    - apply String.eqb_neq in E.
      rewrite list_elem_of_filter, (elem_of_records s0 r0 H0). tauto. }
  assert (Hact : forall s0 req r0, recInv s0 ->
            r0 ∈ getActiveSubagentRuns req s0
            <-> r0 ∈ listSubagentRunsForRequester req s0 /\ truthy (endedAt r0) = false).
  { intros s0 req r0 H0. unfold getActiveSubagentRuns, listSubagentRunsForRequester.
    destruct (String.eqb (CommandQueue.trim req) "").
    - split; [intros H; by apply elem_of_nil in H|]. intros [H _].
      by apply elem_of_nil in H.
    - rewrite !list_elem_of_filter. tauto. }
  split; [by apply Hlist|]. split; [by apply Hact|]. split; [|split; [|split]].
  - unfold getActiveSubagentRuns, listSubagentRunsForRequester. fold key.
    destruct (String.eqb key ""); [done|].
    apply (filter_and_sublist (fun e => requesterSessionKey e = key)
             (fun e => truthy (endedAt e) = false)).
  - unfold listSubagentRunsForRequester. fold key.
    destruct (String.eqb key ""); [constructor|].
    apply (sublist_NoDup _ (runId <$> records s)); [by apply records_NoDup|].
    apply fmap_sublist, sublist_filter.
  - intros params now minutes k Htrim Hk.
    set (s1 := registerSubagentRun params now minutes s).
    assert (H1 : recInv s1) by apply (recInv_step s (Register params now minutes) Hinv).
    assert (Hget : exists r', getSubagentRun (p_runId params) s1 = Some r' /\
                              runId r' = p_runId params /\ endedAt r' = None /\
                              requesterSessionKey r' = k).
    { unfold getSubagentRun, s1, registerSubagentRun. simpl.
      rewrite JsMap.get_set_eq. simpl. rewrite lookup_insert_eq. by eexists. }
    destruct Hget as (r' & Hr' & Hrid & Hend & Hreq).
    exists r'. split; [|done]. apply Hact; [done|]. split; [|by rewrite Hend].
    apply Hlist; [done|]. rewrite Htrim. split; [done|]. split; [done|].
    by rewrite Hrid.
  - intros evt now Hc Hended requester' r' Hin Hrid.
    assert (H3 : recInv (deliver evt now s))
      by apply (recInv_step s (Deliver evt now) Hinv).
    apply Hact in Hin as [Hin Hfalsy]; [|done].
    apply Hlist in Hin as (_ & _ & Hget); [|done].
    rewrite Hrid in Hget. unfold deliver in Hget.
    destruct Hreg as [_ Hreg].
    destruct (JsMap.get (evt_runId evt) (subagentRuns s)) as [addr|] eqn:Hrun.
    + destruct (Hreg _ _ Hrun) as [[entry Hentry] Hls]. rewrite Hls in Hget.
      destruct (listener_ended evt now s addr entry Hc Hrun Hentry)
        as (e' & R1 & R2 & Hend & _).
      unfold getSubagentRun in Hget. rewrite R1, Hrun in Hget. simpl in Hget.
      rewrite R2, lookup_insert_eq in Hget. injection Hget as <-.
      rewrite Hend in Hfalsy. congruence.
    + assert (Hsame : getSubagentRun (evt_runId evt)
                        (if listenerStarted s then listener evt now s else s) = None).
      { destruct (listenerStarted s);
          [|unfold getSubagentRun; by rewrite Hrun].
        unfold getSubagentRun, listener.
        destruct (negb (String.eqb (stream evt) "lifecycle")); [by rewrite Hrun|].
        rewrite Hrun. simpl. by rewrite Hrun. }
      congruence.
Qed.

(** *** The archival sweep *)

(** One round of the loop of [scheduleSweepIfNeeded] that looks for the
    earliest archive time. *)
Definition earlier (earliest : option Z) (entry : SubagentRunRecord) : option Z :=
  if truthyTime (archiveAtMs entry) &&
     (negb (truthyTime earliest) || (default 0 (archiveAtMs entry) <? default 0 earliest))
  then archiveAtMs entry else earliest.

Definition earliestArchiveAt (s : State) : option Z := foldl earlier None (records s).

(** [scheduleSweepIfNeeded] at time [now]: the [delayMs] it passes to
    [setTimeout], [None] when it sets no timer.  A timer set earlier is
    cancelled first. *)
Definition scheduleSweepIfNeeded (now : Z) (s : State) : option Z :=
  let earliest := earliestArchiveAt s in
  if truthyTime earliest then Some (Z.max 1000 (default 0 earliest - now)) else None.

(** What Node's [setTimeout(callback, delay)] does with the delay: a delay
    below 1 ms or above [2^31 - 1] ms is set to 1 ms. *)
Definition TIMEOUT_MAX : Z := 2147483647.

Definition timerDelay (delay : Z) : Z :=
  if (1 <=? delay) && (delay <=? TIMEOUT_MAX) then delay else 1.

(** The run ids that [sweepSubagentRuns] collects in [toDelete] at time
    [now]; it deletes them one by one, as [releaseSubagentRun] would. *)
Definition sweepTargets (now : Z) (s : State) : list string :=
  omap (fun kv =>
          match heap s !! kv.2 with
          | Some entry =>
              if negb (truthyTime (archiveAtMs entry))
                 || (now <? default 0 (archiveAtMs entry))
              then None else Some kv.1
          | None => None
          end) (subagentRuns s).

(** A time that is set and not 0. *)
Definition isTime (v : option Z) (t : Z) : Prop := v = Some t /\ t <> 0.

Lemma truthy_isTime v : truthyTime v = true <-> exists t, isTime v t.
Proof.
  unfold truthyTime, isTime. destruct v as [z|].
  - rewrite negb_true_iff, Z.eqb_neq. split; [intros H; by exists z|].
    by intros (t & [= ->] & H).
  - split; [done|]. by intros (t & ? & _).
Qed.

Lemma earliest_spec l : forall acc,
  (acc = None \/ exists a, isTime acc a) ->
  let res := foldl earlier acc l in
  (res = None <-> acc = None /\ forall r, r ∈ l -> truthyTime (archiveAtMs r) = false) /\
  (forall e, res = Some e ->
     e <> 0 /\
     (acc = Some e \/ exists r, r ∈ l /\ archiveAtMs r = Some e) /\
     (forall a, acc = Some a -> e <= a) /\
     (forall r a, r ∈ l -> isTime (archiveAtMs r) a -> e <= a)).
Proof.
  induction l as [|x l IH]; intros acc Hacc; simpl.
  - split.
    + split; [intros ->; split; [done|]; intros r Hr; by apply elem_of_nil in Hr|].
      by intros [-> _].
    + intros e ->. destruct Hacc as [?|(a & [= ->] & Ha)]; [done|].
      split; [done|]. split; [by left|]. split; [by intros a' [= ->]|].
      intros r a' Hr. by apply elem_of_nil in Hr.
  - assert (Hnext : earlier acc x = None \/ exists a, isTime (earlier acc x) a).
    { unfold earlier. destruct (truthyTime (archiveAtMs x)) eqn:Hx; simpl; [|done].
      destruct (negb (truthyTime acc) || _); [|done].
      right. by apply truthy_isTime. }
    destruct (IH (earlier acc x) Hnext) as [IH1 IH2].
    assert (Hstep :
      (earlier acc x = None <-> acc = None /\ truthyTime (archiveAtMs x) = false) /\
      (forall e, earlier acc x = Some e ->
         (acc = Some e \/ archiveAtMs x = Some e) /\
         (forall a, acc = Some a -> e <= a) /\
         (forall a, isTime (archiveAtMs x) a -> e <= a))).
    { unfold earlier. destruct (truthyTime (archiveAtMs x)) eqn:Hx.
      - apply truthy_isTime in Hx as (t & Hxt & Ht). rewrite Hxt.
        destruct Hacc as [->|(a & [-> Ha])].
        + simpl. split; [split; [done|by intros [_ ?]]|].
          intros e [= <-]. split; [by right|]. split; [done|].
          intros a [[= <-] _]. lia.
        + replace (truthyTime (Some a)) with true
            by (symmetry; apply truthy_isTime; by exists a).
          simpl. destruct (t <? a) eqn:E.
          * apply Z.ltb_lt in E. split; [split; [done|by intros [? _]]|].
            intros e [= <-]. split; [by right|]. split; [intros a' [= <-]; lia|].
            intros a' [[= <-] _]. lia.
          * apply Z.ltb_ge in E. split; [split; [done|by intros [? _]]|].
            intros e [= <-]. split; [by left|]. split; [by intros a' [= <-]|].
            intros a' [[= <-] _]. lia.
      - simpl. split; [tauto|]. intros e He. split; [by left|].
        split; [intros a; rewrite He; by intros [= <-]|].
        intros a Ha. assert (truthyTime (archiveAtMs x) = true); [|congruence].
        apply truthy_isTime. by exists a. }
    destruct Hstep as [S1 S2]. split.
    + rewrite IH1, S1. split.
      * intros [[-> Hx] Hl]. split; [done|]. intros r Hr.
        apply elem_of_cons in Hr as [->|Hr]; auto.
      * intros [-> Hall]. split; [split; [done|]; apply Hall; left|].
        intros r Hr. apply Hall. by right.
    + intros e He. destruct (IH2 e He) as (E0 & E1 & E2 & E3).
      split; [done|]. split; [|split].
      * destruct E1 as [E1|(r & Hr & Har)].
        -- destruct (S2 e E1) as ([?|?] & _); [by left|].
           right. exists x. split; [left|done].
        -- right. exists r. split; [by right|done].
      * intros a Ha.
        destruct (earlier acc x) as [m|] eqn:Hm.
        -- destruct (S2 m eq_refl) as (_ & Hle & _).
           specialize (E2 m eq_refl). specialize (Hle a Ha). lia.
        -- destruct (proj1 S1 eq_refl) as [Hm' _]. congruence.
      * intros r a Hr Ha. apply elem_of_cons in Hr as [->|Hr]; [|by eapply E3].
        destruct (earlier acc x) as [m|] eqn:Hm.
        -- destruct (S2 m eq_refl) as (_ & _ & Hle).
           specialize (E2 m eq_refl). specialize (Hle a Ha). lia.
        -- destruct (proj1 S1 eq_refl) as [_ Hm'].
           assert (truthyTime (archiveAtMs x) = true); [|congruence].
           apply truthy_isTime. by exists a.
Qed.

Lemma elem_of_sweepTargets now s rid :
  recInv s ->
  rid ∈ sweepTargets now s
  <-> exists r a, getSubagentRun rid s = Some r /\ isTime (archiveAtMs r) a /\ a <= now.
Proof.
  intros (Hwf & _ & Hb & _). unfold sweepTargets, getSubagentRun.
  rewrite list_elem_of_omap. split.
  - intros ([k addr] & Hin & Hsome). simpl in Hsome.
    apply CommandQueue.wf_elem_get in Hin; [|done].
    destruct (heap s !! addr) as [entry|] eqn:Hentry; [|done].
    destruct (truthyTime (archiveAtMs entry)) eqn:Ht; simpl in Hsome; [|done].
    destruct (now <? default 0 (archiveAtMs entry)) eqn:E; [done|].
    injection Hsome as <-. apply Z.ltb_ge in E.
    apply truthy_isTime in Ht as (a & Ha). exists entry, a.
    rewrite Hin. simpl. split; [done|]. split; [done|].
    destruct Ha as [Ha _]. rewrite Ha in E. done.
  - intros (r & a & Hget & [Ha Hne] & Hle).
    destruct (JsMap.get rid (subagentRuns s)) as [addr|] eqn:Hrun; [|done].
    simpl in Hget. exists (rid, addr). split; [by apply CommandQueue.get_elem|].
    simpl. rewrite Hget.
    assert (truthyTime (archiveAtMs r) = true) as ->
      by (apply truthy_isTime; by exists a).
    rewrite Ha. simpl. assert ((now <? a) = false) as -> by by apply Z.ltb_ge.
    done.
Qed.

(** The sweep is scheduled for the earliest archive time.  In every state
    the registry reaches, the loop of [scheduleSweepIfNeeded] finds the
    least [archiveAtMs] among the records that have one (other than 0), and
    nothing when no record has one; the delay given to [setTimeout] is
    [max(1000, earliest - now)] ms, and no timer is set exactly when no
    sweep at any time would find a run to delete.  The timer fires
    [timerDelay] of that delay later.  When the delay is at most
    [2^31 - 1] ms that is the delay itself, and the sweep that runs then on
    an unchanged registry collects at least one run.  When the delay is
    larger the timer fires after 1 ms: the sweep collects nothing and sets
    the timer again, with a delay of one ms less.  A sweep collects a run
    exactly when the run's record has an archive time that is not 0 and has
    passed. *)
Theorem sweep_scheduled_for_earliest_archive_time (acts : list Action) (now : Z) :
  let s := run acts initialState in
  (earliestArchiveAt s = None
   <-> forall r, r ∈ records s -> truthyTime (archiveAtMs r) = false) /\
  (forall e, earliestArchiveAt s = Some e ->
     e <> 0 /\ (exists r, r ∈ records s /\ archiveAtMs r = Some e) /\
     forall r a, r ∈ records s -> isTime (archiveAtMs r) a -> e <= a) /\
  (forall d, scheduleSweepIfNeeded now s = Some d ->
     1000 <= d /\
     (exists e, earliestArchiveAt s = Some e /\ d = Z.max 1000 (e - now)) /\
     (d <= TIMEOUT_MAX ->
      timerDelay d = d /\ sweepTargets (now + timerDelay d) s <> []) /\
     (TIMEOUT_MAX < d ->
      timerDelay d = 1 /\ sweepTargets (now + timerDelay d) s = [] /\
      scheduleSweepIfNeeded (now + timerDelay d) s = Some (d - 1))) /\
  (scheduleSweepIfNeeded now s = None <-> forall t, sweepTargets t s = []) /\
  (forall rid,
     rid ∈ sweepTargets now s
     <-> exists r a, getSubagentRun rid s = Some r /\
                     isTime (archiveAtMs r) a /\ a <= now).
Proof.
  intros s.
  pose proof (recInv_run acts _ recInv_initial) as Hinv. fold s in Hinv.
  destruct (earliest_spec (records s) None) as [E1 E2]; [by left|].
  fold (earliestArchiveAt s) in E1, E2.
  assert (Hnone : earliestArchiveAt s = None
                  <-> forall r, r ∈ records s -> truthyTime (archiveAtMs r) = false).
  { rewrite E1. split; [by intros [_ ?]|done]. }
  assert (Hsome : forall e, earliestArchiveAt s = Some e ->
            e <> 0 /\ (exists r, r ∈ records s /\ archiveAtMs r = Some e) /\
            forall r a, r ∈ records s -> isTime (archiveAtMs r) a -> e <= a).
  { intros e He. destruct (E2 e He) as (H0 & [?|H1] & _ & H3); [done|]. done. }
  assert (Hdue : forall e t, earliestArchiveAt s = Some e -> e <= t ->
                             sweepTargets t s <> []).
  { intros e t He Hle. destruct (Hsome e He) as (H0 & (r & Hr & Ha) & _).
    apply elem_of_records in Hr; [|done].
    assert (Hin : runId r ∈ sweepTargets t s).
    { apply elem_of_sweepTargets; [done|]. by exists r, e. }
    intros Hnil. rewrite Hnil in Hin. by apply elem_of_nil in Hin. }
  assert (Hrec : forall rid r, getSubagentRun rid s = Some r -> r ∈ records s).
  { intros rid r Hget. unfold records. apply list_elem_of_omap.
    unfold getSubagentRun in Hget.
    destruct (JsMap.get rid (subagentRuns s)) as [addr|] eqn:Hrun; [|done].
    exists (rid, addr). split; [by apply CommandQueue.get_elem|done]. }
  assert (Hearly : forall e t, earliestArchiveAt s = Some e -> t < e ->
                               sweepTargets t s = []).
  { intros e t He Hlt. destruct (Hsome e He) as (_ & _ & Hmin).
    destruct (sweepTargets t s) as [|rid l] eqn:Ht; [done|].
    assert (Hin : rid ∈ sweepTargets t s) by (rewrite Ht; left).
    apply elem_of_sweepTargets in Hin as (r & a & Hget & Ha & Hle); [|done].
    pose proof (Hmin r a (Hrec rid r Hget) Ha). lia. }
  split; [done|]. split; [done|]. split; [|split].
  - intros d Hd. unfold scheduleSweepIfNeeded in Hd |- *.
    destruct (earliestArchiveAt s) as [e|] eqn:He; [|done].
    destruct (truthyTime (Some e)) eqn:Ht; [|done]. simpl in Hd. injection Hd as <-.
    split; [lia|]. split; [by exists e|]. unfold timerDelay, TIMEOUT_MAX. split.
    + intros Hle.
      assert ((1 <=? Z.max 1000 (e - now))
              && (Z.max 1000 (e - now) <=? 2147483647) = true) as ->
        by (apply andb_true_iff; split; apply Z.leb_le; lia).
      split; [done|]. apply (Hdue e); [done|lia].
    + intros Hgt.
      assert ((1 <=? Z.max 1000 (e - now))
              && (Z.max 1000 (e - now) <=? 2147483647) = false) as ->
        by (apply andb_false_iff; right; apply Z.leb_gt; lia).
      split; [done|]. split; [apply (Hearly e); [done|lia]|].
      simpl. f_equal. lia.
  - unfold scheduleSweepIfNeeded. split.
    + intros Hn t. destruct (earliestArchiveAt s) as [e|] eqn:He.
      { destruct (Hsome e eq_refl) as (H0 & _).
        assert (truthyTime (Some e) = true) as Ht
          by (apply truthy_isTime; by exists e).
        by rewrite Ht in Hn. }
      destruct (sweepTargets t s) as [|rid l] eqn:Ht; [done|].
      assert (Hin : rid ∈ sweepTargets t s) by (rewrite Ht; left).
      apply elem_of_sweepTargets in Hin as (r & a & Hget & Ha & _); [|done].
      assert (truthyTime (archiveAtMs r) = true) by (apply truthy_isTime; by exists a).
      pose proof (proj1 Hnone eq_refl r (Hrec rid r Hget)). congruence.
    + intros Hall. destruct (earliestArchiveAt s) as [e|] eqn:He; [|done].
      exfalso. apply (Hdue e e eq_refl); [lia|]. apply Hall.
  - intros rid. by apply elem_of_sweepTargets.
Qed.

(** Two runs registered at times 10 and 20 with the default archive delay
    of 60 minutes: the sweep is due 3600 s after the first registration. *)
Example sweep_schedule_scenario :
  let s := run [Register (testParams "run-1" "agent:main:subagent:child-1") 10 None;
                Register (testParams "run-2" "agent:main:subagent:child-2") 20 None]
             initialState in
  earliestArchiveAt s = Some 3600010 /\
  scheduleSweepIfNeeded 1000 s = Some 3599010 /\
  sweepTargets 3600010 s = ["run-1"] /\
  timerDelay 3599010 = 3599010 /\
  scheduleSweepIfNeeded 3600000 s = Some 1000 /\
  length (getActiveSubagentRuns " agent:main:main " s) = 2%nat.
Proof. vm_compute. done. Qed.

(** A run registered with [archiveAfterMinutes: 40000]: the delay exceeds
    [2^31 - 1] ms, so the timer fires after 1 ms, the sweep finds nothing
    to delete and the timer is set again. *)
Example sweep_with_long_archive_delay :
  let s := run [Register (testParams "run-1" "agent:main:subagent:child-1") 10
                  (Some 40000)] initialState in
  scheduleSweepIfNeeded 10 s = Some 2400000000 /\
  timerDelay 2400000000 = 1 /\
  sweepTargets 11 s = [] /\
  scheduleSweepIfNeeded 11 s = Some 2399999999.
Proof. vm_compute. done. Qed.

End SubagentRegistry.

(** ** src/infra/timer-manager.ts *)

Module TimerManager.

Inductive TimerType := Timeout | Interval.

#[global] Instance TimerType_eq_dec : EqDecision TimerType.
Proof. solve_decision. Defined.

(** [TimerEntry]; the runtime handle of an entry is live exactly while the
    entry is registered, and [callback] names the user callback that the
    entry's wrapper calls. *)
Record TimerEntry := mkEntry {
  id : string;
  type : TimerType;
  label : string;
  createdAt : Z;
  delayMs : Z;
  callback : nat;
}.

Record State := mkState {
  nextId : nat;
  activeTimers : list (string * TimerEntry);
  totalCreated : Z;
  totalFired : Z;
  totalCancelled : Z;
}.

Definition initialState : State :=
  {| nextId := 1; activeTimers := []; totalCreated := 0; totalFired := 0;
     totalCancelled := 0 |}.

(** [generateId]: the template string [`${label}-${nextId++}`]. *)
Definition generateId (lbl : string) (n : nat) : string :=
  lbl +:+ "-" +:+ pretty n.

Definition register (ty : TimerType) (cb : nat) (ms : Z) (lbl : option string)
    (now : Z) (s : State) : string * State :=
  let l := default "anonymous" lbl in
  let i := generateId l (nextId s) in
  let entry := {| id := i; type := ty; label := l; createdAt := now;
                  delayMs := ms; callback := cb |} in
  (i, {| nextId := S (nextId s);
         activeTimers := JsMap.set i entry (activeTimers s);
         totalCreated := totalCreated s + 1;
         totalFired := totalFired s;
         totalCancelled := totalCancelled s |}).

(** [managedSetTimeout(callback, delayMs, label)] at time [now] *)
Definition managedSetTimeout (cb : nat) (ms : Z) (lbl : option string) (now : Z)
    (s : State) : string * State :=
  register Timeout cb ms lbl now s.

(** [managedSetInterval(callback, intervalMs, label)] at time [now] *)
Definition managedSetInterval (cb : nat) (ms : Z) (lbl : option string) (now : Z)
    (s : State) : string * State :=
  register Interval cb ms lbl now s.

(** The wrapped callback of timer [i], called by the runtime while the
    timer's handle is live.  A timeout's wrapper removes the entry and counts
    the firing; an interval's wrapper only counts it.  The user callback runs
    afterwards and its exceptions are caught.  The [None] branch is the
    runtime's: it never calls the wrapper of a timeout that has fired or of a
    timer that was cleared; the wrapper itself has no such check. *)
Definition fire (i : string) (s : State) : State :=
  match JsMap.get i (activeTimers s) with
  | None => s
  | Some entry =>
      match type entry with
      | Timeout =>
          {| nextId := nextId s;
             activeTimers := JsMap.delete i (activeTimers s);
             totalCreated := totalCreated s;
             totalFired := totalFired s + 1;
             totalCancelled := totalCancelled s |}
      | Interval =>
          {| nextId := nextId s; activeTimers := activeTimers s;
             totalCreated := totalCreated s;
             totalFired := totalFired s + 1;
             totalCancelled := totalCancelled s |}
      end
  end.

(** [clearManagedTimer(id)] *)
Definition clearManagedTimer (i : string) (s : State) : bool * State :=
  match JsMap.get i (activeTimers s) with
  | None => (false, s)
  | Some _ =>
      (true, {| nextId := nextId s;
                activeTimers := JsMap.delete i (activeTimers s);
                totalCreated := totalCreated s;
                totalFired := totalFired s;
                totalCancelled := totalCancelled s + 1 |})
  end.

(** [clearAllTimers()] *)
Definition clearAllTimers (s : State) : Z * State :=
  let n := Z.of_nat (JsMap.size (activeTimers s)) in
  (n, {| nextId := nextId s; activeTimers := [];
         totalCreated := totalCreated s; totalFired := totalFired s;
         totalCancelled := totalCancelled s + n |}).

(** [clearTimersByLabel(pattern)]; the pattern is the predicate that
    [regex.test] computes on labels. *)
Fixpoint clearMatching (pattern : string -> bool) (m : list (string * TimerEntry))
  : Z * list (string * TimerEntry) :=
  match m with
  | [] => (0, [])
  | (i, entry) :: m' =>
      let '(n, rest) := clearMatching pattern m' in
      if pattern (label entry) then (n + 1, rest) else (n, (i, entry) :: rest)
  end.

Definition clearTimersByLabel (pattern : string -> bool) (s : State) : Z * State :=
  let '(n, rest) := clearMatching pattern (activeTimers s) in
  (n, {| nextId := nextId s; activeTimers := rest;
         totalCreated := totalCreated s; totalFired := totalFired s;
         totalCancelled := totalCancelled s + n |}).

Record TimerStats := mkStats {
  st_active : Z;
  st_timeouts : Z;
  st_intervals : Z;
  st_totalCreated : Z;
  st_totalFired : Z;
  st_totalCancelled : Z;
}.

(** [getTimerStats()] *)
Definition getTimerStats (s : State) : TimerStats :=
  {| st_active := Z.of_nat (JsMap.size (activeTimers s));
     st_timeouts :=
       Z.of_nat (JsMap.count (fun e => bool_decide (type e = Timeout)) (activeTimers s));
     st_intervals :=
       Z.of_nat (JsMap.count (fun e => negb (bool_decide (type e = Timeout)))
                   (activeTimers s));
     st_totalCreated := totalCreated s;
     st_totalFired := totalFired s;
     st_totalCancelled := totalCancelled s |}.

Inductive Event :=
| SetTimeout (cb : nat) (ms : Z) (lbl : option string) (now : Z)
| SetInterval (cb : nat) (ms : Z) (lbl : option string) (now : Z)
| Fire (i : string)
| Clear (i : string)
| ClearAll
| ClearByLabel (pattern : string -> bool).

Definition step (s : State) (ev : Event) : State :=
  match ev with
  | SetTimeout cb ms lbl now => (managedSetTimeout cb ms lbl now s).2
  | SetInterval cb ms lbl now => (managedSetInterval cb ms lbl now s).2
  | Fire i => fire i s
  | Clear i => (clearManagedTimer i s).2
  | ClearAll => (clearAllTimers s).2
  | ClearByLabel pattern => (clearTimersByLabel pattern s).2
  end.

Definition run (evs : list Event) (s : State) : State := foldl step s evs.

(** Does the event tick an interval of the state? *)
Definition isIntervalTick (s : State) (ev : Event) : bool :=
  match ev with
  | Fire i =>
      match JsMap.get i (activeTimers s) with
      | Some entry => bool_decide (type entry = Interval)
      | None => false
      end
  | _ => false
  end.

(** Number of interval ticks along a trace started in [s]. *)
Fixpoint intervalTicks (evs : list Event) (s : State) : Z :=
  match evs with
  | [] => 0
  | ev :: evs' =>
      (if isIntervalTick s ev then 1 else 0) + intervalTicks evs' (step s ev)
  end.

(** *** Timer ids are unique *)

Fixpoint noDash (s : string) : bool :=
  match s with
  | EmptyString => true
  | String c s' => negb (Ascii.eqb c "-"%char) && noDash s'
  end.

(** The part of a string behind its last dash (the string itself when it
    has none). *)
Fixpoint afterLastDash (s : string) : string :=
  match s with
  | EmptyString => EmptyString
  | String c s' =>
      if noDash s' then (if Ascii.eqb c "-"%char then s' else s)
      else afterLastDash s'
  end.

Lemma app_String c s1 s2 : String c s1 +:+ s2 = String c (s1 +:+ s2).
Proof. reflexivity. Qed.

Lemma app_empty s : "" +:+ s = s.
Proof. reflexivity. Qed.

Lemma noDash_app_dash l d : noDash (l +:+ String "-"%char d) = false.
Proof.
  induction l as [|c l IH].
  - rewrite app_empty. reflexivity.
  - rewrite app_String. simpl. rewrite IH. apply andb_false_r.
Qed.

Lemma afterLastDash_app l d :
  noDash d = true -> afterLastDash (l +:+ String "-"%char d) = d.
Proof.
  intros Hd. induction l as [|c l IH].
  - rewrite app_empty. simpl. by rewrite Hd.
  - rewrite app_String. simpl. by rewrite noDash_app_dash.
Qed.

Lemma noDash_pretty_N_go x : forall s, noDash s = true -> noDash (pretty_N_go x s) = true.
Proof.
  induction (N.lt_wf_0 x) as [x _ IH]; intros s Hs.
  assert (x = 0 \/ 0 < x)%N as [->|Hpos] by lia.
  - by rewrite pretty_N_go_0.
  - rewrite pretty_N_go_step by done. apply IH.
    + by apply N.div_lt.
    + simpl. rewrite Hs, andb_true_r.
      unfold pretty_N_char. by repeat case_match.
Qed.

Lemma noDash_pretty (n : nat) : noDash (pretty n) = true.
Proof.
  unfold pretty, pretty_nat, pretty, pretty_N.
  case_decide; [done|]. by apply noDash_pretty_N_go.
Qed.

Lemma generateId_counter l n : afterLastDash (generateId l n) = pretty n.
Proof.
  unfold generateId. change ("-" +:+ pretty n) with (String "-"%char (pretty n)).
  apply afterLastDash_app, noDash_pretty.
Qed.

Lemma generateId_inj l l' n n' : generateId l n = generateId l' n' -> n = n'.
Proof.
  intros H. apply (f_equal afterLastDash) in H.
  rewrite !generateId_counter in H. by apply (inj pretty) in H.
Qed.

(** Every registered id was generated from a counter value already used. *)
Definition idsOk (s : State) : Prop :=
  forall i, i ∈ JsMap.keys (activeTimers s) ->
            exists l n, i = generateId l n /\ (n < nextId s)%nat.

Lemma generateId_fresh l s :
  idsOk s -> generateId l (nextId s) ∉ JsMap.keys (activeTimers s).
Proof.
  intros Hok Hin. destruct (Hok _ Hin) as (l' & n' & Heq & Hlt).
  apply generateId_inj in Heq. lia.
Qed.

(** *** The statistics *)

(** [active - (totalCreated - totalFired - totalCancelled)] *)
Definition surplus (s : State) : Z :=
  st_active (getTimerStats s)
  - (st_totalCreated (getTimerStats s) - st_totalFired (getTimerStats s)
     - st_totalCancelled (getTimerStats s)).

Lemma clearMatching_spec pattern m :
  Z.of_nat (JsMap.size (clearMatching pattern m).2) + (clearMatching pattern m).1
  = Z.of_nat (JsMap.size m) /\
  JsMap.keys (clearMatching pattern m).2 ⊆ JsMap.keys m.
Proof.
  unfold JsMap.size. induction m as [|[i entry] m [IH1 IH2]]; simpl; [done|].
  destruct (clearMatching pattern m) as [n rest]. simpl in *.
  destruct (pattern (label entry)); simpl.
  - split; [lia|]. intros x Hx. right. by apply IH2.
  - split; [lia|]. intros x Hx.
    apply elem_of_cons in Hx as [->|Hx]; [left|right; by apply IH2].
Qed.

Lemma idsOk_subseteq s s' :
  idsOk s -> JsMap.keys (activeTimers s') ⊆ JsMap.keys (activeTimers s) ->
  (nextId s <= nextId s')%nat -> idsOk s'.
Proof.
  intros Hok Hsub Hle i Hi. destruct (Hok i (Hsub i Hi)) as (l & n & -> & Hlt).
  exists l, n. split; [done|lia].
Qed.

Lemma register_spec ty cb ms lbl now s :
  idsOk s ->
  idsOk (register ty cb ms lbl now s).2 /\
  surplus (register ty cb ms lbl now s).2 = surplus s.
Proof.
  intros Hok. unfold register. simpl.
  pose proof (generateId_fresh (default "anonymous" lbl) s Hok) as Hfresh.
  split.
  - intros i Hi. simpl in Hi. rewrite JsMap.keys_set_absent in Hi by done.
    apply elem_of_app in Hi as [Hi|Hi].
    + destruct (Hok i Hi) as (l & n & -> & Hlt). exists l, n. split; [done|].
      simpl. lia.
    + apply list_elem_of_singleton in Hi as ->.
      exists (default "anonymous" lbl), (nextId s). split; [done|]. simpl. lia.
  - unfold surplus. simpl. rewrite JsMap.size_set_absent by done. lia.
Qed.

Lemma timer_step_spec s ev :
  idsOk s ->
  idsOk (step s ev) /\
  surplus (step s ev) = surplus s + (if isIntervalTick s ev then 1 else 0).
Proof.
  intros Hok. destruct ev as [cb ms lbl now|cb ms lbl now|i|i| |pattern]; simpl.
  - rewrite Z.add_0_r. by apply register_spec.
  - rewrite Z.add_0_r. by apply register_spec.
  - unfold fire. destruct (JsMap.get i (activeTimers s)) as [entry|] eqn:Hget;
      [|split; [done|lia]].
    destruct (type entry) eqn:Hty; simpl.
    + split.
      * eapply idsOk_subseteq; [exact Hok| |done]. apply JsMap.keys_delete_subseteq.
      * unfold surplus. simpl.
        pose proof (JsMap.size_delete_present _ _ _ Hget). lia.
    + split; [done|]. unfold surplus. simpl. lia.
  - unfold clearManagedTimer.
    destruct (JsMap.get i (activeTimers s)) as [entry|] eqn:Hget;
      [|split; [done|simpl; lia]].
    simpl. split.
    + eapply idsOk_subseteq; [exact Hok| |done]. apply JsMap.keys_delete_subseteq.
    + unfold surplus. simpl.
      pose proof (JsMap.size_delete_present _ _ _ Hget). lia.
  - split.
    + intros i Hi. simpl in Hi. by apply elem_of_nil in Hi.
    + unfold surplus. simpl. lia.
  - unfold clearTimersByLabel.
    destruct (clearMatching_spec pattern (activeTimers s)) as [Hsize Hkeys].
    destruct (clearMatching pattern (activeTimers s)) as [n rest]. simpl in *.
    split.
    + eapply idsOk_subseteq; [exact Hok|done|done].
    + unfold surplus. simpl. lia.
Qed.

Lemma timer_run_spec evs : forall s,
  idsOk s ->
  idsOk (run evs s) /\ surplus (run evs s) = surplus s + intervalTicks evs s.
Proof.
  induction evs as [|ev evs IH]; intros s Hok; simpl.
  - split; [done|lia].
  - destruct (timer_step_spec s ev Hok) as [Hok1 Hs1].
    destruct (IH _ Hok1) as [Hok2 Hs2]. split; [done|]. lia.
Qed.

Lemma idsOk_initial : idsOk initialState.
Proof. intros i Hi. by apply elem_of_nil in Hi. Qed.

(** C4, as the code has it.  At every instant the number of active entries
    is [totalCreated - totalFired - totalCancelled] plus the number of
    interval ticks so far: the firing of a timeout removes its entry, a tick
    of an interval is counted in [totalFired] and leaves its entry
    registered.  The equation of the claim holds as long as no interval has
    ticked. *)
Theorem timer_stats_balance (evs : list Event) :
  let stats := getTimerStats (run evs initialState) in
  st_active stats
  = st_totalCreated stats - st_totalFired stats - st_totalCancelled stats
    + intervalTicks evs initialState /\
  (intervalTicks evs initialState = 0 ->
   st_active stats
   = st_totalCreated stats - st_totalFired stats - st_totalCancelled stats).
Proof.
  intros stats.
  destruct (timer_run_spec evs _ idsOk_initial) as [_ H].
  unfold surplus in H. subst stats. simpl in *.
  split; [lia|]. intros H0. lia.
Qed.

(** Two timeouts and an interval; one timeout fires, the other is cleared. *)
Definition noTickTrace : list Event :=
  [SetTimeout 1 100 (Some "t1") 0; SetTimeout 2 100 (Some "t2") 0;
   SetInterval 3 100 (Some "i1") 0; Fire "t1-1"; Clear "t2-2"].

Lemma timer_stats_balance_witness :
  let stats := getTimerStats (run noTickTrace initialState) in
  intervalTicks noTickTrace initialState = 0 /\
  st_active stats
  = st_totalCreated stats - st_totalFired stats - st_totalCancelled stats.
Proof.
  assert (H : intervalTicks noTickTrace initialState = 0) by (vm_compute; done).
  split; [exact H|].
  exact (proj2 (timer_stats_balance noTickTrace) H).
Defined.

(** An interval that ticked once. *)
Definition tickTrace : list Event :=
  [SetInterval 1 100 (Some "test-interval") 0; Fire "test-interval-1"].

(** C4 as stated fails: after one tick of an interval the registry has one
    active entry while [totalCreated - totalFired - totalCancelled] is 0. *)
Lemma timer_stats_after_interval_tick :
  let stats := getTimerStats (run tickTrace initialState) in
  st_active stats = 1 /\ st_intervals stats = 1 /\
  st_totalCreated stats = 1 /\ st_totalFired stats = 1 /\
  st_totalCancelled stats = 0 /\
  st_active stats
  <> st_totalCreated stats - st_totalFired stats - st_totalCancelled stats.
Proof. vm_compute. repeat split; discriminate. Qed.

(** The scenario of the module's test "tracks timer statistics". *)
Example timer_statistics_test :
  let s1 := run [SetTimeout 1 100 (Some "t1") 0; SetTimeout 2 100 (Some "t2") 0;
                 SetInterval 3 100 (Some "i1") 0] initialState in
  let s2 := run [Fire "t1-1"; Fire "t2-2"; Fire "i1-3"] s1 in
  (st_active (getTimerStats s1), st_timeouts (getTimerStats s1),
   st_intervals (getTimerStats s1)) = (3, 2, 1) /\
  st_active (getTimerStats s2) = 1 /\ st_totalFired (getTimerStats s2) = 3.
Proof. vm_compute. done. Qed.

(** *** No id is given out twice *)

(** The ids that an event hands to its caller. *)
Definition newIds (s : State) (ev : Event) : list string :=
  match ev with
  | SetTimeout cb ms lbl now => [(managedSetTimeout cb ms lbl now s).1]
  | SetInterval cb ms lbl now => [(managedSetInterval cb ms lbl now s).1]
  | _ => []
  end.

(** The ids that the calls of a trace started in [s] return, in the order
    of the calls. *)
Fixpoint createdIds (evs : list Event) (s : State) : list string :=
  match evs with
  | [] => []
  | ev :: evs' => newIds s ev ++ createdIds evs' (step s ev)
  end.

(** The labels of the timers a trace creates, defaults filled in. *)
Fixpoint createdLabels (evs : list Event) : list string :=
  match evs with
  | [] => []
  | SetTimeout _ _ lbl _ :: evs' | SetInterval _ _ lbl _ :: evs' =>
      default "anonymous" lbl :: createdLabels evs'
  | _ :: evs' => createdLabels evs'
  end.

Record TimerInfo := mkInfo {
  info_id : string;
  info_type : TimerType;
  info_label : string;
  info_createdAt : Z;
  info_delayMs : Z;
  info_ageMs : Z;
}.

(** [listActiveTimers()] at time [now] *)
Definition listActiveTimers (now : Z) (s : State) : list TimerInfo :=
  map (fun entry =>
         {| info_id := id entry; info_type := type entry;
            info_label := label entry; info_createdAt := createdAt entry;
            info_delayMs := delayMs entry;
            info_ageMs := now - createdAt entry |})
      (JsMap.values (activeTimers s)).

Definition counterBelow (n : nat) (i : string) : Prop :=
  exists l c, i = generateId l c /\ (c < n)%nat.

(** The registry against the list [hist] of the ids given out so far. *)
Definition registryOk (s : State) (hist : list string) : Prop :=
  NoDup hist /\
  JsMap.keys (activeTimers s) `sublist_of` hist /\
  (forall i, i ∈ hist -> counterBelow (nextId s) i) /\
  (forall i e, JsMap.get i (activeTimers s) = Some e -> id e = i).

Lemma keys_delete_sublist {V} k (m : list (string * V)) :
  JsMap.keys (JsMap.delete k m) `sublist_of` JsMap.keys m.
Proof.
  induction m as [|[k' v'] m IH]; simpl; [done|].
  destruct (String.eqb k k'); simpl.
  - by apply sublist_cons.
  - by apply sublist_skip.
Qed.

Lemma timer_get_delete_Some {V} k i (e : V) (m : list (string * V)) :
  JsMap.wf m -> JsMap.get i (JsMap.delete k m) = Some e ->
  i <> k /\ JsMap.get i m = Some e.
Proof.
  intros Hwf H. destruct (decide (i = k)) as [->|Hne].
  - by rewrite JsMap.get_delete_eq in H.
  - by rewrite JsMap.get_delete_ne in H.
Qed.

Lemma clearMatching_filter pattern m :
  (clearMatching pattern m).2
  = filter (fun kv => pattern (label kv.2) = false) m /\
  (clearMatching pattern m).1
  = Z.of_nat (length (filter (fun kv => pattern (label kv.2) = true) m)).
Proof.
  induction m as [|[i entry] m [IH1 IH2]]; simpl; [done|].
  destruct (clearMatching pattern m) as [n rest]. simpl in *. subst.
  rewrite !filter_cons. simpl.
  destruct (pattern (label entry)) eqn:Hp; simpl; [|done].
  split; [done|lia].
Qed.

Lemma keys_filter_sublist {V} (P : string * V -> Prop) `{!forall x, Decision (P x)}
    (m : list (string * V)) :
  JsMap.keys (filter P m) `sublist_of` JsMap.keys m.
Proof.
  induction m as [|kv m IH]; simpl; [done|].
  rewrite filter_cons. destruct (decide (P kv)); simpl.
  - by apply sublist_skip.
  - by apply sublist_cons.
Qed.

Lemma get_filter {V} (P : string * V -> Prop) `{!forall x, Decision (P x)}
    (m : list (string * V)) i e :
  JsMap.wf m ->
  JsMap.get i (filter P m) = Some e <-> JsMap.get i m = Some e /\ P (i, e).
Proof.
  unfold JsMap.wf. induction m as [|[k v] m IH]; simpl; intros Hnd.
  - split; [done|by intros [? _]].
  - apply NoDup_cons in Hnd as [Hk Hnd]. specialize (IH Hnd).
    rewrite filter_cons. destruct (String.eqb i k) eqn:E.
    + apply String.eqb_eq in E. subst k.
      destruct (decide (P (i, v))) as [HP|HP]; simpl.
      * rewrite String.eqb_refl. split; [by intros [= <-]|by intros [? _]].
      * split.
        -- intros Hg. apply IH in Hg as [Hg _]. apply JsMap.get_Some_keys in Hg. done.
        -- intros [[= <-] ?]. done.
    + destruct (decide (P (k, v))); simpl; [rewrite E|]; exact IH.
Qed.

Lemma registryOk_wf s hist : registryOk s hist -> JsMap.wf (activeTimers s).
Proof. intros (Hnd & Hsub & _). by apply (sublist_NoDup _ hist). Qed.

Lemma registryOk_shrink s s' hist :
  registryOk s hist ->
  JsMap.keys (activeTimers s') `sublist_of` JsMap.keys (activeTimers s) ->
  nextId s' = nextId s ->
  (forall i e, JsMap.get i (activeTimers s') = Some e ->
               JsMap.get i (activeTimers s) = Some e) ->
  registryOk s' hist.
Proof.
  intros (Hnd & Hsub & Hcnt & Hid) Hkeys Hnext Hget.
  split; [done|]. split; [by etrans|]. split.
  - intros i Hi. rewrite Hnext. by apply Hcnt.
  - intros i e H. by apply Hid, Hget.
Qed.

Lemma registryOk_register ty cb ms lbl now s hist :
  registryOk s hist ->
  registryOk (register ty cb ms lbl now s).2
             (hist ++ [(register ty cb ms lbl now s).1]).
Proof.
  intros (Hnd & Hsub & Hcnt & Hid). unfold register. simpl.
  set (i := generateId (default "anonymous" lbl) (nextId s)).
  assert (Hfresh : i ∉ hist).
  { intros Hin. destruct (Hcnt i Hin) as (l & c & Heq & Hlt).
    apply generateId_inj in Heq. lia. }
  assert (Hkey : i ∉ JsMap.keys (activeTimers s)).
  { intros Hin. by apply Hfresh, (sublist_subseteq _ _ Hsub). }
  split; [|split; [|split]].
  - apply NoDup_app. split; [done|]. split; [|apply NoDup_singleton].
    intros x Hx Hx'. apply list_elem_of_singleton in Hx'. by subst.
  - simpl. rewrite JsMap.keys_set_absent by done. by apply sublist_app.
  - simpl. intros x Hx. apply elem_of_app in Hx as [Hx|Hx].
    + destruct (Hcnt x Hx) as (l & c & -> & Hlt). exists l, c. split; [done|lia].
    + apply list_elem_of_singleton in Hx as ->.
      exists (default "anonymous" lbl), (nextId s). split; [done|lia].
  - simpl. intros x e. destruct (decide (i = x)) as [<-|Hne].
    + rewrite JsMap.get_set_eq. by intros [= <-].
    + rewrite JsMap.get_set_ne by done. apply Hid.
Qed.

Lemma registryOk_step s ev hist :
  registryOk s hist -> registryOk (step s ev) (hist ++ newIds s ev).
Proof.
  intros Hok. pose proof (registryOk_wf s hist Hok) as Hwf.
  destruct ev as [cb ms lbl now|cb ms lbl now|i|i| |pattern]; simpl;
    try rewrite app_nil_r.
  - by apply registryOk_register.
  - by apply registryOk_register.
  - unfold fire. destruct (JsMap.get i (activeTimers s)) as [entry|]; [|done].
    destruct (type entry); [|by apply (registryOk_shrink s)].
    apply (registryOk_shrink s); simpl; [done|apply keys_delete_sublist|done|].
    intros x e H. by apply timer_get_delete_Some in H as [_ H].
  - unfold clearManagedTimer.
    destruct (JsMap.get i (activeTimers s)) as [entry|]; [|done].
    apply (registryOk_shrink s); simpl; [done|apply keys_delete_sublist|done|].
    intros x e H. by apply timer_get_delete_Some in H as [_ H].
  - apply (registryOk_shrink s); simpl; [done|apply sublist_nil_l|done|done].
  - unfold clearTimersByLabel.
    destruct (clearMatching_filter pattern (activeTimers s)) as [Hrest _].
    destruct (clearMatching pattern (activeTimers s)) as [n rest]. simpl in *.
    subst rest.
    apply (registryOk_shrink s); simpl; [done|apply keys_filter_sublist|done|].
    intros x e H. by apply get_filter in H as [H _].
Qed.

Lemma registryOk_run evs : forall s hist,
  registryOk s hist -> registryOk (run evs s) (hist ++ createdIds evs s).
Proof.
  induction evs as [|ev evs IH]; intros s hist Hok; simpl.
  - by rewrite app_nil_r.
  - rewrite app_assoc. by apply IH, registryOk_step.
Qed.

Lemma registryOk_initial : registryOk initialState [].
Proof.
  split; [constructor|]. split; [done|]. split.
  - intros i Hi. by apply elem_of_nil in Hi.
  - intros i e H. done.
Qed.

(** The ids of a trace in closed form: the k-th timer created after [s]
    carries the counter [nextId s + k]. *)
Lemma createdIds_closed evs : forall s,
  createdIds evs s
  = zip_with generateId (createdLabels evs)
      (seq (nextId s) (length (createdLabels evs))) /\
  nextId (run evs s) = (nextId s + length (createdLabels evs))%nat /\
  totalCreated (run evs s) = totalCreated s + Z.of_nat (length (createdLabels evs)).
Proof.
  induction evs as [|ev evs IH]; intros s; simpl.
  - split; [done|]. split; lia.
  - destruct (IH (step s ev)) as (H1 & H2 & H3). rewrite H1, H2, H3.
    destruct ev as [cb ms lbl now|cb ms lbl now|i|i| |pattern]; simpl.
    + split; [done|]. split; lia.
    + split; [done|]. split; lia.
    + assert (nextId (fire i s) = nextId s /\ totalCreated (fire i s) = totalCreated s)
        as [-> ->].
      { unfold fire. destruct (JsMap.get i (activeTimers s)) as [entry|]; [|done].
        by destruct (type entry). }
      done.
    + assert (nextId (clearManagedTimer i s).2 = nextId s /\
              totalCreated (clearManagedTimer i s).2 = totalCreated s) as [-> ->].
      { unfold clearManagedTimer. by destruct (JsMap.get i (activeTimers s)). }
      done.
    + done.
    + assert (nextId (clearTimersByLabel pattern s).2 = nextId s /\
              totalCreated (clearTimersByLabel pattern s).2 = totalCreated s)
        as [-> ->].
      { unfold clearTimersByLabel.
        by destruct (clearMatching pattern (activeTimers s)). }
      done.
Qed.

Lemma keys_values_ids (m : list (string * TimerEntry)) :
  (forall i e, (i, e) ∈ m -> id e = i) ->
  map id (JsMap.values m) = JsMap.keys m.
Proof.
  induction m as [|[k v] m IH]; simpl; intros H; [done|].
  rewrite (H k v) by left. f_equal. apply IH. intros i e Hin. apply H. by right.
Qed.

Lemma wf_elem_of_get {V} (m : list (string * V)) i e :
  JsMap.wf m -> (i, e) ∈ m -> JsMap.get i m = Some e.
Proof.
  unfold JsMap.wf. induction m as [|[k v] m IH]; simpl; intros Hnd Hin.
  - by apply elem_of_nil in Hin.
  - apply NoDup_cons in Hnd as [Hk Hnd].
    apply elem_of_cons in Hin as [[= -> ->]|Hin].
    + by rewrite String.eqb_refl.
    + destruct (String.eqb i k) eqn:E; [|by apply IH].
      apply String.eqb_eq in E. subst k. exfalso. apply Hk.
      apply (JsMap.get_Some_keys _ e). by apply IH.
Qed.

(** Timer ids are never reused.  The k-th timer the module creates gets the
    id [label-k] (counting from 1, with the label "anonymous" when none is
    given), so the ids handed out over the life of the module are pairwise
    different, also those of timers that fired or were cleared long ago.
    The registered timers are a sub-sequence of the ids handed out: the map
    iterates, and [listActiveTimers] lists, in order of creation, and every
    entry is stored under its own id. *)
Theorem timer_ids_never_reused (evs : list Event) (now : Z) :
  let s := run evs initialState in
  let ids := createdIds evs initialState in
  ids = zip_with generateId (createdLabels evs) (seq 1 (length (createdLabels evs))) /\
  NoDup ids /\
  nextId s = S (length ids) /\
  JsMap.keys (activeTimers s) `sublist_of` ids /\
  (forall i e, JsMap.get i (activeTimers s) = Some e -> id e = i) /\
  map info_id (listActiveTimers now s) = JsMap.keys (activeTimers s).
Proof.
  intros s ids.
  pose proof (registryOk_run evs _ _ registryOk_initial) as Hok.
  simpl in Hok. fold s ids in Hok.
  pose proof (registryOk_wf _ _ Hok) as Hwf.
  destruct Hok as (Hnd & Hsub & Hcnt & Hid).
  destruct (createdIds_closed evs initialState) as (Hids & Hnext & _).
  fold s ids in Hids, Hnext. simpl in Hids, Hnext.
  split; [done|]. split; [done|]. split.
  { rewrite Hnext, Hids, length_zip_with, length_seq. lia. }
  split; [done|]. split; [done|].
  unfold listActiveTimers. rewrite map_map. simpl.
  apply keys_values_ids. intros i e Hin. by apply Hid, wf_elem_of_get.
Qed.

(** An id that is no longer registered stays dead.  Once a timer that the
    module created has fired (a timeout) or has been cleared, nothing that
    happens later registers its id again, and [clearManagedTimer] on it
    returns false and changes nothing. *)
Theorem cleared_timer_id_stays_dead (evs evs' : list Event) (i : string) :
  let s := run evs initialState in
  let s' := run evs' s in
  i ∈ createdIds evs initialState ->
  JsMap.get i (activeTimers s) = None ->
  JsMap.get i (activeTimers s') = None /\
  clearManagedTimer i s' = (false, s').
Proof.
  intros s s' Hin Hdead.
  pose proof (registryOk_run evs _ _ registryOk_initial) as Hok.
  simpl in Hok. fold s in Hok.
  pose proof (registryOk_run evs' _ _ Hok) as Hok'. fold s' in Hok'.
  assert (Hcur : registryOk s (JsMap.keys (activeTimers s))).
  { destruct Hok as (Hnd & Hsub & Hcnt & Hid).
    split; [by apply (sublist_NoDup _ (createdIds evs initialState))|].
    split; [done|]. split; [|done].
    intros x Hx. by apply Hcnt, (sublist_subseteq _ _ Hsub). }
  pose proof (registryOk_run evs' _ _ Hcur) as (_ & Hsub' & _). fold s' in Hsub'.
  destruct Hok' as (Hnd' & _).
  assert (Hnone : JsMap.get i (activeTimers s') = None).
  { apply JsMap.get_None_keys. intros Hkey.
    apply (sublist_subseteq _ _ Hsub') in Hkey.
    apply elem_of_app in Hkey as [Hkey|Hkey].
    - by apply JsMap.get_None_keys in Hdead.
    - apply NoDup_app in Hnd' as (_ & Hdisj & _). by apply (Hdisj i). }
  split; [done|]. unfold clearManagedTimer. by rewrite Hnone.
Qed.

(** A timeout that fired: its id is dead, also after a new timer with the
    same label. *)
Lemma cleared_timer_id_stays_dead_witness :
  let s := run noTickTrace initialState in
  let s' := run [SetTimeout 5 10 (Some "t1") 9] s in
  JsMap.get "t1-1" (activeTimers s') = None /\
  clearManagedTimer "t1-1" s' = (false, s').
Proof.
  apply (cleared_timer_id_stays_dead noTickTrace [SetTimeout 5 10 (Some "t1") 9] "t1-1").
  - vm_compute. left.
  - vm_compute. reflexivity.
Defined.

(** *** Clearing by label *)

Lemma filter_filter_same {A} (P : A -> Prop) `{!forall x, Decision (P x)} (l : list A) :
  filter P (filter P l) = filter P l.
Proof.
  induction l as [|x l IH]; [done|].
  rewrite filter_cons. destruct (decide (P x)) as [HP|HP]; [|done].
  by rewrite filter_cons_True, IH.
Qed.

Lemma filter_filter_none {A} (P Q : A -> Prop) `{!forall x, Decision (P x)}
    `{!forall x, Decision (Q x)} (l : list A) :
  (forall x, P x -> Q x -> False) -> filter Q (filter P l) = [].
Proof.
  intros Hno. induction l as [|x l IH]; [done|].
  rewrite filter_cons. destruct (decide (P x)) as [HP|HP]; [|done].
  rewrite filter_cons_False; [done|]. intros HQ. by apply (Hno x).
Qed.

Lemma filter_split_length {A} (p : A -> bool) (l : list A) :
  (length (filter (fun x => p x = false) l)
   + length (filter (fun x => p x = true) l) = length l)%nat.
Proof.
  induction l as [|x l IH]; [done|].
  rewrite !filter_cons. destruct (p x) eqn:Hp.
  - rewrite decide_False, decide_True by done. simpl. lia.
  - rewrite decide_True, decide_False by done. simpl. lia.
Qed.

(** [clearTimersByLabel] removes exactly the timers whose label matches.
    In every state the module reaches, the timers left are the registered
    ones whose label does not match, in their old order and with their
    entries; the number returned is the number of matching timers, and it
    is what [totalCancelled] grows and [active] shrinks by; a second call
    with the same pattern returns 0 and changes nothing; and with a pattern
    that matches every label the call is [clearAllTimers]. *)
Theorem clearTimersByLabel_removes_matching (evs : list Event)
    (pattern : string -> bool) :
  let s := run evs initialState in
  let r := clearTimersByLabel pattern s in
  activeTimers r.2 = filter (fun kv => pattern (label kv.2) = false) (activeTimers s) /\
  r.1 = Z.of_nat (length (filter (fun kv => pattern (label kv.2) = true)
                                 (activeTimers s))) /\
  (forall i e, JsMap.get i (activeTimers r.2) = Some e
               <-> JsMap.get i (activeTimers s) = Some e /\ pattern (label e) = false) /\
  totalCancelled r.2 = totalCancelled s + r.1 /\
  st_active (getTimerStats r.2) = st_active (getTimerStats s) - r.1 /\
  (nextId r.2, totalCreated r.2, totalFired r.2)
  = (nextId s, totalCreated s, totalFired s) /\
  clearTimersByLabel pattern r.2 = (0, r.2) /\
  clearTimersByLabel (fun _ => true) s = clearAllTimers s.
Proof.
  intros s r.
  pose proof (registryOk_run evs _ _ registryOk_initial) as Hok.
  simpl in Hok. fold s in Hok. apply registryOk_wf in Hok.
  assert (Hall : forall m : list (string * TimerEntry),
            clearMatching (fun _ => true) m = (Z.of_nat (length m), [])).
  { induction m as [|[i e] m IH]; [done|].
    simpl clearMatching. rewrite IH. f_equal. simpl length. lia. }
  destruct (clearMatching_filter pattern (activeTimers s)) as [Hrest Hn].
  pose proof (filter_split_length (fun kv : string * TimerEntry => pattern (label kv.2))
                (activeTimers s)) as Hlen.
  assert (Hagain : clearMatching pattern
                     (filter (fun kv => pattern (label kv.2) = false) (activeTimers s))
                   = (0, filter (fun kv => pattern (label kv.2) = false) (activeTimers s))).
  { destruct (clearMatching_filter pattern
                (filter (fun kv => pattern (label kv.2) = false) (activeTimers s)))
      as [H1 H2].
    rewrite filter_filter_same in H1.
    rewrite filter_filter_none in H2 by (intros x ? ?; congruence).
    match goal with |- ?x = _ => rewrite (surjective_pairing x) end.
    by rewrite H1, H2. }
  unfold r, clearTimersByLabel.
  destruct (clearMatching pattern (activeTimers s)) as [n rest]. simpl in *.
  subst n rest.
  split; [done|]. split; [done|]. split.
  { intros i e.
    by rewrite (get_filter (fun kv : string * TimerEntry => pattern (label kv.2) = false)). }
  split; [done|]. split; [unfold JsMap.size; lia|]. split; [done|]. split.
  - rewrite Hagain. by rewrite Z.add_0_r.
  - rewrite Hall. done.
Qed.

(** *** The counters *)

Lemma count_split {V} (f : V -> bool) (m : list (string * V)) :
  (JsMap.count f m + JsMap.count (fun v => negb (f v)) m = JsMap.size m)%nat.
Proof.
  unfold JsMap.size. induction m as [|[k v] m IH]; simpl; [done|].
  destruct (f v); simpl; lia.
Qed.

Lemma ticks_fired evs : forall s,
  0 <= intervalTicks evs s /\
  totalFired s + intervalTicks evs s <= totalFired (run evs s) /\
  totalCancelled s <= totalCancelled (run evs s).
Proof.
  induction evs as [|ev evs IH]; intros s; simpl; [lia|].
  destruct (IH (step s ev)) as (H0 & H1 & H2).
  assert (totalFired s + (if isIntervalTick s ev then 1 else 0) <= totalFired (step s ev)
          /\ totalCancelled s <= totalCancelled (step s ev)) as [H3 H4].
  { destruct ev as [cb ms lbl now|cb ms lbl now|i|i| |pattern]; simpl; try lia.
    - unfold fire. destruct (JsMap.get i (activeTimers s)) as [entry|]; [|simpl; lia].
      destruct (type entry); simpl; lia.
    - unfold clearManagedTimer.
      destruct (JsMap.get i (activeTimers s)); simpl; lia.
    - destruct (clearMatching_filter pattern (activeTimers s)) as [_ Hn].
      unfold clearTimersByLabel.
      destruct (clearMatching pattern (activeTimers s)) as [n rest]. simpl in *. lia. }
  destruct (isIntervalTick s ev); lia.
Qed.

(** The statistics add up.  In every state the module reaches,
    [timeouts + intervals = active]; [totalCreated] is the number of ids
    handed out; the interval ticks are part of [totalFired]; and the timers
    still registered together with the cancelled ones never outnumber the
    timers created. *)
Theorem timer_stats_counts (evs : list Event) :
  let stats := getTimerStats (run evs initialState) in
  st_timeouts stats + st_intervals stats = st_active stats /\
  st_totalCreated stats = Z.of_nat (length (createdIds evs initialState)) /\
  0 <= intervalTicks evs initialState <= st_totalFired stats /\
  0 <= st_totalCancelled stats /\
  st_active stats + st_totalCancelled stats <= st_totalCreated stats.
Proof.
  intros stats. subst stats. simpl.
  pose proof (count_split (fun e => bool_decide (type e = Timeout))
                (activeTimers (run evs initialState))) as Hsplit.
  destruct (createdIds_closed evs initialState) as (Hids & _ & Hcreated).
  destruct (ticks_fired evs initialState) as (H0 & H1 & H2).
  destruct (timer_run_spec evs _ idsOk_initial) as [_ Hs].
  unfold surplus in Hs. simpl in *.
  rewrite Hids, length_zip_with, length_seq.
  split; [lia|]. split; [lia|]. split; [lia|]. split; lia.
Qed.

End TimerManager.

(** ** src/agents/auth-preload.ts *)

Module AuthPreload.

Definition AUTH_CACHE_TTL_MS : Z := 5 * 60 * 1000.
Definition AUTH_CACHE_REFRESH_AHEAD_MS : Z := 60 * 1000.
Definition AUTH_CACHE_MAX_SIZE : Z := 50.

Section WithCollaborators.

(** Two collaborators that the module imports and that are not part of the
    sources at hand: the type of a resolved credential (model-auth.js) and
    the normalisation of provider ids (model-selection.js). *)
Variable ResolvedProviderAuth : Type.
Variable normalizeProviderId : string -> string.

Record CacheEntry := mkEntry {
  auth : ResolvedProviderAuth;
  provider : string;
  profileId : option string;
  resolvedAt : Z;
  expiresAt : Z;
}.

(** The module state.  [resolverCalls] logs the calls of
    [resolveApiKeyForProvider] with their provider and profile. *)
Record State := mkState {
  authCache : gmap string CacheEntry;
  cacheAccessOrder : list string;
  refreshInProgress : gset string;
  resolverCalls : list (string * option string);
}.

Definition initialState : State :=
  {| authCache := ∅; cacheAccessOrder := []; refreshInProgress := ∅;
     resolverCalls := [] |}.

(** [buildCacheKey]: an absent or empty profile id is falsy. *)
Definition buildCacheKey (prov : string) (prof : option string) : string :=
  let normalizedProvider := normalizeProviderId prov in
  match prof with
  | Some p => if String.eqb p "" then normalizedProvider
              else normalizedProvider +:+ ":" +:+ p
  | None => normalizedProvider
  end.

(** [evictOldest]: while the cache is full and the access order is not
    empty, shift the oldest key and delete it (an empty key is falsy and is
    only shifted). *)
Fixpoint evictLoop (order : list string) (cache : gmap string CacheEntry)
  : gmap string CacheEntry * list string :=
  match order with
  | [] => (cache, [])
  | oldest :: rest =>
      if AUTH_CACHE_MAX_SIZE <=? Z.of_nat (size cache) then
        evictLoop rest (if String.eqb oldest "" then cache else delete oldest cache)
      else (cache, order)
  end.

Definition evictOldest (s : State) : State :=
  let '(cache, order) := evictLoop (cacheAccessOrder s) (authCache s) in
  {| authCache := cache; cacheAccessOrder := order;
     refreshInProgress := refreshInProgress s; resolverCalls := resolverCalls s |}.

(** [indexOf] and [splice(idx, 1)]: drop the first occurrence. *)
Fixpoint removeFirst (key : string) (order : list string) : list string :=
  match order with
  | [] => []
  | k :: rest => if String.eqb k key then rest else k :: removeFirst key rest
  end.

Definition touchCacheEntry (key : string) (s : State) : State :=
  {| authCache := authCache s;
     cacheAccessOrder := removeFirst key (cacheAccessOrder s) ++ [key];
     refreshInProgress := refreshInProgress s; resolverCalls := resolverCalls s |}.

Definition setCacheEntry (key : string) (entry : CacheEntry) (s : State) : State :=
  let s1 := evictOldest s in
  touchCacheEntry key
    {| authCache := <[key := entry]> (authCache s1);
       cacheAccessOrder := cacheAccessOrder s1;
       refreshInProgress := refreshInProgress s1;
       resolverCalls := resolverCalls s1 |}.

Definition getCacheEntry (key : string) (s : State) : option CacheEntry * State :=
  match authCache s !! key with
  | Some entry => (Some entry, touchCacheEntry key s)
  | None => (None, s)
  end.

(** [scheduleBackgroundRefresh]: at most one refresh per key; the
    background [preloadAuth({force: true})] calls the resolver at once and
    stores the result later ([backgroundRefreshDone]). *)
Definition scheduleBackgroundRefresh (prov : string) (prof : option string)
    (s : State) : State :=
  let key := buildCacheKey prov prof in
  if bool_decide (key ∈ refreshInProgress s) then s
  else
    {| authCache := authCache s; cacheAccessOrder := cacheAccessOrder s;
       refreshInProgress := {[key]} ∪ refreshInProgress s;
       resolverCalls := resolverCalls s ++ [(prov, prof)] |}.

(** [getCachedAuth(provider, profileId)] at time [now] *)
Definition getCachedAuth (prov : string) (prof : option string) (now : Z)
    (s : State) : option ResolvedProviderAuth * State :=
  let key := buildCacheKey prov prof in
  match getCacheEntry key s with
  | (None, s1) => (None, s1)
  | (Some entry, s1) =>
      if expiresAt entry <=? now then
        (None,
         {| authCache := delete key (authCache s1);
            cacheAccessOrder := cacheAccessOrder s1;
            refreshInProgress := refreshInProgress s1;
            resolverCalls := resolverCalls s1 |})
      else if expiresAt entry - AUTH_CACHE_REFRESH_AHEAD_MS <=? now then
        (Some (auth entry), scheduleBackgroundRefresh prov prof s1)
      else (Some (auth entry), s1)
  end.

Record PreloadAuthParams := mkParams {
  pa_provider : string;
  pa_profileId : option string;
  pa_force : option bool;
}.

(** [preloadAuth] up to its [await]: either the cached credential is
    returned, or the resolver is called and the function waits for it. *)
Inductive Started :=
| CacheHit (a : ResolvedProviderAuth)
| Resolving.

Definition callResolver (params : PreloadAuthParams) (s : State) : State :=
  {| authCache := authCache s; cacheAccessOrder := cacheAccessOrder s;
     refreshInProgress := refreshInProgress s;
     resolverCalls := resolverCalls s ++ [(pa_provider params, pa_profileId params)] |}.

Definition preloadAuthStart (params : PreloadAuthParams) (now : Z) (s : State)
  : Started * State :=
  if default false (pa_force params) then (Resolving, callResolver params s)
  else
    match getCachedAuth (pa_provider params) (pa_profileId params) now s with
    | (Some cached, s1) => (CacheHit cached, s1)
    | (None, s1) => (Resolving, callResolver params s1)
    end.

(** [preloadAuth] after its [await]: the resolver returned [Some auth] at
    time [now], or threw ([None]); the result is the credential the promise
    resolves with, [None] when it rejects. *)
Definition preloadAuthFinish (params : PreloadAuthParams)
    (resolved : option ResolvedProviderAuth) (now : Z) (s : State)
  : option ResolvedProviderAuth * State :=
  match resolved with
  | None => (None, s)
  | Some a =>
      (Some a,
       setCacheEntry (buildCacheKey (pa_provider params) (pa_profileId params))
         {| auth := a; provider := pa_provider params;
            profileId := pa_profileId params; resolvedAt := now;
            expiresAt := now + AUTH_CACHE_TTL_MS |} s)
  end.

(** The end of a background refresh: store on success, and in any case
    [refreshInProgress.delete(key)]. *)
Definition backgroundRefreshDone (prov : string) (prof : option string)
    (resolved : option ResolvedProviderAuth) (now : Z) (s : State) : State :=
  let s1 := (preloadAuthFinish
               {| pa_provider := prov; pa_profileId := prof; pa_force := Some true |}
               resolved now s).2 in
  {| authCache := authCache s1; cacheAccessOrder := cacheAccessOrder s1;
     refreshInProgress := refreshInProgress s1 ∖ {[buildCacheKey prov prof]};
     resolverCalls := resolverCalls s1 |}.

(** [invalidateAuth] *)
Definition invalidateAuth (prov : string) (prof : option string) (s : State) : State :=
  {| authCache := delete (buildCacheKey prov prof) (authCache s);
     cacheAccessOrder := cacheAccessOrder s;
     refreshInProgress := refreshInProgress s; resolverCalls := resolverCalls s |}.

(** [clearAuthCache] *)
Definition clearAuthCache (s : State) : State :=
  {| authCache := ∅; cacheAccessOrder := []; refreshInProgress := ∅;
     resolverCalls := resolverCalls s |}.

Lemma setCacheEntry_lookup key entry s :
  authCache (setCacheEntry key entry s) !! key = Some entry.
Proof.
  unfold setCacheEntry, evictOldest.
  destruct (evictLoop (cacheAccessOrder s) (authCache s)) as [cache order].
  simpl. apply lookup_insert_eq.
Qed.

Lemma getCachedAuth_spec prov prof now s :
  match authCache s !! buildCacheKey prov prof with
  | Some entry =>
      if expiresAt entry <=? now then
        (getCachedAuth prov prof now s).1 = None /\
        authCache (getCachedAuth prov prof now s).2 !! buildCacheKey prov prof = None /\
        resolverCalls (getCachedAuth prov prof now s).2 = resolverCalls s
      else (getCachedAuth prov prof now s).1 = Some (auth entry)
  | None =>
      (getCachedAuth prov prof now s).1 = None /\
      resolverCalls (getCachedAuth prov prof now s).2 = resolverCalls s
  end.
Proof.
  unfold getCachedAuth, getCacheEntry.
  destruct (authCache s !! buildCacheKey prov prof) as [entry|] eqn:He; [|done].
  destruct (expiresAt entry <=? now) eqn:Hexp; simpl.
  - split; [done|]. split; [apply lookup_delete_eq|done].
  - destruct (expiresAt entry - AUTH_CACHE_REFRESH_AHEAD_MS <=? now); reflexivity.
Qed.

(** C8.  [preloadAuth] without [force], called at time [now]: a credential
    comes from the cache only when the key has an entry with
    [now < expiresAt], and then it is that entry's credential; when the
    entry is absent or [now >= expiresAt] the resolver is called, and when it
    returns a credential at time [resolvedTime] the entry stored under the
    key has [resolvedAt = resolvedTime] and
    [expiresAt = resolvedTime + AUTH_CACHE_TTL_MS], and that credential is
    returned. *)
Theorem preloadAuth_cached_while_fresh (params : PreloadAuthParams) (now : Z)
    (s : State) :
  default false (pa_force params) = false ->
  let key := buildCacheKey (pa_provider params) (pa_profileId params) in
  let started := preloadAuthStart params now s in
  (forall a, started.1 = CacheHit a ->
     exists entry, authCache s !! key = Some entry /\ auth entry = a /\
                   now < expiresAt entry) /\
  (forall entry, authCache s !! key = Some entry -> now < expiresAt entry ->
     started.1 = CacheHit (auth entry)) /\
  ((authCache s !! key = None \/
    exists entry, authCache s !! key = Some entry /\ expiresAt entry <= now) ->
   started.1 = Resolving /\
   resolverCalls started.2
   = resolverCalls s ++ [(pa_provider params, pa_profileId params)] /\
   forall (a : ResolvedProviderAuth) (resolvedTime : Z) (s' : State),
     (preloadAuthFinish params (Some a) resolvedTime s').1 = Some a /\
     authCache (preloadAuthFinish params (Some a) resolvedTime s').2 !! key
     = Some {| auth := a; provider := pa_provider params;
               profileId := pa_profileId params; resolvedAt := resolvedTime;
               expiresAt := resolvedTime + AUTH_CACHE_TTL_MS |}).
Proof.
  intros Hforce key started.
  pose proof (getCachedAuth_spec (pa_provider params) (pa_profileId params) now s)
    as Hspec.
  fold key in Hspec. unfold started, preloadAuthStart. rewrite Hforce.
  destruct (getCachedAuth (pa_provider params) (pa_profileId params) now s)
    as [cached s1]. simpl in Hspec.
  destruct (authCache s !! key) as [entry|] eqn:He.
  - destruct (expiresAt entry <=? now) eqn:Hexp.
    + apply Z.leb_le in Hexp. destruct Hspec as (-> & _ & Hcalls). simpl.
      split; [done|]. split; [intros e [= <-] Hlt; lia|].
      intros _. split; [done|]. split; [by rewrite Hcalls|].
      intros a resolvedTime s'. split; [done|]. apply setCacheEntry_lookup.
    + apply Z.leb_gt in Hexp. rewrite Hspec. simpl. split; [|split].
      * intros a [= <-]. by exists entry.
      * by intros e [= <-] _.
      * intros [|(e & [= <-] & Hle)]; [done|lia].
  - destruct Hspec as [-> Hcalls]. simpl.
    split; [done|]. split; [done|].
    intros _. split; [done|]. split; [by rewrite Hcalls|].
    intros a resolvedTime s'. split; [done|]. apply setCacheEntry_lookup.
Qed.

(** *** The cache as a whole *)

Record AuthCacheStats := mkCacheStats {
  stats_size : Z;
  stats_maxSize : Z;
  stats_refreshing : Z;
}.

(** [getAuthCacheStats()] *)
Definition getAuthCacheStats (s : State) : AuthCacheStats :=
  {| stats_size := Z.of_nat (size (authCache s));
     stats_maxSize := AUTH_CACHE_MAX_SIZE;
     stats_refreshing := Z.of_nat (size (refreshInProgress s)) |}.

(** What happens to the module: a call of [preloadAuth] up to its [await],
    the continuation of such a call when the resolver has answered, the end
    of a background refresh, and the two synchronous exports.  A trace may
    hold a continuation without its call; what holds for every trace holds
    for the traces the runtime produces. *)
Inductive Action :=
| PreloadStart (params : PreloadAuthParams) (now : Z)
| PreloadFinish (params : PreloadAuthParams)
    (resolved : option ResolvedProviderAuth) (now : Z)
| BackgroundRefreshDone (prov : string) (prof : option string)
    (resolved : option ResolvedProviderAuth) (now : Z)
| InvalidateAuth (prov : string) (prof : option string)
| ClearAuthCache.

Definition step (s : State) (a : Action) : State :=
  match a with
  | PreloadStart params now => (preloadAuthStart params now s).2
  | PreloadFinish params resolved now => (preloadAuthFinish params resolved now s).2
  | BackgroundRefreshDone prov prof resolved now =>
      backgroundRefreshDone prov prof resolved now s
  | InvalidateAuth prov prof => invalidateAuth prov prof s
  | ClearAuthCache => clearAuthCache s
  end.

Definition run (acts : list Action) (s : State) : State := foldl step s acts.

(** Calls of [getCachedAuth] for one provider and profile at the times
    [nows], one after the other: the results and the state they leave. *)
Fixpoint getCachedAuthAt (prov : string) (prof : option string) (nows : list Z)
    (s : State) : list (option ResolvedProviderAuth) * State :=
  match nows with
  | [] => ([], s)
  | now :: rest =>
      let '(r, s1) := getCachedAuth prov prof now s in
      let '(rs, s2) := getCachedAuthAt prov prof rest s1 in
      (r :: rs, s2)
  end.

(** The oldest key of the access order that has an entry the eviction can
    delete: the least recently used entry. *)
Fixpoint firstCached (order : list string) (cache : gmap string CacheEntry)
  : option string :=
  match order with
  | [] => None
  | k :: rest =>
      if negb (String.eqb k "") && bool_decide (is_Some (cache !! k)) then Some k
      else firstCached rest cache
  end.

(** Every cached key other than the empty one is in the access order, which
    holds no key twice, and the cache is within its limit. *)
Definition cacheOk (s : State) : Prop :=
  NoDup (cacheAccessOrder s) /\
  (forall k, is_Some (authCache s !! k) -> k = "" \/ k ∈ cacheAccessOrder s) /\
  Z.of_nat (size (authCache s)) <= AUTH_CACHE_MAX_SIZE.

Lemma removeFirst_sublist key order : removeFirst key order `sublist_of` order.
Proof.
  induction order as [|k order IH]; simpl; [done|].
  destruct (String.eqb k key); [by apply sublist_cons|by apply sublist_skip].
Qed.

Lemma removeFirst_elem_ne key k order :
  k <> key -> k ∈ order -> k ∈ removeFirst key order.
Proof.
  intros Hne. induction order as [|k' order IH]; simpl; [done|].
  intros Hin. destruct (String.eqb k' key) eqn:E.
  - apply String.eqb_eq in E. subst k'.
    apply elem_of_cons in Hin as [?|?]; [done|done].
  - apply elem_of_cons in Hin as [->|Hin]; [left|right; auto].
Qed.

Lemma removeFirst_NoDup key order :
  NoDup order -> key ∉ removeFirst key order.
Proof.
  induction order as [|k order IH]; simpl; intros Hnd; [apply not_elem_of_nil|].
  apply NoDup_cons in Hnd as [Hk Hnd].
  destruct (String.eqb k key) eqn:E.
  - apply String.eqb_eq in E. by subst k.
  - apply String.eqb_neq in E. intros Hin.
    apply elem_of_cons in Hin as [?|Hin]; [done|]. by apply IH.
Qed.

Lemma touched_order key order :
  NoDup order ->
  NoDup (removeFirst key order ++ [key]) /\
  (forall k, k = key \/ k ∈ order -> k ∈ removeFirst key order ++ [key]).
Proof.
  intros Hnd. split.
  - apply NoDup_app. split; [|split; [|apply NoDup_singleton]].
    + by apply (sublist_NoDup _ order), removeFirst_sublist.
    + intros x Hx Hx'. apply list_elem_of_singleton in Hx' as ->.
      by apply (removeFirst_NoDup key order).
  - intros k Hk. apply elem_of_app. destruct (decide (k = key)) as [->|Hne].
    + right. left.
    + left. destruct Hk as [?|Hk]; [done|]. by apply removeFirst_elem_ne.
Qed.

Lemma only_empty_key (cache : gmap string CacheEntry) :
  (forall k, is_Some (cache !! k) -> k = "") -> (size cache <= 1)%nat.
Proof.
  intros H. rewrite <- (size_dom (D := gset string)).
  rewrite <- (size_singleton (C := gset string) "").
  apply subseteq_size. intros k Hk. apply elem_of_dom in Hk.
  apply elem_of_singleton. by apply H.
Qed.

Lemma evictLoop_stop order (cache : gmap string CacheEntry) :
  Z.of_nat (size cache) < AUTH_CACHE_MAX_SIZE -> evictLoop order cache = (cache, order).
Proof.
  intros Hlt. destruct order as [|k rest]; simpl; [done|].
  destruct (AUTH_CACHE_MAX_SIZE <=? Z.of_nat (size cache)) eqn:E; [|done].
  apply Z.leb_le in E. lia.
Qed.

Lemma evictLoop_spec order : forall cache : gmap string CacheEntry,
  NoDup order ->
  (forall k, is_Some (cache !! k) -> k = "" \/ k ∈ order) ->
  NoDup (evictLoop order cache).2 /\
  (forall k, is_Some ((evictLoop order cache).1 !! k) ->
             k = "" \/ k ∈ (evictLoop order cache).2) /\
  Z.of_nat (size (evictLoop order cache).1) < AUTH_CACHE_MAX_SIZE /\
  (evictLoop order cache).1 ⊆ cache /\
  (evictLoop order cache).2 `suffix_of` order.
Proof.
  induction order as [|oldest rest IH]; intros cache Hnd Hkeys; simpl.
  - split; [done|]. split; [done|]. split; [|done].
    assert (size cache <= 1)%nat; [|unfold AUTH_CACHE_MAX_SIZE; lia].
    apply only_empty_key. intros k Hk. destruct (Hkeys k Hk) as [?|Hin]; [done|].
    by apply elem_of_nil in Hin.
  - apply NoDup_cons in Hnd as [Hold Hnd].
    destruct (AUTH_CACHE_MAX_SIZE <=? Z.of_nat (size cache)) eqn:E; simpl.
    + set (cache' := if String.eqb oldest "" then cache else delete oldest cache).
      assert (Hsub : cache' ⊆ cache).
      { unfold cache'. destruct (String.eqb oldest ""); [done|apply delete_subseteq]. }
      destruct (IH cache' Hnd) as (H1 & H2 & H3 & H4 & H5).
      { intros k Hk. unfold cache' in Hk.
        destruct (String.eqb oldest "") eqn:E0.
        - apply String.eqb_eq in E0. subst oldest.
          destruct (Hkeys k Hk) as [?|Hin]; [by left|].
          apply elem_of_cons in Hin as [?|?]; [by left|by right].
        - apply lookup_delete_is_Some in Hk as [Hne Hk].
          destruct (Hkeys k Hk) as [?|Hin]; [by left|].
          apply elem_of_cons in Hin as [?|?]; [done|by right]. }
      split; [done|]. split; [done|]. split; [done|].
      split; [by etrans|by apply suffix_cons_r].
    + apply Z.leb_gt in E. split; [by apply NoDup_cons|]. split; [done|].
      split; [done|]. split; done.
Qed.

Lemma evictLoop_full order : forall (cache : gmap string CacheEntry) victim,
  Z.of_nat (size cache) = AUTH_CACHE_MAX_SIZE ->
  firstCached order cache = Some victim ->
  (evictLoop order cache).1 = delete victim cache.
Proof.
  induction order as [|k rest IH]; intros cache victim Hsize Hfirst; simpl in *;
    [done|].
  rewrite Hsize, Z.leb_refl.
  destruct (String.eqb k "") eqn:E0; simpl in Hfirst.
  - by apply IH.
  - case_bool_decide as Hin; simpl in Hfirst.
    + injection Hfirst as <-. rewrite evictLoop_stop; [done|].
      rewrite map_size_delete_Some by done.
      unfold AUTH_CACHE_MAX_SIZE in *. lia.
    + assert (Hnone : cache !! k = None) by by apply eq_None_not_Some.
      rewrite delete_id by done. by apply IH.
Qed.

Lemma firstCached_None order (cache : gmap string CacheEntry) :
  firstCached order cache = None ->
  forall k, k ∈ order -> is_Some (cache !! k) -> k = "".
Proof.
  induction order as [|k' rest IH]; simpl; intros Hnone k Hin Hk.
  - by apply elem_of_nil in Hin.
  - destruct (String.eqb k' "") eqn:E0; simpl in Hnone.
    + apply String.eqb_eq in E0. subst k'.
      apply elem_of_cons in Hin as [?|Hin]; [done|by apply IH].
    + case_bool_decide as Hc; simpl in Hnone; [done|].
      apply elem_of_cons in Hin as [->|Hin]; [done|by apply IH].
Qed.

Lemma size_insert_le key entry (cache : gmap string CacheEntry) :
  (size (<[key := entry]> cache) <= S (size cache))%nat.
Proof.
  rewrite map_size_insert. destruct (cache !! key); simpl; lia.
Qed.

Lemma cacheOk_setCacheEntry key entry s :
  cacheOk s -> cacheOk (setCacheEntry key entry s).
Proof.
  intros (Hnd & Hkeys & Hsize). unfold setCacheEntry, evictOldest.
  destruct (evictLoop_spec (cacheAccessOrder s) (authCache s) Hnd Hkeys)
    as (H1 & H2 & H3 & _).
  destruct (evictLoop (cacheAccessOrder s) (authCache s)) as [cache order].
  simpl in *. destruct (touched_order key order H1) as [Hnd' Hin'].
  split; [done|]. split; simpl.
  - intros k Hk. apply lookup_insert_is_Some in Hk as [->|[Hne Hk]].
    + right. apply Hin'. by left.
    + destruct (H2 k Hk) as [?|?]; [by left|]. right. apply Hin'. by right.
  - pose proof (size_insert_le key entry cache). lia.
Qed.

Lemma cacheOk_touch key s : cacheOk s -> cacheOk (touchCacheEntry key s).
Proof.
  intros (Hnd & Hkeys & Hsize).
  destruct (touched_order key (cacheAccessOrder s) Hnd) as [Hnd' Hin'].
  split; [done|]. split; [|done]. simpl. intros k Hk.
  destruct (Hkeys k Hk) as [?|?]; [by left|]. right. apply Hin'. by right.
Qed.

Lemma cacheOk_delete key s s' :
  cacheOk s ->
  cacheAccessOrder s' = cacheAccessOrder s ->
  authCache s' = delete key (authCache s) ->
  cacheOk s'.
Proof.
  intros (Hnd & Hkeys & Hsize) Ho Hc. unfold cacheOk. rewrite Ho, Hc.
  split; [done|]. split.
  - intros k Hk. apply lookup_delete_is_Some in Hk as [_ Hk]. by apply Hkeys.
  - rewrite map_size_delete. destruct (authCache s !! key); simpl; lia.
Qed.

Lemma cacheOk_same s s' :
  cacheOk s ->
  cacheAccessOrder s' = cacheAccessOrder s -> authCache s' = authCache s ->
  cacheOk s'.
Proof. intros H Ho Hc. unfold cacheOk. by rewrite Ho, Hc. Qed.

Lemma cacheOk_getCachedAuth prov prof now s :
  cacheOk s -> cacheOk (getCachedAuth prov prof now s).2.
Proof.
  intros Hok. unfold getCachedAuth, getCacheEntry.
  destruct (authCache s !! buildCacheKey prov prof) as [entry|]; [|done].
  pose proof (cacheOk_touch (buildCacheKey prov prof) s Hok) as Hok1.
  destruct (expiresAt entry <=? now); simpl.
  - by eapply cacheOk_delete.
  - destruct (expiresAt entry - AUTH_CACHE_REFRESH_AHEAD_MS <=? now); simpl; [|done].
    unfold scheduleBackgroundRefresh. case_bool_decide; [done|].
    by eapply cacheOk_same.
Qed.

Lemma cacheOk_preloadAuthFinish params resolved now s :
  cacheOk s -> cacheOk (preloadAuthFinish params resolved now s).2.
Proof.
  intros Hok. destruct resolved as [a|]; simpl; [|done].
  by apply cacheOk_setCacheEntry.
Qed.

Lemma cacheOk_step s a : cacheOk s -> cacheOk (step s a).
Proof.
  intros Hok.
  destruct a as [params now|params resolved now|prov prof resolved now|prov prof|];
    simpl.
  - unfold preloadAuthStart. destruct (default false (pa_force params)); simpl.
    + by eapply cacheOk_same.
    + pose proof (cacheOk_getCachedAuth (pa_provider params) (pa_profileId params)
                    now s Hok) as H.
      destruct (getCachedAuth (pa_provider params) (pa_profileId params) now s)
        as [[cached|] s1]; simpl in *; [done|].
      by eapply cacheOk_same.
  - by apply cacheOk_preloadAuthFinish.
  - unfold backgroundRefreshDone. eapply cacheOk_same; [|done|done].
    by apply cacheOk_preloadAuthFinish.
  - by eapply cacheOk_delete.
  - split; [constructor|]. split; simpl.
    + intros k [x Hk]. by rewrite lookup_empty in Hk.
    + rewrite map_size_empty. unfold AUTH_CACHE_MAX_SIZE. lia.
Qed.

Lemma cacheOk_run acts : forall s, cacheOk s -> cacheOk (run acts s).
Proof.
  induction acts as [|a acts IH]; intros s Hok; [done|].
  simpl. by apply IH, cacheOk_step.
Qed.

Lemma cacheOk_initial : cacheOk initialState.
Proof.
  split; [constructor|]. split; simpl.
  - intros k [x Hk]. by rewrite lookup_empty in Hk.
  - rewrite map_size_empty. unfold AUTH_CACHE_MAX_SIZE. lia.
Qed.

(** The cache never outgrows its limit.  In every state the module reaches
    the cache holds at most [AUTH_CACHE_MAX_SIZE] = 50 entries, so
    [getAuthCacheStats().size <= maxSize]; the access order names no key
    twice; and every cached key other than the empty string is in the
    access order, so the eviction can reach it. *)
Theorem auth_cache_never_exceeds_max (acts : list Action) :
  let s := run acts initialState in
  stats_size (getAuthCacheStats s) <= stats_maxSize (getAuthCacheStats s) /\
  stats_maxSize (getAuthCacheStats s) = 50 /\
  NoDup (cacheAccessOrder s) /\
  (forall k, is_Some (authCache s !! k) -> k = "" \/ k ∈ cacheAccessOrder s).
Proof.
  intros s. destruct (cacheOk_run acts _ cacheOk_initial) as (Hnd & Hkeys & Hsize).
  fold s in Hnd, Hkeys, Hsize. done.
Qed.

(** Eviction takes the least recently used entry, and only when the cache
    is full.  In every state the module reaches, [setCacheEntry(key, entry)]
    on a cache with fewer than 50 entries only stores the entry; on a cache
    with 50 entries it first deletes one entry, the oldest key of the access
    order that is cached, and nothing else (also when [key] is cached
    already and no room is needed); afterwards [key] is the most recently
    used key. *)
Theorem setCacheEntry_evicts_least_recently_used (acts : list Action)
    (key : string) (entry : CacheEntry) :
  let s := run acts initialState in
  let s' := setCacheEntry key entry s in
  (Z.of_nat (size (authCache s)) < AUTH_CACHE_MAX_SIZE ->
   authCache s' = <[key := entry]> (authCache s) /\
   cacheAccessOrder s' = removeFirst key (cacheAccessOrder s) ++ [key]) /\
  (Z.of_nat (size (authCache s)) = AUTH_CACHE_MAX_SIZE ->
   exists victim,
     firstCached (cacheAccessOrder s) (authCache s) = Some victim /\
     is_Some (authCache s !! victim) /\
     authCache s' = <[key := entry]> (delete victim (authCache s))) /\
  last (cacheAccessOrder s') = Some key /\
  authCache s' !! key = Some entry.
Proof.
  intros s s'. destruct (cacheOk_run acts _ cacheOk_initial) as (Hnd & Hkeys & Hsize).
  fold s in Hnd, Hkeys, Hsize.
  split; [|split; [|split]].
  - intros Hlt. unfold s', setCacheEntry, evictOldest.
    by rewrite evictLoop_stop.
  - intros Hfull.
    destruct (firstCached (cacheAccessOrder s) (authCache s)) as [victim|] eqn:Hfirst.
    + exists victim. split; [done|]. split.
      * clear -Hfirst. induction (cacheAccessOrder s) as [|k rest IH];
          simpl in Hfirst; [done|].
        destruct (String.eqb k ""); simpl in Hfirst; [by apply IH|].
        case_bool_decide; simpl in Hfirst; [by injection Hfirst as <-|by apply IH].
      * pose proof (evictLoop_full _ _ _ Hfull Hfirst) as Hev.
        unfold s', setCacheEntry, evictOldest.
        destruct (evictLoop (cacheAccessOrder s) (authCache s)) as [cache order].
        simpl in *. by subst cache.
    + exfalso. pose proof (firstCached_None _ _ Hfirst) as Hnone.
      assert (size (authCache s) <= 1)%nat; [|unfold AUTH_CACHE_MAX_SIZE in *; lia].
      apply only_empty_key. intros k Hk.
      destruct (Hkeys k Hk) as [?|Hin]; [done|]. by apply Hnone.
  - unfold s', setCacheEntry, evictOldest.
    destruct (evictLoop (cacheAccessOrder s) (authCache s)) as [cache order].
    simpl. apply last_snoc.
  - apply setCacheEntry_lookup.
Qed.


Lemma getCachedAuth_in_window prov prof now s e :
  authCache s !! buildCacheKey prov prof = Some e ->
  expiresAt e - AUTH_CACHE_REFRESH_AHEAD_MS <= now < expiresAt e ->
  (getCachedAuth prov prof now s).1 = Some (auth e) /\
  authCache (getCachedAuth prov prof now s).2 = authCache s /\
  resolverCalls (getCachedAuth prov prof now s).2
  = resolverCalls s ++ (if bool_decide (buildCacheKey prov prof ∈ refreshInProgress s)
                        then [] else [(prov, prof)]) /\
  buildCacheKey prov prof ∈ refreshInProgress (getCachedAuth prov prof now s).2.
Proof.
  intros He [Hlo Hhi]. unfold getCachedAuth, getCacheEntry. rewrite He.
  destruct (expiresAt e <=? now) eqn:E1; [apply Z.leb_le in E1; lia|].
  destruct (expiresAt e - AUTH_CACHE_REFRESH_AHEAD_MS <=? now) eqn:E2;
    [|apply Z.leb_gt in E2; lia].
  unfold scheduleBackgroundRefresh. simpl.
  case_bool_decide as Hin; simpl.
  - by rewrite app_nil_r.
  - split; [done|]. split; [done|]. split; [done|]. set_solver.
Qed.

(** One background refresh at a time.  While the entry of a key is within
    [AUTH_CACHE_REFRESH_AHEAD_MS] of its expiry, any number of cache reads
    returns the cached credential and together they start one background
    resolution, none when one is in progress already; the end of the
    refresh, successful or not, frees the key for the next one, and a
    successful one stores the new credential with a new expiry. *)
Theorem background_refresh_is_single_flight (prov : string) (prof : option string)
    (nows : list Z) (s : State) (e : CacheEntry) :
  let key := buildCacheKey prov prof in
  let r := getCachedAuthAt prov prof nows s in
  authCache s !! key = Some e ->
  Forall (fun now => expiresAt e - AUTH_CACHE_REFRESH_AHEAD_MS <= now < expiresAt e)
         nows ->
  nows <> [] ->
  r.1 = replicate (length nows) (Some (auth e)) /\
  authCache r.2 = authCache s /\
  resolverCalls r.2
  = resolverCalls s ++ (if bool_decide (key ∈ refreshInProgress s) then []
                        else [(prov, prof)]) /\
  key ∈ refreshInProgress r.2 /\
  (forall t,
     let failed := backgroundRefreshDone prov prof None t r.2 in
     (key ∉ refreshInProgress failed) /\ authCache failed = authCache s) /\
  (forall a t,
     let done := backgroundRefreshDone prov prof (Some a) t r.2 in
     (key ∉ refreshInProgress done) /\
     authCache done !! key
     = Some {| auth := a; provider := prov; profileId := prof; resolvedAt := t;
               expiresAt := t + AUTH_CACHE_TTL_MS |}).
Proof.
  intros key r He Hwin Hne.
  assert (Hmain : forall nows s,
            authCache s !! key = Some e ->
            Forall (fun now => expiresAt e - AUTH_CACHE_REFRESH_AHEAD_MS <= now
                               < expiresAt e) nows ->
            (getCachedAuthAt prov prof nows s).1
            = replicate (length nows) (Some (auth e)) /\
            authCache (getCachedAuthAt prov prof nows s).2 = authCache s /\
            resolverCalls (getCachedAuthAt prov prof nows s).2
            = resolverCalls s
              ++ (if bool_decide (key ∈ refreshInProgress s) then []
                  else match nows with [] => [] | _ => [(prov, prof)] end) /\
            (key ∈ refreshInProgress s \/ nows <> [] ->
             key ∈ refreshInProgress (getCachedAuthAt prov prof nows s).2)).
  { clear. intros nows. induction nows as [|now rest IH]; intros s He Hwin; simpl.
    - split; [done|]. split; [done|]. split; [|by intros [?|?]].
      by case_bool_decide; rewrite app_nil_r.
    - apply Forall_cons in Hwin as [Hnow Hwin].
      destruct (getCachedAuth_in_window prov prof now s e He Hnow)
        as (R1 & R2 & R3 & R4).
      destruct (getCachedAuth prov prof now s) as [r1 s1]. simpl in *.
      assert (He1 : authCache s1 !! key = Some e) by by rewrite R2.
      destruct (IH s1 He1 Hwin) as (Q1 & Q2 & Q3 & Q4).
      destruct (getCachedAuthAt prov prof rest s1) as [rs s2]. simpl in *.
      split; [by rewrite R1, Q1|]. split; [by rewrite Q2|]. split.
      + rewrite Q3, R3. fold key. rewrite (bool_decide_eq_true_2 _ R4).
        by rewrite app_nil_r.
      + intros _. apply Q4. by left. }
  destruct (Hmain nows s He Hwin) as (Q1 & Q2 & Q3 & Q4).
  fold r in Q1, Q2, Q3, Q4.
  split; [done|]. split; [done|]. split.
  { rewrite Q3. by destruct nows. }
  split; [apply Q4; by right|]. split.
  - intros t. simpl. split; [|done].
    intros Hd. apply elem_of_difference in Hd as [_ Hd].
    by apply Hd, elem_of_singleton.
  - intros a t. unfold backgroundRefreshDone. simpl. split.
    + intros Hd. apply elem_of_difference in Hd as [_ Hd].
      by apply Hd, elem_of_singleton.
    + apply setCacheEntry_lookup.
Qed.

End WithCollaborators.

Arguments mkEntry {_} _ _ _ _ _.
Arguments mkState {_} _ _ _ _.
Arguments initialState {_}.
Arguments CacheHit {_} _.
Arguments Resolving {_}.

(** A cache that holds a credential for "anthropic" resolved at time 1000;
    credentials are strings here and provider ids are left as they are. *)
Definition warmState : State string :=
  {| authCache :=
       {[ "anthropic" := {| auth := "sk-cached"; provider := "anthropic";
                            profileId := None; resolvedAt := 1000;
                            expiresAt := 1000 + AUTH_CACHE_TTL_MS |} ]};
     cacheAccessOrder := ["anthropic"]; refreshInProgress := ∅;
     resolverCalls := [] |}.

Definition anthropicParams : PreloadAuthParams :=
  {| pa_provider := "anthropic"; pa_profileId := None; pa_force := None |}.

Lemma preloadAuth_cached_while_fresh_witness :
  (preloadAuthStart string id anthropicParams 5000 warmState).1
  = CacheHit "sk-cached".
Proof.
  refine (proj1 (proj2 (preloadAuth_cached_while_fresh string id anthropicParams
                          5000 warmState _))
            {| auth := "sk-cached"; provider := "anthropic"; profileId := None;
               resolvedAt := 1000; expiresAt := 1000 + AUTH_CACHE_TTL_MS |} _ _).
  - reflexivity.
  - reflexivity.
  - vm_compute. reflexivity.
Defined.

(** The same cache asked after the entry expired: the resolver is called,
    and its answer at time 400000 is stored with the new expiry. *)
Example preloadAuth_after_expiry :
  let started := preloadAuthStart string id anthropicParams 301000 warmState in
  let finished := preloadAuthFinish string id anthropicParams (Some "sk-fresh")
                    400000 started.2 in
  started.1 = Resolving /\
  resolverCalls string started.2 = [("anthropic", None)] /\
  finished.1 = Some "sk-fresh" /\
  authCache string finished.2 !! "anthropic"
  = Some {| auth := "sk-fresh"; provider := "anthropic"; profileId := None;
            resolvedAt := 400000; expiresAt := 700000 |}.
Proof. vm_compute. done. Qed.

(** Three reads of the warm cache in the last minute before its entry
    expires at 301000: one background resolution. *)
Lemma background_refresh_is_single_flight_witness :
  let r := getCachedAuthAt string id "anthropic" None [250000; 260000; 300999]
             warmState in
  r.1 = replicate 3 (Some "sk-cached") /\
  resolverCalls string r.2 = [("anthropic", None)].
Proof.
  destruct (background_refresh_is_single_flight string id "anthropic" None
              [250000; 260000; 300999] warmState
              {| auth := "sk-cached"; provider := "anthropic"; profileId := None;
                 resolvedAt := 1000; expiresAt := 1000 + AUTH_CACHE_TTL_MS |})
    as (H1 & _ & H3 & _).
  - vm_compute. reflexivity.
  - repeat constructor; vm_compute; discriminate.
  - discriminate.
  - split; [exact H1|exact H3].
Defined.

(** Fifty providers resolved one after the other fill the cache. *)
Definition fiftyProviders : list (Action string) :=
  map (fun n : nat =>
         PreloadFinish string
           {| pa_provider := "p" +:+ pretty n; pa_profileId := None;
              pa_force := None |}
           (Some "sk") (Z.of_nat n))
      (seq 0 50).

(** The fifty-first credential evicts the provider resolved first. *)
Example eviction_at_capacity :
  let s := run string id fiftyProviders initialState in
  let s' := setCacheEntry string "p50"
              {| auth := "sk"; provider := "p50"; profileId := None;
                 resolvedAt := 50; expiresAt := 50 + AUTH_CACHE_TTL_MS |} s in
  size (authCache string s) = 50%nat /\
  firstCached string (cacheAccessOrder string s) (authCache string s) = Some "p0" /\
  authCache string s' !! "p0" = None /\
  size (authCache string s') = 50%nat /\
  head (cacheAccessOrder string s') = Some "p1".
Proof. vm_compute. done. Qed.

End AuthPreload.
